(** * FP-growth frequent-itemset mining (fpGrowth.py): a shallow embedding

    The Python program keeps its prefix tree as a graph of mutable
    [FPNode] objects linked by parent, child and neighbor references.  The
    embedding keeps that shape: nodes live in a store (an arena indexed by
    allocation order), references are indices into it, and every method is
    a computation in a small state-and-exception monad over the store. *)

From Stdlib Require Import ZArith Lia.
From stdpp Require Import base option list strings sorting.

(** ** Python values used by the program *)

(** An item is any hashable Python value; [None] is one of them, and the
    program tests for it ([self._item is None]).  Items are therefore
    [option Label], the constructor [None] standing for Python's [None]. *)
Definition Item (Label : Type) : Type := option Label.

(** A [dict], in insertion order (the order [keys()] iterates in). *)
Section Dict.
Context {K V : Type} `{EqDecision K}.

Definition dict : Type := list (K * V).

Fixpoint dict_get (k : K) (d : dict) : option V :=
    match d with
    | [] => None
    | (k', v) :: d' => if decide (k = k') then Some v else dict_get k d'
    end.

(** [d[k] = v]: an existing key keeps its position, a new one goes last. *)
Fixpoint dict_set (k : K) (v : V) (d : dict) : dict :=
    match d with
    | [] => [(k, v)]
    | (k', v') :: d' =>
        if decide (k = k') then (k', v) :: d' else (k', v') :: dict_set k v d'
    end.

Definition dict_keys (d : dict) : list K := map fst d.

Definition dict_mem (k : K) (d : dict) : bool :=
    match dict_get k d with Some _ => true | None => false end.
End Dict.
Arguments dict : clear implicits.

(** ** The store *)

(** [FPNode.__init__] fields.  [_tree] is the identity of the owning
    [FPTree] object; [_count] is [None] only where Python has [None]. *)
Record FPNode {Label : Type} := mkFPNode {
  _tree : nat;
  _item : Item Label;
  _count : option Z;
  _parent : option nat;
  _children : dict (Item Label) nat;
  _neighbor : option nat
}.
Arguments FPNode : clear implicits.
Arguments mkFPNode {Label}.

(** [heap] holds every node ever created, a reference being the position
    at which the node was allocated; [next_tree] supplies the identity of
    the next [FPTree] object. *)
Record Store {Label : Type} := mkStore {
  heap : list (FPNode Label);
  next_tree : nat
}.
Arguments Store : clear implicits.
Arguments mkStore {Label}.

(** The exceptions the program can raise.  [BadRef] is a reference to a
    node that was never allocated (no Python program can build one), and
    [OutOfFuel] stands for a loop that does not terminate. *)
Inductive Exn := TypeError | ValueError | KeyError | IndexError
               | AssertionError | BadRef | OutOfFuel.

Inductive Result {Label : Type} (A : Type) :=
| Ok (a : A) (s : Store Label)
| Raise (e : Exn) (s : Store Label).
Arguments Ok {Label A}.
Arguments Raise {Label A}.

Definition M (Label : Type) (A : Type) : Type := Store Label -> Result (Label:=Label) A.

Section Monad.
Context {Label : Type}.

Definition ret {A} (a : A) : M Label A := fun s => Ok a s.

Definition bind {A B} (m : M Label A) (f : A -> M Label B) : M Label B :=
    fun s => match m s with
             | Ok a s' => f a s'
             | Raise e s' => Raise e s'
             end.

Definition raise {A} (e : Exn) : M Label A := fun s => Raise e s.

Definition get_store : M Label (Store Label) := fun s => Ok s s.

Definition get_node (n : nat) : M Label (FPNode Label) :=
    fun s => match heap s !! n with
             | Some nd => Ok nd s
             | None => Raise BadRef s
             end.

Definition set_node (n : nat) (nd : FPNode Label) : M Label unit :=
    fun s => Ok tt (mkStore (<[n := nd]> (heap s)) (next_tree s)).

Definition alloc_node (nd : FPNode Label) : M Label nat :=
    fun s => Ok (length (heap s)) (mkStore (heap s ++ [nd]) (next_tree s)).

Definition fresh_tree : M Label nat :=
    fun s => Ok (next_tree s) (mkStore (heap s) (S (next_tree s))).
End Monad.

Declare Scope py_scope.
Delimit Scope py_scope with py.
Notation "x <- m ;; k" := (bind m (fun x => k))
  (at level 100, m at next level, right associativity) : py_scope.
Notation "m ;;; k" := (bind m (fun _ => k))
  (at level 100, right associativity) : py_scope.
Open Scope py_scope.

(** A [for] loop run for its effect. *)
Fixpoint for_each {Label A} (l : list A) (body : A -> M Label unit)
  : M Label unit :=
  match l with
  | [] => ret tt
  | x :: l' => body x ;;; for_each l' body
  end.

(** A list comprehension over a computation. *)
Fixpoint map_m {Label A B} (f : A -> M Label B) (l : list A)
  : M Label (list B) :=
  match l with
  | [] => ret []
  | x :: l' => y <- f x ;; ys <- map_m f l' ;; ret (y :: ys)
  end.

(** ** Generators *)

(** A generator function run until it returns or raises: the values it
    has yielded, in order, and the way it ended.  What was yielded before
    an exception has reached the consumer, and stays. *)
Definition Gen (Label B A : Type) : Type :=
  Store Label -> list B * Result (Label:=Label) A.

Section Generators.
Context {Label B : Type}.

Definition gen_ret {A} (a : A) : Gen Label B A := fun s => ([], Ok a s).

Definition gen_bind {A C} (g : Gen Label B A) (k : A -> Gen Label B C)
  : Gen Label B C :=
  fun s => match g s with
           | (ys, Ok a s') => let '(zs, r) := k a s' in (ys ++ zs, r)
           | (ys, Raise e s') => (ys, Raise e s')
           end.

(** [yield b] *)
Definition yield (b : B) : Gen Label B unit := fun s => ([b], Ok tt s).

(** A call that yields nothing itself. *)
Definition call {A} (m : M Label A) : Gen Label B A := fun s => ([], m s).
End Generators.

Notation "x <~ g ;; k" := (gen_bind g (fun x => k))
  (at level 100, g at next level, right associativity) : py_scope.
Notation "g ~;; k" := (gen_bind g (fun _ => k))
  (at level 100, right associativity) : py_scope.

(** A [for] loop whose body yields. *)
Fixpoint for_yield {Label A B} (l : list A) (body : A -> Gen Label B unit)
  : Gen Label B unit :=
  match l with
  | [] => gen_ret tt
  | x :: l' => body x ~;; for_yield l' body
  end.

(** ** class FPNode *)
Module FPNode.
Section Methods.
Context {Label : Type} `{EqDecision Label}.
Local Abbreviation Item := (Item Label).
Local Abbreviation M := (M Label).

(** [FPNode(tree, item, count)]; Python's default for [count] is 1. *)
Definition new (tree : nat) (item : Item) (count : option Z) : M nat :=
    alloc_node (mkFPNode tree item count None [] None).

Definition tree (self : nat) : M nat := nd <- get_node self ;; ret (_tree nd).
Definition item (self : nat) : M Item := nd <- get_node self ;; ret (_item nd).
Definition count (self : nat) : M (option Z) :=
    nd <- get_node self ;; ret (_count nd).
Definition parent (self : nat) : M (option nat) :=
    nd <- get_node self ;; ret (_parent nd).
Definition neighbor (self : nat) : M (option nat) :=
    nd <- get_node self ;; ret (_neighbor nd).

(** Assignment to one field of a node. *)
Definition with_count (nd : FPNode Label) (c : option Z) : FPNode Label :=
  mkFPNode (_tree nd) (_item nd) c (_parent nd) (_children nd) (_neighbor nd).
Definition with_parent (nd : FPNode Label) (p : option nat) : FPNode Label :=
  mkFPNode (_tree nd) (_item nd) (_count nd) p (_children nd) (_neighbor nd).
Definition with_children (nd : FPNode Label) (ch : dict Item nat)
  : FPNode Label :=
  mkFPNode (_tree nd) (_item nd) (_count nd) (_parent nd) ch (_neighbor nd).
Definition with_neighbor (nd : FPNode Label) (n : option nat) : FPNode Label :=
  mkFPNode (_tree nd) (_item nd) (_count nd) (_parent nd) (_children nd) n.

(** [value.tree is not self.tree], guarded by [if value and ...]: an
    [FPNode] is always truthy, so the guard tests [value is not None]. *)
Definition check_same_tree (self : nat) (value : option nat) : M unit :=
  match value with
  | Some v =>
      vt <- tree v ;; st <- tree self ;;
      if decide (vt = st) then ret tt else raise ValueError
  | None => ret tt
  end.

(** The [parent] setter.  Its [isinstance] test cannot fail here: a
    reference is to an [FPNode] by its type. *)
Definition set_parent (self : nat) (value : option nat) : M unit :=
  check_same_tree self value ;;;
  nd <- get_node self ;;
  set_node self (with_parent nd value).

(** The [neighbor] setter. *)
Definition set_neighbor (self : nat) (value : option nat) : M unit :=
  check_same_tree self value ;;;
  nd <- get_node self ;;
  set_node self (with_neighbor nd value).

(** [self._count += count] and [self._count += 1]: adding to [None], or
    adding [None], is a [TypeError]. *)
Definition add_count (self : nat) (count : option Z) : M unit :=
  nd <- get_node self ;;
  match _count nd, count with
  | Some c, Some d => set_node self (with_count nd (Some (c + d)%Z))
  | _, _ => raise TypeError
  end.

(** [add].  Its [isinstance] test cannot fail, as above. *)
Definition add (self child : nat) : M unit :=
  child_item <- item child ;;
  nd <- get_node self ;;
  if dict_mem child_item (_children nd) then ret tt
  else
    set_node self
      (with_children nd (dict_set child_item child (_children nd))) ;;;
    set_parent child (Some self).

Definition search (self : nat) (item : Item) : M (option nat) :=
    nd <- get_node self ;; ret (dict_get item (_children nd)).

Definition increment (self : nat) : M unit :=
    c <- count self ;;
    match c with
    | None => raise ValueError
    | Some _ => add_count self (Some 1%Z)
    end.

Definition is_root (nd : FPNode Label) : bool :=
    match _item nd, _count nd with
    | None, None => true
    | _, _ => false
    end.

Definition root (self : nat) : M bool := nd <- get_node self ;; ret (is_root nd).

Definition leaf (self : nat) : M bool :=
    nd <- get_node self ;; ret (Nat.eqb (length (_children nd)) 0).
End Methods.
End FPNode.

(** ** class FPTree *)

(** An [FPTree] object: its identity, its root node and its [_routes]
    dictionary, each route being the pair [(head, tail)].  The object is
    passed and returned by value: only [add] and [_update_route] assign to
    [_routes], and no second reference to a tree under construction
    exists (nodes keep the tree's identity, which they only compare). *)
Record FPTree {Label : Type} := mkFPTree {
  tree_id : nat;
  _root : nat;
  _routes : dict (Item Label) (nat * nat)
}.
Arguments FPTree : clear implicits.
Arguments mkFPTree {Label}.

Module FPTree.
Section Methods.
Context {Label : Type} `{EqDecision Label}.
Local Abbreviation Item := (Item Label).
Local Abbreviation M := (M Label).

(** [FPTree()] *)
Definition new : M (FPTree Label) :=
  t <- fresh_tree ;;
  r <- FPNode.new t None None ;;
  ret (mkFPTree t r []).

Definition _update_route (self : FPTree Label) (point : nat)
  : M (FPTree Label) :=
  pt <- FPNode.tree point ;;
  if decide (tree_id self = pt) then
    point_item <- FPNode.item point ;;
    match dict_get point_item (_routes self) with
    | Some route =>
        FPNode.set_neighbor (snd route) (Some point) ;;;
        ret (mkFPTree (tree_id self) (_root self)
               (dict_set point_item (fst route, point) (_routes self)))
    | None =>
        ret (mkFPTree (tree_id self) (_root self)
               (dict_set point_item (point, point) (_routes self)))
    end
  else raise AssertionError.

(** The body of [add]'s loop, from the node [point] on. *)
Fixpoint add_from (self : FPTree Label) (point : nat)
  (transaction : list Item) : M (FPTree Label) :=
  match transaction with
  | [] => ret self
  | item :: rest =>
      next_point <- FPNode.search point item ;;
      match next_point with
      | Some np =>
          FPNode.increment np ;;;
          add_from self np rest
      | None =>
          np <- FPNode.new (tree_id self) item (Some 1%Z) ;;
          FPNode.add point np ;;;
          self' <- _update_route self np ;;
          add_from self' np rest
      end
  end.

Definition add (self : FPTree Label) (transaction : list Item)
  : M (FPTree Label) :=
  add_from self (_root self) transaction.

(** [while node: yield node; node = node.neighbor].  A chain of distinct
    nodes is no longer than the store, so running out of [fuel] below
    means the chain is cyclic and the Python loop does not end. *)
Fixpoint nodes_from (fuel : nat) (node : option nat) : M (list nat) :=
  match node with
  | None => ret []
  | Some n =>
      match fuel with
      | O => raise OutOfFuel
      | S fuel' =>
          next <- FPNode.neighbor n ;;
          rest <- nodes_from fuel' next ;;
          ret (n :: rest)
      end
  end.

Definition nodes (self : FPTree Label) (item : Item) : M (list nat) :=
  match dict_get item (_routes self) with
  | Some route =>
      s <- get_store ;;
      nodes_from (S (length (heap s))) (Some (fst route))
  | None => ret []
  end.

(** [items()] pairs each key of [_routes] with [self.nodes(item)], a
    generator that reads the store when it is consumed; the keys are what
    is fixed here. *)
Definition items (self : FPTree Label) : list Item := dict_keys (_routes self).

(** [collect_path], before its [path.reverse()]. *)
Fixpoint collect_path_up (fuel : nat) (node : option nat) : M (list nat) :=
  match node with
  | None => ret []
  | Some n =>
      is_root <- FPNode.root n ;;
      if is_root then ret []
      else
        match fuel with
        | O => raise OutOfFuel
        | S fuel' =>
            p <- FPNode.parent n ;;
            rest <- collect_path_up fuel' p ;;
            ret (n :: rest)
        end
  end.

Definition collect_path (node : nat) : M (list nat) :=
  s <- get_store ;;
  path <- collect_path_up (S (length (heap s))) (Some node) ;;
  ret (rev path).

Definition prefix_paths (self : FPTree Label) (item : Item)
  : M (list (list nat)) :=
  ns <- nodes self item ;;
  map_m collect_path ns.
End Methods.
End FPTree.

(** ** pandas: what the miner uses of a Series *)

(** A Series: its values, each with its row label, in row order.  The row
    labels are taken to be integers, as those of the default index are. *)
Definition Series (A : Type) : Type := list (Z * A).

(** What [z[n]] finds in a Series with integer labels for a number [n]:
    the value of the row labelled [n] when there is one such row, the
    Series of the rows labelled [n] when there are several, and nothing
    when there is none. *)
Inductive Located (A : Type) : Type :=
  | One (a : A)
  | Several (l : Series A)
  | Missing.
Arguments One {A} a.
Arguments Several {A} l.
Arguments Missing {A}.

Definition Series_getitem {A} (z : Series A) (n : Z) : Located A :=
  match filter (fun e => fst e = n) z with
  | [] => Missing
  | [e] => One (snd e)
  | l => Several l
  end.

(** The index pandas gives a frame of [n] rows that comes with none:
    [0, 1, ..., n - 1]. *)
Definition default_index (n : nat) : list Z := map Z.of_nat (seq 0 n).

Section Mining.
Context {Label : Type} `{EqDecision Label}.
Local Abbreviation Item := (Item Label).
Local Abbreviation M := (M Label).

(** The first loop of [conditional_tree_from_paths], for one path. *)
Fixpoint import_path (tree : FPTree Label) (condition_item : Item)
  (point : nat) (path : list nat) : M (FPTree Label) :=
  match path with
  | [] => ret tree
  | node :: rest =>
      node_item <- FPNode.item node ;;
      next_point <- FPNode.search point node_item ;;
      match next_point with
      | Some np => import_path tree condition_item np rest
      | None =>
          count <- (if decide (node_item = condition_item)
                    then FPNode.count node else ret (Some 0%Z)) ;;
          np <- FPNode.new (tree_id tree) node_item count ;;
          FPNode.add point np ;;;
          tree' <- FPTree._update_route tree np ;;
          import_path tree' condition_item np rest
      end
  end.

(** [for path in paths: ...], threading [tree] and [condition_item]. *)
Fixpoint import_paths (tree : FPTree Label) (condition_item : Item)
  (paths : list (list nat)) : M (FPTree Label * Item) :=
  match paths with
  | [] => ret (tree, condition_item)
  | path :: rest =>
      condition_item' <-
        match condition_item with
        | None =>
            match last path with
            | Some n => FPNode.item n
            | None => raise IndexError
            end
        | Some _ => ret condition_item
        end ;;
      tree' <- import_path tree condition_item' (_root tree) path ;;
      import_paths tree' condition_item' rest
  end.

(** The body of the second loop: [count = path[-1].count], then
    [node._count += count] up the path. *)
Definition spread_count (path : list nat) : M unit :=
  match last path with
  | None => raise IndexError
  | Some leaf =>
      count <- FPNode.count leaf ;;
      for_each (rev (removelast path)) (fun node => FPNode.add_count node count)
  end.

(** [for path in tree.prefix_paths(condition_item)]: the generator hands
    out one node of the route at a time, and both [collect_path] and the
    step to the neighbor read the store as the loop body has left it. *)
Fixpoint spread_counts (fuel : nat) (node : option nat) : M unit :=
  match node with
  | None => ret tt
  | Some n =>
      match fuel with
      | O => raise OutOfFuel
      | S fuel' =>
          path <- FPTree.collect_path n ;;
          spread_count path ;;;
          next <- FPNode.neighbor n ;;
          spread_counts fuel' next
      end
  end.

(** [paths] is taken as the list of the paths the iterable produces.  The
    one caller passes a generator over another tree, none of whose nodes
    the loops below assign to.  The set [items] the source also fills is
    never read and is left out. *)
Definition conditional_tree_from_paths (paths : list (list nat))
  : M (FPTree Label) :=
  tree <- FPTree.new ;;
  r <- import_paths tree None paths ;;
  let '(tree, condition_item) := r in
  match condition_item with
  | None => raise AssertionError
  | Some _ =>
      match dict_get condition_item (_routes tree) with
      | Some route =>
          s <- get_store ;;
          spread_counts (S (length (heap s))) (Some (fst route))
      | None => ret tt
      end ;;;
      ret tree
  end.

(** [sum(n.count for n in nodes)] *)
Fixpoint sum_counts (ns : list nat) : M Z :=
  match ns with
  | [] => ret 0%Z
  | n :: rest =>
      c <- FPNode.count n ;;
      match c with
      | Some c => total <- sum_counts rest ;; ret (c + total)%Z
      | None => raise TypeError
      end
  end.

(** What one [yield] of the miner hands out: [(found_set, support)] when
    [include_support] is true, [found_set] alone otherwise. *)
Definition emitted : Type := list Item * option Z.

(** [fuel] bounds the depth of the recursion. *)
Fixpoint find_with_suffix (fuel : nat) (minimum_support : Z)
  (include_support : bool) (tree : FPTree Label) (suffix : list Item)
  : Gen Label emitted unit :=
  match fuel with
  | O => call (raise OutOfFuel)
  | S fuel' =>
      for_yield (FPTree.items tree) (fun item =>
        ns <~ call (FPTree.nodes tree item) ;;
        support <~ call (sum_counts ns) ;;
        if (minimum_support <=? support)%Z && negb (bool_decide (item ∈ suffix))
        then
          let found_set := item :: suffix in
          yield (found_set, if include_support then Some support else None) ~;;
          paths <~ call (FPTree.prefix_paths tree item) ;;
          cond_tree <~ call (conditional_tree_from_paths paths) ;;
          find_with_suffix fuel' minimum_support include_support
            cond_tree found_set
        else gen_ret tt)
  end.

(** The data frame: its row labels (the index), its column labels and
    its rows of numbers, one row for each row label.  The row labels are
    taken to be integers: the source looks rows up by number, [z[n]]. *)
Record DataFrame := mkDataFrame {
  index : list Z;
  columns : list Item;
  rows : list (list Z)
}.

(** [list(y[x.values])] for one row: the labels of the columns whose
    entry is positive. *)
Definition row_items (y : list Item) (row : list Z) : list Item :=
  map fst (filter (fun cv => bool_decide (0 < snd cv)%Z) (combine y row)).

(** The transactions of the rows, in row order: for each row, what the
    function of the second [apply] returns for it. *)
Definition transactions (df : DataFrame) : list (list Item) :=
  map (row_items (columns df)) (rows df).

(** [z = x.apply(lambda x: list(y[x.values]), axis=1)]: the Series of the
    transactions under the row labels.  For a frame that has rows and no
    column, pandas calls the function on an empty row, gets the empty
    list, and fails to make of it a Series with an entry for each row
    label: ValueError.  For a frame without rows the result is empty. *)
Definition row_lists (df : DataFrame) : M (Series (list Item)) :=
  match columns df, rows df with
  | [], _ :: _ => raise ValueError
  | _, _ => ret (combine (index df) (transactions df))
  end.

(** [for n in range(1,len(z)): master.add(z[n])].  [z[n]] looks the row up
    by its label: KeyError when no row is labelled [n].  When several rows
    are, [z[n]] is a Series of lists, and [add] fails on its first item,
    a list, which [search] cannot look up in a dict: TypeError. *)
Fixpoint add_rows (master : FPTree Label) (z : Series (list Item))
  (range : list nat) : M (FPTree Label) :=
  match range with
  | [] => ret master
  | n :: range' =>
      match Series_getitem z (Z.of_nat n) with
      | One t => master' <- FPTree.add master t ;; add_rows master' z range'
      | Several _ => raise TypeError
      | Missing => raise KeyError
      end
  end.

(** [z] is computed before [FPTree()] is called. *)
Definition build_master (df : DataFrame) : M (FPTree Label) :=
  z <- row_lists df ;;
  master <- FPTree.new ;;
  add_rows master z (seq 1 (length z - 1)).

Definition find_frequent_itemsets (fuel : nat) (df : DataFrame)
  (minimum_support : Z) (include_support : bool) : Gen Label emitted unit :=
  master <~ call (build_master df) ;;
  find_with_suffix fuel minimum_support include_support master [].

(** The empty store a run starts from. *)
Definition empty_store : Store Label := mkStore [] 0.
End Mining.
Arguments DataFrame : clear implicits.
Arguments emitted : clear implicits.

(** ** Specification vocabulary *)

Section Vocabulary.
Context {Label : Type} `{EqDecision Label}.
Local Abbreviation Item := (Item Label).
Local Abbreviation M := (M Label).

(** [n.field = ...]: the store after one node has been replaced. *)
Definition upd (s : Store Label) (n : nat) (nd : FPNode Label) : Store Label :=
  mkStore (<[n := nd]> (heap s)) (next_tree s).

(** What a node of the old store has become once a new node [np] for item
    [k] has been created, added below [point] and entered in the routes:
    [point] has one more child, the old tail of [k]'s route has [np] for
    neighbor. *)
Definition attached (routes : dict Item (nat * nat)) (point np : nat)
  (k : Item) (n : nat) (nd : FPNode Label) : FPNode Label :=
  mkFPNode (_tree nd) (_item nd) (_count nd) (_parent nd)
    (if decide (n = point) then dict_set k np (_children nd)
     else _children nd)
    (match dict_get k routes with
     | Some route => if decide (n = snd route) then Some np else _neighbor nd
     | None => _neighbor nd
     end).

(** The routes after that insertion. *)
Definition routed (routes : dict Item (nat * nat)) (np : nat) (k : Item)
  : dict Item (nat * nat) :=
  dict_set k (match dict_get k routes with
              | Some route => fst route
              | None => np
              end, np) routes.

(** Brute-force support: the number of transactions that contain every
    item of the itemset. *)
Definition contains_all (itemset transaction : list Item) : bool :=
  forallb (fun i => bool_decide (i ∈ transaction)) itemset.

Definition support (ts : list (list Item)) (itemset : list Item) : Z :=
  Z.of_nat (length (filter (fun t => contains_all itemset t = true) ts)).

(** [master.add(t)] for every [t] of a list, in order. *)
Fixpoint add_all (master : FPTree Label) (ts : list (list Item))
  : M (FPTree Label) :=
  match ts with
  | [] => ret master
  | t :: ts' => master' <- FPTree.add master t ;; add_all master' ts'
  end.

(** A fresh tree filled with the given transactions. *)
Definition build_from (ts : list (list Item)) : M (FPTree Label) :=
  master <- FPTree.new ;; add_all master ts.

(** The node [FPTree()] allocates for its root. *)
Definition root_node (t : nat) : FPNode Label := mkFPNode t None None None [] None.

(** Every node of the store belongs to a tree that has been created. *)
Definition store_ok (s : Store Label) : Prop :=
  forall n nd, heap s !! n = Some nd -> (_tree nd < next_tree s)%nat.

(** A node of tree [t] that carries item [k]; the root carries none. *)
Definition carries (t : nat) (k : Item) (nd : FPNode Label) : Prop :=
  _tree nd = t /\ _item nd = k /\ FPNode.is_root nd = false.

Definition carries_at (s : Store Label) (t : nat) (k : Item) (n : nat) : Prop :=
  match heap s !! n with
  | Some nd => carries t k nd
  | None => False
  end.

#[global] Instance carries_dec t k nd : Decision (carries t k nd).
Proof. unfold carries. apply _. Defined.

#[global] Instance carries_at_dec s t k n : Decision (carries_at s t k n).
Proof. unfold carries_at. destruct (heap s !! n); apply _. Defined.

(** The nodes of tree [t] that carry [k], in the order of their creation. *)
Definition nodes_of (s : Store Label) (t : nat) (k : Item) : list nat :=
  filter (carries_at s t k) (seq 0 (length (heap s))).

(** Each node of [l] has the next one for neighbor, the last one none. *)
Definition links (s : Store Label) (l : list nat) : Prop :=
  forall i n, l !! i = Some n ->
    exists nd, heap s !! n = Some nd /\ _neighbor nd = l !! S i.

(** The route of every item goes through the nodes that carry the item,
    from the first created to the last. *)
Definition route_inv (s : Store Label) (t : FPTree Label) : Prop :=
  forall k,
    links s (nodes_of s (tree_id t) k) /\
    match dict_get k (_routes t) with
    | Some route =>
        head (nodes_of s (tree_id t) k) = Some (fst route) /\
        last (nodes_of s (tree_id t) k) = Some (snd route)
    | None => nodes_of s (tree_id t) k = []
    end.

(** The item of the node at [n], when there is a node. *)
Definition item_at (s : Store Label) (n : nat) : option Item :=
  _item <$> heap s !! n.

(** The count of the node at [n]; 0 where there is none. *)
Definition count_at (s : Store Label) (n : nat) : Z :=
  match heap s !! n with
  | Some nd => default 0%Z (_count nd)
  | None => 0%Z
  end.

Definition sum_Z (l : list Z) : Z := foldr Z.add 0%Z l.

(** [collect_path_up] as a function of the heap. *)
Fixpoint path_up (h : list (FPNode Label)) (fuel : nat) (node : option nat)
  : list nat :=
  match node with
  | None => []
  | Some n =>
      match h !! n with
      | None => []
      | Some nd =>
          if FPNode.is_root nd then []
          else match fuel with
               | O => []
               | S fuel' => n :: path_up h fuel' (_parent nd)
               end
      end
  end.

(** The path [collect_path] returns for [m]: from below the root to [m]. *)
Definition path_to (s : Store Label) (m : nat) : list nat :=
  rev (path_up (heap s) (S (length (heap s))) (Some m)).

(** The nodes of tree [t] carrying [x] that lie below [n]: those with [n]
    on their path, themselves apart. *)
Definition below (s : Store Label) (t : nat) (x : Item) (n : nat) : list nat :=
  filter (fun m => n ∈ removelast (path_to s m)) (nodes_of s t x).

(** Every node of tree [t] that carries an item other than [x] has for
    count the sum of the counts of the nodes that carry [x] below it. *)
Definition counts_conserved (s : Store Label) (t : nat) (x : Item) : Prop :=
  forall n nd,
    heap s !! n = Some nd -> _tree nd = t ->
    FPNode.is_root nd = false -> _item nd <> x ->
    _count nd = Some (sum_Z (map (count_at s) (below s t x n))).


(** The tree is closed: its root, the children of its nodes and the tails
    of its routes are nodes of the tree, and the children have a count. *)
Record tree_ok (s : Store Label) (t : FPTree Label) : Prop := {
  tok_root : exists rd, heap s !! _root t = Some rd /\ _tree rd = tree_id t;
  tok_children : forall n nd k c,
    heap s !! n = Some nd -> _tree nd = tree_id t ->
    dict_get k (_children nd) = Some c ->
    exists cd, heap s !! c = Some cd /\ _tree cd = tree_id t /\
               is_Some (_count cd);
  tok_routes : forall k route,
    dict_get k (_routes t) = Some route ->
    exists td, heap s !! snd route = Some td /\ _tree td = tree_id t
}.

(** A path that ends at a node carrying [x], none of its other nodes
    carrying [x]. *)
Definition path_ends_at (s : Store Label) (x : Item) (path : list nat) : Prop :=
  exists front leaf,
    path = front ++ [leaf] /\ item_at s leaf = Some x /\
    Forall (fun n => exists i, item_at s n = Some i /\ i <> x) front.

(** What holds of a conditional tree for [x] while paths are imported:
    the routes are right; below a node that is not the root comes a parent
    created earlier, in the same tree and not carrying [x]; the nodes that
    do not carry [x] have count 0; a child is filed under its own item. *)
Record importing (s : Store Label) (t : FPTree Label) (x : Item) : Prop := {
  imp_routes : route_inv s t;
  imp_root : exists rd, heap s !! _root t = Some rd /\
                        _tree rd = tree_id t /\ _item rd <> x;
  imp_shape : forall n nd,
    heap s !! n = Some nd -> _tree nd = tree_id t ->
    FPNode.is_root nd = false ->
    exists p pd, _parent nd = Some p /\ (p < n)%nat /\
                 heap s !! p = Some pd /\ _tree pd = tree_id t /\
                 _item pd <> x;
  imp_zero : forall n nd,
    heap s !! n = Some nd -> _tree nd = tree_id t ->
    FPNode.is_root nd = false -> _item nd <> x -> _count nd = Some 0%Z;
  imp_children : forall n nd k c,
    heap s !! n = Some nd -> _tree nd = tree_id t ->
    dict_get k (_children nd) = Some c ->
    exists cd, heap s !! c = Some cd /\ _tree cd = tree_id t /\ _item cd = k
}.

(** The nodes of a path before its last carry items other than [x]. *)
Definition front_avoids (s : Store Label) (x : Item) (path : list nat) : Prop :=
  Forall (fun n => exists i, item_at s n = Some i /\ i <> x) (removelast path).

(** [s'] has the nodes of [s], with other counts perhaps, a count that is
    [None] staying so. *)
Definition same_shape (s s' : Store Label) : Prop :=
  length (heap s') = length (heap s) /\
  forall n nd, heap s !! n = Some nd ->
    exists c, heap s' !! n = Some (FPNode.with_count nd c) /\
              (c = None <-> _count nd = None).

(** What the nodes [ms] that carry [x] have added to [n]: the count of
    each of those that have [n] on their path. *)
Definition contrib (s : Store Label) (n : nat) (ms : list nat) : Z :=
  sum_Z (map (count_at s)
           (filter (fun m => n ∈ removelast (path_to s m)) ms)).

(** The second loop of [conditional_tree_from_paths] once the nodes [done]
    of the route have been dealt with, [s1] being the store the loop
    started from. *)
Definition spread_inv (s1 : Store Label) (id : nat) (x : Item)
  (done : list nat) (sj : Store Label) : Prop :=
  same_shape s1 sj /\
  (forall n nd, heap s1 !! n = Some nd -> _item nd = x ->
                heap sj !! n = Some nd) /\
  (forall n nd, heap s1 !! n = Some nd -> _tree nd = id ->
     FPNode.is_root nd = false -> _item nd <> x ->
     exists nd', heap sj !! n = Some nd' /\
                 _count nd' = Some (contrib s1 n done)).

(** The head and the tail of a route carry the route's item, no item has
    two routes, and the root is a root; all of them are nodes created from
    reference [base] on. *)
Record sorted_tree (base : nat) (s : Store Label) (t : FPTree Label) : Prop := {
  st_own : (base <= _root t)%nat /\
           forall k route, dict_get k (_routes t) = Some route ->
                           (base <= fst route)%nat /\ (base <= snd route)%nat;
  st_routes : forall k route,
    dict_get k (_routes t) = Some route ->
    (exists hd, heap s !! fst route = Some hd /\ _item hd = k) /\
    (exists td, heap s !! snd route = Some td /\ _item td = k);
  st_keys : NoDup (dict_keys (_routes t));
  st_root : exists rd, heap s !! _root t = Some rd /\
                       FPNode.is_root rd = true
}.

(** [s'] has the nodes of [s], each with its item and root status. *)
Definition extends (s s' : Store Label) : Prop :=
  forall n nd, heap s !! n = Some nd ->
    exists nd', heap s' !! n = Some nd' /\ _item nd' = _item nd /\
                FPNode.is_root nd' = FPNode.is_root nd.

(** The nodes of [path] carry the items [its], in this order. *)
Definition carry (s : Store Label) (path : list nat) (its : list Item) : Prop :=
  Forall2 (fun n i => item_at s n = Some i) path its.

(** The position of an item among the columns (their number when it is
    none of them), and the order of the items by position. *)
Fixpoint rank (cols : list Item) (i : Item) : nat :=
  match cols with
  | [] => 0
  | c :: cols' => if decide (i = c) then 0 else S (rank cols' i)
  end.

Definition before (cols : list Item) : relation Item :=
  fun a b => (rank cols a < rank cols b)%nat.
End Vocabulary.

(** ** Stores and trees that follow one order of the items *)

Section Order.
Context {Label : Type} `{EqDecision Label}.
Local Abbreviation Item := (Item Label).

(** The order in which every transaction lists its items. *)
Variable R : relation Item.

(** The nodes of one call are those created from reference [base] on. *)
Variable base : nat.

(** Among the nodes of the call: the neighbor, the parent and the children
    of a node are nodes of the call; neighbors carry the same item, a
    parent that is not a root carries an item that comes before its
    child's, and a child is filed under its own item. *)
Record sorted_store (s : Store Label) : Prop := {
  ss_base : (base <= length (heap s))%nat;
  ss_own : forall n nd m,
    (base <= n)%nat -> heap s !! n = Some nd ->
    _neighbor nd = Some m \/ _parent nd = Some m \/
      (exists k, dict_get k (_children nd) = Some m) ->
    (base <= m)%nat;
  ss_neighbor : forall n nd m,
    (base <= n)%nat -> heap s !! n = Some nd -> _neighbor nd = Some m ->
    exists md, heap s !! m = Some md /\ _item md = _item nd;
  ss_parent : forall n nd p,
    (base <= n)%nat -> heap s !! n = Some nd -> _parent nd = Some p ->
    exists pd, heap s !! p = Some pd /\
               (FPNode.is_root pd = true \/ R (_item pd) (_item nd));
  ss_children : forall n nd k c,
    (base <= n)%nat -> heap s !! n = Some nd ->
    dict_get k (_children nd) = Some c ->
    exists cd, heap s !! c = Some cd /\ _item cd = k
}.

(** [point] is a node of the call, and a root or the carrier of an item
    that comes before all of [its]. *)
Definition point_before (s : Store Label) (point : nat) (its : list Item)
  : Prop :=
  (base <= point)%nat /\
  exists pd, heap s !! point = Some pd /\
             (FPNode.is_root pd = true \/ Forall (R (_item pd)) its).

(** A path whose items are in order and all satisfy [P]. *)
Definition path_sorted (s : Store Label) (P : Item -> Prop) (path : list nat)
  : Prop :=
  exists its, carry s path its /\ StronglySorted R its /\ Forall P its.

(** The suffix bounds the items of the tree mined with it: each is the
    suffix's first item or comes before it. *)
Definition bounded (keys suffix : list Item) : Prop :=
  match suffix with
  | [] => True
  | y :: _ => Forall (fun k => k = y \/ R k y) keys
  end.

(** What the miner yields with [suffix] for the items [ks]: itemsets in
    order, each made of [suffix] and, before it, one of [ks] and perhaps
    more; none twice. *)
Definition yields (suffix ks : list Item) (out : list (emitted Label)) : Prop :=
  Forall (fun e => StronglySorted R (fst e) /\
                   exists pre i, i ∈ ks /\ fst e = pre ++ i :: suffix) out /\
  NoDup (map fst out).

(** A run of the miner from the store [s]: what it has yielded is as
    [yields] says, and when it has returned the store is still sorted. *)
Definition mined (suffix ks : list Item) (s : Store Label)
  (run : list (emitted Label) * Result (Label:=Label) unit) : Prop :=
  yields suffix ks (fst run) /\
  forall u s', snd run = Ok u s' -> sorted_store s' /\ extends s s'.
End Order.

(** ** What a run yields, and in which order *)

Section OutputShape.
Context {Label : Type} `{EqDecision Label}.
Local Abbreviation Item := (Item Label).

(** Every yield is an item put before the suffix the call was made with,
    or before an itemset yielded earlier. *)
Definition tails_first (suffix : list Item) (out : list (emitted Label))
  : Prop :=
  forall (n : nat) (e : emitted Label),
    out !! n = Some e ->
    exists i rest, fst e = i :: rest /\
      (rest = suffix \/
       exists (m : nat) (e' : emitted Label),
         (m < n)%nat /\ out !! m = Some e' /\ fst e' = rest).
End OutputShape.

(** ** Subsets of an itemset *)

(** [itertools.combinations(s, r)]: the sublists of [r] elements, in the
    lexicographic order of their positions. *)
Fixpoint combinations {A} (s : list A) (r : nat) : list (list A) :=
  match r with
  | O => [[]]
  | S r' =>
      match s with
      | [] => []
      | x :: s' => map (cons x) (combinations s' r') ++ combinations s' r
      end
  end.

(** [chain.from_iterable(combinations(s, r) for r in range(len(s)+1))] *)
Definition powerset {A} (iterable : list A) : list (list A) :=
  let s := iterable in
  concat (map (combinations s) (seq 0 (length s + 1))).
(** The number of combinations of every size from [k] on, [n] sizes. *)
Fixpoint count_from {A} (s : list A) (k n : nat) : nat :=
  match n with
  | O => 0
  | S n' => length (combinations s k) + count_from s (S k) n'
  end.

(** ** Prefix trees of a list of transactions *)

Section TrieVocabulary.
Context {Label : Type} `{EqDecision Label}.
Local Abbreviation Item := (Item Label).

(** The number of transactions that start with [p]. *)
Definition prefix_count (db : list (list Item)) (p : list Item) : Z :=
  Z.of_nat (length (filter (fun tr => p `prefix_of` tr) db)).

(** A transaction up to its first [x], [x] included. *)
Fixpoint upto (x : Item) (tr : list Item) : list Item :=
  match tr with
  | [] => []
  | i :: tr' => if decide (i = x) then [i] else i :: upto x tr'
  end.

(** The conditional transactions of [x]: those that contain [x], each cut
    after [x]. *)
Definition cond_db (x : Item) (db : list (list Item)) : list (list Item) :=
  map (upto x) (filter (fun tr => x ∈ tr) db).

(** The node reached from [point] by going down through the children
    filed under the items of [q], one after the other. *)
Fixpoint walk (h : list (FPNode Label)) (point : nat) (q : list Item)
  : option nat :=
  match q with
  | [] => Some point
  | i :: q' =>
      match h !! point with
      | Some nd =>
          match dict_get i (_children nd) with
          | Some c => walk h c q'
          | None => None
          end
      | None => None
      end
  end.
End TrieVocabulary.

Section TreeShape.
Context {Label : Type} `{EqDecision Label}.
Local Abbreviation Item := (Item Label).

(** The nodes passed on the way [walk] follows, [point] apart. *)
Fixpoint walk_nodes (h : list (FPNode Label)) (point : nat) (q : list Item)
  : list nat :=
  match q with
  | [] => []
  | i :: q' =>
      match h !! point with
      | Some nd =>
          match dict_get i (_children nd) with
          | Some c => c :: walk_nodes h c q'
          | None => []
          end
      | None => []
      end
  end.

(** The nodes of [t] form a tree below its root: the routes are right,
    the root is the one node of [t] without item and count, a child is a
    later node of [t] that has a count, is filed under its item and has
    the node for parent, and every other node of [t] is such a child. *)
Record shape (s : Store Label) (t : FPTree Label) : Prop := {
  sh_routes : route_inv s t;
  sh_root : exists rd, heap s !! _root t = Some rd /\
                       _tree rd = tree_id t /\ FPNode.is_root rd = true;
  sh_root_only : forall n nd,
    heap s !! n = Some nd -> _tree nd = tree_id t ->
    FPNode.is_root nd = true -> n = _root t;
  sh_child : forall p pd i c,
    heap s !! p = Some pd -> _tree pd = tree_id t ->
    dict_get i (_children pd) = Some c ->
    exists cd, heap s !! c = Some cd /\ _tree cd = tree_id t /\
               _item cd = i /\ _parent cd = Some p /\
               is_Some (_count cd) /\ (p < c)%nat;
  sh_parent : forall n nd,
    heap s !! n = Some nd -> _tree nd = tree_id t ->
    FPNode.is_root nd = false ->
    exists p pd, _parent nd = Some p /\ heap s !! p = Some pd /\
                 _tree pd = tree_id t /\
                 dict_get (_item nd) (_children pd) = Some n
}.

(** From [s] to [s'] nothing but nodes of the tree [tid] has been changed
    or created, and no tree. *)
Definition only_tree (tid : nat) (s s' : Store Label) : Prop :=
  (forall n nd, heap s !! n = Some nd -> _tree nd <> tid ->
                heap s' !! n = Some nd) /\
  (forall n nd', heap s' !! n = Some nd' ->
                 _tree nd' = tid \/ heap s !! n = Some nd') /\
  next_tree s' = next_tree s.

(** From [s] to [s'] the nodes of the trees made before [b] have been
    left as they were, and what is new is of a tree made since. *)
Definition kept (b : nat) (s s' : Store Label) : Prop :=
  (forall n nd, heap s !! n = Some nd -> (_tree nd < b)%nat ->
                heap s' !! n = Some nd) /\
  (forall n nd', heap s' !! n = Some nd' ->
                 (b <= _tree nd')%nat \/ heap s !! n = Some nd') /\
  (next_tree s <= next_tree s')%nat.
End TreeShape.

Section TrieContents.
Context {Label : Type} `{EqDecision Label}.
Local Abbreviation Item := (Item Label).

(** The ways that lead from the root of [t] to a node are those that
    satisfy [P]. *)
Definition paths_of (s : Store Label) (t : FPTree Label)
  (P : list Item -> Prop) : Prop :=
  (forall q (n : nat),
     q <> [] -> walk (heap s) (_root t) q = Some n -> P q) /\
  (forall q, P q -> is_Some (walk (heap s) (_root t) q)).

(** The node a way leads to has the count [cnt] gives for the way. *)
Definition counts_of (s : Store Label) (t : FPTree Label)
  (cnt : list Item -> Z) : Prop :=
  forall q (n : nat),
    q <> [] -> walk (heap s) (_root t) q = Some n ->
    exists nd, heap s !! n = Some nd /\ _count nd = Some (cnt q).

(** The ways and the counts of the tree while a transaction is being
    inserted, [done] being the part of it that has been. *)
Definition inserting_paths (db : list (list Item)) (done : list Item)
  : list Item -> Prop :=
  fun q => q `prefix_of` done \/ exists tr, tr ∈ db /\ q `prefix_of` tr.

Definition inserting_counts (db : list (list Item)) (done : list Item)
  : list Item -> Z :=
  fun q => (prefix_count db q +
            if decide (q `prefix_of` done) then 1 else 0)%Z.

(** [t] is the prefix tree of the transactions [db]: it has a node for
    each prefix of a transaction, and the count of the node is the number
    of transactions that start with the prefix. *)
Definition trie (s : Store Label) (t : FPTree Label) (db : list (list Item))
  : Prop :=
  shape s t /\
  paths_of s t (fun q => exists tr, tr ∈ db /\ q `prefix_of` tr) /\
  counts_of s t (prefix_count db).
End TrieContents.

Section ConditionalVocabulary.
Context {Label : Type} `{EqDecision Label}.
Local Abbreviation Item := (Item Label).

(** The counts of a conditional tree for [x] before they are spread: the
    nodes that carry [x] have theirs, the others 0. *)
Definition leaf_counts (x : Item) (cntx : list Item -> Z)
  : list Item -> Z :=
  fun q => if decide (last q = Some x) then cntx q else 0%Z.

(** The nodes of [path] are nodes of other trees than [tid]; they carry
    the items [its], and those that carry [x] have the count [cx]. *)
Definition readable (s : Store Label) (tid : nat) (x : Item) (cx : Z)
  (path : list nat) (its : list Item) : Prop :=
  Forall2 (fun (m : nat) i =>
             exists md, heap s !! m = Some md /\ _tree md <> tid /\
                        _item md = i /\ (i = x -> _count md = Some cx))
    path its.

(** The counts of a conditional tree for [x] once they are spread:
    [paths] being the ways to the nodes that carry [x], a node has the sum
    of the counts of those below it. *)
Definition spread_counts_of (x : Item) (cntx : list Item -> Z)
  (paths : list (list Item)) : list Item -> Z :=
  fun q => if decide (last q = Some x) then cntx q
           else sum_Z (map cntx (filter (fun q' => q `prefix_of` q') paths)).
End ConditionalVocabulary.

Section MinerVocabulary.
Context {Label : Type} `{EqDecision Label}.
Local Abbreviation Item := (Item Label).

Variable R : relation Item.

(** [db] holds the conditional transactions of [suffix] in [ts]: an
    itemset whose items come before those of [suffix] has in [db] the
    support that it has, together with [suffix], in [ts]. *)
Definition conditional_on (ts : list (list Item)) (suffix : list Item)
  (db : list (list Item)) : Prop :=
  forall J : list Item,
    Forall (fun j => match suffix with [] => True | y :: _ => R j y end) J ->
    support db J = support ts (J ++ suffix).

(** The items of [db] are the first item of [suffix] or come before it. *)
Definition db_bounded (suffix : list Item) (db : list (list Item)) : Prop :=
  forall tr i, tr ∈ db -> i ∈ tr ->
    match suffix with [] => True | y :: _ => i = y \/ R i y end.

(** What a run of the miner on the prefix tree of conditional
    transactions of [ts] gives: each yield carries the support its
    itemset has in [ts], which is not 0; and when the run returns, it has
    left the older trees as they were. *)
Definition mined_right (ts : list (list Item)) (include_support : bool)
  (s : Store Label)
  (run : list (emitted Label) * Result (Label:=Label) unit) : Prop :=
  Forall (fun e => snd e = (if include_support
                            then Some (support ts (fst e)) else None) /\
                   (0 < support ts (fst e))%Z)
    (fst run) /\
  forall u s', snd run = Ok u s' -> kept (next_tree s) s s' /\ store_ok s'.
End MinerVocabulary.

Section CompleteVocabulary.
Context {Label : Type} `{EqDecision Label}.
Local Abbreviation Item := (Item Label).

Variable R : relation Item.

(** A run of the miner with [suffix] that misses nothing: it returns,
    leaving the older trees as they were, and it has yielded every
    itemset that lists further items in order before [suffix] and has in
    [ts] a support that is positive and reaches the threshold. *)
Definition mined_all (ts : list (list Item)) (minimum_support : Z)
  (suffix : list Item) (s : Store Label)
  (run : list (emitted Label) * Result (Label:=Label) unit) : Prop :=
  (exists s', snd run = Ok tt s' /\ kept (next_tree s) s s' /\
              store_ok s') /\
  forall J : list Item,
    J <> [] -> StronglySorted R (J ++ suffix) ->
    (minimum_support <= support ts (J ++ suffix))%Z ->
    (0 < support ts (J ++ suffix))%Z ->
    J ++ suffix ∈ map fst (fst run).
End CompleteVocabulary.

(** ** Concrete data *)

Module Scenario.
Definition a : Item string := Some "a"%string.
Definition b : Item string := Some "b"%string.
Definition c : Item string := Some "c"%string.

(** The transactions [a,b], [a,b,c], [a], [b,c], [b] as a data frame with
    the default index. *)
Definition df : DataFrame string :=
  mkDataFrame (default_index 5) [a; b; c]
    [[1; 1; 0]; [1; 1; 1]; [1; 0; 0]; [0; 1; 1]; [0; 1; 0]]%Z.

(** One transaction, [a]. *)
Definition df_single : DataFrame string :=
  mkDataFrame (default_index 1) [a] [[1%Z]].



(** The root of a tree and, below it, a node for [a] whose count is 0. *)
Definition store_root_and_zero : Store string :=
  mkStore [mkFPNode 0 None None None [(a, 1%nat)] None;
           mkFPNode 0 a (Some 0%Z) (Some 0%nat) [] None] 1.

(** A second node for [a], not yet attached, beside the one the root has. *)
Definition store_two_a : Store string :=
  mkStore [mkFPNode 0 None None None [(a, 1%nat)] None;
           mkFPNode 0 a (Some 1%Z) (Some 0%nat) [] None;
           mkFPNode 0 a (Some 1%Z) None [] None] 1.

(** The store and the master tree built from the transactions [a,b,c],
    [a], [b,c] and [b]. *)
Definition master_rows : list (list (Item string)) := [[a; b; c]; [a]; [b; c]; [b]].

Definition master_tree : FPTree string :=
  mkFPTree 0 0 [(a, (1, 1)); (b, (2, 4)); (c, (3, 5))]%nat.

Definition master_store : Store string :=
  mkStore [mkFPNode 0 None None None [(a, 1); (b, 4)]%nat None;
           mkFPNode 0 a (Some 2%Z) (Some 0%nat) [(b, 2%nat)] None;
           mkFPNode 0 b (Some 1%Z) (Some 1%nat) [(c, 3%nat)] (Some 4%nat);
           mkFPNode 0 c (Some 1%Z) (Some 2%nat) [] (Some 5%nat);
           mkFPNode 0 b (Some 2%Z) (Some 0%nat) [(c, 5%nat)] None;
           mkFPNode 0 c (Some 1%Z) (Some 4%nat) [] None] 1.

(** The prefix paths of [c] in the master tree, and the conditional tree
    built from them. *)
Definition paths_of_c : list (list nat) := [[1; 2; 3]; [4; 5]]%nat.

Definition cond_tree : FPTree string :=
  mkFPTree 1 6 [(a, (7, 7)); (b, (8, 10)); (c, (9, 11))]%nat.

Definition cond_store : Store string :=
  mkStore (heap master_store ++
           [mkFPNode 1 None None None [(a, 7); (b, 10)]%nat None;
            mkFPNode 1 a (Some 1%Z) (Some 6%nat) [(b, 8%nat)] None;
            mkFPNode 1 b (Some 1%Z) (Some 7%nat) [(c, 9%nat)] (Some 10%nat);
            mkFPNode 1 c (Some 1%Z) (Some 8%nat) [] (Some 11%nat);
            mkFPNode 1 b (Some 1%Z) (Some 6%nat) [(c, 11%nat)] None;
            mkFPNode 1 c (Some 1%Z) (Some 10%nat) [] None]) 2.

(** What the scenario's call yields. *)
Definition scenario_out : list (emitted string) :=
  [([a], Some 2%Z); ([b], Some 3%Z); ([c], Some 2%Z); ([b; c], Some 2%Z)].

(** Whether a run has ended without an exception. *)
Definition returned {A} (r : Result (Label:=string) A) : bool :=
  match r with Ok _ _ => true | Raise _ _ => false end.

(** The root of a tree and a node for [a] that is not attached yet. *)
Definition store_loose_a : Store string :=
  mkStore [mkFPNode 0 None None None [] None;
           mkFPNode 0 a (Some 1%Z) None [] None] 1.

(** The root of one tree and a node for [a] made for another tree. *)
Definition store_foreign_a : Store string :=
  mkStore [mkFPNode 0 None None None [] None;
           mkFPNode 1 a (Some 1%Z) None [] None] 2.

(** The frame of the scenario with its rows labelled 4, 3, 2, 1, 0, and
    the frame in which the same rows, under the same labels, stand in the
    order of the labels. *)
Definition df_relabelled : DataFrame string :=
  mkDataFrame [4; 3; 2; 1; 0]%Z [a; b; c]
    [[1; 1; 0]; [1; 1; 1]; [1; 0; 0]; [0; 1; 1]; [0; 1; 0]]%Z.


(** Three rows, each the transaction [a], labelled 10, 11 and 12. *)
Definition df_shifted : DataFrame string :=
  mkDataFrame [10; 11; 12]%Z [a] [[1]; [1]; [1]]%Z.
End Scenario.

(** ** Running computations *)

Section Run.
Context {Label : Type} `{EqDecision Label}.
Local Abbreviation Item := (Item Label).
Local Abbreviation M := (M Label).
Implicit Types (s : Store Label) (nd : FPNode Label) (n : nat).

Lemma bind_Ok {A B} (m : M A) (f : A -> M B) s b s' :
  bind m f s = Ok b s' -> exists a s1, m s = Ok a s1 /\ f a s1 = Ok b s'.
Proof.
  unfold bind. destruct (m s) as [a s1|e s1]; [eauto | discriminate].
Qed.

Lemma bind_run {A B} (m : M A) (f : A -> M B) s a s1 :
  m s = Ok a s1 -> bind m f s = f a s1.
Proof. unfold bind. intros ->. reflexivity. Qed.

Lemma ret_Ok {A} (a b : A) s s' : ret a s = Ok b s' -> b = a /\ s' = s.
Proof. unfold ret. intros [= <- <-]. auto. Qed.

Lemma get_node_Ok n s nd s' :
  get_node n s = Ok nd s' -> heap s !! n = Some nd /\ s' = s.
Proof.
  unfold get_node. destruct (heap s !! n); [|discriminate].
  intros [= <- <-]. auto.
Qed.

Lemma get_node_run n s nd : heap s !! n = Some nd -> get_node n s = Ok nd s.
Proof. unfold get_node. intros ->. reflexivity. Qed.

Lemma item_Ok n s i s' :
  FPNode.item n s = Ok i s' ->
  s' = s /\ exists nd, heap s !! n = Some nd /\ _item nd = i.
Proof.
  unfold FPNode.item. intros H0.
  apply bind_Ok in H0 as (nd & s1 & Hg & Hr).
  apply get_node_Ok in Hg as [Hg ->]. apply ret_Ok in Hr as [-> ->]. eauto.
Qed.

Lemma tree_Ok n s t s' :
  FPNode.tree n s = Ok t s' ->
  s' = s /\ exists nd, heap s !! n = Some nd /\ _tree nd = t.
Proof.
  unfold FPNode.tree. intros H0.
  apply bind_Ok in H0 as (nd & s1 & Hg & Hr).
  apply get_node_Ok in Hg as [Hg ->]. apply ret_Ok in Hr as [-> ->]. eauto.
Qed.

Lemma count_Ok n s c s' :
  FPNode.count n s = Ok c s' ->
  s' = s /\ exists nd, heap s !! n = Some nd /\ _count nd = c.
Proof.
  unfold FPNode.count. intros H0.
  apply bind_Ok in H0 as (nd & s1 & Hg & Hr).
  apply get_node_Ok in Hg as [Hg ->]. apply ret_Ok in Hr as [-> ->]. eauto.
Qed.

Lemma parent_Ok n s p s' :
  FPNode.parent n s = Ok p s' ->
  s' = s /\ exists nd, heap s !! n = Some nd /\ _parent nd = p.
Proof.
  unfold FPNode.parent. intros H0.
  apply bind_Ok in H0 as (nd & s1 & Hg & Hr).
  apply get_node_Ok in Hg as [Hg ->]. apply ret_Ok in Hr as [-> ->]. eauto.
Qed.

Lemma neighbor_Ok n s p s' :
  FPNode.neighbor n s = Ok p s' ->
  s' = s /\ exists nd, heap s !! n = Some nd /\ _neighbor nd = p.
Proof.
  unfold FPNode.neighbor. intros H0.
  apply bind_Ok in H0 as (nd & s1 & Hg & Hr).
  apply get_node_Ok in Hg as [Hg ->]. apply ret_Ok in Hr as [-> ->]. eauto.
Qed.

Lemma root_Ok n s b s' :
  FPNode.root n s = Ok b s' ->
  s' = s /\ exists nd, heap s !! n = Some nd /\ FPNode.is_root nd = b.
Proof.
  unfold FPNode.root. intros H0.
  apply bind_Ok in H0 as (nd & s1 & Hg & Hr).
  apply get_node_Ok in Hg as [Hg ->]. apply ret_Ok in Hr as [-> ->]. eauto.
Qed.

Lemma search_Ok n k s r s' :
  FPNode.search n k s = Ok r s' ->
  s' = s /\ exists nd, heap s !! n = Some nd /\ dict_get k (_children nd) = r.
Proof.
  unfold FPNode.search. intros H0.
  apply bind_Ok in H0 as (nd & s1 & Hg & Hr).
  apply get_node_Ok in Hg as [Hg ->]. apply ret_Ok in Hr as [-> ->]. eauto.
Qed.

Lemma new_Ok t i c s n s' :
  FPNode.new t i c s = Ok n s' ->
  n = length (heap s) /\
  s' = mkStore (heap s ++ [mkFPNode t i c None [] None]) (next_tree s).
Proof. unfold FPNode.new, alloc_node. intros [= <- <-]. auto. Qed.

Lemma check_same_tree_Ok n v s u s' :
  FPNode.check_same_tree n (Some v) s = Ok u s' ->
  s' = s /\ exists nd vd, heap s !! n = Some nd /\ heap s !! v = Some vd /\
                          _tree vd = _tree nd.
Proof.
  unfold FPNode.check_same_tree. intros H0.
  apply bind_Ok in H0 as (vt & s1 & Hv & H0).
  apply tree_Ok in Hv as (-> & vd & Hvd & <-).
  apply bind_Ok in H0 as (st & s1 & Hn & H0).
  apply tree_Ok in Hn as (-> & nd & Hnd & <-).
  destruct (decide (_tree vd = _tree nd)); [|discriminate].
  apply ret_Ok in H0 as [_ ->]. eauto 6.
Qed.

Lemma set_parent_Ok n v s u s' :
  FPNode.set_parent n (Some v) s = Ok u s' ->
  exists nd vd, heap s !! n = Some nd /\ heap s !! v = Some vd /\
                _tree vd = _tree nd /\
                s' = upd s n (FPNode.with_parent nd (Some v)).
Proof.
  unfold FPNode.set_parent. intros H0.
  apply bind_Ok in H0 as (? & s1 & Hc & H0).
  apply check_same_tree_Ok in Hc as (-> & nd & vd & Hnd & Hvd & Ht).
  apply bind_Ok in H0 as (nd' & s1 & Hg & H0).
  apply get_node_Ok in Hg as [Hg ->].
  assert (nd' = nd) as -> by congruence.
  unfold set_node in H0. injection H0 as _ <-. eauto 7.
Qed.

Lemma set_neighbor_Ok n v s u s' :
  FPNode.set_neighbor n (Some v) s = Ok u s' ->
  exists nd vd, heap s !! n = Some nd /\ heap s !! v = Some vd /\
                _tree vd = _tree nd /\
                s' = upd s n (FPNode.with_neighbor nd (Some v)).
Proof.
  unfold FPNode.set_neighbor. intros H0.
  apply bind_Ok in H0 as (? & s1 & Hc & H0).
  apply check_same_tree_Ok in Hc as (-> & nd & vd & Hnd & Hvd & Ht).
  apply bind_Ok in H0 as (nd' & s1 & Hg & H0).
  apply get_node_Ok in Hg as [Hg ->].
  assert (nd' = nd) as -> by congruence.
  unfold set_node in H0. injection H0 as _ <-. eauto 7.
Qed.

Lemma add_count_Ok n d s u s' :
  FPNode.add_count n d s = Ok u s' ->
  exists nd c d', heap s !! n = Some nd /\ _count nd = Some c /\ d = Some d' /\
                  s' = upd s n (FPNode.with_count nd (Some (c + d')%Z)).
Proof.
  unfold FPNode.add_count. intros H0.
  apply bind_Ok in H0 as (nd & s1 & Hg & H0).
  apply get_node_Ok in Hg as [Hg ->].
  destruct (_count nd) as [c|] eqn:Hc; [|discriminate].
  destruct d as [d'|]; [|discriminate].
  unfold set_node in H0. injection H0 as _ <-. eauto 8.
Qed.

Lemma increment_Ok n s u s' :
  FPNode.increment n s = Ok u s' ->
  exists nd c, heap s !! n = Some nd /\ _count nd = Some c /\
               s' = upd s n (FPNode.with_count nd (Some (c + 1)%Z)).
Proof.
  unfold FPNode.increment. intros H0.
  apply bind_Ok in H0 as (c0 & s1 & Hc & H0).
  apply count_Ok in Hc as (-> & nd & Hnd & <-).
  destruct (_count nd) eqn:Hc; [|discriminate].
  apply add_count_Ok in H0 as (nd' & c & d' & Hnd' & Hc' & [= <-] & ->).
  assert (nd' = nd) as -> by congruence. eauto 6.
Qed.
End Run.

(** ** Attaching a new node *)

Section Attach.
Context {Label : Type} `{EqDecision Label}.
Local Abbreviation Item := (Item Label).
Local Abbreviation M := (M Label).
Implicit Types (s : Store Label) (nd : FPNode Label) (t : FPTree Label).

Lemma add_Ok (p c : nat) s u s' :
  FPNode.add p c s = Ok u s' ->
  exists pd cd, heap s !! p = Some pd /\ heap s !! c = Some cd /\
    match dict_get (_item cd) (_children pd) with
    | Some _ => s' = s
    | None =>
        let s1 := upd s p (FPNode.with_children pd
                             (dict_set (_item cd) c (_children pd))) in
        exists cd', heap s1 !! c = Some cd' /\ _tree pd = _tree cd' /\
                    s' = upd s1 c (FPNode.with_parent cd' (Some p))
    end.
Proof.
  unfold FPNode.add. intros H0.
  apply bind_Ok in H0 as (ci & s1 & Hi & H0).
  apply item_Ok in Hi as (-> & cd & Hcd & <-).
  apply bind_Ok in H0 as (pd & s1 & Hg & H0).
  apply get_node_Ok in Hg as [Hpd ->].
  exists pd, cd. split; [done|]. split; [done|].
  unfold dict_mem in H0.
  destruct (dict_get (_item cd) (_children pd)) eqn:Hm.
  - apply ret_Ok in H0 as [_ ->]. done.
  - apply bind_Ok in H0 as ([] & s1 & Hs & H0).
    unfold set_node in Hs. injection Hs as <-.
    apply set_parent_Ok in H0 as (cd' & pd' & Hc' & Hp' & Ht & ->).
    exists cd'. split; [done|]. split; [|done].
    cbn [heap] in Hp'. rewrite list_lookup_insert_eq in Hp'
      by (eapply lookup_lt_Some; eauto).
    injection Hp' as <-. cbn in Ht. done.
Qed.

Lemma update_route_Ok t (point : nat) s t' s' :
  FPTree._update_route t point s = Ok t' s' ->
  exists nd, heap s !! point = Some nd /\ _tree nd = tree_id t /\
    t' = mkFPTree (tree_id t) (_root t) (routed (_routes t) point (_item nd)) /\
    match dict_get (_item nd) (_routes t) with
    | Some route =>
        exists td, heap s !! snd route = Some td /\ _tree td = tree_id t /\
          s' = upd s (snd route) (FPNode.with_neighbor td (Some point))
    | None => s' = s
    end.
Proof.
  unfold FPTree._update_route. intros H0.
  apply bind_Ok in H0 as (pt & s1 & Ht & H0).
  apply tree_Ok in Ht as (-> & nd & Hnd & <-).
  destruct (decide (tree_id t = _tree nd)) as [Heq|]; [|discriminate].
  apply bind_Ok in H0 as (pi & s1 & Hi & H0).
  apply item_Ok in Hi as (-> & nd' & Hnd' & <-).
  assert (nd' = nd) as -> by congruence.
  exists nd. split; [done|]. split; [done|].
  unfold routed. destruct (dict_get (_item nd) (_routes t)) as [route|] eqn:Hr.
  - apply bind_Ok in H0 as ([] & s1 & Hs & H0).
    apply ret_Ok in H0 as [-> ->].
    apply set_neighbor_Ok in Hs as (td & vd & Htd & Hvd & Htt & ->).
    split; [done|]. exists td. split; [done|]. split; [|done].
    assert (vd = nd) as -> by congruence. congruence.
  - apply ret_Ok in H0 as [-> ->]. done.
Qed.

Lemma attach_Ok t (point : nat) (k : Item) (c : option Z) s np s1 u s2 t' s3
  (pd : FPNode Label) :
  heap s !! point = Some pd ->
  dict_get k (_children pd) = None ->
  (forall route, dict_get k (_routes t) = Some route ->
                 (snd route < length (heap s))%nat) ->
  FPNode.new (tree_id t) k c s = Ok np s1 ->
  FPNode.add point np s1 = Ok u s2 ->
  FPTree._update_route t np s2 = Ok t' s3 ->
  np = length (heap s) /\ _tree pd = tree_id t /\
  next_tree s3 = next_tree s /\
  t' = mkFPTree (tree_id t) (_root t) (routed (_routes t) np k) /\
  length (heap s3) = S (length (heap s)) /\
  heap s3 !! np = Some (mkFPNode (tree_id t) k c (Some point) [] None) /\
  (forall n nd, heap s !! n = Some nd ->
                heap s3 !! n = Some (attached (_routes t) point np k n nd)) /\
  (forall route, dict_get k (_routes t) = Some route ->
     exists td, heap s !! snd route = Some td /\ _tree td = tree_id t).
Proof.
  intros Hpd Hnone Htl Hnew Hadd Hupd.
  apply new_Ok in Hnew as [-> ->].
  assert (Hlt : (point < length (heap s))%nat) by (eapply lookup_lt_Some; eauto).
  set (new := mkFPNode (tree_id t) k c None [] None) in *.
  apply add_Ok in Hadd as (pd' & cd & Hp' & Hc & Hadd).
  cbn [heap] in Hp', Hc.
  rewrite lookup_app_l in Hp' by done.
  assert (pd' = pd) as -> by congruence.
  rewrite list_lookup_middle in Hc by done. injection Hc as <-.
  cbn [_item new] in Hadd. rewrite Hnone in Hadd.
  destruct Hadd as (cd' & Hcd' & Htree & ->).
  cbn [heap upd] in Hcd'.
  rewrite list_lookup_insert_ne in Hcd' by lia.
  rewrite list_lookup_middle in Hcd' by done. injection Hcd' as <-.
  cbn [_tree new] in Htree.
  apply update_route_Ok in Hupd as (nd & Hnd & _ & -> & Hupd).
  cbn [heap upd] in Hnd.
  rewrite list_lookup_insert_eq in Hnd
    by (rewrite length_insert, length_app; cbn; lia).
  injection Hnd as <-. cbn [_item FPNode.with_parent new] in Hupd |- *.
  split; [done|]. split; [done|].
  set (h2 := <[length (heap s) := FPNode.with_parent new (Some point)]>
               (<[point := FPNode.with_children pd
                    (dict_set k (length (heap s)) (_children pd))]>
                  (heap s ++ [new]))) in *.
  assert (Hlen2 : length h2 = S (length (heap s))).
  { unfold h2. rewrite !length_insert, length_app. cbn. lia. }
  assert (Hnew2 : h2 !! length (heap s) =
                  Some (mkFPNode (tree_id t) k c (Some point) [] None)).
  { unfold h2. rewrite list_lookup_insert_eq; [done|].
    rewrite length_insert, length_app. cbn. lia. }
  assert (Hold2 : forall n nd, heap s !! n = Some nd ->
            h2 !! n = Some (if decide (n = point)
                            then FPNode.with_children nd
                                   (dict_set k (length (heap s)) (_children nd))
                            else nd)).
  { intros n nd Hn.
    assert ((n < length (heap s))%nat) by (eapply lookup_lt_Some; eauto).
    unfold h2. rewrite list_lookup_insert_ne by lia.
    destruct (decide (n = point)) as [->|Hne].
    - rewrite list_lookup_insert_eq by (rewrite length_app; lia). congruence.
    - rewrite list_lookup_insert_ne by done. rewrite lookup_app_l by done. done. }
  unfold attached.
  destruct (dict_get k (_routes t)) as [route|] eqn:Hr.
  - destruct Hupd as (td & Htd & Htt & ->).
    specialize (Htl route eq_refl).
    destruct (lookup_lt_is_Some_2 (heap s) (snd route) Htl) as [td0 Htd0].
    cbn [heap upd] in Htd. fold h2 in Htd.
    rewrite (Hold2 _ _ Htd0) in Htd. injection Htd as <-.
    cbn [heap upd next_tree]. fold h2.
    split; [done|]. split; [done|].
    split; [rewrite length_insert; done|].
    split; [rewrite list_lookup_insert_ne by lia; done|].
    split.
    + intros n nd Hn.
      destruct (decide (n = snd route)) as [->|Hne].
      * rewrite list_lookup_insert_eq by (rewrite Hlen2; lia).
        assert (nd = td0) as -> by congruence.
        destruct (decide (snd route = point)); done.
      * rewrite list_lookup_insert_ne by done. rewrite (Hold2 _ _ Hn).
        destruct (decide (n = point)); destruct nd; done.
    + intros route' [= <-]. exists td0. split; [done|].
      rewrite <- Htt. destruct (decide (snd route = point)); done.
  - subst s3. cbn [heap upd next_tree]. fold h2.
    split; [done|]. split; [done|]. split; [done|]. split; [done|].
    split; [|intros ? [=]].
    intros n nd Hn. rewrite (Hold2 _ _ Hn).
    destruct (decide (n = point)); destruct nd; done.
Qed.
End Attach.

(** ** Routes *)

Section Routes.
Context {Label : Type} `{EqDecision Label}.
Local Abbreviation Item := (Item Label).
Local Abbreviation M := (M Label).
Implicit Types (s : Store Label) (nd : FPNode Label) (t : FPTree Label).
Implicit Types (k : Item) (l : list nat).

Lemma dict_get_set_eq {V} (k : Item) (v : V) (d : dict Item V) :
  dict_get k (dict_set k v d) = Some v.
Proof.
  induction d as [|[k' v'] d IH]; cbn.
  - destruct (decide (k = k)); done.
  - destruct (decide (k = k')) as [->|Hne]; cbn.
    + destruct (decide (k' = k')); done.
    + destruct (decide (k = k')); done.
Qed.

Lemma dict_get_set_ne {V} (k k' : Item) (v : V) (d : dict Item V) :
  k <> k' -> dict_get k' (dict_set k v d) = dict_get k' d.
Proof.
  intros Hne. induction d as [|[k0 v0] d IH]; cbn.
  - destruct (decide (k' = k)); congruence.
  - destruct (decide (k = k0)) as [->|Hne0]; cbn.
    + destruct (decide (k' = k0)); congruence.
    + destruct (decide (k' = k0)); done.
Qed.

Lemma filter_iff_elem {A} (P Q : A -> Prop) `{forall x, Decision (P x)}
  `{forall x, Decision (Q x)} (l : list A) :
  (forall x, x ∈ l -> P x <-> Q x) -> filter P l = filter Q l.
Proof.
  induction l as [|x l IH]; intros HPQ; [done|].
  rewrite !filter_cons.
  rewrite IH by (intros y Hy; apply HPQ; right; done).
  pose proof (HPQ x (list_elem_of_here x l)) as Hx.
  destruct (decide (P x)), (decide (Q x)); tauto.
Qed.

Lemma elem_of_nodes_of s (t : nat) k (n : nat) :
  n ∈ nodes_of s t k <-> carries_at s t k n.
Proof.
  unfold nodes_of. rewrite list_elem_of_filter, elem_of_seq.
  split; [tauto|]. intros Hc. split; [done|].
  unfold carries_at in Hc. destruct (heap s !! n) eqn:E; [|done].
  apply lookup_lt_Some in E. lia.
Qed.

Lemma nodes_of_NoDup s (t : nat) k : NoDup (nodes_of s t k).
Proof. apply NoDup_filter, NoDup_seq. Qed.

Lemma nodes_of_length s (t : nat) k :
  (length (nodes_of s t k) <= length (heap s))%nat.
Proof.
  unfold nodes_of.
  etransitivity; [apply length_filter|]. rewrite length_seq. done.
Qed.

Lemma nodes_of_lt s (t : nat) k (n : nat) :
  n ∈ nodes_of s t k -> (n < length (heap s))%nat.
Proof.
  unfold nodes_of. rewrite list_elem_of_filter, elem_of_seq. lia.
Qed.

Lemma nodes_of_same s s' (t : nat) k :
  length (heap s') = length (heap s) ->
  (forall n, carries_at s' t k n <-> carries_at s t k n) ->
  nodes_of s' t k = nodes_of s t k.
Proof.
  unfold nodes_of. intros -> Hc. apply filter_iff_elem. intros; apply Hc.
Qed.

Lemma nodes_of_snoc s s' (t : nat) k :
  length (heap s') = S (length (heap s)) ->
  (forall n, (n < length (heap s))%nat ->
             carries_at s' t k n <-> carries_at s t k n) ->
  nodes_of s' t k =
    nodes_of s t k ++
    (if decide (carries_at s' t k (length (heap s)))
     then [length (heap s)] else []).
Proof.
  unfold nodes_of. intros -> Hc. rewrite seq_S, filter_app. f_equal.
  apply filter_iff_elem. intros n Hn. apply Hc.
  apply elem_of_seq in Hn. lia.
Qed.

Lemma nodes_of_sorted s (t : nat) k : StronglySorted lt (nodes_of s t k).
Proof.
  unfold nodes_of. generalize 0%nat.
  induction (length (heap s)) as [|m IH]; intros j; cbn [seq].
  - rewrite filter_nil. constructor.
  - rewrite filter_cons. destruct (decide (carries_at s t k j)); [|apply IH].
    constructor; [apply IH|].
    apply Forall_forall. intros x Hx.
    apply list_elem_of_filter in Hx as [_ Hx]. apply elem_of_seq in Hx. lia.
Qed.

Lemma links_tail s (n : nat) l : links s (n :: l) -> links s l.
Proof. intros Hl i m Hi. apply (Hl (S i) m). done. Qed.

Lemma nodes_from_links s l :
  links s l -> forall fuel, (length l < fuel)%nat ->
  FPTree.nodes_from fuel (head l) s = Ok l s.
Proof.
  induction l as [|n l IH]; intros Hl fuel Hf.
  - destruct fuel; done.
  - destruct fuel as [|fuel]; [cbn in Hf; lia|].
    destruct (Hl 0%nat n eq_refl) as (nd & Hnd & Hnb).
    cbn [head FPTree.nodes_from].
    unfold FPNode.neighbor, bind, get_node, ret. rewrite Hnd, Hnb.
    change ((n :: l) !! 1%nat) with (l !! 0%nat). rewrite <- head_lookup.
    rewrite IH; [done|eapply links_tail; done|cbn in Hf; lia].
Qed.

Lemma nodes_route_inv s t k :
  route_inv s t -> FPTree.nodes t k s = Ok (nodes_of s (tree_id t) k) s.
Proof.
  intros Hinv. destruct (Hinv k) as [Hl Hr]. unfold FPTree.nodes.
  destruct (dict_get k (_routes t)) as [route|].
  - destruct Hr as [Hh _]. unfold bind, get_store. rewrite <- Hh.
    apply nodes_from_links; [done|].
    pose proof (nodes_of_length s (tree_id t) k). lia.
  - rewrite Hr. done.
Qed.

(** A write that keeps a node's tree, item, root status and neighbor
    keeps every route. *)
Lemma route_inv_upd s t (n : nat) nd nd' :
  heap s !! n = Some nd ->
  _tree nd' = _tree nd -> _item nd' = _item nd ->
  FPNode.is_root nd' = FPNode.is_root nd ->
  _neighbor nd' = _neighbor nd ->
  route_inv s t -> route_inv (upd s n nd') t.
Proof.
  intros Hnd Ht Hi Hr Hn Hinv k.
  assert (Hlt : (n < length (heap s))%nat) by (eapply lookup_lt_Some; done).
  assert (Hsame : nodes_of (upd s n nd') (tree_id t) k =
                  nodes_of s (tree_id t) k).
  { apply nodes_of_same; cbn [heap upd]; [apply length_insert|].
    intros m. unfold carries_at. cbn [heap upd].
    destruct (decide (n = m)) as [<-|Hne].
    - rewrite list_lookup_insert_eq by done. rewrite Hnd.
      unfold carries. rewrite Ht, Hi, Hr. done.
    - rewrite list_lookup_insert_ne by done. done. }
  rewrite Hsame. destruct (Hinv k) as [Hl Hrt]. split; [|done].
  intros i m Him. destruct (Hl i m Him) as (md & Hmd & Hnb).
  cbn [heap upd]. destruct (decide (n = m)) as [<-|Hne].
  - rewrite list_lookup_insert_eq by done. exists nd'.
    split; [done|]. congruence.
  - rewrite list_lookup_insert_ne by done. eauto.
Qed.

Lemma attached_carries (routes : dict Item (nat * nat)) (point np : nat)
  (k0 : Item) (n : nat) nd (t : nat) k :
  carries t k (attached routes point np k0 n nd) <-> carries t k nd.
Proof. unfold carries, attached, FPNode.is_root. cbn. done. Qed.

(** Once a new node for [k] has been attached, the routes go through it. *)
Lemma route_inv_attach s s3 t (point : nat) k (c : option Z) :
  let np := length (heap s) in
  route_inv s t ->
  length (heap s3) = S (length (heap s)) ->
  heap s3 !! np = Some (mkFPNode (tree_id t) k c (Some point) [] None) ->
  (forall n nd, heap s !! n = Some nd ->
                heap s3 !! n = Some (attached (_routes t) point np k n nd)) ->
  FPNode.is_root (mkFPNode (tree_id t) k c (Some point) [] None) = false ->
  route_inv s3 (mkFPTree (tree_id t) (_root t) (routed (_routes t) np k)).
Proof.
  intros np Hinv Hlen Hnew Hold Hnr k'. cbn [tree_id _routes].
  assert (Hsnoc : nodes_of s3 (tree_id t) k' =
                  nodes_of s (tree_id t) k' ++
                  (if decide (k' = k) then [np] else [])).
  { rewrite (nodes_of_snoc s s3) by
      (try done; intros n Hn; unfold carries_at;
       destruct (lookup_lt_is_Some_2 (heap s) n Hn) as [nd Hnd];
       rewrite Hnd, (Hold _ _ Hnd); apply attached_carries).
    f_equal. fold np.
    assert (Hiff : carries_at s3 (tree_id t) k' np <-> k' = k).
    { unfold carries_at. rewrite Hnew. unfold carries. cbn [_tree _item].
      split; [intros (_ & Hi & _); done|intros ->; done]. }
    destruct (decide (carries_at s3 (tree_id t) k' np)),
      (decide (k' = k)); tauto. }
  rewrite Hsnoc. clear Hsnoc.
  destruct (Hinv k') as [Hl Hr]. destruct (Hinv k) as [_ Hrk].
  set (l := nodes_of s (tree_id t) k') in *.
  destruct (decide (k' = k)) as [->|Hne].
  - (* the route of [k] *)
    unfold routed. rewrite dict_get_set_eq. cbn [fst snd].
    split.
    + intros i n Hi. apply lookup_snoc_Some in Hi as [[Hlt Hi]|[-> <-]].
      * destruct (Hl i n Hi) as (nd & Hnd & Hnb).
        exists (attached (_routes t) point np k n nd).
        split; [apply Hold; done|]. unfold attached. cbn [_neighbor].
        destruct (dict_get k (_routes t)) as [route|].
        -- destruct Hr as [_ Hlast]. rewrite last_lookup in Hlast.
           destruct (decide (n = snd route)) as [->|Hn].
           ++ pose proof (NoDup_lookup _ _ _ _
                            (nodes_of_NoDup s (tree_id t) k) Hi Hlast) as ->.
              replace (S (pred (length l))) with (length l) by lia.
              rewrite list_lookup_middle; done.
           ++ rewrite Hnb. destruct (decide (S i < length l)%nat).
              ** rewrite lookup_app_l by done. done.
              ** exfalso. apply Hn.
                 replace (pred (length l)) with i in Hlast by lia.
                 congruence.
        -- rewrite Hr in Hi. done.
      * exists (mkFPNode (tree_id t) k c (Some point) [] None).
        split; [done|]. cbn [_neighbor]. symmetry. apply lookup_ge_None.
        rewrite length_app. cbn. lia.
    + rewrite last_snoc. split; [|done].
      destruct (dict_get k (_routes t)) as [route|].
      * destruct Hr as [Hh _]. destruct l; [done|]. done.
      * rewrite Hr. done.
  - (* the other routes *)
    rewrite app_nil_r. unfold routed. rewrite dict_get_set_ne by done.
    split; [|done].
    intros i n Hi. destruct (Hl i n Hi) as (nd & Hnd & Hnb).
    exists (attached (_routes t) point np k n nd).
    split; [apply Hold; done|]. unfold attached. cbn [_neighbor].
    destruct (dict_get k (_routes t)) as [route|]; [|done].
    destruct (decide (n = snd route)) as [->|Hn]; [|done].
    exfalso. destruct Hrk as [_ Hlast].
    apply last_Some_elem_of, elem_of_nodes_of in Hlast.
    apply list_elem_of_lookup_2, elem_of_nodes_of in Hi.
    unfold carries_at in Hlast, Hi. rewrite Hnd in Hlast, Hi.
    destruct Hlast as (_ & ? & _), Hi as (_ & ? & _). congruence.
Qed.

Lemma route_tail_lt s t k (route : nat * nat) :
  route_inv s t -> dict_get k (_routes t) = Some route ->
  (snd route < length (heap s))%nat.
Proof.
  intros Hinv Hr. destruct (Hinv k) as [_ Hk]. rewrite Hr in Hk.
  destruct Hk as [_ Hlast]. apply last_Some_elem_of in Hlast.
  eapply nodes_of_lt; done.
Qed.

Lemma add_from_route_inv (transaction : list Item) :
  forall t (point : nat) s t' s',
    route_inv s t ->
    FPTree.add_from t point transaction s = Ok t' s' ->
    route_inv s' t' /\ tree_id t' = tree_id t.
Proof.
  induction transaction as [|item rest IH]; intros t point s t' s' Hinv Hrun.
  - apply ret_Ok in Hrun as [-> ->]. done.
  - cbn [FPTree.add_from] in Hrun.
    apply bind_Ok in Hrun as (next_point & s1 & Hs & Hrun).
    apply search_Ok in Hs as (-> & pd & Hpd & Hget).
    destruct next_point as [np|].
    + apply bind_Ok in Hrun as ([] & s1 & Hi & Hrun).
      apply increment_Ok in Hi as (nd & c & Hnd & Hc & ->).
      eapply IH; [|done].
      eapply route_inv_upd; try done.
      unfold FPNode.is_root. cbn. rewrite Hc. destruct (_item nd); done.
    + apply bind_Ok in Hrun as (np & s1 & Hnew & Hrun).
      apply bind_Ok in Hrun as ([] & s2 & Hadd & Hrun).
      apply bind_Ok in Hrun as (t1 & s3 & Hupd & Hrun).
      destruct (attach_Ok _ _ _ _ _ _ _ _ _ _ _ _ Hpd Hget
                  (fun route => route_tail_lt s t item route Hinv)
                  Hnew Hadd Hupd)
        as (-> & _ & _ & -> & Hlen & Hnp & Hold & _).
      apply IH in Hrun as [Hinv' Hid]; [done|].
      eapply route_inv_attach; try done.
      unfold FPNode.is_root. cbn. destruct item; done.
Qed.

Lemma new_tree_Ok s t s' :
  FPTree.new s = Ok t s' ->
  t = mkFPTree (next_tree s) (length (heap s)) [] /\
  s' = mkStore (heap s ++ [root_node (next_tree s)]) (S (next_tree s)).
Proof. unfold FPTree.new. cbn. intros [= <- <-]. done. Qed.

Lemma route_inv_new s :
  store_ok s ->
  route_inv (mkStore (heap s ++ [root_node (next_tree s)]) (S (next_tree s)))
            (mkFPTree (next_tree s) (length (heap s)) []).
Proof.
  intros Hok k. cbn [tree_id _routes dict_get].
  assert (Hnil : nodes_of (mkStore (heap s ++ [root_node (next_tree s)])
                                   (S (next_tree s))) (next_tree s) k = []).
  { match goal with |- ?l = [] => destruct l as [|n l'] eqn:Hl end; [done|].
    exfalso. assert (Hc : n ∈ n :: l') by left. rewrite <- Hl in Hc.
    apply elem_of_nodes_of in Hc.
    unfold carries_at in Hc. cbn [heap] in Hc.
    destruct ((heap s ++ [root_node (next_tree s)]) !! n) as [nd|] eqn:Hn;
      [|done].
    apply lookup_snoc_Some in Hn as [[_ Hn]|[_ <-]].
    - apply Hok in Hn. destruct Hc as (Ht & _). lia.
    - destruct Hc as (_ & _ & Hr). done. }
  rewrite Hnil. split; [|done]. intros i n Hi. done.
Qed.

Lemma add_all_route_inv (ts : list (list Item)) :
  forall t s t' s',
    route_inv s t -> add_all t ts s = Ok t' s' ->
    route_inv s' t' /\ tree_id t' = tree_id t.
Proof.
  induction ts as [|tr ts IH]; intros t s t' s' Hinv Hrun.
  - apply ret_Ok in Hrun as [-> ->]. done.
  - cbn [add_all] in Hrun.
    apply bind_Ok in Hrun as (t1 & s1 & Hadd & Hrun).
    apply add_from_route_inv in Hadd as [Hinv1 Hid1]; [|done].
    apply IH in Hrun as [Hinv' Hid]; [|done]. split; [done|congruence].
Qed.

Lemma nodes_after_build (ts : list (list Item)) s t s' k :
  store_ok s ->
  build_from ts s = Ok t s' ->
  exists l,
    FPTree.nodes t k s' = Ok l s' /\
    (forall n, n ∈ l <->
       exists nd, heap s' !! n = Some nd /\ carries (tree_id t) k nd) /\
    NoDup l /\
    StronglySorted lt l.
Proof.
  intros Hok Hrun. unfold build_from in Hrun.
  apply bind_Ok in Hrun as (t0 & s0 & Hnew & Hrun).
  apply new_tree_Ok in Hnew as [-> ->].
  apply add_all_route_inv in Hrun as [Hinv _]; [|apply route_inv_new; done].
  exists (nodes_of s' (tree_id t) k).
  split; [apply nodes_route_inv; done|].
  split; [|split; [apply nodes_of_NoDup|apply nodes_of_sorted]].
  intros n. rewrite elem_of_nodes_of. unfold carries_at.
  destruct (heap s' !! n) as [nd|].
  - split; [eauto|]. intros (nd' & [= <-] & Hc). done.
  - split; [done|]. intros (nd' & [=] & _).
Qed.
End Routes.

(** ** Insertions return *)

Section Insertion.
Context {Label : Type} `{EqDecision Label}.
Local Abbreviation Item := (Item Label).
Local Abbreviation M := (M Label).
Implicit Types (s : Store Label) (nd : FPNode Label) (t : FPTree Label).
Implicit Types (k : Item).

Lemma item_run (n : nat) s nd :
  heap s !! n = Some nd -> FPNode.item n s = Ok (_item nd) s.
Proof. intros Hn. unfold FPNode.item, bind, get_node. rewrite Hn. done. Qed.

Lemma tree_run (n : nat) s nd :
  heap s !! n = Some nd -> FPNode.tree n s = Ok (_tree nd) s.
Proof. intros Hn. unfold FPNode.tree, bind, get_node. rewrite Hn. done. Qed.

Lemma search_run (n : nat) k s nd :
  heap s !! n = Some nd ->
  FPNode.search n k s = Ok (dict_get k (_children nd)) s.
Proof. intros Hn. unfold FPNode.search, bind, get_node. rewrite Hn. done. Qed.

Lemma increment_run (n : nat) s nd (c : Z) :
  heap s !! n = Some nd -> _count nd = Some c ->
  FPNode.increment n s =
    Ok tt (upd s n (FPNode.with_count nd (Some (c + 1)%Z))).
Proof.
  intros Hn Hc.
  unfold FPNode.increment, FPNode.count, FPNode.add_count, bind, get_node, ret.
  rewrite Hn, Hc, Hn, Hc. done.
Qed.

Lemma check_same_tree_run (n v : nat) s nd (vd : FPNode Label) :
  heap s !! n = Some nd -> heap s !! v = Some vd -> _tree vd = _tree nd ->
  FPNode.check_same_tree n (Some v) s = Ok tt s.
Proof.
  intros Hn Hv Ht. unfold FPNode.check_same_tree.
  rewrite (bind_run _ _ _ _ _ (tree_run v s vd Hv)).
  rewrite (bind_run _ _ _ _ _ (tree_run n s nd Hn)).
  destruct (decide (_tree vd = _tree nd)); done.
Qed.

Lemma set_parent_run (n v : nat) s nd (vd : FPNode Label) :
  heap s !! n = Some nd -> heap s !! v = Some vd -> _tree vd = _tree nd ->
  FPNode.set_parent n (Some v) s =
    Ok tt (upd s n (FPNode.with_parent nd (Some v))).
Proof.
  intros Hn Hv Ht. unfold FPNode.set_parent.
  rewrite (bind_run _ _ _ _ _ (check_same_tree_run n v s nd vd Hn Hv Ht)).
  rewrite (bind_run _ _ _ _ _ (get_node_run n s nd Hn)). done.
Qed.

Lemma set_neighbor_run (n v : nat) s nd (vd : FPNode Label) :
  heap s !! n = Some nd -> heap s !! v = Some vd -> _tree vd = _tree nd ->
  FPNode.set_neighbor n (Some v) s =
    Ok tt (upd s n (FPNode.with_neighbor nd (Some v))).
Proof.
  intros Hn Hv Ht. unfold FPNode.set_neighbor.
  rewrite (bind_run _ _ _ _ _ (check_same_tree_run n v s nd vd Hn Hv Ht)).
  rewrite (bind_run _ _ _ _ _ (get_node_run n s nd Hn)). done.
Qed.

Lemma add_run (p c : nat) s (pd cd : FPNode Label) :
  heap s !! p = Some pd -> heap s !! c = Some cd -> p <> c ->
  dict_get (_item cd) (_children pd) = None -> _tree pd = _tree cd ->
  exists s', FPNode.add p c s = Ok tt s'.
Proof.
  intros Hp Hc Hne Hget Ht. unfold FPNode.add.
  rewrite (bind_run _ _ _ _ _ (item_run c s cd Hc)).
  rewrite (bind_run _ _ _ _ _ (get_node_run p s pd Hp)).
  unfold dict_mem. rewrite Hget.
  unfold bind at 1. unfold set_node at 1.
  eexists. eapply set_parent_run.
  - cbn [heap]. rewrite list_lookup_insert_ne by done. exact Hc.
  - cbn [heap]. apply list_lookup_insert_eq. eapply lookup_lt_Some. exact Hp.
  - cbn. done.
Qed.

Lemma update_route_run t (np : nat) s nd :
  heap s !! np = Some nd -> _tree nd = tree_id t ->
  (forall route, dict_get (_item nd) (_routes t) = Some route ->
     exists td, heap s !! snd route = Some td /\ _tree td = tree_id t) ->
  exists t' s', FPTree._update_route t np s = Ok t' s'.
Proof.
  intros Hn Ht Htail. unfold FPTree._update_route.
  rewrite (bind_run _ _ _ _ _ (tree_run np s nd Hn)).
  destruct (decide (tree_id t = _tree nd)); [|congruence].
  rewrite (bind_run _ _ _ _ _ (item_run np s nd Hn)).
  destruct (dict_get (_item nd) (_routes t)) as [route|] eqn:Hr.
  - destruct (Htail route eq_refl) as (td & Htd & Htt).
    rewrite (bind_run _ _ _ _ _
               (set_neighbor_run (snd route) np s td nd Htd Hn
                  ltac:(congruence))).
    eauto.
  - eauto.
Qed.

(** Creating a node, adding it below [point] and entering it in the
    routes raises nothing when [point] and the tail of the item's route
    are nodes of the tree. *)
Lemma attach_run t (point : nat) k (c : option Z) s (pd : FPNode Label) :
  heap s !! point = Some pd -> _tree pd = tree_id t ->
  dict_get k (_children pd) = None ->
  (forall route, dict_get k (_routes t) = Some route ->
     exists td, heap s !! snd route = Some td /\ _tree td = tree_id t) ->
  exists s1 s2 t' s3,
    FPNode.new (tree_id t) k c s = Ok (length (heap s)) s1 /\
    FPNode.add point (length (heap s)) s1 = Ok tt s2 /\
    FPTree._update_route t (length (heap s)) s2 = Ok t' s3.
Proof.
  intros Hpd Hpt Hget Htail.
  assert (Hlt : (point < length (heap s))%nat)
    by (eapply lookup_lt_Some; exact Hpd).
  set (new := mkFPNode (tree_id t) k c None [] None).
  set (s1 := mkStore (heap s ++ [new]) (next_tree s)).
  assert (Hnew1 : heap s1 !! length (heap s) = Some new).
  { cbn [heap s1]. apply list_lookup_middle. done. }
  assert (Hpd1 : heap s1 !! point = Some pd).
  { cbn [heap s1]. apply lookup_app_l_Some. done. }
  destruct (add_run point (length (heap s)) s1 pd new Hpd1 Hnew1) as [s2 Hadd];
    [lia|done|done|].
  exists s1, s2. 
  pose proof Hadd as Hadd'.
  apply add_Ok in Hadd' as (pd' & cd & Hp' & Hc' & Hs2).
  rewrite Hpd1 in Hp'. injection Hp' as <-.
  rewrite Hnew1 in Hc'. injection Hc' as <-.
  cbn [_item new] in Hs2. rewrite Hget in Hs2.
  destruct Hs2 as (cd' & Hcd' & _ & ->).
  cbn [heap upd] in Hcd'. rewrite list_lookup_insert_ne in Hcd' by lia.
  rewrite Hnew1 in Hcd'. injection Hcd' as <-.
  set (pd1 := FPNode.with_children pd
                (dict_set k (length (heap s)) (_children pd))) in *.
  set (s2 := upd (upd s1 point pd1) (length (heap s))
               (FPNode.with_parent new (Some point))) in *.
  assert (Hnp2 : heap s2 !! length (heap s) =
                 Some (FPNode.with_parent new (Some point))).
  { cbn [heap upd s2]. apply list_lookup_insert_eq.
    rewrite length_insert. cbn [heap s1]. rewrite length_app. cbn. lia. }
  destruct (update_route_run t (length (heap s)) s2 _ Hnp2) as (t' & s3 & Hupd);
    [done| |eauto 6].
  cbn [_item FPNode.with_parent new]. intros route Hr.
  destruct (Htail route Hr) as (td & Htd & Htt).
  assert (Hrlt : (snd route < length (heap s))%nat)
    by (eapply lookup_lt_Some; exact Htd).
  cbn [heap upd s2]. rewrite list_lookup_insert_ne by lia.
  destruct (decide (point = snd route)) as [Heq|Hne].
  - rewrite <- Heq. rewrite list_lookup_insert_eq
      by (cbn [heap s1]; rewrite length_app; lia).
    exists pd1. split; [done|]. done.
  - rewrite list_lookup_insert_ne by done. exists td.
    split; [|done]. cbn [heap s1]. apply lookup_app_l_Some. done.
Qed.

Lemma tree_ok_upd_count s t (n : nat) nd (c : Z) :
  heap s !! n = Some nd -> tree_ok s t ->
  tree_ok (upd s n (FPNode.with_count nd (Some c))) t.
Proof.
  intros Hn [Hroot Hch Hrt].
  assert (Hlt : (n < length (heap s))%nat) by (eapply lookup_lt_Some; done).
  assert (Hkeep : forall m md, heap s !! m = Some md ->
            exists md', heap (upd s n (FPNode.with_count nd (Some c))) !! m
                        = Some md' /\ _tree md' = _tree md /\
                        (is_Some (_count md) -> is_Some (_count md'))).
  { intros m md Hm. cbn [heap upd]. destruct (decide (n = m)) as [<-|Hne].
    - rewrite list_lookup_insert_eq by done. eexists. split; [done|].
      assert (md = nd) as -> by congruence. split; [done|]. cbn. eauto.
    - rewrite list_lookup_insert_ne by done. eauto. }
  split.
  - destruct Hroot as (rd & Hrd & Hrt').
    destruct (Hkeep _ _ Hrd) as (rd' & Hrd' & Ht' & _).
    eexists. split; [done|congruence].
  - intros m md' k ch Hm Ht Hget.
    assert (exists md, heap s !! m = Some md /\ _tree md = tree_id t /\
                       _children md = _children md') as (md & Hmd & Hmt & Hmc).
    { cbn [heap upd] in Hm. destruct (decide (n = m)) as [<-|Hne].
      - rewrite list_lookup_insert_eq in Hm by done. injection Hm as <-.
        exists nd. done.
      - rewrite list_lookup_insert_ne in Hm by done. eauto. }
    rewrite <- Hmc in Hget.
    destruct (Hch m md k ch Hmd Hmt Hget) as (cd & Hcd & Hct & Hcc).
    destruct (Hkeep _ _ Hcd) as (cd' & Hcd' & Hct' & Hcc').
    eexists. split; [done|]. split; [congruence|auto].
  - intros k route Hr. destruct (Hrt k route Hr) as (td & Htd & Htt).
    destruct (Hkeep _ _ Htd) as (td' & Htd' & Htt' & _).
    eexists. split; [done|congruence].
Qed.

Lemma tree_ok_attach s s3 t (point : nat) k (c : Z) :
  let np := length (heap s) in
  tree_ok s t ->
  length (heap s3) = S (length (heap s)) ->
  heap s3 !! np = Some (mkFPNode (tree_id t) k (Some c) (Some point) [] None) ->
  (forall n nd, heap s !! n = Some nd ->
                heap s3 !! n = Some (attached (_routes t) point np k n nd)) ->
  tree_ok s3 (mkFPTree (tree_id t) (_root t) (routed (_routes t) np k)).
Proof.
  intros np [Hroot Hch Hrt] Hlen Hnew Hold.
  assert (Hcase : forall n nd3, heap s3 !! n = Some nd3 ->
            (n = np /\ nd3 = mkFPNode (tree_id t) k (Some c) (Some point)
                               [] None) \/
            (exists nd, heap s !! n = Some nd /\
                        nd3 = attached (_routes t) point np k n nd)).
  { intros n nd3 Hn3. destruct (decide (n < length (heap s))%nat) as [Hlt|Hge].
    - destruct (lookup_lt_is_Some_2 _ _ Hlt) as [nd Hnd]. right. exists nd.
      split; [done|]. rewrite (Hold _ _ Hnd) in Hn3. congruence.
    - apply lookup_lt_Some in Hn3 as Hlt3. left.
      assert (n = np) as -> by (unfold np; lia). split; congruence. }
  split; cbn [tree_id _root _routes].
  - destruct Hroot as (rd & Hrd & Hrt').
    eexists. split; [apply Hold; done|]. done.
  - intros n nd3 k' ch Hn3 Ht3 Hget.
    destruct (Hcase _ _ Hn3) as [[-> ->]|(nd & Hnd & ->)]; [done|].
    cbn [attached _children _tree] in Hget, Ht3.
    assert (Holdc : dict_get k' (_children nd) = Some ch ->
              exists cd, heap s3 !! ch = Some cd /\ _tree cd = tree_id t /\
                         is_Some (_count cd)).
    { intros Hg. destruct (Hch n nd k' ch Hnd Ht3 Hg) as (cd & Hcd & Hct & Hcc).
      eexists. split; [apply Hold; done|]. done. }
    destruct (decide (n = point)) as [->|Hne]; [|auto].
    destruct (decide (k = k')) as [<-|Hk].
    + rewrite dict_get_set_eq in Hget. injection Hget as <-.
      eexists. split; [done|]. cbn. eauto.
    + rewrite dict_get_set_ne in Hget by done. auto.
  - intros k' route' Hget. unfold routed in Hget.
    destruct (decide (k = k')) as [<-|Hk].
    + rewrite dict_get_set_eq in Hget. injection Hget as <-. cbn [snd].
      eexists. split; [done|]. done.
    + rewrite dict_get_set_ne in Hget by done.
      destruct (Hrt k' route' Hget) as (td & Htd & Htt).
      eexists. split; [apply Hold; done|]. done.
Qed.

Lemma add_from_returns (transaction : list Item) :
  forall t (point : nat) s,
    tree_ok s t ->
    (exists pd, heap s !! point = Some pd /\ _tree pd = tree_id t) ->
    exists t' s',
      FPTree.add_from t point transaction s = Ok t' s' /\
      tree_ok s' t' /\ tree_id t' = tree_id t.
Proof.
  induction transaction as [|item rest IH]; intros t point s Hok (pd & Hpd & Hpt).
  - exists t, s. done.
  - cbn [FPTree.add_from].
    rewrite (bind_run _ _ _ _ _ (search_run point item s pd Hpd)).
    destruct (dict_get item (_children pd)) as [np|] eqn:Hget.
    + destruct (tok_children _ _ Hok _ _ _ _ Hpd Hpt Hget)
        as (cd & Hcd & Hct & [c Hcc]).
      rewrite (bind_run _ _ _ _ _ (increment_run np s cd c Hcd Hcc)).
      destruct (IH t np (upd s np (FPNode.with_count cd (Some (c + 1)%Z))))
        as (t' & s' & Hrun & Hok' & Hid).
      * apply tree_ok_upd_count; done.
      * cbn [heap upd]. rewrite list_lookup_insert_eq
          by (eapply lookup_lt_Some; done).
        eexists. split; [done|]. done.
      * eauto.
    + destruct (attach_run t point item (Some 1%Z) s pd Hpd Hpt Hget
                  (tok_routes _ _ Hok item))
        as (s1 & s2 & t1 & s3 & Hnew & Hadd & Hupd).
      rewrite (bind_run _ _ _ _ _ Hnew), (bind_run _ _ _ _ _ Hadd),
        (bind_run _ _ _ _ _ Hupd).
      destruct (attach_Ok _ _ _ _ _ _ _ _ _ _ _ _ Hpd Hget
                  (fun route Hr =>
                     match tok_routes _ _ Hok item route Hr with
                     | ex_intro _ td (conj Htd _) => lookup_lt_Some _ _ _ Htd
                     end)
                  Hnew Hadd Hupd)
        as (_ & _ & _ & -> & Hlen & Hnp & Hold & _).
      destruct (IH _ (length (heap s)) s3
                  (tree_ok_attach s s3 t point item 1 Hok Hlen Hnp Hold))
        as (t' & s' & Hrun & Hok' & Hid).
      * eexists. split; [done|]. done.
      * eauto.
Qed.

Lemma add_all_returns (ts : list (list Item)) :
  forall t s,
    tree_ok s t ->
    exists t' s', add_all t ts s = Ok t' s' /\ tree_ok s' t'.
Proof.
  induction ts as [|tr ts IH]; intros t s Hok.
  - exists t, s. done.
  - cbn [add_all]. unfold FPTree.add.
    destruct (add_from_returns tr t (_root t) s Hok (tok_root _ _ Hok))
      as (t1 & s1 & Hrun & Hok1 & _).
    rewrite (bind_run _ _ _ _ _ Hrun). apply IH. done.
Qed.

Lemma tree_ok_new s :
  store_ok s ->
  tree_ok (mkStore (heap s ++ [root_node (next_tree s)]) (S (next_tree s)))
          (mkFPTree (next_tree s) (length (heap s)) []).
Proof.
  intros Hok. split; cbn [heap tree_id _root _routes].
  - exists (root_node (next_tree s)).
    split; [apply list_lookup_middle; done|done].
  - intros n nd k c Hn Ht Hget.
    apply lookup_snoc_Some in Hn as [[_ Hn]|[_ <-]]; [|done].
    apply Hok in Hn. lia.
  - intros k route Hr. done.
Qed.

Lemma build_from_returns (ts : list (list Item)) s :
  store_ok s -> exists t s', build_from ts s = Ok t s'.
Proof.
  intros Hok. unfold build_from.
  assert (Hnew : FPTree.new s =
                 Ok (mkFPTree (next_tree s) (length (heap s)) [])
                    (mkStore (heap s ++ [root_node (next_tree s)])
                       (S (next_tree s)))) by done.
  rewrite (bind_run _ _ _ _ _ Hnew).
  destruct (add_all_returns ts _ _ (tree_ok_new s Hok)) as (t & s' & Hrun & _).
  eauto.
Qed.

(** C4. Any sequence of insertions into a fresh tree returns, and after
    it [nodes(item)] returns, for every item, the nodes of the store that
    belong to the tree and carry the item: each of them, once, in the
    order in which they were created (by increasing reference). *)
Theorem nodes_enumerates_item (ts : list (list Item)) s :
  store_ok s ->
  exists t s',
    build_from ts s = Ok t s' /\
    forall k, exists l,
      FPTree.nodes t k s' = Ok l s' /\
      (forall n, n ∈ l <->
         exists nd, heap s' !! n = Some nd /\ carries (tree_id t) k nd) /\
      NoDup l /\
      StronglySorted lt l.
Proof.
  intros Hok. destruct (build_from_returns ts s Hok) as (t & s' & Hrun).
  exists t, s'. split; [done|]. intros k.
  eapply nodes_after_build; done.
Qed.
End Insertion.

(** ** Importing paths into a conditional tree *)

Section ImportPaths.
Context {Label : Type} `{EqDecision Label}.
Local Abbreviation Item := (Item Label).
Local Abbreviation M := (M Label).
Implicit Types (s : Store Label) (nd : FPNode Label) (t : FPTree Label).
Implicit Types (k x : Item) (l path : list nat).

Lemma item_at_Some s (n : nat) k :
  item_at s n = Some k <-> exists nd, heap s !! n = Some nd /\ _item nd = k.
Proof.
  unfold item_at. destruct (heap s !! n) as [nd|]; cbn.
  - split; [intros [= <-]; eauto|intros (nd' & [= <-] & <-); done].
  - split; [done|intros (nd' & [=] & _)].
Qed.

Lemma importing_attach s s3 t (point : nat) k x (c : option Z)
  (pd : FPNode Label) :
  let np := length (heap s) in
  x <> None ->
  importing s t x ->
  heap s !! point = Some pd -> _tree pd = tree_id t -> _item pd <> x ->
  (k <> x -> c = Some 0%Z) ->
  length (heap s3) = S (length (heap s)) ->
  heap s3 !! np = Some (mkFPNode (tree_id t) k c (Some point) [] None) ->
  (forall n nd, heap s !! n = Some nd ->
                heap s3 !! n = Some (attached (_routes t) point np k n nd)) ->
  importing s3 (mkFPTree (tree_id t) (_root t) (routed (_routes t) np k)) x.
Proof.
  intros np Hx [Hr Hroot Hshape Hzero Hch] Hpd Hpt Hpi Hc Hlen Hnew Hold.
  assert (Hnr : FPNode.is_root (mkFPNode (tree_id t) k c (Some point) [] None)
                = false).
  { unfold FPNode.is_root. cbn. destruct k; [done|].
    rewrite Hc by congruence. done. }
  assert (Hcase : forall n nd3, heap s3 !! n = Some nd3 ->
            (n = np /\ nd3 = mkFPNode (tree_id t) k c (Some point) [] None) \/
            (exists nd, heap s !! n = Some nd /\
                        nd3 = attached (_routes t) point np k n nd)).
  { intros n nd3 Hn3. destruct (decide (n < length (heap s))%nat) as [Hlt|Hge].
    - destruct (lookup_lt_is_Some_2 _ _ Hlt) as [nd Hnd]. right. exists nd.
      split; [done|]. rewrite (Hold _ _ Hnd) in Hn3. congruence.
    - apply lookup_lt_Some in Hn3 as Hlt3. left.
      assert (n = np) as -> by (unfold np; lia). split; congruence. }
  split; cbn [tree_id _root _routes].
  - eapply route_inv_attach; done.
  - destruct Hroot as (rd & Hrd & Hrt & Hri).
    eexists. split; [apply Hold; done|]. done.
  - intros n nd3 Hn3 Ht3 Hr3.
    destruct (Hcase _ _ Hn3) as [[-> ->]|(nd & Hnd & ->)].
    + exists point, (attached (_routes t) point np k point pd).
      cbn [_parent]. split; [done|].
      split; [eapply lookup_lt_Some; done|].
      split; [apply Hold; done|]. done.
    + destruct (Hshape n nd Hnd Ht3 Hr3) as (p & ppd & Hp & Hlt & Hppd & Hpt' & Hpi').
      exists p, (attached (_routes t) point np k p ppd).
      split; [done|]. split; [done|]. split; [apply Hold; done|]. done.
  - intros n nd3 Hn3 Ht3 Hr3 Hi3.
    destruct (Hcase _ _ Hn3) as [[-> ->]|(nd & Hnd & ->)].
    + cbn in *. apply Hc. done.
    + apply (Hzero n nd Hnd Ht3 Hr3 Hi3).
  - intros n nd3 k' ch Hn3 Ht3 Hget.
    destruct (Hcase _ _ Hn3) as [[-> ->]|(nd & Hnd & ->)]; [done|].
    cbn [attached _children _tree] in Hget, Ht3.
    assert (Hnewc : ch = np -> k' = k ->
              exists cd, heap s3 !! ch = Some cd /\ _tree cd = tree_id t /\
                         _item cd = k').
    { intros -> ->. eexists. split; [done|]. done. }
    assert (Holdc : dict_get k' (_children nd) = Some ch ->
              exists cd, heap s3 !! ch = Some cd /\ _tree cd = tree_id t /\
                         _item cd = k').
    { intros Hg. destruct (Hch n nd k' ch Hnd Ht3 Hg) as (cd & Hcd & Hct & Hci).
      eexists. split; [apply Hold; done|]. done. }
    destruct (decide (n = point)) as [->|Hne]; [|auto].
    destruct (decide (k = k')) as [<-|Hk].
    + rewrite dict_get_set_eq in Hget. injection Hget as <-. auto.
    + rewrite dict_get_set_ne in Hget by done. auto.
Qed.

Lemma attached_item s s3 (routes : dict Item (nat * nat)) (point np : nat) k :
  (forall n nd, heap s !! n = Some nd ->
                heap s3 !! n = Some (attached routes point np k n nd)) ->
  forall n i, item_at s n = Some i -> item_at s3 n = Some i.
Proof.
  intros Hold n i Hi. apply item_at_Some in Hi as (nd & Hnd & <-).
  apply item_at_Some. eexists. split; [apply Hold; done|]. done.
Qed.

Lemma front_avoids_mono s s' x path :
  (forall n i, item_at s n = Some i -> item_at s' n = Some i) ->
  front_avoids s x path -> front_avoids s' x path.
Proof.
  intros Hmono Hf. unfold front_avoids in *.
  eapply Forall_impl; [exact Hf|].
  intros n (i & Hi & Hne). eauto.
Qed.

Lemma import_path_importing x path :
  x <> None ->
  forall t (point : nat) s t' s',
    importing s t x ->
    (exists pd, heap s !! point = Some pd /\ _tree pd = tree_id t /\
                _item pd <> x) ->
    front_avoids s x path ->
    import_path t x point path s = Ok t' s' ->
    importing s' t' x /\ tree_id t' = tree_id t /\ _root t' = _root t /\
    (forall n i, item_at s n = Some i -> item_at s' n = Some i).
Proof.
  intros Hx. induction path as [|node rest IH];
    intros t point s t' s' Himp (pd & Hpd & Hpt & Hpi) Hfront Hrun.
  - apply ret_Ok in Hrun as [-> ->]. done.
  - cbn [import_path] in Hrun.
    apply bind_Ok in Hrun as (node_item & s1 & Hi & Hrun).
    apply item_Ok in Hi as (-> & nnd & Hnnd & <-).
    apply bind_Ok in Hrun as (next_point & s1 & Hs & Hrun).
    apply search_Ok in Hs as (-> & pd' & Hpd' & Hget).
    assert (pd' = pd) as -> by congruence.
    assert (Hrest : rest <> [] -> _item nnd <> x /\ front_avoids s x rest).
    { intros Hne. destruct rest as [|n2 rest]; [done|].
      unfold front_avoids in Hfront. cbn [removelast] in Hfront.
      apply Forall_cons in Hfront as [(i & Hi & Hix) Hf]. split; [|done].
      apply item_at_Some in Hi as (nd' & Hnd' & <-). congruence. }
    destruct next_point as [np|].
    + destruct rest as [|n2 rest].
      { apply ret_Ok in Hrun as [-> ->]. done. }
      destruct Hrest as [Hni Hf]; [done|].
      eapply IH; [done| |done|done].
      destruct (imp_children _ _ _ Himp _ _ _ _ Hpd Hpt Hget)
        as (cd & Hcd & Hct & Hci).
      exists cd. split; [done|]. split; [done|]. congruence.
    + apply bind_Ok in Hrun as (c & s1 & Hc & Hrun).
      assert (Hc' : s1 = s /\ (_item nnd <> x -> c = Some 0%Z)).
      { destruct (decide (_item nnd = x)).
        - apply count_Ok in Hc as (-> & _). done.
        - apply ret_Ok in Hc as [-> ->]. done. }
      destruct Hc' as [-> Hc0]. clear Hc.
      apply bind_Ok in Hrun as (np & s1 & Hnew & Hrun).
      apply bind_Ok in Hrun as ([] & s2 & Hadd & Hrun).
      apply bind_Ok in Hrun as (t1 & s3 & Hupd & Hrun).
      destruct (attach_Ok _ _ _ _ _ _ _ _ _ _ _ _ Hpd Hget
                  (fun route => route_tail_lt s t (_item nnd) route
                                  (imp_routes _ _ _ Himp))
                  Hnew Hadd Hupd)
        as (-> & _ & _ & -> & Hlen & Hnp & Hold & _).
      pose proof (importing_attach s s3 t point (_item nnd) x c pd Hx Himp
                    Hpd Hpt Hpi Hc0 Hlen Hnp Hold) as Himp3.
      pose proof (attached_item s s3 _ _ _ _ Hold) as Hmono.
      destruct rest as [|n2 rest].
      { apply ret_Ok in Hrun as [-> ->]. done. }
      destruct Hrest as [Hni Hf]; [done|].
      eapply IH in Hrun as (Himp' & Hid & Hrt & Hmono'); [| done | |].
      * split; [done|]. split; [done|]. split; [done|].
        intros n i Hn. apply Hmono', Hmono. done.
      * eexists. split; [done|]. done.
      * eapply front_avoids_mono; done.
Qed.

Lemma import_paths_importing x (paths : list (list nat)) :
  x <> None ->
  forall t s r s',
    importing s t x ->
    Forall (front_avoids s x) paths ->
    import_paths t x paths s = Ok r s' ->
    importing s' (fst r) x /\ snd r = x /\ tree_id (fst r) = tree_id t /\
    (forall n i, item_at s n = Some i -> item_at s' n = Some i).
Proof.
  intros Hx. induction paths as [|path rest IH];
    intros t s r s' Himp Hall Hrun.
  - apply ret_Ok in Hrun as [-> ->]. done.
  - cbn [import_paths] in Hrun.
    apply bind_Ok in Hrun as (ci & s1 & Hci & Hrun).
    assert (ci = x /\ s1 = s) as [-> ->].
    { destruct x; [|done]. apply ret_Ok in Hci as [-> ->]. done. }
    apply bind_Ok in Hrun as (t1 & s1 & Hpath & Hrun).
    apply Forall_cons in Hall as [Hp Hall].
    destruct (imp_root _ _ _ Himp) as (rd & Hrd & Hrt & Hri).
    apply import_path_importing in Hpath as (Himp1 & Hid1 & _ & Hmono1);
      [|done|done|eauto|done].
    apply IH in Hrun as (Himp' & Hci' & Hid' & Hmono'); [|done|].
    + split; [done|]. split; [done|]. split; [congruence|].
      intros n i Hn. apply Hmono', Hmono1. done.
    + eapply Forall_impl; [done|]. intros p Hf.
      eapply front_avoids_mono; done.
Qed.
End ImportPaths.

(** ** Stores that differ in counts only *)

Section SameShape.
Context {Label : Type} `{EqDecision Label}.
Local Abbreviation Item := (Item Label).
Local Abbreviation M := (M Label).
Implicit Types (s : Store Label) (nd : FPNode Label) (t : FPTree Label).
Implicit Types (k x : Item) (l path : list nat).

Lemma with_count_id nd : FPNode.with_count nd (_count nd) = nd.
Proof. destruct nd; done. Qed.

Lemma is_root_with_count nd (c : option Z) :
  (c = None <-> _count nd = None) ->
  FPNode.is_root (FPNode.with_count nd c) = FPNode.is_root nd.
Proof.
  unfold FPNode.is_root. cbn. intros Hc.
  destruct (_item nd); [done|].
  destruct c, (_count nd); try done; destruct Hc as [H1 H2];
    (discriminate (H1 eq_refl) || discriminate (H2 eq_refl)).
Qed.

Lemma same_shape_refl s : same_shape s s.
Proof.
  split; [done|]. intros n nd Hnd. exists (_count nd).
  rewrite with_count_id. done.
Qed.

Lemma same_shape_trans s1 s2 s3 :
  same_shape s1 s2 -> same_shape s2 s3 -> same_shape s1 s3.
Proof.
  intros [Hl12 H12] [Hl23 H23]. split; [congruence|].
  intros n nd Hnd. destruct (H12 n nd Hnd) as (c & Hc & Hcn).
  destruct (H23 _ _ Hc) as (c' & Hc' & Hcn'). exists c'.
  split; [done|]. cbn in Hcn'. tauto.
Qed.

Lemma same_shape_None s s' (n : nat) :
  same_shape s s' -> heap s !! n = None -> heap s' !! n = None.
Proof.
  intros [Hl _] Hn. apply lookup_ge_None. apply lookup_ge_None in Hn. lia.
Qed.

Lemma same_shape_path_up s s' :
  same_shape s s' ->
  forall fuel node, path_up (heap s') fuel node = path_up (heap s) fuel node.
Proof.
  intros Hss. induction fuel as [|fuel IH]; intros [n|]; cbn; try done.
  - destruct (heap s !! n) as [nd|] eqn:Hn.
    + destruct (proj2 Hss n nd Hn) as (c & -> & Hc).
      rewrite is_root_with_count by done. done.
    + rewrite (same_shape_None s s' n Hss Hn). done.
  - destruct (heap s !! n) as [nd|] eqn:Hn.
    + destruct (proj2 Hss n nd Hn) as (c & -> & Hc).
      rewrite is_root_with_count by done. cbn [_parent FPNode.with_count].
      rewrite IH. done.
    + rewrite (same_shape_None s s' n Hss Hn). done.
Qed.

Lemma same_shape_path_to s s' (m : nat) :
  same_shape s s' -> path_to s' m = path_to s m.
Proof.
  intros Hss. unfold path_to. rewrite (proj1 Hss).
  rewrite (same_shape_path_up s s' Hss). done.
Qed.

Lemma same_shape_nodes_of s s' (t : nat) k :
  same_shape s s' -> nodes_of s' t k = nodes_of s t k.
Proof.
  intros Hss. apply nodes_of_same; [apply Hss|].
  intros n. unfold carries_at.
  destruct (heap s !! n) as [nd|] eqn:Hn.
  - destruct (proj2 Hss n nd Hn) as (c & -> & Hc).
    unfold carries. rewrite is_root_with_count by done. done.
  - rewrite (same_shape_None s s' n Hss Hn). done.
Qed.

Lemma same_shape_upd s (n : nat) nd (c : option Z) :
  heap s !! n = Some nd -> (c = None <-> _count nd = None) ->
  same_shape s (upd s n (FPNode.with_count nd c)).
Proof.
  intros Hnd Hc. split; [apply length_insert|].
  assert ((n < length (heap s))%nat) by (eapply lookup_lt_Some; done).
  intros m md Hmd. cbn [heap upd].
  destruct (decide (n = m)) as [<-|Hne].
  - rewrite list_lookup_insert_eq by done. exists c.
    assert (md = nd) as -> by congruence. done.
  - rewrite list_lookup_insert_ne by done. exists (_count md).
    rewrite with_count_id. done.
Qed.

Lemma collect_path_up_Ok (fuel : nat) :
  forall (node : option nat) s l s',
    FPTree.collect_path_up fuel node s = Ok l s' ->
    s' = s /\ l = path_up (heap s) fuel node.
Proof.
  induction fuel as [|fuel IH]; intros [n|] s l s' Hrun; cbn in Hrun |- *;
    try (apply ret_Ok in Hrun as [-> ->]; done).
  - apply bind_Ok in Hrun as (b & s1 & Hb & Hrun).
    apply root_Ok in Hb as (-> & nd & Hnd & <-). rewrite Hnd.
    destruct (FPNode.is_root nd); [|done].
    apply ret_Ok in Hrun as [-> ->]. done.
  - apply bind_Ok in Hrun as (b & s1 & Hb & Hrun).
    apply root_Ok in Hb as (-> & nd & Hnd & <-). rewrite Hnd.
    destruct (FPNode.is_root nd).
    + apply ret_Ok in Hrun as [-> ->]. done.
    + apply bind_Ok in Hrun as (p & s1 & Hp & Hrun).
      apply parent_Ok in Hp as (-> & nd' & Hnd' & <-).
      assert (nd' = nd) as -> by congruence.
      apply bind_Ok in Hrun as (rest & s1 & Hrest & Hrun).
      apply IH in Hrest as [-> ->].
      apply ret_Ok in Hrun as [-> ->]. done.
Qed.

Lemma collect_path_Ok (m : nat) s path s' :
  FPTree.collect_path m s = Ok path s' -> s' = s /\ path = path_to s m.
Proof.
  unfold FPTree.collect_path, path_to. intros Hrun.
  apply bind_Ok in Hrun as (s0 & s1 & Hg & Hrun).
  injection Hg as <- <-.
  apply bind_Ok in Hrun as (up & s1 & Hup & Hrun).
  apply collect_path_up_Ok in Hup as [-> ->].
  apply ret_Ok in Hrun as [-> ->]. done.
Qed.
End SameShape.

(** ** Spreading the counts of the condition item's nodes *)

Section Spread.
Context {Label : Type} `{EqDecision Label}.
Local Abbreviation Item := (Item Label).
Local Abbreviation M := (M Label).
Implicit Types (s : Store Label) (nd : FPNode Label) (t : FPTree Label).
Implicit Types (k x : Item) (l path : list nat).

Lemma sum_Z_app (l1 l2 : list Z) : sum_Z (l1 ++ l2) = (sum_Z l1 + sum_Z l2)%Z.
Proof. unfold sum_Z. induction l1 as [|z l1 IH]; cbn; lia. Qed.

Lemma contrib_snoc s (n m : nat) (ms : list nat) :
  contrib s n (ms ++ [m]) =
    (contrib s n ms +
     if decide (n ∈ removelast (path_to s m)) then count_at s m else 0)%Z.
Proof.
  unfold contrib. rewrite filter_app, map_app, sum_Z_app. f_equal.
  rewrite filter_cons, filter_nil.
  destruct (decide (n ∈ removelast (path_to s m))); cbn; lia.
Qed.

(** The strict ancestors of a node of a conditional tree. *)
Lemma ancestors_spec s t x :
  importing s t x ->
  forall (fuel p : nat) (pd : FPNode Label),
    heap s !! p = Some pd -> _tree pd = tree_id t -> _item pd <> x ->
    Forall (fun a => (a <= p)%nat /\
              exists ad, heap s !! a = Some ad /\ _tree ad = tree_id t /\
                         FPNode.is_root ad = false /\ _item ad <> x)
           (path_up (heap s) fuel (Some p)) /\
    NoDup (path_up (heap s) fuel (Some p)).
Proof.
  intros Himp. induction fuel as [|fuel IH]; intros p pd Hpd Hpt Hpi;
    cbn [path_up]; rewrite Hpd.
  - destruct (FPNode.is_root pd); split; constructor.
  - destruct (FPNode.is_root pd) eqn:Hr; [split; constructor|].
    destruct (imp_shape _ _ _ Himp p pd Hpd Hpt Hr)
      as (q & qd & Hq & Hlt & Hqd & Hqt & Hqi).
    rewrite Hq. destruct (IH q qd Hqd Hqt Hqi) as [Hall Hnd].
    split.
    + constructor; [split; [done|eauto 6]|].
      eapply Forall_impl; [exact Hall|]. intros a [Ha Hex]. split; [lia|done].
    + constructor; [|done]. intros Hin.
      rewrite Forall_forall in Hall. destruct (Hall p Hin) as [Hle _]. lia.
Qed.

Lemma for_each_add_count (A : list nat) (c : option Z) :
  forall s s',
    NoDup A ->
    for_each A (fun a => FPNode.add_count a c) s = Ok tt s' ->
    same_shape s s' /\
    forall n nd, heap s !! n = Some nd ->
      (n ∉ A -> heap s' !! n = Some nd) /\
      (n ∈ A -> exists c0 d, _count nd = Some c0 /\ c = Some d /\
                 heap s' !! n = Some (FPNode.with_count nd (Some (c0 + d)%Z))).
Proof.
  induction A as [|a A IH]; intros s s' Hnd Hrun.
  - apply ret_Ok in Hrun as [_ ->]. split; [apply same_shape_refl|].
    intros n nd Hn. split; [done|]. intros Hin. inversion Hin.
  - cbn [for_each] in Hrun.
    apply bind_Ok in Hrun as ([] & s1 & Hadd & Hrun).
    apply add_count_Ok in Hadd as (ad & c0 & d & Had & Hc0 & -> & ->).
    apply NoDup_cons in Hnd as [Hnotin Hnd].
    apply IH in Hrun as [Hss Hrun]; [|done].
    assert (Halt : (a < length (heap s))%nat) by (eapply lookup_lt_Some; done).
    split.
    + eapply same_shape_trans; [|exact Hss].
      apply same_shape_upd; [done|]. rewrite Hc0. done.
    + intros n nd Hn. destruct (decide (n = a)) as [->|Hne].
      * assert (nd = ad) as -> by congruence.
        assert (H1 : heap (upd s a (FPNode.with_count ad (Some (c0 + d)%Z)))
                       !! a = Some (FPNode.with_count ad (Some (c0 + d)%Z))).
        { cbn [heap upd]. apply list_lookup_insert_eq. done. }
        destruct (Hrun _ _ H1) as [Hout _].
        split; [intros Hn'; exfalso; apply Hn'; left|].
        intros _. exists c0, d. auto.
      * assert (H1 : heap (upd s a (FPNode.with_count ad (Some (c0 + d)%Z)))
                       !! n = Some nd).
        { cbn [heap upd]. rewrite list_lookup_insert_ne by done. done. }
        destruct (Hrun _ _ H1) as [Hout Hin].
        split.
        -- intros Hn'. apply Hout. intros Hn''. apply Hn'. right. done.
        -- intros Hn'. apply Hin. inversion Hn'; subst; done.
Qed.

Lemma spread_inv_start s1 t x :
  importing s1 t x -> spread_inv s1 (tree_id t) x [] s1.
Proof.
  intros Himp. split; [apply same_shape_refl|]. split; [done|].
  intros n nd Hnd Ht Hr Hi. exists nd. split; [done|].
  apply (imp_zero _ _ _ Himp n nd Hnd Ht Hr Hi).
Qed.

Lemma spread_counts_inv s1 t x :
  importing s1 t x ->
  forall (rest done : list nat) sj (fuel : nat) s',
    nodes_of s1 (tree_id t) x = done ++ rest ->
    spread_inv s1 (tree_id t) x done sj ->
    spread_counts fuel (head rest) sj = Ok tt s' ->
    spread_inv s1 (tree_id t) x (done ++ rest) s'.
Proof.
  intros Himp. induction rest as [|m rest IH];
    intros done sj fuel s' Hl Hinv Hrun.
  - rewrite app_nil_r. destruct fuel; apply ret_Ok in Hrun as [_ ->]; done.
  - destruct fuel as [|fuel]; [discriminate|].
    cbn [head spread_counts] in Hrun.
    (* the node [m] and its ancestors in [s1] *)
    assert (Hm : m ∈ nodes_of s1 (tree_id t) x).
    { rewrite Hl. apply elem_of_app. right. left. }
    apply elem_of_nodes_of in Hm. unfold carries_at in Hm.
    destruct (heap s1 !! m) as [md|] eqn:Hmd; [|done].
    destruct Hm as (Hmt & Hmi & Hmr).
    destruct (imp_shape _ _ _ Himp m md Hmd Hmt Hmr)
      as (p & pd & Hmp & Hlt & Hpd & Hpt & Hpi).
    destruct (ancestors_spec s1 t x Himp (length (heap s1)) p pd Hpd Hpt Hpi)
      as [Hall HndA].
    set (A := path_up (heap s1) (length (heap s1)) (Some p)) in *.
    assert (Hpath : path_to s1 m = rev A ++ [m]).
    { unfold path_to. cbn [path_up]. rewrite Hmd, Hmr, Hmp. done. }
    destruct Hinv as (Hss & Hx & Hnx).
    (* [collect_path] *)
    apply bind_Ok in Hrun as (path & s2 & Hcp & Hrun).
    apply collect_path_Ok in Hcp as [-> ->].
    rewrite (same_shape_path_to s1 sj m Hss), Hpath in Hrun.
    (* the inner loop *)
    apply bind_Ok in Hrun as ([] & sj2 & Hsp & Hrun).
    unfold spread_count in Hsp. rewrite last_snoc in Hsp.
    apply bind_Ok in Hsp as (c & s2 & Hc & Hsp).
    apply count_Ok in Hc as (-> & md' & Hmd' & <-).
    rewrite (Hx m md Hmd Hmi) in Hmd'. injection Hmd' as <-.
    rewrite removelast_last, rev_involutive in Hsp.
    apply for_each_add_count in Hsp as [Hss2 Hfe]; [|done].
    (* the step to the neighbor *)
    apply bind_Ok in Hrun as (next & s2 & Hnb & Hrun).
    apply neighbor_Ok in Hnb as (-> & md2 & Hmd2 & <-).
    pose proof (same_shape_trans _ _ _ Hss Hss2) as Hss12.
    destruct (proj2 Hss12 m md Hmd) as (c2 & Hmd2' & _).
    rewrite Hmd2' in Hmd2. injection Hmd2 as <-.
    cbn [_neighbor FPNode.with_count] in Hrun.
    destruct (proj1 (imp_routes _ _ _ Himp x) (length done) m) as (md0 & Hmd0 & Hnb).
    { rewrite Hl. apply list_lookup_middle. done. }
    assert (md0 = md) as -> by congruence.
    rewrite Hl in Hnb.
    rewrite lookup_app_r in Hnb by lia.
    replace (S (length done) - length done)%nat with 1%nat in Hnb by lia.
    change ((m :: rest) !! 1%nat) with (rest !! 0%nat) in Hnb.
    rewrite <- head_lookup in Hnb. rewrite Hnb in Hrun.
    (* the rest of the route *)
    replace (done ++ m :: rest) with ((done ++ [m]) ++ rest)
      by (rewrite <- app_assoc; done).
    eapply IH; [rewrite <- app_assoc; exact Hl| |exact Hrun].
    assert (HinA : forall n, n ∈ A ->
              exists ad, heap s1 !! n = Some ad /\ _item ad <> x).
    { intros n Hn. rewrite Forall_forall in Hall.
      destruct (Hall n Hn) as (_ & ad & Had & _ & _ & Hai). eauto. }
    split; [done|]. split.
    + intros n nd Hnd Hi.
      destruct (Hfe n nd (Hx n nd Hnd Hi)) as [Hout _]. apply Hout.
      intros Hn. destruct (HinA n Hn) as (ad & Had & Hai). congruence.
    + intros n nd Hnd Ht Hr Hi.
      destruct (Hnx n nd Hnd Ht Hr Hi) as (nd' & Hnd' & Hc').
      destruct (Hfe n nd' Hnd') as [Hout Hin].
      rewrite contrib_snoc, Hpath, removelast_last.
      destruct (decide (n ∈ rev A)) as [Hn|Hn].
      * rewrite list_elem_of_In, <- in_rev, <- list_elem_of_In in Hn.
        destruct (Hin Hn) as (c0 & d & Hc0 & Hd & Hlook).
        eexists. split; [exact Hlook|]. cbn [_count FPNode.with_count].
        unfold count_at. rewrite Hmd, Hd. cbn. congruence.
      * rewrite list_elem_of_In, <- in_rev, <- list_elem_of_In in Hn.
        exists nd'. split; [auto|]. rewrite Z.add_0_r. done.
Qed.

Lemma importing_new s x :
  x <> None -> store_ok s ->
  importing (mkStore (heap s ++ [root_node (next_tree s)]) (S (next_tree s)))
            (mkFPTree (next_tree s) (length (heap s)) []) x.
Proof.
  intros Hx Hok.
  assert (Hnodes : forall n nd,
            (heap s ++ [root_node (next_tree s)]) !! n = Some nd ->
            _tree nd = next_tree s -> nd = root_node (next_tree s)).
  { intros n nd Hn Ht. apply lookup_snoc_Some in Hn as [[_ Hn]|[_ <-]]; [|done].
    apply Hok in Hn. lia. }
  split; cbn [heap tree_id _root _routes].
  - apply route_inv_new. done.
  - exists (root_node (next_tree s)).
    split; [apply list_lookup_middle; done|]. split; [done|]. cbn. congruence.
  - intros n nd Hn Ht Hr. rewrite (Hnodes n nd Hn Ht) in Hr. done.
  - intros n nd Hn Ht Hr. rewrite (Hnodes n nd Hn Ht) in Hr. done.
  - intros n nd k c Hn Ht Hg. rewrite (Hnodes n nd Hn Ht) in Hg. done.
Qed.

Lemma path_ends_at_front s x path :
  path_ends_at s x path -> front_avoids s x path.
Proof.
  intros (front & leaf & -> & _ & Hf). unfold front_avoids.
  rewrite removelast_last. done.
Qed.

Lemma path_ends_at_mono s s' x path :
  (forall n i, item_at s n = Some i -> item_at s' n = Some i) ->
  path_ends_at s x path -> path_ends_at s' x path.
Proof.
  intros Hmono (front & leaf & -> & Hleaf & Hf).
  exists front, leaf. split; [done|]. split; [auto|].
  eapply Forall_impl; [exact Hf|]. intros n (i & Hi & Hne). eauto.
Qed.

(** The first path fixes [condition_item]. *)
Lemma import_paths_first t x path (rest : list (list nat)) s :
  x <> None -> path_ends_at s x path ->
  import_paths t None (path :: rest) s = import_paths t x (path :: rest) s.
Proof.
  intros Hx (front & leaf & -> & Hleaf & _).
  apply item_at_Some in Hleaf as (nd & Hnd & Hi).
  cbn [import_paths]. rewrite last_snoc.
  destruct x as [lbl|]; [|done].
  unfold bind at 1 3. unfold FPNode.item, bind, get_node, ret.
  rewrite Hnd, Hi. done.
Qed.

(** C5. Once [conditional_tree_from_paths] has returned a tree for paths
    ending at the condition item [x], every node of the tree that carries
    another item has for count the sum of the counts of the nodes that
    carry [x] and lie below it. *)
Theorem conditional_tree_counts (paths : list (list nat)) (x : Label)
  s t s' :
  store_ok s ->
  Forall (path_ends_at s (Some x)) paths ->
  conditional_tree_from_paths paths s = Ok t s' ->
  counts_conserved s' (tree_id t) (Some x).
Proof.
  intros Hok Hpaths Hrun n nd Hnd Ht Hr Hi.
  assert (Hx : Some x <> (None : Item)) by done.
  unfold conditional_tree_from_paths in Hrun.
  apply bind_Ok in Hrun as (t0 & s0 & Hnew & Hrun).
  apply new_tree_Ok in Hnew as [-> ->].
  pose proof (importing_new s (Some x) Hx Hok) as Himp0.
  set (s0 := mkStore (heap s ++ [root_node (next_tree s)]) (S (next_tree s)))
    in *.
  set (t0 := mkFPTree (next_tree s) (length (heap s)) []) in *.
  assert (Hmono0 : forall m i, item_at s m = Some i -> item_at s0 m = Some i).
  { intros m i Hm. apply item_at_Some in Hm as (md & Hmd & <-).
    apply item_at_Some. exists md. split; [|done].
    cbn [heap s0]. apply lookup_app_l_Some. done. }
  apply bind_Ok in Hrun as ([t1 ci] & s1 & Himport & Hrun).
  destruct paths as [|path rest].
  { apply ret_Ok in Himport as [[= -> ->] ->]. discriminate. }
  rewrite (import_paths_first t0 (Some x) path rest s0) in Himport;
    [|done|apply Forall_inv in Hpaths; eapply path_ends_at_mono; done].
  apply import_paths_importing in Himport as (Himp1 & Hci & Hid & _);
    [|done|done|].
  2:{ eapply Forall_impl; [exact Hpaths|]. intros p Hp.
      apply path_ends_at_front. eapply path_ends_at_mono; done. }
  cbn [fst snd] in Himp1, Hci, Hid. subst ci.
  apply bind_Ok in Hrun as ([] & s2 & Hspread & Hrun).
  apply ret_Ok in Hrun as [<- <-].
  assert (Hinv : spread_inv s1 (tree_id t) (Some x)
                   (nodes_of s1 (tree_id t) (Some x)) s').
  { destruct (imp_routes _ _ _ Himp1 (Some x)) as [_ Hroute].
    match type of Hroute with
    | match ?d with _ => _ end => destruct d as [route|]
    end.
    - destruct Hroute as [Hh _].
      apply bind_Ok in Hspread as (s3 & s4 & Hg & Hspread).
      injection Hg as <- <-. rewrite <- Hh in Hspread.
      apply (spread_counts_inv s1 t (Some x) Himp1 _ [] s1 _ s' eq_refl
               (spread_inv_start s1 t (Some x) Himp1) Hspread).
    - apply ret_Ok in Hspread as [_ ->]. rewrite Hroute.
      apply spread_inv_start. done. }
  destruct Hinv as (Hss & Hxn & Hnx).
  assert (Hlt : (n < length (heap s1))%nat).
  { rewrite <- (proj1 Hss). eapply lookup_lt_Some. done. }
  destruct (lookup_lt_is_Some_2 _ _ Hlt) as [nd1 Hnd1].
  destruct (proj2 Hss n nd1 Hnd1) as (c & Hnd' & Hc).
  assert (nd = FPNode.with_count nd1 c) as -> by congruence.
  rewrite is_root_with_count in Hr by done.
  destruct (Hnx n nd1 Hnd1 Ht Hr Hi) as (nd2 & Hnd2 & Hcount).
  assert (nd2 = FPNode.with_count nd1 c) as -> by congruence.
  rewrite Hcount. f_equal. unfold contrib, below.
  rewrite (same_shape_nodes_of s1 s' _ _ Hss).
  rewrite (filter_iff_elem
             (fun m => n ∈ removelast (path_to s' m))
             (fun m => n ∈ removelast (path_to s1 m))) by
    (intros m _; rewrite (same_shape_path_to s1 s' m Hss); done).
  f_equal. apply map_ext_in. intros m Hm.
  apply list_elem_of_In, list_elem_of_filter in Hm as [_ Hm].
  apply elem_of_nodes_of in Hm. unfold carries_at in Hm.
  destruct (heap s1 !! m) as [md|] eqn:Hmd; [|done].
  destruct Hm as (_ & Hmi & _).
  unfold count_at. rewrite Hmd, (Hxn m md Hmd Hmi). done.
Qed.
End Spread.

(** ** Trees whose paths follow one order of the items *)

Section Sorted.
Context {Label : Type} `{EqDecision Label}.
Local Abbreviation Item := (Item Label).
Local Abbreviation M := (M Label).
Implicit Types (s : Store Label) (nd : FPNode Label) (t : FPTree Label).
Implicit Types (k x : Item) (l path : list nat).

Variable R : relation Item.
Context `{!StrictOrder R}.
Variable base : nat.
Local Abbreviation sorted_store := (sorted_store R base).
Local Abbreviation sorted_tree := (sorted_tree base).
Local Abbreviation point_before := (point_before R base).
Local Abbreviation path_sorted := (path_sorted R).
Local Abbreviation bounded := (bounded R).
Local Abbreviation yields := (yields R).
Local Abbreviation mined := (mined R base).

Lemma extends_refl s : extends s s.
Proof. intros n nd Hnd. eauto. Qed.

Lemma extends_trans s1 s2 s3 : extends s1 s2 -> extends s2 s3 -> extends s1 s3.
Proof.
  intros H12 H23 n nd Hnd.
  destruct (H12 n nd Hnd) as (nd2 & Hnd2 & Hi2 & Hr2).
  destruct (H23 n nd2 Hnd2) as (nd3 & Hnd3 & Hi3 & Hr3).
  exists nd3. split; [done|]. split; congruence.
Qed.

Lemma extends_item_at s s' (n : nat) k :
  extends s s' -> item_at s n = Some k -> item_at s' n = Some k.
Proof.
  intros Hext Hn. apply item_at_Some in Hn as (nd & Hnd & <-).
  destruct (Hext n nd Hnd) as (nd' & Hnd' & Hi & _).
  apply item_at_Some. eauto.
Qed.

Lemma same_shape_extends s s' : same_shape s s' -> extends s s'.
Proof.
  intros [_ Hss] n nd Hnd. destruct (Hss n nd Hnd) as (c & Hc & Hcn).
  eexists. split; [done|]. split; [done|]. apply is_root_with_count. done.
Qed.

Lemma same_shape_inv s s' (n : nat) nd' :
  same_shape s s' -> heap s' !! n = Some nd' ->
  exists nd c, heap s !! n = Some nd /\ nd' = FPNode.with_count nd c /\
               (c = None <-> _count nd = None).
Proof.
  intros Hss Hn'.
  assert (Hlt : (n < length (heap s))%nat).
  { rewrite <- (proj1 Hss). eapply lookup_lt_Some. done. }
  destruct (lookup_lt_is_Some_2 _ _ Hlt) as [nd Hnd].
  destruct (proj2 Hss n nd Hnd) as (c & Hc & Hcn).
  exists nd, c. split; [done|]. split; [congruence|done].
Qed.

Lemma sorted_store_same_shape s s' :
  same_shape s s' -> sorted_store s -> sorted_store s'.
Proof.
  intros Hss [Hb Ho Hn Hp Hc]. split.
  - rewrite (proj1 Hss). done.
  - intros n nd' m Hge Hnd' Hm.
    destruct (same_shape_inv s s' n nd' Hss Hnd') as (nd & c & Hnd & -> & _).
    apply (Ho n nd m Hge Hnd). done.
  - intros n nd' m Hge Hnd' Hnb.
    destruct (same_shape_inv s s' n nd' Hss Hnd') as (nd & c & Hnd & -> & _).
    destruct (Hn n nd m Hge Hnd Hnb) as (md & Hmd & Hmi).
    destruct (proj2 Hss m md Hmd) as (c' & Hmd' & _).
    eexists. split; [done|]. done.
  - intros n nd' p Hge Hnd' Hpar.
    destruct (same_shape_inv s s' n nd' Hss Hnd') as (nd & c & Hnd & -> & _).
    destruct (Hp n nd p Hge Hnd Hpar) as (pd & Hpd & Hor).
    destruct (proj2 Hss p pd Hpd) as (c' & Hpd' & Hcn).
    eexists. split; [done|]. rewrite is_root_with_count by done. done.
  - intros n nd' k ch Hge Hnd' Hget.
    destruct (same_shape_inv s s' n nd' Hss Hnd') as (nd & c & Hnd & -> & _).
    destruct (Hc n nd k ch Hge Hnd Hget) as (cd & Hcd & Hci).
    destruct (proj2 Hss ch cd Hcd) as (c' & Hcd' & _).
    eexists. split; [done|]. done.
Qed.

Lemma sorted_tree_extends s s' t :
  extends s s' -> sorted_tree s t -> sorted_tree s' t.
Proof.
  intros Hext [Ho Hr Hk Hroot]. split; [done| |done|].
  - intros k route Hget. destruct (Hr k route Hget) as [(hd & Hhd & Hhi) (td & Htd & Hti)].
    destruct (Hext _ _ Hhd) as (hd' & Hhd' & Hhi' & _).
    destruct (Hext _ _ Htd) as (td' & Htd' & Hti' & _).
    split; eexists; (split; [done|congruence]).
  - destruct Hroot as (rd & Hrd & Hrr).
    destruct (Hext _ _ Hrd) as (rd' & Hrd' & _ & Hrr').
    eexists. split; [done|congruence].
Qed.

Lemma dict_keys_set {V} (k : Item) (v : V) (d : dict Item V) :
  dict_keys (dict_set k v d) =
    match dict_get k d with
    | Some _ => dict_keys d
    | None => dict_keys d ++ [k]
    end.
Proof.
  unfold dict_keys. induction d as [|[k' v'] d IH]; cbn; [done|].
  destruct (decide (k = k')) as [->|Hne]; cbn; [done|].
  rewrite IH. destruct (dict_get k d); done.
Qed.

Lemma dict_get_None_keys {V} (k : Item) (d : dict Item V) :
  dict_get k d = None <-> k ∉ dict_keys d.
Proof.
  unfold dict_keys. induction d as [|[k' v'] d IH]; cbn.
  - split; [intros _ Hin; inversion Hin|done].
  - rewrite not_elem_of_cons. destruct (decide (k = k')) as [->|Hne].
    + split; [done|]. intros [Hk _]. done.
    + rewrite IH. tauto.
Qed.

Lemma dict_keys_set_NoDup {V} (k : Item) (v : V) (d : dict Item V) :
  NoDup (dict_keys d) -> NoDup (dict_keys (dict_set k v d)).
Proof.
  intros Hnd. rewrite dict_keys_set.
  destruct (dict_get k d) eqn:Hg; [done|].
  apply NoDup_app. split; [done|]. split; [|apply NoDup_singleton].
  intros y Hy Hy'. apply list_elem_of_singleton in Hy' as ->.
  apply dict_get_None_keys in Hg. done.
Qed.

Lemma routed_keys (routes : dict Item (nat * nat)) (np : nat) k k' :
  k' ∈ dict_keys (routed routes np k) -> k' = k \/ k' ∈ dict_keys routes.
Proof.
  unfold routed. rewrite dict_keys_set.
  destruct (dict_get k routes); [auto|].
  rewrite elem_of_app, list_elem_of_singleton. tauto.
Qed.

(** Attaching a node for [k] below a root, or below a node whose item
    comes before [k], keeps the store and the tree sorted. *)
Lemma sorted_attach s s3 t (point : nat) k (c : option Z)
  (pd : FPNode Label) :
  let np := length (heap s) in
  sorted_store s -> sorted_tree s t ->
  (base <= point)%nat -> heap s !! point = Some pd ->
  FPNode.is_root pd = true \/ R (_item pd) k ->
  length (heap s3) = S (length (heap s)) ->
  heap s3 !! np = Some (mkFPNode (tree_id t) k c (Some point) [] None) ->
  (forall n nd, heap s !! n = Some nd ->
                heap s3 !! n = Some (attached (_routes t) point np k n nd)) ->
  sorted_store s3 /\
  sorted_tree s3 (mkFPTree (tree_id t) (_root t) (routed (_routes t) np k)) /\
  extends s s3.
Proof.
  intros np [Hb Ho Hn Hp Hc] [[Hor Hot] Hr Hk Hroot] Hgp Hpd Hpk Hlen Hnew Hold.
  assert (Hcase : forall n nd3, heap s3 !! n = Some nd3 ->
            (n = np /\ nd3 = mkFPNode (tree_id t) k c (Some point) [] None) \/
            (exists nd, heap s !! n = Some nd /\
                        nd3 = attached (_routes t) point np k n nd)).
  { intros n nd3 Hn3. destruct (decide (n < length (heap s))%nat) as [Hlt|Hge].
    - destruct (lookup_lt_is_Some_2 _ _ Hlt) as [nd Hnd]. right. exists nd.
      split; [done|]. rewrite (Hold _ _ Hnd) in Hn3. congruence.
    - apply lookup_lt_Some in Hn3 as Hlt3. left.
      assert (n = np) as -> by (unfold np; lia). split; congruence. }
  assert (Hext : extends s s3).
  { intros n nd Hnd. eexists. split; [apply Hold; done|]. done. }
  split; [split|split; [split|done]].
  - lia.
  - intros n nd3 m Hge Hn3 Hm.
    destruct (Hcase _ _ Hn3) as [[-> ->]|(nd & Hnd & ->)].
    { cbn in Hm. destruct Hm as [|[[= <-]|[k' Hm]]]; done. }
    cbn [attached _neighbor _parent _children] in Hm.
    destruct Hm as [Hm|[Hm|[k' Hm]]].
    + destruct (dict_get k (_routes t)) as [route|];
        [|apply (Ho n nd m Hge Hnd); auto].
      destruct (decide (n = snd route));
        [injection Hm as <-; done|apply (Ho n nd m Hge Hnd); auto].
    + apply (Ho n nd m Hge Hnd). auto.
    + destruct (decide (n = point)) as [->|];
        [|apply (Ho n nd m Hge Hnd); eauto].
      destruct (decide (k = k')) as [<-|Hkk].
      * rewrite dict_get_set_eq in Hm. injection Hm as <-. done.
      * rewrite dict_get_set_ne in Hm by done.
        apply (Ho point nd m Hge Hnd). eauto.
  - intros n nd3 m Hge Hn3 Hnb.
    destruct (Hcase _ _ Hn3) as [[-> ->]|(nd & Hnd & ->)]; [done|].
    cbn [attached _neighbor _item] in Hnb |- *.
    assert (Hkeep : _neighbor nd = Some m ->
              exists md, heap s3 !! m = Some md /\ _item md = _item nd).
    { intros Hnb'. destruct (Hn n nd m Hge Hnd Hnb') as (md & Hmd & Hmi).
      eexists. split; [apply Hold; done|]. done. }
    destruct (dict_get k (_routes t)) as [route|] eqn:Hroute; [|auto].
    destruct (decide (n = snd route)) as [->|Hne]; [|auto].
    injection Hnb as <-. eexists. split; [done|]. cbn [_item].
    destruct (Hr k route Hroute) as [_ (td & Htd & Hti)]. congruence.
  - intros n nd3 p Hge Hn3 Hpar.
    destruct (Hcase _ _ Hn3) as [[-> ->]|(nd & Hnd & ->)].
    + injection Hpar as <-. eexists. split; [apply Hold; done|]. done.
    + destruct (Hp n nd p Hge Hnd Hpar) as (ppd & Hppd & Hor').
      eexists. split; [apply Hold; done|]. done.
  - intros n nd3 k' ch Hge Hn3 Hget.
    destruct (Hcase _ _ Hn3) as [[-> ->]|(nd & Hnd & ->)]; [done|].
    cbn [attached _children] in Hget.
    assert (Holdc : dict_get k' (_children nd) = Some ch ->
              exists cd, heap s3 !! ch = Some cd /\ _item cd = k').
    { intros Hg. destruct (Hc n nd k' ch Hge Hnd Hg) as (cd & Hcd & Hci).
      eexists. split; [apply Hold; done|]. done. }
    destruct (decide (n = point)) as [->|Hne]; [|auto].
    destruct (decide (k = k')) as [<-|Hkk].
    + rewrite dict_get_set_eq in Hget. injection Hget as <-.
      eexists. split; [done|]. done.
    + rewrite dict_get_set_ne in Hget by done. auto.
  - cbn [_root _routes]. split; [done|].
    intros k' route' Hget. unfold routed in Hget.
    destruct (decide (k = k')) as [<-|Hkk].
    + rewrite dict_get_set_eq in Hget. injection Hget as <-. cbn [fst snd].
      split; [|done].
      destruct (dict_get k (_routes t)) as [route|] eqn:Hroute; [|done].
      apply (Hot k route Hroute).
    + rewrite dict_get_set_ne in Hget by done. apply (Hot k' route' Hget).
  - cbn [_routes]. intros k' route' Hget. unfold routed in Hget.
    assert (Holdr : forall route, dict_get k' (_routes t) = Some route ->
              (exists hd, heap s3 !! fst route = Some hd /\ _item hd = k') /\
              (exists td, heap s3 !! snd route = Some td /\ _item td = k')).
    { intros route Hg.
      destruct (Hr k' route Hg) as [(hd & Hhd & Hhi) (td & Htd & Hti)].
      split; eexists; (split; [apply Hold; done|done]). }
    destruct (decide (k = k')) as [<-|Hkk].
    + rewrite dict_get_set_eq in Hget. injection Hget as <-. cbn [fst snd].
      split; [|eexists; split; [done|]; done].
      destruct (dict_get k (_routes t)) as [route|] eqn:Hroute.
      * apply (Holdr route eq_refl).
      * eexists. split; [done|]. done.
    + rewrite dict_get_set_ne in Hget by done. auto.
  - cbn [_routes]. apply dict_keys_set_NoDup. done.
  - cbn [_root]. destruct Hroot as (rd & Hrd & Hrr).
    eexists. split; [apply Hold; done|]. done.
Qed.

Lemma carry_extends s s' path (its : list Item) :
  extends s s' -> carry s path its -> carry s' path its.
Proof.
  intros Hext Hc. eapply Forall2_impl; [exact Hc|].
  intros n i Hn. eapply extends_item_at; done.
Qed.

Lemma path_sorted_extends s s' (P : Item -> Prop) path :
  extends s s' -> path_sorted s P path -> path_sorted s' P path.
Proof.
  intros Hext (its & Hc & Hs & HP). exists its.
  split; [eapply carry_extends; done|done].
Qed.

Lemma sorted_tail_lt s (t : FPTree Label) k (route : nat * nat) :
  sorted_tree s t -> dict_get k (_routes t) = Some route ->
  (snd route < length (heap s))%nat.
Proof.
  intros Hst Hget.
  destruct (st_routes _ _ _ Hst k route Hget) as [_ (td & Htd & _)].
  eapply lookup_lt_Some. done.
Qed.

Lemma add_from_sorted (transaction : list Item) :
  forall t (point : nat) s t' s',
    sorted_store s -> sorted_tree s t ->
    StronglySorted R transaction -> point_before s point transaction ->
    FPTree.add_from t point transaction s = Ok t' s' ->
    sorted_store s' /\ sorted_tree s' t' /\ extends s s'.
Proof.
  induction transaction as [|item rest IH];
    intros t point s t' s' Hss Hst Hsorted (Hgp & pd & Hpd & Hpk) Hrun.
  - apply ret_Ok in Hrun as [-> ->]. split; [done|]. split; [done|].
    apply extends_refl.
  - cbn [FPTree.add_from] in Hrun.
    apply StronglySorted_inv in Hsorted as [Hsorted Hall].
    apply bind_Ok in Hrun as (next_point & s1 & Hs & Hrun).
    apply search_Ok in Hs as (-> & pd' & Hpd' & Hget).
    assert (pd' = pd) as -> by congruence.
    destruct next_point as [np|].
    + apply bind_Ok in Hrun as ([] & s1 & Hi & Hrun).
      apply increment_Ok in Hi as (nd & c & Hnd & Hc & ->).
      assert (Hsh : same_shape s (upd s np (FPNode.with_count nd
                                              (Some (c + 1)%Z)))).
      { apply same_shape_upd; [done|]. rewrite Hc. done. }
      pose proof (same_shape_extends _ _ Hsh) as Hext.
      apply IH in Hrun as (Hss' & Hst' & Hext');
        [|eapply sorted_store_same_shape; done
         |eapply sorted_tree_extends; done|done|].
      * split; [done|]. split; [done|]. eapply extends_trans; done.
      * destruct (ss_children _ _ _ Hss _ _ _ _ Hgp Hpd Hget)
          as (cd & Hcd & Hci).
        destruct (Hext _ _ Hcd) as (cd' & Hcd' & Hci' & _).
        split; [apply (ss_own _ _ _ Hss point pd np Hgp Hpd); eauto|].
        exists cd'. split; [done|]. right. congruence.
    + apply bind_Ok in Hrun as (np & s1 & Hnew & Hrun).
      apply bind_Ok in Hrun as ([] & s2 & Hadd & Hrun).
      apply bind_Ok in Hrun as (t1 & s3 & Hupd & Hrun).
      destruct (attach_Ok _ _ _ _ _ _ _ _ _ _ _ _ Hpd Hget
                  (fun route => sorted_tail_lt s t item route Hst)
                  Hnew Hadd Hupd)
        as (-> & _ & _ & -> & Hlen & Hnp & Hold & _).
      destruct (sorted_attach s s3 t point item (Some 1%Z) pd Hss Hst Hgp Hpd)
        as (Hss3 & Hst3 & Hext3); try done.
      { destruct Hpk as [Hroot|Hk]; [auto|]. right.
        apply Forall_cons in Hk as [Hk _]. done. }
      apply IH in Hrun as (Hss' & Hst' & Hext'); [|done|done|done|].
      * split; [done|]. split; [done|]. eapply extends_trans; done.
      * split; [apply (ss_base _ _ _ Hss)|].
        eexists. split; [done|]. right. done.
Qed.

Lemma import_path_sorted (ci : Item) path :
  forall (its : list Item) t (point : nat) s t' s',
    sorted_store s -> sorted_tree s t ->
    carry s path its -> StronglySorted R its -> point_before s point its ->
    import_path t ci point path s = Ok t' s' ->
    sorted_store s' /\ sorted_tree s' t' /\ extends s s' /\
    (forall k, k ∈ dict_keys (_routes t') ->
               k ∈ dict_keys (_routes t) \/ k ∈ its).
Proof.
  induction path as [|node rest IH];
    intros its t point s t' s' Hss Hst Hcarry Hsorted (Hgp & pd & Hpd & Hpk)
      Hrun.
  - apply ret_Ok in Hrun as [-> ->]. split; [done|]. split; [done|].
    split; [apply extends_refl|auto].
  - cbn [import_path] in Hrun.
    apply Forall2_cons_inv_l in Hcarry as (i & its' & Hi & Hcarry & ->).
    apply StronglySorted_inv in Hsorted as [Hsorted Hall].
    apply bind_Ok in Hrun as (node_item & s1 & Hni & Hrun).
    apply item_Ok in Hni as (-> & nnd & Hnnd & <-).
    apply item_at_Some in Hi as (nnd' & Hnnd' & <-).
    assert (nnd' = nnd) as -> by congruence.
    apply bind_Ok in Hrun as (next_point & s1 & Hs & Hrun).
    apply search_Ok in Hs as (-> & pd' & Hpd' & Hget).
    assert (pd' = pd) as -> by congruence.
    destruct next_point as [np|].
    + apply IH with (its := its') in Hrun as (Hss' & Hst' & Hext' & Hkeys);
        [|done|done|done|done|].
      * split; [done|]. split; [done|]. split; [done|].
        intros k Hk. destruct (Hkeys k Hk); [auto|]. right. right. done.
      * destruct (ss_children _ _ _ Hss _ _ _ _ Hgp Hpd Hget)
          as (cd & Hcd & Hci).
        split; [apply (ss_own _ _ _ Hss point pd np Hgp Hpd); eauto|].
        exists cd. split; [done|]. right. congruence.
    + apply bind_Ok in Hrun as (c & s1 & Hc & Hrun).
      assert (s1 = s) as ->.
      { destruct (decide (_item nnd = ci)).
        - apply count_Ok in Hc as (-> & _). done.
        - apply ret_Ok in Hc as [_ ->]. done. }
      clear Hc.
      apply bind_Ok in Hrun as (np & s1 & Hnew & Hrun).
      apply bind_Ok in Hrun as ([] & s2 & Hadd & Hrun).
      apply bind_Ok in Hrun as (t1 & s3 & Hupd & Hrun).
      destruct (attach_Ok _ _ _ _ _ _ _ _ _ _ _ _ Hpd Hget
                  (fun route => sorted_tail_lt s t (_item nnd) route Hst)
                  Hnew Hadd Hupd)
        as (-> & _ & _ & -> & Hlen & Hnp & Hold & _).
      destruct (sorted_attach s s3 t point (_item nnd) c pd Hss Hst Hgp Hpd)
        as (Hss3 & Hst3 & Hext3); try done.
      { destruct Hpk as [Hroot|Hk]; [auto|]. right.
        apply Forall_cons in Hk as [Hk _]. done. }
      apply IH with (its := its') in Hrun as (Hss' & Hst' & Hext' & Hkeys);
        [|done|done|eapply carry_extends; done|done|].
      * split; [done|]. split; [done|].
        split; [eapply extends_trans; done|].
        intros k Hk. destruct (Hkeys k Hk) as [Hk'|Hk'].
        -- cbn [_routes] in Hk'. apply routed_keys in Hk' as [->|Hk'];
             [right; left|auto].
        -- right. right. done.
      * split; [apply (ss_base _ _ _ Hss)|].
        eexists. split; [done|]. right. done.
Qed.

Lemma import_paths_sorted (P : Item -> Prop) (paths : list (list nat)) :
  forall (ci : Item) t s r s',
    sorted_store s -> sorted_tree s t ->
    Forall (path_sorted s P) paths ->
    import_paths t ci paths s = Ok r s' ->
    sorted_store s' /\ sorted_tree s' (fst r) /\ extends s s' /\
    (forall k, k ∈ dict_keys (_routes (fst r)) ->
               k ∈ dict_keys (_routes t) \/ P k).
Proof.
  induction paths as [|path rest IH];
    intros ci t s r s' Hss Hst Hall Hrun.
  - apply ret_Ok in Hrun as [-> ->]. split; [done|]. split; [done|].
    split; [apply extends_refl|auto].
  - cbn [import_paths] in Hrun.
    apply Forall_cons in Hall as [(its & Hcarry & Hsorted & HP) Hall].
    apply bind_Ok in Hrun as (ci' & s1 & Hci & Hrun).
    assert (s1 = s) as ->.
    { destruct ci.
      - apply ret_Ok in Hci as [_ ->]. done.
      - destruct (last path); [|discriminate].
        apply item_Ok in Hci as (-> & _). done. }
    clear Hci.
    apply bind_Ok in Hrun as (t1 & s1 & Hpath & Hrun).
    destruct (st_root _ _ _ Hst) as (rd & Hrd & Hrr).
    eapply import_path_sorted in Hpath as (Hss1 & Hst1 & Hext1 & Hkeys1);
      [|done|done|exact Hcarry|done
       |split; [apply (st_own _ _ _ Hst)|]; eexists; split; [done|]; auto].
    apply IH in Hrun as (Hss' & Hst' & Hext' & Hkeys'); [|done|done|].
    + split; [done|]. split; [done|]. split; [eapply extends_trans; done|].
      intros k Hk. destruct (Hkeys' k Hk) as [Hk'|]; [|auto].
      destruct (Hkeys1 k Hk') as [|Hin]; [auto|]. right.
      rewrite Forall_forall in HP. auto.
    + eapply Forall_impl; [exact Hall|]. intros p Hp.
      eapply path_sorted_extends; done.
Qed.

Lemma for_each_add_count_shape (A : list nat) (c : option Z) :
  forall s s',
    for_each A (fun a => FPNode.add_count a c) s = Ok tt s' -> same_shape s s'.
Proof.
  induction A as [|a A IH]; intros s s' Hrun.
  - apply ret_Ok in Hrun as [_ ->]. apply same_shape_refl.
  - cbn [for_each] in Hrun.
    apply bind_Ok in Hrun as ([] & s1 & Hadd & Hrun).
    apply add_count_Ok in Hadd as (ad & c0 & d & Had & Hc0 & -> & ->).
    eapply same_shape_trans; [|apply IH; exact Hrun].
    apply same_shape_upd; [done|]. rewrite Hc0. done.
Qed.

Lemma spread_counts_shape (fuel : nat) :
  forall (node : option nat) s s',
    spread_counts fuel node s = Ok tt s' -> same_shape s s'.
Proof.
  induction fuel as [|fuel IH]; intros [n|] s s' Hrun; cbn in Hrun;
    try discriminate;
    try (apply ret_Ok in Hrun as [_ ->]; apply same_shape_refl).
  apply bind_Ok in Hrun as (path & s1 & Hcp & Hrun).
  apply collect_path_Ok in Hcp as [-> _].
  apply bind_Ok in Hrun as ([] & s2 & Hsp & Hrun).
  apply bind_Ok in Hrun as (next & s3 & Hnb & Hrun).
  apply neighbor_Ok in Hnb as (-> & _).
  apply IH in Hrun. eapply same_shape_trans; [|exact Hrun].
  unfold spread_count in Hsp. destruct (last path); [|discriminate].
  apply bind_Ok in Hsp as (c & s1 & Hc & Hsp).
  apply count_Ok in Hc as (-> & _).
  eapply for_each_add_count_shape. exact Hsp.
Qed.

Lemma sorted_new s :
  sorted_store s ->
  let s0 := mkStore (heap s ++ [root_node (next_tree s)]) (S (next_tree s)) in
  sorted_store s0 /\
  sorted_tree s0 (mkFPTree (next_tree s) (length (heap s)) []) /\
  extends s s0.
Proof.
  intros [Hb Ho Hn Hp Hc] s0.
  assert (Hcase : forall n nd, heap s0 !! n = Some nd ->
            heap s !! n = Some nd \/ nd = root_node (next_tree s)).
  { intros n nd Hnd. cbn [heap s0] in Hnd.
    apply lookup_snoc_Some in Hnd as [[_ Hnd]|[_ <-]]; auto. }
  assert (Hkeep : forall n nd, heap s !! n = Some nd -> heap s0 !! n = Some nd).
  { intros n nd Hnd. cbn [heap s0]. apply lookup_app_l_Some. done. }
  split; [split|split; [split|]].
  - cbn [heap s0]. rewrite length_app. lia.
  - intros n nd m Hge Hnd Hm. destruct (Hcase n nd Hnd) as [Hnd'| ->].
    + apply (Ho n nd m Hge Hnd' Hm).
    + cbn in Hm. destruct Hm as [|[|[k Hm]]]; done.
  - intros n nd m Hge Hnd Hnb.
    destruct (Hcase n nd Hnd) as [Hnd'| ->]; [|done].
    destruct (Hn n nd m Hge Hnd' Hnb) as (md & Hmd & Hmi). eauto.
  - intros n nd p Hge Hnd Hpar.
    destruct (Hcase n nd Hnd) as [Hnd'| ->]; [|done].
    destruct (Hp n nd p Hge Hnd' Hpar) as (pd & Hpd & Hor). eauto.
  - intros n nd k c Hge Hnd Hget.
    destruct (Hcase n nd Hnd) as [Hnd'| ->]; [|done].
    destruct (Hc n nd k c Hge Hnd' Hget) as (cd & Hcd & Hci). eauto.
  - cbn [_root _routes]. split; [done|]. intros k route Hget. done.
  - intros k route Hget. done.
  - constructor.
  - cbn [_root]. exists (root_node (next_tree s)).
    split; [|done]. cbn [heap s0]. apply list_lookup_middle. done.
  - intros n nd Hnd. eauto.
Qed.

Lemma conditional_tree_sorted (P : Item -> Prop) (paths : list (list nat))
  s t s' :
  sorted_store s ->
  Forall (path_sorted s P) paths ->
  conditional_tree_from_paths paths s = Ok t s' ->
  sorted_store s' /\ sorted_tree s' t /\ extends s s' /\
  Forall P (dict_keys (_routes t)).
Proof.
  intros Hss Hall Hrun. unfold conditional_tree_from_paths in Hrun.
  apply bind_Ok in Hrun as (t0 & s0 & Hnew & Hrun).
  apply new_tree_Ok in Hnew as [-> ->].
  destruct (sorted_new s Hss) as (Hss0 & Hst0 & Hext0).
  apply bind_Ok in Hrun as ([t1 ci] & s1 & Himport & Hrun).
  eapply import_paths_sorted in Himport as (Hss1 & Hst1 & Hext1 & Hkeys);
    [|done|done|].
  2:{ eapply Forall_impl; [exact Hall|]. intros p Hp.
      eapply path_sorted_extends; done. }
  cbn [fst] in Hst1, Hkeys. destruct ci as [c|]; [|discriminate].
  apply bind_Ok in Hrun as ([] & s2 & Hspread & Hrun).
  apply ret_Ok in Hrun as [<- <-].
  assert (Hsh : same_shape s1 s').
  { match type of Hspread with
    | match ?d with _ => _ end _ = _ => destruct d as [route|]
    end.
    - apply bind_Ok in Hspread as (s3 & s4 & Hg & Hspread).
      injection Hg as <- <-. eapply spread_counts_shape. exact Hspread.
    - apply ret_Ok in Hspread as [_ ->]. apply same_shape_refl. }
  pose proof (same_shape_extends _ _ Hsh) as Hext'.
  split; [eapply sorted_store_same_shape; done|].
  split; [eapply sorted_tree_extends; done|].
  split; [eapply extends_trans; [done|]; eapply extends_trans; done|].
  apply Forall_forall. intros k Hk.
  destruct (Hkeys k Hk) as [Hk'|]; [|done]. cbn in Hk'. inversion Hk'.
Qed.

Lemma nodes_from_items k (fuel : nat) :
  forall (node : option nat) s ns s',
    sorted_store s ->
    (forall n, node = Some n -> (base <= n)%nat /\ item_at s n = Some k) ->
    FPTree.nodes_from fuel node s = Ok ns s' ->
    s' = s /\ Forall (fun n => (base <= n)%nat /\ item_at s n = Some k) ns.
Proof.
  induction fuel as [|fuel IH]; intros [n|] s ns s' Hss Hnode Hrun;
    cbn in Hrun; try discriminate;
    try (apply ret_Ok in Hrun as [-> ->]; done).
  apply bind_Ok in Hrun as (next & s1 & Hnb & Hrun).
  apply neighbor_Ok in Hnb as (-> & nd & Hnd & <-).
  apply bind_Ok in Hrun as (rest & s1 & Hrest & Hrun).
  apply ret_Ok in Hrun as [-> ->].
  pose proof (Hnode n eq_refl) as [Hge Hn].
  apply IH in Hrest as [-> Hall]; [split; [done|]; constructor; done|done|].
  intros m Hm.
  destruct (ss_neighbor _ _ _ Hss n nd m Hge Hnd Hm) as (md & Hmd & Hmi).
  split; [apply (ss_own _ _ _ Hss n nd m Hge Hnd); auto|].
  apply item_at_Some in Hn as (nd' & Hnd' & <-).
  apply item_at_Some. exists md. split; [done|]. congruence.
Qed.

Lemma nodes_items s t k ns s' :
  sorted_store s -> sorted_tree s t ->
  FPTree.nodes t k s = Ok ns s' ->
  s' = s /\ Forall (fun n => (base <= n)%nat /\ item_at s n = Some k) ns.
Proof.
  intros Hss Hst Hrun. unfold FPTree.nodes in Hrun.
  destruct (dict_get k (_routes t)) as [route|] eqn:Hget.
  - apply bind_Ok in Hrun as (s0 & s1 & Hg & Hrun). injection Hg as <- <-.
    eapply nodes_from_items; [done| |exact Hrun].
    intros n [= <-].
    destruct (st_routes _ _ _ Hst k route Hget) as [(hd & Hhd & Hhi) _].
    split; [apply (proj2 (st_own _ _ _ Hst) k route Hget)|].
    apply item_at_Some. eauto.
  - apply ret_Ok in Hrun as [-> ->]. done.
Qed.

Lemma path_up_root (h : list (FPNode Label)) (fuel p : nat)
  (pd : FPNode Label) :
  h !! p = Some pd -> FPNode.is_root pd = true ->
  path_up h fuel (Some p) = [].
Proof. intros Hpd Hr. destruct fuel; cbn; rewrite Hpd, Hr; done. Qed.

Lemma StronglySorted_snoc (its : list Item) (i : Item) :
  StronglySorted R its -> Forall (fun j => R j i) its ->
  StronglySorted R (its ++ [i]).
Proof.
  induction 1 as [|j its Hs IH Hj]; intros Hall; cbn.
  - repeat constructor.
  - apply Forall_cons in Hall as [Hji Hall].
    constructor; [auto|].
    apply Forall_app. split; [done|]. constructor; [done|constructor].
Qed.

Lemma singleton_sorted (i : Item) :
  StronglySorted R [i] /\ Forall (fun j => j = i \/ R j i) [i].
Proof.
  split; [repeat constructor|]. constructor; [left; done|constructor].
Qed.

(** The path from below the root to a node: its items are in order and
    end with the node's. *)
Lemma path_up_sorted s (fuel : nat) :
  sorted_store s ->
  forall (n : nat) nd,
    (base <= n)%nat -> heap s !! n = Some nd ->
    exists its, carry s (rev (path_up (heap s) fuel (Some n))) its /\
                StronglySorted R its /\
                Forall (fun i => i = _item nd \/ R i (_item nd)) its.
Proof.
  intros Hss. induction fuel as [|fuel IH]; intros n nd Hge Hnd.
  - exists []. cbn. rewrite Hnd. destruct (FPNode.is_root nd);
      (split; [constructor|split; constructor]).
  - cbn [path_up]. rewrite Hnd.
    destruct (FPNode.is_root nd) eqn:Hr.
    { exists []. split; [constructor|split; constructor]. }
    cbn [rev].
    assert (Hself : carry s [n] [_item nd]).
    { constructor; [|constructor]. apply item_at_Some. eauto. }
    destruct (_parent nd) as [p|] eqn:Hpar.
    + destruct (ss_parent _ _ _ Hss n nd p Hge Hnd Hpar) as (pd & Hpd & Hor).
      assert (Hgp : (base <= p)%nat)
        by (apply (ss_own _ _ _ Hss n nd p Hge Hnd); auto).
      destruct Hor as [Hroot|Hlt].
      * rewrite (path_up_root _ _ _ _ Hpd Hroot). cbn.
        exists [_item nd]. split; [done|]. apply singleton_sorted.
      * destruct (IH p pd Hgp Hpd) as (its & Hc & Hs & Hall).
        assert (Hall' : Forall (fun j => R j (_item nd)) its).
        { eapply Forall_impl; [exact Hall|]. intros j [->|Hj]; [done|].
          etransitivity; done. }
        exists (its ++ [_item nd]).
        split; [apply Forall2_app; done|].
        split; [apply StronglySorted_snoc; done|].
        apply Forall_app. split.
        -- eapply Forall_impl; [exact Hall'|]. auto.
        -- apply singleton_sorted.
    + destruct fuel; cbn; exists [_item nd];
        (split; [done|]; apply singleton_sorted).
Qed.

Lemma prefix_paths_sorted s t k (paths : list (list nat)) s' :
  sorted_store s -> sorted_tree s t ->
  FPTree.prefix_paths t k s = Ok paths s' ->
  s' = s /\ Forall (path_sorted s (fun i => i = k \/ R i k)) paths.
Proof.
  intros Hss Hst Hrun. unfold FPTree.prefix_paths in Hrun.
  apply bind_Ok in Hrun as (ns & s1 & Hns & Hrun).
  apply nodes_items in Hns as [-> Hall]; [|done|done].
  revert paths s' Hrun. induction Hall as [|n ns [Hge Hn] Hall IH];
    intros paths s' Hrun.
  - apply ret_Ok in Hrun as [-> ->]. done.
  - cbn [map_m] in Hrun.
    apply bind_Ok in Hrun as (path & s1 & Hcp & Hrun).
    apply collect_path_Ok in Hcp as [-> ->].
    apply bind_Ok in Hrun as (rest & s1 & Hrest & Hrun).
    apply IH in Hrest as [-> Hrest].
    apply ret_Ok in Hrun as [-> ->]. split; [done|].
    constructor; [|done].
    apply item_at_Some in Hn as (nd & Hnd & <-).
    apply (path_up_sorted s (S (length (heap s))) Hss n nd Hge Hnd).
Qed.

Lemma sum_counts_store (ns : list nat) :
  forall s z s', sum_counts ns s = Ok z s' -> s' = s.
Proof.
  induction ns as [|n ns IH]; intros s z s' Hrun.
  - apply ret_Ok in Hrun as [_ ->]. done.
  - cbn [sum_counts] in Hrun.
    apply bind_Ok in Hrun as (c & s1 & Hc & Hrun).
    apply count_Ok in Hc as (-> & _).
    destruct c; [|discriminate].
    apply bind_Ok in Hrun as (total & s1 & Ht & Hrun).
    apply IH in Ht as ->. apply ret_Ok in Hrun as [_ ->]. done.
Qed.

Lemma app_cons_tail_inj (pre pre' suffix : list Item) (i j : Item) :
  pre ++ i :: suffix = pre' ++ j :: suffix -> i = j.
Proof.
  rewrite (cons_middle i pre suffix), (cons_middle j pre' suffix).
  rewrite !app_assoc. intros Heq. apply app_inv_tail in Heq.
  apply app_inj_tail in Heq as [_ Heq]. done.
Qed.

Lemma bounded_cons (keys suffix : list Item) (i : Item) :
  StronglySorted R suffix -> bounded keys suffix ->
  i ∈ keys -> i ∉ suffix -> StronglySorted R (i :: suffix).
Proof.
  intros Hs Hb Hi Hni. constructor; [done|].
  destruct suffix as [|y suffix]; [constructor|].
  cbn in Hb. rewrite Forall_forall in Hb.
  assert (Hiy : R i y).
  { destruct (Hb i Hi) as [->|]; [|done]. exfalso. apply Hni. left. }
  apply StronglySorted_inv in Hs as [_ Hall].
  constructor; [done|].
  eapply Forall_impl; [exact Hall|]. intros z Hz. etransitivity; done.
Qed.

Lemma yields_nil (suffix ks : list Item) : yields suffix ks [].
Proof. split; constructor. Qed.

(** The yield for [item :: suffix], followed by what the conditional tree
    of [item] gives. *)
Lemma yields_found (suffix ks : list Item) (item : Item) (sup : option Z)
  (found : list (emitted Label)) :
  StronglySorted R (item :: suffix) ->
  yields (item :: suffix) ks found ->
  yields suffix [item] ((item :: suffix, sup) :: found).
Proof.
  intros Hsorted [Hall Hnodup]. split.
  - constructor.
    + cbn [fst]. split; [done|]. exists [], item. split; [left|done].
    + eapply Forall_impl; [exact Hall|].
      intros e (He & pre & i & _ & Heq). split; [done|].
      exists (pre ++ [i]), item. split; [left|].
      rewrite Heq, <- app_assoc. done.
  - cbn [map fst]. constructor; [|done].
    intros Hin. apply list_elem_of_fmap in Hin as (e & Heq & He).
    rewrite Forall_forall in Hall.
    destruct (Hall e He) as (_ & pre & i & _ & Hpre).
    rewrite Hpre in Heq.
    apply (f_equal length) in Heq. rewrite length_app in Heq.
    cbn in Heq. lia.
Qed.

Lemma yields_first (suffix ks : list Item) (item : Item)
  (ys : list (emitted Label)) :
  yields suffix [item] ys -> yields suffix (item :: ks) ys.
Proof.
  intros [Hall Hnodup]. split; [|done].
  eapply Forall_impl; [exact Hall|].
  intros e (He & pre & i & Hi & Heq). split; [done|].
  exists pre, i. split; [|done].
  apply list_elem_of_singleton in Hi as ->. left.
Qed.

(** The yields for one item, followed by the yields for other items. *)
Lemma yields_app (suffix ks : list Item) (item : Item)
  (ys zs : list (emitted Label)) :
  item ∉ ks -> yields suffix [item] ys -> yields suffix ks zs ->
  yields suffix (item :: ks) (ys ++ zs).
Proof.
  intros Hnotin [Hally Hndy] [Hallz Hndz]. split.
  - apply Forall_app. split.
    + apply (yields_first suffix ks item ys). split; done.
    + eapply Forall_impl; [exact Hallz|].
      intros e (He & pre & i & Hi & Heq). split; [done|].
      exists pre, i. split; [right; done|done].
  - rewrite map_app. apply NoDup_app. split; [done|]. split; [|done].
    intros y Hy Hz.
    apply list_elem_of_fmap in Hy as (e1 & -> & He1).
    apply list_elem_of_fmap in Hz as (e2 & Heq & He2).
    rewrite Forall_forall in Hally, Hallz.
    destruct (Hally e1 He1) as (_ & pre1 & i1 & Hi1 & Heq1).
    destruct (Hallz e2 He2) as (_ & pre2 & i2 & Hi2 & Heq2).
    apply list_elem_of_singleton in Hi1 as ->.
    rewrite Heq1, Heq2 in Heq. apply app_cons_tail_inj in Heq as ->.
    done.
Qed.

Lemma gen_bind_call {A B C} (m : M A) (k : A -> Gen Label B C) s :
  gen_bind (call m) k s =
    match m s with
    | Ok a s' => k a s'
    | Raise e s' => ([], Raise e s')
    end.
Proof.
  unfold gen_bind, call. destruct (m s) as [a s'|e s']; [|done].
  destruct (k a s'). done.
Qed.

Lemma gen_bind_yield {B C} (b : B) (k : unit -> Gen Label B C) s :
  gen_bind (yield b) k s = (b :: fst (k tt s), snd (k tt s)).
Proof. unfold gen_bind, yield. destruct (k tt s). done. Qed.

Lemma mined_raise (suffix ks : list Item) s (e : Exn) s' :
  mined suffix ks s ([], Raise e s').
Proof. split; [apply yields_nil|]. intros u s0 Hr. discriminate Hr. Qed.

Lemma find_with_suffix_sorted (minimum_support : Z) (include_support : bool)
  (fuel : nat) :
  forall t (suffix : list Item) s,
    sorted_store s -> sorted_tree s t ->
    StronglySorted R suffix -> bounded (dict_keys (_routes t)) suffix ->
    mined suffix (dict_keys (_routes t)) s
      (find_with_suffix fuel minimum_support include_support t suffix s).
Proof.
  induction fuel as [|fuel IH]; intros t suffix s Hss Hst Hsuf Hb.
  { apply mined_raise. }
  cbn [find_with_suffix]. unfold FPTree.items.
  match goal with |- context [for_yield _ ?body] => set (f := body) end.
  (* the body of the loop, for one item of the tree *)
  assert (Hbody : forall item s0,
            sorted_store s0 -> sorted_tree s0 t ->
            item ∈ dict_keys (_routes t) ->
            mined suffix [item] s0 (f item s0)).
  { clear s Hss Hst. intros item s Hss Hst Hitem. unfold f.
    rewrite gen_bind_call.
    destruct (FPTree.nodes t item s) as [ns s1|e s1] eqn:Hns;
      [|apply mined_raise].
    apply nodes_items in Hns as [-> _]; [|done|done].
    rewrite gen_bind_call.
    destruct (sum_counts ns s) as [support s1|e s1] eqn:Hsum;
      [|apply mined_raise].
    apply sum_counts_store in Hsum as ->.
    destruct ((minimum_support <=? support)%Z &&
              negb (bool_decide (item ∈ suffix))) eqn:Hcond.
    2:{ split; [apply yields_nil|]. intros u s' [= <- <-].
        split; [done|apply extends_refl]. }
    apply andb_prop in Hcond as [_ Hni].
    apply negb_true_iff, bool_decide_eq_false in Hni.
    assert (Hsorted : StronglySorted R (item :: suffix)).
    { eapply bounded_cons; done. }
    rewrite gen_bind_yield, gen_bind_call.
    destruct (FPTree.prefix_paths t item s) as [paths s1|e s1] eqn:Hpaths.
    2:{ split; [|intros u s' Hr; discriminate Hr].
        apply (yields_found suffix []); [done|apply yields_nil]. }
    apply prefix_paths_sorted in Hpaths as [-> Hpaths]; [|done|done].
    rewrite gen_bind_call.
    destruct (conditional_tree_from_paths paths s) as [ct s1|e s1] eqn:Hct.
    2:{ split; [|intros u s' Hr; discriminate Hr].
        apply (yields_found suffix []); [done|apply yields_nil]. }
    apply conditional_tree_sorted with (P := fun i => i = item \/ R i item)
      in Hct as (Hss1 & Hst1 & Hext1 & Hkeys); [|done|done].
    destruct (IH ct (item :: suffix) s1 Hss1 Hst1 Hsorted Hkeys)
      as [Hy Hr].
    split; cbn [fst snd].
    - eapply yields_found; done.
    - intros u s' Hret. destruct (Hr u s' Hret) as [Hss' Hext'].
      split; [done|]. eapply extends_trans; done. }
  (* the loop *)
  pose proof (st_keys _ _ _ Hst) as Hnd.
  assert (Hsub : forall k, k ∈ dict_keys (_routes t) ->
                           k ∈ dict_keys (_routes t)) by auto.
  revert Hsub Hnd Hss Hst.
  generalize (dict_keys (_routes t)) at 1 3 4 5 as ks.
  intros ks. revert s.
  induction ks as [|item ks IHks]; intros s Hsub Hnd Hss Hst.
  { split; [apply yields_nil|]. intros u s' [= <- <-].
    split; [done|apply extends_refl]. }
  apply NoDup_cons in Hnd as [Hnotin Hnd].
  cbn [for_yield]. unfold gen_bind at 1.
  destruct (Hbody item s Hss Hst (Hsub item (list_elem_of_here _ _)))
    as [Hys Hret].
  destruct (f item s) as [ys [u s1|e s1]]; cbn [fst snd] in Hys, Hret.
  - destruct (Hret u s1 eq_refl) as [Hss1 Hext1].
    destruct (IHks s1) as [Hzs Hret'];
      [intros k Hk; apply Hsub; right; done|done|done
      |eapply sorted_tree_extends; done|].
    destruct (for_yield ks f s1) as [zs r]; cbn [fst snd] in Hzs, Hret'.
    split; cbn [fst snd].
    + apply yields_app; done.
    + intros u' s' Hr. destruct (Hret' u' s' Hr) as [Hss' Hext'].
      split; [done|]. eapply extends_trans; done.
  - split; cbn [fst snd]; [apply yields_first; done|].
    intros u s' Hr. discriminate Hr.
Qed.
End Sorted.

(** ** Node operations *)

Section NodeFacts.
Context {Label : Type} `{EqDecision Label}.
Local Abbreviation Item := (Item Label).
Local Abbreviation M := (M Label).
Implicit Types (s : Store Label) (nd : FPNode Label).

(** C8. [increment()] on a node whose count is absent raises [ValueError]
    and leaves the store as it was; on any other node, a node with count
    0 included, it replaces the count [c] by [c + 1] and changes nothing
    else. *)
Theorem increment_spec s (self : nat) nd :
  heap s !! self = Some nd ->
  FPNode.increment self s =
    match _count nd with
    | None => Raise ValueError s
    | Some c => Ok tt (upd s self (FPNode.with_count nd (Some (c + 1)%Z)))
    end.
Proof.
  intros Hnd.
  unfold FPNode.increment, FPNode.count, FPNode.add_count, bind, get_node, ret.
  rewrite Hnd. destruct (_count nd) as [c|] eqn:Hc; [|reflexivity].
  rewrite Hnd, Hc. reflexivity.
Qed.

(** C10. When [P] already has a child for [C]'s item, [P.add(C)] returns
    normally and the store is unchanged: [P]'s children, the existing
    child and [C] (its parent included) are what they were. *)
Theorem add_existing_child_noop s (P C : nat) (pd cd : FPNode Label)
  (existing : nat) :
  heap s !! P = Some pd ->
  heap s !! C = Some cd ->
  dict_get (_item cd) (_children pd) = Some existing ->
  FPNode.add P C s = Ok tt s.
Proof.
  intros HP HC Hex.
  unfold FPNode.add, FPNode.item, bind, get_node, ret, dict_mem.
  rewrite HC, HP, Hex. reflexivity.
Qed.
End NodeFacts.

(** ** The top-level call *)

Section TopLevel.
Context {Label : Type} `{EqDecision Label}.
Local Abbreviation Item := (Item Label).
Local Abbreviation M := (M Label).
Implicit Types (s : Store Label) (df : DataFrame Label).

(** C9. On an empty sequence of paths [conditional_tree_from_paths] does
    not return a tree: its assertion fails, after the root of the new tree
    has been allocated. *)
Theorem conditional_tree_from_no_paths s :
  conditional_tree_from_paths (Label:=Label) [] s =
    Raise AssertionError
      (mkStore (heap s ++ [root_node (next_tree s)]) (S (next_tree s))).
Proof. reflexivity. Qed.

(** C7. A data frame without rows yields the empty sequence, whatever the
    columns, the threshold and [include_support]. *)
Theorem find_frequent_itemsets_no_rows (fuel : nat) (cols : list Item)
  (minimum_support : Z) (include_support : bool) s :
  find_frequent_itemsets (S fuel) (mkDataFrame [] cols []) minimum_support
    include_support s =
    ([], Ok tt (mkStore (heap s ++ [root_node (next_tree s)])
                  (S (next_tree s)))).
Proof. destruct cols; reflexivity. Qed.

(** In a Series under the default index the row labelled [n] is the row
    at position [n]. *)
Lemma filter_label_below {A} (ts : list A) :
  forall (a m : nat), (m < a)%nat ->
    filter (fun e : Z * A => fst e = Z.of_nat m)
      (combine (map Z.of_nat (seq a (length ts))) ts) = [].
Proof.
  induction ts as [|t ts IH]; intros a m Hm; [reflexivity|].
  cbn [length seq map combine]. rewrite filter_cons. cbn [fst].
  rewrite decide_False by lia. apply IH. lia.
Qed.

Lemma filter_label_default {A} (ts : list A) :
  forall (a n : nat) (t : A),
    ts !! n = Some t ->
    filter (fun e : Z * A => fst e = Z.of_nat (a + n))
      (combine (map Z.of_nat (seq a (length ts))) ts) =
      [(Z.of_nat (a + n), t)].
Proof.
  induction ts as [|t0 ts IH]; intros a n t Hn; [discriminate Hn|].
  cbn [length seq map combine]. rewrite filter_cons. cbn [fst].
  destruct n as [|n].
  - injection Hn as ->. rewrite Nat.add_0_r. rewrite decide_True by done.
    rewrite filter_label_below by lia. reflexivity.
  - rewrite decide_False by lia. cbn in Hn.
    replace (a + S n)%nat with (S a + n)%nat by lia. apply IH. done.
Qed.

Lemma Series_getitem_default {A} (ts : list A) (n : nat) (t : A) :
  ts !! n = Some t ->
  Series_getitem (combine (default_index (length ts)) ts) (Z.of_nat n) =
    One t.
Proof.
  intros Hn. unfold Series_getitem, default_index, Series.
  pose proof (filter_label_default ts 0 n t Hn) as Hf.
  change (0 + n)%nat with n in Hf. rewrite Hf. reflexivity.
Qed.

Lemma add_rows_default (ts : list (list Item)) :
  forall (n k : nat) (master : FPTree Label) s,
    (k + n <= length ts)%nat ->
    add_rows master (combine (default_index (length ts)) ts) (seq k n) s =
      add_all master (take n (drop k ts)) s.
Proof.
  induction n as [|n IH]; intros k master s Hk; [reflexivity|].
  destruct (lookup_lt_is_Some_2 ts k) as [t Ht]; [lia|].
  cbn [seq add_rows]. rewrite (Series_getitem_default ts k t Ht).
  rewrite (drop_S _ _ _ Ht). cbn [take add_all].
  unfold bind. destruct (FPTree.add master t s) as [m' s'|]; [|reflexivity].
  apply IH. lia.
Qed.

(** For a frame with the default index that has a column, or no row, the
    master tree is the fresh tree filled with the transactions of the rows
    after the first. *)
Lemma build_master_default df s :
  index df = default_index (length (rows df)) ->
  columns df <> [] \/ rows df = [] ->
  build_master df s = build_from (tail (transactions df)) s.
Proof.
  intros Hidx Hcols. unfold build_master.
  assert (Hz : row_lists df s =
               Ok (combine (default_index (length (transactions df)))
                     (transactions df)) s).
  { assert (Hlen : length (transactions df) = length (rows df))
      by (unfold transactions; apply length_map).
    unfold row_lists. rewrite Hidx, Hlen.
    destruct (columns df) as [|c cols], (rows df) as [|r rs];
      try reflexivity.
    destruct Hcols as [Hc|Hr]; [done|discriminate Hr]. }
  rewrite (bind_run _ _ _ _ _ Hz). unfold build_from, bind.
  destruct (FPTree.new s) as [m s'|]; [|reflexivity].
  destruct (transactions df) as [|t0 z] eqn:HT; [reflexivity|].
  rewrite length_combine. unfold default_index.
  rewrite length_map, length_seq, Nat.min_id.
  change (map Z.of_nat (seq 0 (length (t0 :: z))))
    with (default_index (length (t0 :: z))).
  rewrite add_rows_default by (cbn [length]; lia).
  cbn [length tail drop]. replace (S (length z) - 1)%nat with (length z) by lia.
  rewrite drop_0, take_ge by lia. reflexivity.
Qed.

(** A frame with rows and no column: ValueError, before any tree is made. *)
Lemma build_master_no_columns df s :
  columns df = [] -> rows df <> [] -> build_master df s = Raise ValueError s.
Proof.
  intros Hc Hr. unfold build_master, bind, row_lists. rewrite Hc.
  destruct (rows df); done.
Qed.

(** Whatever the index, a master tree that is built is a fresh tree
    filled with transactions of rows of the frame. *)
Lemma add_rows_Ok (z : Series (list Item)) (range : list nat) :
  forall (master : FPTree Label) s t s',
    add_rows master z range s = Ok t s' ->
    exists ts, (forall tr, tr ∈ ts -> tr ∈ map snd z) /\
               add_all master ts s = Ok t s'.
Proof.
  induction range as [|n range IH]; intros master s t s' Hrun.
  - exists []. split; [intros tr Htr; inversion Htr|done].
  - cbn [add_rows] in Hrun. unfold Series_getitem in Hrun.
    destruct (filter (fun e : Z * list Item => fst e = Z.of_nat n) z)
      as [|e [|e' l]] eqn:Hf; try discriminate Hrun.
    apply bind_Ok in Hrun as (m1 & s1 & Hadd & Hrun).
    apply IH in Hrun as (ts & Hts & Hrun).
    exists (snd e :: ts). split.
    + intros tr Htr. apply elem_of_cons in Htr as [->|Htr]; [|auto].
      assert (He : e ∈ filter (fun e : Z * list Item => fst e = Z.of_nat n)
                         z) by (rewrite Hf; left).
      apply list_elem_of_filter in He as [_ He].
      apply list_elem_of_fmap. exists e. done.
    + cbn [add_all]. rewrite (bind_run _ _ _ _ _ Hadd). done.
Qed.

Lemma build_master_Ok df s t s' :
  build_master df s = Ok t s' ->
  exists ts, (forall tr, tr ∈ ts -> tr ∈ transactions df) /\
             build_from ts s = Ok t s'.
Proof.
  unfold build_master. intros Hrun.
  apply bind_Ok in Hrun as (z & s0 & Hz & Hrun).
  assert (s0 = s /\ z = combine (index df) (transactions df)) as [-> ->].
  { unfold row_lists in Hz.
    destruct (columns df), (rows df); try discriminate Hz;
      apply ret_Ok in Hz as [-> ->]; done. }
  apply bind_Ok in Hrun as (m & s1 & Hnew & Hrun).
  apply add_rows_Ok in Hrun as (ts & Hts & Hrun).
  exists ts. split.
  - intros tr Htr. apply Hts in Htr.
    apply list_elem_of_fmap in Htr as ([l tr'] & -> & Hin). cbn [snd].
    apply list_elem_of_In in Hin. apply in_combine_r in Hin.
    apply list_elem_of_In. done.
  - unfold build_from. rewrite (bind_run _ _ _ _ _ Hnew). done.
Qed.

Lemma build_master_default_Ok df s t s' :
  index df = default_index (length (rows df)) ->
  build_master df s = Ok t s' ->
  build_from (tail (transactions df)) s = Ok t s'.
Proof.
  intros Hidx Hb.
  destruct (columns df) as [|c cols] eqn:Hc.
  - destruct (rows df) as [|r rs] eqn:Hr.
    + rewrite build_master_default in Hb; [done|rewrite Hr; done|].
      right. done.
    + rewrite build_master_no_columns in Hb;
        [discriminate Hb|done|rewrite Hr; done].
  - rewrite build_master_default in Hb; [done|done|]. left.
    rewrite Hc. done.
Qed.

End TopLevel.

(** ** No itemset twice *)

Section NoDuplicates.
Context {Label : Type} `{EqDecision Label}.
Local Abbreviation Item := (Item Label).
Local Abbreviation M := (M Label).
Implicit Types (s : Store Label) (df : DataFrame Label).

#[local] Instance before_strict (cols : list Item) : StrictOrder (before cols).
Proof.
  split.
  - intros a Ha. unfold before in Ha. lia.
  - intros a b c Hab Hbc. unfold before in *. lia.
Qed.

Lemma rank_app (pre cols : list Item) (i : Item) :
  i ∉ pre -> rank (pre ++ cols) i = (length pre + rank cols i)%nat.
Proof.
  induction pre as [|p pre IH]; intros Hi; [done|].
  apply not_elem_of_cons in Hi as [Hne Hi]. cbn.
  destruct (decide (i = p)); [done|]. rewrite IH by done. done.
Qed.

Lemma row_items_cons (c : Item) (cols : list Item) (v : Z) (row : list Z) :
  row_items (c :: cols) (v :: row) =
    (if bool_decide (0 < v)%Z then [c] else []) ++ row_items cols row.
Proof.
  unfold row_items. cbn [combine]. rewrite filter_cons. cbn [snd].
  destruct (decide (bool_decide (0 < v)%Z)) as [Hv|Hv].
  - rewrite (Is_true_eq_true _ Hv). done.
  - apply Is_true_false_1 in Hv. rewrite Hv. done.
Qed.

Lemma row_items_elem (cols : list Item) (row : list Z) (i : Item) :
  i ∈ row_items cols row -> i ∈ cols.
Proof.
  revert row. induction cols as [|c cols IH]; intros [|v row] Hi;
    try (inversion Hi; fail).
  rewrite row_items_cons in Hi. apply elem_of_app in Hi as [Hi|Hi].
  - destruct (bool_decide (0 < v)%Z); [|inversion Hi].
    apply list_elem_of_singleton in Hi as ->. left.
  - right. eapply IH. done.
Qed.

Lemma row_items_sorted_from (cols : list Item) :
  forall (pre : list Item) (row : list Z),
    NoDup (pre ++ cols) ->
    StronglySorted (before (pre ++ cols)) (row_items cols row).
Proof.
  induction cols as [|c cols IH]; intros pre [|v row] Hnd;
    try (constructor; fail).
  rewrite row_items_cons.
  assert (Hrest : StronglySorted (before (pre ++ c :: cols))
                    (row_items cols row)).
  { rewrite (cons_middle c pre cols), app_assoc. apply IH.
    rewrite <- app_assoc. done. }
  destruct (bool_decide (0 < v)%Z); [|done].
  cbn [app]. constructor; [done|].
  apply Forall_forall. intros y Hy. apply row_items_elem in Hy.
  apply NoDup_app in Hnd as (_ & Hdisj & Hnd).
  apply NoDup_cons in Hnd as [Hc _].
  unfold before. rewrite !rank_app.
  - cbn. destruct (decide (c = c)); [|done].
    destruct (decide (y = c)) as [->|]; [done|]. lia.
  - intros Hin. apply (Hdisj y Hin). right. done.
  - intros Hin. apply (Hdisj c Hin). left.
Qed.

Lemma transactions_sorted df :
  NoDup (columns df) ->
  Forall (StronglySorted (before (columns df))) (transactions df).
Proof.
  intros Hnd. unfold transactions. apply Forall_forall. intros tr Htr.
  apply list_elem_of_fmap in Htr as (row & -> & _).
  apply (row_items_sorted_from (columns df) [] row). done.
Qed.

Lemma add_all_sorted (R : relation Item) `{!StrictOrder R} (base : nat)
  (ts : list (list Item)) :
  forall (t : FPTree Label) s t' s',
    sorted_store R base s -> sorted_tree base s t ->
    Forall (StronglySorted R) ts ->
    add_all t ts s = Ok t' s' ->
    sorted_store R base s' /\ sorted_tree base s' t'.
Proof.
  induction ts as [|tr ts IH]; intros t s t' s' Hss Hst Hall Hrun.
  - apply ret_Ok in Hrun as [-> ->]. done.
  - cbn [add_all] in Hrun. apply Forall_cons in Hall as [Htr Hall].
    apply bind_Ok in Hrun as (t1 & s1 & Hadd & Hrun).
    unfold FPTree.add in Hadd.
    destruct (st_root _ _ _ Hst) as (rd & Hrd & Hrr).
    eapply add_from_sorted in Hadd as (Hss1 & Hst1 & _);
      [|done|done|done
       |split; [apply (st_own _ _ _ Hst)|]; eexists; split; [done|]; auto].
    eapply IH; done.
Qed.

(** No node of the store is a node of a call that starts from it. *)
Lemma sorted_store_start (R : relation Item) s :
  sorted_store R (length (heap s)) s.
Proof.
  split; [done|..]; intros n nd m; intros; exfalso;
    match goal with
    | Hl : heap s !! n = Some nd |- _ => apply lookup_lt_Some in Hl; lia
    end.
Qed.



End NoDuplicates.

(** ** Adding a child and finding it *)

Section NodeLinks.
Context {Label : Type} `{EqDecision Label}.
Local Abbreviation Item := (Item Label).
Local Abbreviation M := (M Label).
Implicit Types (s : Store Label) (nd : FPNode Label).

(** [P.add(C)] followed by [P.search]: when [P] has no child for [C]'s
    item and both are nodes of one tree, [add] returns, after it [C] is
    found under its item and has [P] for parent, and the other items are
    found as before. *)
Theorem add_then_search s (P C : nat) (pd cd : FPNode Label) :
  heap s !! P = Some pd ->
  heap s !! C = Some cd ->
  dict_get (_item cd) (_children pd) = None ->
  _tree pd = _tree cd ->
  exists s',
    FPNode.add P C s = Ok tt s' /\
    FPNode.search P (_item cd) s' = Ok (Some C) s' /\
    FPNode.parent C s' = Ok (Some P) s' /\
    forall k, k <> _item cd ->
      FPNode.search P k s' = Ok (dict_get k (_children pd)) s'.
Proof.
  intros HP HC Hnone Htree.
  pose proof (lookup_lt_Some _ _ _ HP) as HltP.
  pose proof (lookup_lt_Some _ _ _ HC) as HltC.
  set (pd' := FPNode.with_children pd (dict_set (_item cd) C (_children pd))).
  set (s1 := upd s P pd').
  assert (Hs1P : heap s1 !! P = Some pd').
  { cbn. apply list_lookup_insert_eq. done. }
  destruct (heap s1 !! C) as [cd'|] eqn:Hs1C.
  2:{ apply lookup_ge_None in Hs1C. cbn in Hs1C.
      rewrite length_insert in Hs1C. lia. }
  assert (Hcd' : _tree cd' = _tree cd /\ _item cd' = _item cd).
  { cbn in Hs1C. destruct (decide (P = C)) as [->|Hne].
    - rewrite list_lookup_insert_eq in Hs1C by done.
      injection Hs1C as <-. assert (pd = cd) as -> by congruence. done.
    - rewrite list_lookup_insert_ne in Hs1C by done.
      assert (cd' = cd) as -> by congruence. done. }
  destruct Hcd' as [Hct Hci].
  exists (upd s1 C (FPNode.with_parent cd' (Some P))).
  assert (Hrun : FPNode.add P C s =
                 Ok tt (upd s1 C (FPNode.with_parent cd' (Some P)))).
  { unfold FPNode.add, FPNode.item, bind, get_node, ret, dict_mem.
    rewrite HC, HP, Hnone. cbn [set_node].
    unfold FPNode.set_parent, FPNode.check_same_tree, FPNode.tree, bind,
      get_node, ret, set_node.
    fold pd'. change (mkStore (<[P:=pd']> (heap s)) (next_tree s)) with s1.
    rewrite Hs1P, Hs1C. cbn [_tree pd' FPNode.with_children].
    rewrite Hct. destruct (decide (_tree pd = _tree cd)); [|done].
    rewrite Hs1C. done. }
  split; [done|].
  assert (HlenC : (C < length (heap s1))%nat).
  { cbn. rewrite length_insert. done. }
  assert (Hchildren : exists pd'',
            heap (upd s1 C (FPNode.with_parent cd' (Some P))) !! P = Some pd'' /\
            _children pd'' = dict_set (_item cd) C (_children pd)).
  { cbn [upd heap]. destruct (decide (C = P)) as [->|Hne].
    - rewrite list_lookup_insert_eq by done. eexists. split; [done|].
      cbn. assert (cd' = pd') as -> by congruence. done.
    - rewrite list_lookup_insert_ne by done. eexists. split; [exact Hs1P|].
      done. }
  destruct Hchildren as (pd'' & Hpd'' & Hch).
  split; [|split].
  - unfold FPNode.search, bind, get_node, ret. rewrite Hpd'', Hch.
    rewrite dict_get_set_eq. done.
  - unfold FPNode.parent, bind, get_node, ret. cbn [upd heap].
    rewrite list_lookup_insert_eq by done. done.
  - intros k Hk. unfold FPNode.search, bind, get_node, ret.
    rewrite Hpd'', Hch. rewrite dict_get_set_ne by done. done.
Qed.

(** [P.add(C)] with [C] a node of another tree, [P] having no child for
    [C]'s item: the [parent] setter raises [ValueError], but [C] has been
    filed among the children of [P] by then and stays there; nothing else
    has changed, [C] has not got a parent. *)
Theorem add_from_other_tree s (P C : nat) (pd cd : FPNode Label) :
  heap s !! P = Some pd ->
  heap s !! C = Some cd ->
  dict_get (_item cd) (_children pd) = None ->
  _tree pd <> _tree cd ->
  FPNode.add P C s =
    Raise ValueError
      (upd s P (FPNode.with_children pd
                  (dict_set (_item cd) C (_children pd)))).
Proof.
  intros HP HC Hnone Htree.
  pose proof (lookup_lt_Some _ _ _ HP) as HltP.
  assert (Hne : P <> C) by (intros ->; congruence).
  unfold FPNode.add, FPNode.item, bind, get_node, ret, dict_mem.
  rewrite HC, HP, Hnone. cbn [set_node].
  unfold FPNode.set_parent, FPNode.check_same_tree, FPNode.tree, bind,
    get_node, ret, raise. cbn [heap].
  rewrite list_lookup_insert_eq by done. cbn [heap].
  rewrite list_lookup_insert_ne by done. rewrite HC.
  cbn [_tree FPNode.with_children].
  destruct (decide (_tree pd = _tree cd)); [done|]. done.
Qed.
End NodeLinks.

(** ** The yields of the miner, one by one *)

Section Yields.
Context {Label : Type} `{EqDecision Label}.
Local Abbreviation Item := (Item Label).
Local Abbreviation M := (M Label).
Implicit Types (s : Store Label) (t : FPTree Label).

Lemma for_yield_cons {A B} (x : A) (l : list A) (f : A -> Gen Label B unit) s :
  for_yield (x :: l) f s =
    match f x s with
    | (ys, Ok _ s') => (ys ++ fst (for_yield l f s'), snd (for_yield l f s'))
    | (ys, Raise e s') => (ys, Raise e s')
    end.
Proof.
  cbn [for_yield]. unfold gen_bind. destruct (f x s) as [ys [u s'|e s']];
    [|done]. destruct (for_yield l f s'). done.
Qed.

(** One turn of the loop of [find_with_suffix], step by step. *)
Lemma find_with_suffix_body (fuel : nat) (minimum_support : Z)
  (include_support : bool) t (suffix : list Item) (item : Item) s :
  (ns <~ call (FPTree.nodes t item) ;;
   support <~ call (sum_counts ns) ;;
   if (minimum_support <=? support)%Z && negb (bool_decide (item ∈ suffix))
   then
     let found_set := item :: suffix in
     yield (found_set, if include_support then Some support else None) ~;;
     paths <~ call (FPTree.prefix_paths t item) ;;
     cond_tree <~ call (conditional_tree_from_paths paths) ;;
     find_with_suffix fuel minimum_support include_support
       cond_tree found_set
   else gen_ret tt) s =
  match FPTree.nodes t item s with
  | Raise e s1 => ([], Raise e s1)
  | Ok ns s1 =>
      match sum_counts ns s1 with
      | Raise e s2 => ([], Raise e s2)
      | Ok support s2 =>
          if (minimum_support <=? support)%Z &&
             negb (bool_decide (item ∈ suffix))
          then
            let y := (item :: suffix,
                      if include_support then Some support else None) in
            match FPTree.prefix_paths t item s2 with
            | Raise e s3 => ([y], Raise e s3)
            | Ok paths s3 =>
                match conditional_tree_from_paths paths s3 with
                | Raise e s4 => ([y], Raise e s4)
                | Ok cond_tree s4 =>
                    let r := find_with_suffix fuel minimum_support
                               include_support cond_tree (item :: suffix) s4 in
                    (y :: fst r, snd r)
                end
            end
          else ([], Ok tt s2)
      end
  end.
Proof.
  rewrite gen_bind_call.
  destruct (FPTree.nodes t item s) as [ns s1|e s1]; [|done].
  rewrite gen_bind_call.
  destruct (sum_counts ns s1) as [support s2|e s2]; [|done].
  destruct ((minimum_support <=? support)%Z &&
            negb (bool_decide (item ∈ suffix))); [|done].
  cbn zeta. rewrite gen_bind_yield, gen_bind_call.
  destruct (FPTree.prefix_paths t item s2) as [paths s3|e s3]; [|done].
  rewrite gen_bind_call.
  destruct (conditional_tree_from_paths paths s3) as [ct s4|e s4]; done.
Qed.

Lemma find_with_suffix_S (fuel : nat) (minimum_support : Z)
  (include_support : bool) t (suffix : list Item) :
  find_with_suffix (S fuel) minimum_support include_support t suffix =
    for_yield (FPTree.items t) (fun item =>
      ns <~ call (FPTree.nodes t item) ;;
      support <~ call (sum_counts ns) ;;
      if (minimum_support <=? support)%Z && negb (bool_decide (item ∈ suffix))
      then
        let found_set := item :: suffix in
        yield (found_set, if include_support then Some support else None) ~;;
        paths <~ call (FPTree.prefix_paths t item) ;;
        cond_tree <~ call (conditional_tree_from_paths paths) ;;
        find_with_suffix fuel minimum_support include_support
          cond_tree found_set
      else gen_ret tt).
Proof. reflexivity. Qed.

(** A property of single yields that holds of those of one turn of the
    loop, given that it holds of those of the calls one level down. *)
Lemma find_with_suffix_Forall (P : list Item -> emitted Label -> Prop)
  (minimum_support : Z) (include_support : bool) :
  (forall suffix item support,
     (minimum_support <= support)%Z -> item ∉ suffix ->
     P suffix (item :: suffix,
               if include_support then Some support else None)) ->
  (forall suffix item e, P (item :: suffix) e -> P suffix e) ->
  forall (fuel : nat) t suffix s,
    Forall (P suffix)
      (fst (find_with_suffix fuel minimum_support include_support t suffix s)).
Proof.
  intros Hy Hdown. induction fuel as [|fuel IH]; intros t suffix s.
  { cbn. constructor. }
  cbn [find_with_suffix].
  match goal with |- context [for_yield _ ?body] => set (f := body) end.
  assert (Hbody : forall item s0, Forall (P suffix) (fst (f item s0))).
  { intros item s0. unfold f. rewrite find_with_suffix_body.
    destruct (FPTree.nodes t item s0) as [ns s1|e s1]; [|constructor].
    destruct (sum_counts ns s1) as [support s2|e s2]; [|constructor].
    destruct ((minimum_support <=? support)%Z &&
              negb (bool_decide (item ∈ suffix))) eqn:Hcond;
      [|constructor].
    apply andb_prop in Hcond as [Hle Hni].
    apply Z.leb_le in Hle.
    apply negb_true_iff, bool_decide_eq_false in Hni.
    cbn zeta.
    destruct (FPTree.prefix_paths t item s2) as [paths s3|e s3];
      [|constructor; [auto|constructor]].
    destruct (conditional_tree_from_paths paths s3) as [ct s4|e s4];
      [|constructor; [auto|constructor]].
    cbn [fst]. constructor; [auto|].
    eapply Forall_impl; [apply IH|]. intros e. apply Hdown. }
  generalize (FPTree.items t) as ks. intros ks. revert s.
  induction ks as [|item ks IHks]; intros s; [constructor|].
  rewrite for_yield_cons. specialize (Hbody item s).
  destruct (f item s) as [ys [u s1|e s1]]; cbn [fst] in *; [|done].
  apply Forall_app. split; [done|apply IHks].
Qed.

(** With [include_support], every yield carries a support, and that
    support is at least [minimum_support]. *)
Theorem yielded_support_reaches_minimum (fuel : nat) (df : DataFrame Label)
  (minimum_support : Z) s :
  Forall (fun e => exists support,
            snd e = Some support /\ (minimum_support <= support)%Z)
    (fst (find_frequent_itemsets fuel df minimum_support true s)).
Proof.
  unfold find_frequent_itemsets. rewrite gen_bind_call.
  destruct (build_master df s) as [master s1|e s1]; [|constructor].
  apply (find_with_suffix_Forall
           (fun _ e => exists support,
              snd e = Some support /\ (minimum_support <= support)%Z)).
  - intros suffix item support Hle _. exists support. done.
  - auto.
Qed.

(** Without [include_support] no yield carries a support; the itemsets
    yielded, and the way the run ends, are those of the run with
    [include_support]. *)
Lemma find_with_suffix_flag (minimum_support : Z) (fuel : nat) :
  forall t (suffix : list Item) s,
    let r1 := find_with_suffix fuel minimum_support true t suffix s in
    let r0 := find_with_suffix fuel minimum_support false t suffix s in
    map fst (fst r0) = map fst (fst r1) /\ snd r0 = snd r1 /\
    Forall (fun e => snd e = None) (fst r0).
Proof.
  induction fuel as [|fuel IH]; intros t suffix s r1 r0.
  { cbn. split; [done|]. split; [done|constructor]. }
  subst r1 r0. rewrite !find_with_suffix_S.
  match goal with
  | |- context [for_yield _ ?b1 s] =>
      match goal with
      | |- context [snd (for_yield _ ?b0 s) = snd (for_yield _ b1 s)] =>
          set (f1 := b1); set (f0 := b0)
      end
  end.
  assert (Hbody : forall item s0,
            map fst (fst (f0 item s0)) = map fst (fst (f1 item s0)) /\
            snd (f0 item s0) = snd (f1 item s0) /\
            Forall (fun e => snd e = None) (fst (f0 item s0))).
  { intros item s0.
    pose proof (find_with_suffix_body fuel minimum_support true t suffix
                  item s0) as E1.
    pose proof (find_with_suffix_body fuel minimum_support false t suffix
                  item s0) as E0.
    match type of E1 with _ = ?r => change (f1 item s0 = r) in E1 end.
    match type of E0 with _ = ?r => change (f0 item s0 = r) in E0 end.
    rewrite E0, E1. clear E0 E1.
    destruct (FPTree.nodes t item s0) as [ns s1|e s1];
      [|split; [done|]; split; [done|constructor]].
    destruct (sum_counts ns s1) as [support s2|e s2];
      [|split; [done|]; split; [done|constructor]].
    destruct ((minimum_support <=? support)%Z &&
              negb (bool_decide (item ∈ suffix)));
      [|split; [done|]; split; [done|constructor]].
    cbn zeta.
    destruct (FPTree.prefix_paths t item s2) as [paths s3|e s3];
      [|split; [done|]; split; [done|constructor; [done|constructor]]].
    destruct (conditional_tree_from_paths paths s3) as [ct s4|e s4];
      [|split; [done|]; split; [done|constructor; [done|constructor]]].
    destruct (IH ct (item :: suffix) s4) as (Hm & Hr & Hn).
    cbn [fst snd map]. split; [f_equal; done|]. split; [done|].
    constructor; done. }
  generalize (FPTree.items t) as ks. intros ks. revert s.
  induction ks as [|item ks IHks]; intros s.
  { cbn. split; [done|]. split; [done|constructor]. }
  rewrite !for_yield_cons. destruct (Hbody item s) as (Hm & Hr & Hn).
  destruct (f0 item s) as [ys0 r0], (f1 item s) as [ys1 r1].
  cbn [fst snd] in Hm, Hr, Hn. subst r0.
  destruct r1 as [u s1|e s1]; cbn [fst snd]; [|done].
  destruct (IHks s1) as (Hm' & Hr' & Hn').
  rewrite !map_app.
  split; [f_equal; [exact Hm|exact Hm']|]. split; [done|].
  apply Forall_app. done.
Qed.

Theorem include_support_adds_supports_only (fuel : nat)
  (df : DataFrame Label) (minimum_support : Z) s :
  let with_support := find_frequent_itemsets fuel df minimum_support true s in
  let without := find_frequent_itemsets fuel df minimum_support false s in
  map fst (fst without) = map fst (fst with_support) /\
  snd without = snd with_support /\
  Forall (fun e => snd e = None) (fst without).
Proof.
  cbn zeta. unfold find_frequent_itemsets. rewrite !gen_bind_call.
  destruct (build_master df s) as [master s1|e s1].
  - apply find_with_suffix_flag.
  - split; [done|]. split; [done|constructor].
Qed.
End Yields.

(** ** The order of the yields *)

Section Tails.
Context {Label : Type} `{EqDecision Label}.
Local Abbreviation Item := (Item Label).
Implicit Types (s : Store Label) (t : FPTree Label).

Lemma tails_first_nil (suffix : list Item) : tails_first suffix [].
Proof. intros n e Hn. destruct n; discriminate Hn. Qed.

Lemma tails_first_app (suffix : list Item) (ys zs : list (emitted Label)) :
  tails_first suffix ys -> tails_first suffix zs ->
  tails_first suffix (ys ++ zs).
Proof.
  intros Hys Hzs n e Hn. apply lookup_app_Some in Hn as [Hn|[Hge Hn]].
  - destruct (Hys n e Hn) as (i & rest & He & [Heq|(m & e' & Hm & Hm' & Htl)]);
      exists i, rest; (split; [done|]); [left; done|right].
    exists m, e'. split; [done|]. split; [|done].
    apply lookup_app_l_Some. done.
  - destruct (Hzs _ e Hn) as (i & rest & He & [Heq|(m & e' & Hm & Hm' & Htl)]);
      exists i, rest; (split; [done|]); [left; done|right].
    exists (length ys + m)%nat, e'. split; [lia|]. split; [|done].
    rewrite lookup_app_r by lia.
    replace (length ys + m - length ys)%nat with m by lia. done.
Qed.

Lemma tails_first_found (suffix : list Item) (item : Item) (sup : option Z)
  (found : list (emitted Label)) :
  tails_first (item :: suffix) found ->
  tails_first suffix ((item :: suffix, sup) :: found).
Proof.
  intros Hf [|n] e Hn.
  - injection Hn as <-. exists item, suffix. split; [done|]. left. done.
  - cbn in Hn.
    destruct (Hf n e Hn) as (i & rest & He & [Heq|(m & e' & Hm & Hm' & Htl)]);
      exists i, rest; (split; [done|]); right.
    + exists 0%nat, (item :: suffix, sup). split; [lia|]. done.
    + exists (S m), e'. split; [lia|]. done.
Qed.

Lemma find_with_suffix_tails_first (minimum_support : Z)
  (include_support : bool) (fuel : nat) :
  forall t (suffix : list Item) s,
    tails_first suffix
      (fst (find_with_suffix fuel minimum_support include_support t suffix s)).
Proof.
  induction fuel as [|fuel IH]; intros t suffix s.
  { apply tails_first_nil. }
  rewrite find_with_suffix_S.
  match goal with |- context [for_yield _ ?body] => set (f := body) end.
  assert (Hbody : forall item s0, tails_first suffix (fst (f item s0))).
  { intros item s0. unfold f. rewrite find_with_suffix_body.
    destruct (FPTree.nodes t item s0) as [ns s1|e s1];
      [|apply tails_first_nil].
    destruct (sum_counts ns s1) as [support s2|e s2];
      [|apply tails_first_nil].
    destruct ((minimum_support <=? support)%Z &&
              negb (bool_decide (item ∈ suffix))); [|apply tails_first_nil].
    cbn zeta.
    destruct (FPTree.prefix_paths t item s2) as [paths s3|e s3];
      [|apply tails_first_found, tails_first_nil].
    destruct (conditional_tree_from_paths paths s3) as [ct s4|e s4];
      [|apply tails_first_found, tails_first_nil].
    cbn [fst]. apply tails_first_found, IH. }
  generalize (FPTree.items t) as ks. intros ks. revert s.
  induction ks as [|item ks IHks]; intros s; [apply tails_first_nil|].
  rewrite for_yield_cons. specialize (Hbody item s).
  destruct (f item s) as [ys [u s1|e s1]]; cbn [fst] in *; [|done].
  apply tails_first_app; [done|apply IHks].
Qed.

(** Every itemset of more than one item is yielded after the itemset
    made of its other items, the first apart: the miner extends what it
    has found by one item in front. *)
Theorem itemset_yielded_after_its_tail (fuel : nat) (df : DataFrame Label)
  (minimum_support : Z) (include_support : bool) s :
  tails_first []
    (fst (find_frequent_itemsets fuel df minimum_support include_support s)).
Proof.
  unfold find_frequent_itemsets. rewrite gen_bind_call.
  destruct (build_master df s) as [master s1|e s1];
    [|apply tails_first_nil].
  apply find_with_suffix_tails_first.
Qed.

(** A data frame of one row yields nothing, whatever the row holds and
    whatever its label: the loop that fills the master tree starts at 1
    and stops before [len(z)].  When the frame has a column the call
    returns; when it has none, pandas raises ValueError before a tree is
    made. *)
Theorem one_row_yields_nothing (fuel : nat) (label : Z) (cols : list Item)
  (row : list Z) (minimum_support : Z) (include_support : bool) s :
  find_frequent_itemsets (S fuel) (mkDataFrame [label] cols [row])
    minimum_support include_support s =
    match cols with
    | [] => ([], Raise ValueError s)
    | _ :: _ => ([], Ok tt (mkStore (heap s ++ [root_node (next_tree s)])
                              (S (next_tree s))))
    end.
Proof. destruct cols; reflexivity. Qed.
End Tails.

(** ** The subsets [powerset] enumerates *)

Section Powerset.
Context {A : Type}.
Implicit Types (s x : list A).

Lemma combinations_nil_S (r : nat) : combinations (@nil A) (S r) = [].
Proof. reflexivity. Qed.

Lemma elem_of_combinations s : forall (r : nat) x,
  x ∈ combinations s r <-> sublist x s /\ length x = r.
Proof.
  induction s as [|a s IH]; intros r x.
  - destruct r as [|r]; cbn.
    + rewrite list_elem_of_singleton. split.
      * intros ->. split; [constructor|done].
      * intros [_ Hl]. destruct x; [done|discriminate].
    + split; [intros Hin; inversion Hin|].
      intros [Hs Hl]. apply sublist_nil_r in Hs as ->. discriminate.
  - destruct r as [|r].
    + cbn. rewrite list_elem_of_singleton. split.
      * intros ->. split; [apply sublist_nil_l|done].
      * intros [_ Hl]. destruct x; [done|discriminate].
    + cbn [combinations]. rewrite elem_of_app, list_elem_of_fmap. split.
      * intros [(y & -> & Hy)|Hx].
        -- apply IH in Hy as [Hs Hl]. split; [constructor; done|].
           cbn. congruence.
        -- apply IH in Hx as [Hs Hl]. split; [constructor; done|done].
      * intros [Hs Hl]. apply sublist_cons_r in Hs as [Hs|(y & -> & Hs)].
        -- right. apply IH. done.
        -- left. exists y. split; [done|]. apply IH. split; [done|].
           cbn in Hl. lia.
Qed.

Lemma combinations_long s (r : nat) :
  (length s < r)%nat -> combinations s r = [].
Proof.
  revert r. induction s as [|a s IH]; intros [|r] Hr; cbn in *; try lia;
    [done|]. rewrite !IH by lia. done.
Qed.

Lemma length_concat_combinations s (k n : nat) :
  length (concat (map (combinations s) (seq k n))) = count_from s k n.
Proof.
  revert k. induction n as [|n IH]; intros k; [done|].
  cbn [seq map concat count_from]. rewrite length_app, IH. done.
Qed.

Lemma count_from_cons (a : A) s (n k : nat) :
  count_from (a :: s) (S k) n = (count_from s k n + count_from s (S k) n)%nat.
Proof.
  revert k. induction n as [|n IH]; intros k; [done|].
  cbn [count_from combinations]. rewrite length_app, length_map, IH. lia.
Qed.

Lemma count_from_snoc s (k n : nat) :
  count_from s k (S n) =
    (count_from s k n + length (combinations s (k + n)))%nat.
Proof.
  revert k. induction n as [|n IH]; intros k.
  - cbn [count_from]. replace (k + 0)%nat with k by lia. lia.
  - change (count_from s k (S (S n)))
      with (length (combinations s k) + count_from s (S k) (S n))%nat.
    rewrite IH. cbn [count_from].
    replace (S k + n)%nat with (k + S n)%nat by lia. lia.
Qed.

Lemma count_from_all s : count_from s 0 (S (length s)) = (2 ^ length s)%nat.
Proof.
  induction s as [|a s IH]; [done|].
  change (count_from (a :: s) 0 (S (length (a :: s))))
    with (1 + count_from (a :: s) 1 (length (a :: s)))%nat.
  rewrite count_from_cons. cbn [length].
  rewrite IH.
  assert (Hs : (1 + count_from s 1 (length s))%nat = (2 ^ length s)%nat).
  { rewrite <- IH. destruct s; reflexivity. }
  rewrite count_from_snoc.
  rewrite combinations_long by lia. cbn [length].
  rewrite Nat.pow_succ_r'. lia.
Qed.

Lemma elem_of_concat x (ls : list (list (list A))) :
  x ∈ concat ls <-> exists l, x ∈ l /\ l ∈ ls.
Proof.
  induction ls as [|l ls IH]; cbn.
  - split; [intros Hx; inversion Hx|]. intros (l & _ & Hl). inversion Hl.
  - rewrite elem_of_app, IH. split.
    + intros [Hx|(l' & Hx & Hl')]; [exists l; split; [done|left]|].
      exists l'. split; [done|right; done].
    + intros (l' & Hx & Hl'). apply elem_of_cons in Hl' as [->|Hl'];
        [left; done|right; eauto].
Qed.

(** [powerset] yields the sublists of its argument, each position kept or
    dropped: [2 ^ len] of them, the empty one first. *)
Theorem powerset_sublists s :
  (forall x, x ∈ powerset s <-> sublist x s) /\
  length (powerset s) = (2 ^ length s)%nat /\
  head (powerset s) = Some [].
Proof.
  split; [|split].
  - intros x. unfold powerset. rewrite elem_of_concat. split.
    + intros (l & Hx & Hl). apply list_elem_of_fmap in Hl as (r & -> & _).
      apply elem_of_combinations in Hx as [Hs _]. done.
    + intros Hs. exists (combinations s (length x)). split.
      * apply elem_of_combinations. done.
      * apply list_elem_of_fmap. exists (length x). split; [done|].
        apply elem_of_seq. apply sublist_length in Hs. lia.
  - unfold powerset. rewrite length_concat_combinations.
    replace (length s + 1)%nat with (S (length s)) by lia.
    apply count_from_all.
  - unfold powerset. replace (length s + 1)%nat with (S (length s)) by lia.
    cbn. destruct s; done.
Qed.
End Powerset.

(** ** Counting transactions by prefix *)

Section PrefixCounts.
Context {Label : Type} `{EqDecision Label}.
Local Abbreviation Item := (Item Label).
Implicit Types (db : list (list Item)) (tr p q : list Item) (x : Item).

Lemma prefix_count_nil p : prefix_count [] p = 0%Z.
Proof. reflexivity. Qed.

Lemma prefix_count_cons db tr p :
  prefix_count (tr :: db) p =
    ((if decide (p `prefix_of` tr) then 1 else 0) + prefix_count db p)%Z.
Proof.
  unfold prefix_count. rewrite filter_cons.
  destruct (decide (p `prefix_of` tr)); cbn [length]; lia.
Qed.

Lemma prefix_count_snoc db tr p :
  prefix_count (db ++ [tr]) p =
    (prefix_count db p + if decide (p `prefix_of` tr) then 1 else 0)%Z.
Proof.
  unfold prefix_count. rewrite filter_app, length_app, filter_cons, filter_nil.
  destruct (decide (p `prefix_of` tr)); cbn [length]; lia.
Qed.

Lemma prefix_count_nonneg db p : (0 <= prefix_count db p)%Z.
Proof. unfold prefix_count. lia. Qed.

Lemma prefix_count_pos db p :
  (0 < prefix_count db p)%Z <-> exists tr, tr ∈ db /\ p `prefix_of` tr.
Proof.
  unfold prefix_count. split.
  - intros Hpos.
    destruct (filter (fun tr => p `prefix_of` tr) db) as [|tr l] eqn:Hf;
      [cbn in Hpos; lia|].
    assert (Hin : tr ∈ filter (fun tr => p `prefix_of` tr) db)
      by (rewrite Hf; left).
    apply list_elem_of_filter in Hin as [Hp Hin]. eauto.
  - intros (tr & Hin & Hp).
    assert (Hin' : tr ∈ filter (fun tr => p `prefix_of` tr) db)
      by (apply list_elem_of_filter; done).
    destruct (filter (fun tr => p `prefix_of` tr) db); [inversion Hin'|].
    cbn [length]. lia.
Qed.

Lemma upto_prefix x tr : upto x tr `prefix_of` tr.
Proof.
  induction tr as [|i tr IH]; cbn; [done|].
  destruct (decide (i = x)).
  - exists tr. done.
  - apply prefix_cons. done.
Qed.

Lemma upto_split x tr :
  x ∈ tr -> exists init, upto x tr = init ++ [x] /\ x ∉ init.
Proof.
  induction tr as [|i tr IH]; intros Hx; [inversion Hx|]. cbn.
  destruct (decide (i = x)) as [->|Hne].
  - exists []. split; [done|]. apply not_elem_of_nil.
  - apply elem_of_cons in Hx as [->|Hx]; [done|].
    destruct (IH Hx) as (init & -> & Hni). exists (i :: init).
    split; [done|]. apply not_elem_of_cons. split; [congruence|done].
Qed.

(** A prefix of [tr] that ends with its only [x] is [tr] up to [x]. *)
Lemma prefix_upto x (init : list Item) tr :
  x ∉ init -> (init ++ [x]) `prefix_of` tr ->
  x ∈ tr /\ upto x tr = init ++ [x].
Proof.
  revert tr. induction init as [|i init IH]; intros tr Hni Hp.
  - destruct Hp as [k ->]. cbn. split; [left|].
    destruct (decide (x = x)); done.
  - apply not_elem_of_cons in Hni as [Hne Hni].
    destruct Hp as [k ->]. cbn.
    destruct (decide (i = x)) as [->|_]; [done|].
    destruct (IH ((init ++ [x]) ++ k) Hni) as [Hin Heq].
    + exists k. done.
    + cbn. rewrite Heq. split; [right; done|done].
Qed.

Lemma elem_of_upto x tr i : i ∈ upto x tr -> i ∈ tr.
Proof.
  intros Hi. destruct (upto_prefix x tr) as [k Hk]. rewrite Hk.
  apply elem_of_app. left. done.
Qed.

Lemma length_filter_map {A B} (P : B -> Prop) `{forall y, Decision (P y)}
  (f : A -> B) (l : list A) :
  length (filter P (map f l)) = length (filter (fun a => P (f a)) l).
Proof.
  induction l as [|a l IH]; [done|]. cbn [map]. rewrite !filter_cons.
  destruct (decide (P (f a))); cbn [length]; rewrite IH; done.
Qed.

Lemma length_filter_filter {A} (P Q : A -> Prop) `{forall y, Decision (P y)}
  `{forall y, Decision (Q y)} (l : list A) :
  length (filter P (filter Q l)) = length (filter (fun a => Q a /\ P a) l).
Proof.
  induction l as [|a l IH]; [done|]. rewrite !filter_cons.
  destruct (decide (Q a)) as [Hq|Hq].
  - rewrite filter_cons. destruct (decide (P a)) as [Hp|Hp].
    + rewrite decide_True by done. cbn [length]. rewrite IH. done.
    + rewrite decide_False by tauto. done.
  - rewrite decide_False by tauto. done.
Qed.

Lemma length_filter_ext {A} (P Q : A -> Prop) `{forall y, Decision (P y)}
  `{forall y, Decision (Q y)} (l : list A) :
  (forall a, a ∈ l -> P a <-> Q a) ->
  length (filter P l) = length (filter Q l).
Proof.
  intros Hext. induction l as [|a l IH]; [done|]. rewrite !filter_cons.
  assert (Ha : P a <-> Q a) by (apply Hext; left).
  assert (IH' : length (filter P l) = length (filter Q l)).
  { apply IH. intros b Hb. apply Hext. right. done. }
  destruct (decide (P a)), (decide (Q a)); cbn [length]; try tauto; lia.
Qed.

Lemma prefix_count_cond_db x db q :
  prefix_count (cond_db x db) q =
    Z.of_nat (length (filter (fun tr => x ∈ tr /\ q `prefix_of` upto x tr) db)).
Proof.
  unfold prefix_count, cond_db.
  rewrite length_filter_map, length_filter_filter. done.
Qed.

Lemma contains_all_Forall (J : list Item) tr :
  contains_all J tr = true <-> Forall (fun j => j ∈ tr) J.
Proof.
  unfold contains_all. rewrite forallb_forall, Forall_forall. split.
  - intros Hall j Hj. apply list_elem_of_In in Hj.
    specialize (Hall j Hj). apply bool_decide_eq_true in Hall. done.
  - intros Hall j Hj. apply list_elem_of_In in Hj.
    apply bool_decide_eq_true. auto.
Qed.

Lemma support_filter db (J : list Item) :
  support db J =
    Z.of_nat (length (filter (fun tr => Forall (fun j => j ∈ tr) J) db)).
Proof.
  unfold support. f_equal. apply length_filter_ext. intros tr _.
  apply contains_all_Forall.
Qed.
End PrefixCounts.

(** ** Transactions that list their items in one order *)

Section SortedTransactions.
Context {Label : Type} `{EqDecision Label}.
Local Abbreviation Item := (Item Label).
Implicit Types (db : list (list Item)) (tr p q : list Item) (x : Item).

Variable R : relation Item.
Context `{!StrictOrder R}.

Lemma sorted_before_upto x tr (j : Item) :
  StronglySorted R tr -> j ∈ tr -> x ∈ tr -> R j x -> j ∈ upto x tr.
Proof.
  induction 1 as [|i tr Hs IH Hall]; intros Hj Hx Hjx; [inversion Hj|].
  rewrite Forall_forall in Hall. cbn.
  destruct (decide (i = x)) as [->|Hne].
  - apply elem_of_cons in Hj as [->|Hj]; [left|].
    exfalso. apply (irreflexivity R x). etransitivity; [apply Hall|]; done.
  - apply elem_of_cons in Hj as [->|Hj]; [left|]. right.
    apply elem_of_cons in Hx as [->|Hx]; [done|]. auto.
Qed.

Lemma sorted_upto x tr : StronglySorted R tr -> StronglySorted R (upto x tr).
Proof.
  induction 1 as [|i tr Hs IH Hall]; cbn; [constructor|].
  destruct (decide (i = x)); [repeat constructor|].
  constructor; [done|]. apply Forall_forall. intros j Hj.
  rewrite Forall_forall in Hall. apply Hall. eapply elem_of_upto. done.
Qed.

(** The items of a transaction cut after [x] are [x] or come before it. *)
Lemma upto_bounded x tr (j : Item) :
  StronglySorted R tr -> x ∈ tr -> j ∈ upto x tr -> j = x \/ R j x.
Proof.
  induction 1 as [|i tr Hs IH Hall]; intros Hx Hj; [inversion Hx|].
  rewrite Forall_forall in Hall. cbn in Hj.
  destruct (decide (i = x)) as [->|Hne].
  - apply list_elem_of_singleton in Hj. auto.
  - apply elem_of_cons in Hx as [->|Hx]; [done|].
    apply elem_of_cons in Hj as [->|Hj]; [right; auto|auto].
Qed.

Lemma sorted_NoDup tr : StronglySorted R tr -> NoDup tr.
Proof.
  induction 1 as [|i tr Hs IH Hall]; constructor; [|done].
  intros Hin. rewrite Forall_forall in Hall.
  apply (irreflexivity R i). auto.
Qed.

Lemma sorted_prefix p tr :
  p `prefix_of` tr -> StronglySorted R tr -> StronglySorted R p.
Proof.
  intros [k ->] Hs. revert Hs. induction p as [|i p IH]; intros Hs;
    [constructor|].
  cbn in Hs. apply StronglySorted_inv in Hs as [Hs Hall].
  constructor; [auto|]. apply Forall_app in Hall as [Hall _]. done.
Qed.

(** In transactions that follow the order, the support of an itemset
    whose items come before [x] among the conditional transactions of [x]
    is the support of the itemset with [x]. *)
Lemma support_cond_db x db (J : list Item) :
  Forall (StronglySorted R) db -> Forall (fun j => R j x) J ->
  support (cond_db x db) J = support db (J ++ [x]).
Proof.
  intros Hdb HJ. rewrite !support_filter. unfold cond_db.
  rewrite length_filter_map, length_filter_filter. f_equal.
  apply length_filter_ext. intros tr Htr.
  rewrite Forall_forall in Hdb. specialize (Hdb tr Htr).
  rewrite Forall_app, Forall_singleton. split.
  - intros [Hx Hall]. split; [|done].
    eapply Forall_impl; [exact Hall|]. intros j. apply elem_of_upto.
  - intros [Hall Hx]. split; [done|].
    rewrite Forall_forall in Hall, HJ. apply Forall_forall. intros j Hj.
    apply sorted_before_upto; auto.
Qed.
End SortedTransactions.

(** ** The counts of the prefixes that end with one item *)

Section Partition.
Context {Label : Type} `{EqDecision Label}.
Local Abbreviation Item := (Item Label).
Implicit Types (db : list (list Item)) (tr p q : list Item) (x : Item).

Lemma sum_Z_cons (z : Z) (l : list Z) : sum_Z (z :: l) = (z + sum_Z l)%Z.
Proof. reflexivity. Qed.

Lemma sum_Z_map_zero {A} (f : A -> Z) (l : list A) :
  (forall a, a ∈ l -> f a = 0%Z) -> sum_Z (map f l) = 0%Z.
Proof.
  induction l as [|a l IH]; intros Hz; [done|]. cbn [map].
  rewrite sum_Z_cons, (Hz a) by left. rewrite IH; [done|]. intros b Hb.
  apply Hz. right. done.
Qed.

Lemma sum_Z_map_add {A} (f g : A -> Z) (l : list A) :
  sum_Z (map (fun a => (f a + g a)%Z) l) =
    (sum_Z (map f l) + sum_Z (map g l))%Z.
Proof.
  induction l as [|a l IH]; [done|]. cbn [map]. rewrite !sum_Z_cons, IH.
  lia.
Qed.

Lemma sum_Z_map_ext {A} (f g : A -> Z) (l : list A) :
  (forall a, a ∈ l -> f a = g a) -> sum_Z (map f l) = sum_Z (map g l).
Proof.
  induction l as [|a l IH]; intros Hext; [done|]. cbn [map].
  rewrite !sum_Z_cons, (Hext a) by left. rewrite IH; [done|].
  intros b Hb. apply Hext. right. done.
Qed.

Lemma sum_Z_indicator {A} (P Q : A -> Prop) `{forall a, Decision (P a)}
  `{forall a, Decision (Q a)} (l : list A) :
  sum_Z (map (fun a => if decide (Q a) then 1%Z else 0%Z) (filter P l)) =
    Z.of_nat (length (filter (fun a => P a /\ Q a) l)).
Proof.
  induction l as [|a l IH]; [done|]. rewrite !filter_cons.
  destruct (decide (P a)) as [Hp|Hp].
  - cbn [map]. rewrite sum_Z_cons, IH. destruct (decide (Q a)) as [Hq|Hq].
    + rewrite decide_True by done. cbn [length]. lia.
    + rewrite decide_False by tauto. lia.
  - rewrite decide_False by tauto. done.
Qed.

Lemma length_filter_eq_NoDup {A} `{EqDecision A} (u : A) (l : list A) :
  NoDup l -> u ∈ l -> length (filter (fun a => a = u) l) = 1%nat.
Proof.
  induction 1 as [|a l Hni Hnd IH]; intros Hu; [inversion Hu|].
  rewrite filter_cons. destruct (decide (a = u)) as [->|Hne].
  - cbn [length]. f_equal.
    destruct (filter (fun a => a = u) l) as [|b l'] eqn:Hf; [done|].
    assert (Hb : b ∈ filter (fun a => a = u) l) by (rewrite Hf; left).
    apply list_elem_of_filter in Hb as [-> Hb]. done.
  - apply elem_of_cons in Hu as [->|Hu]; [done|]. auto.
Qed.

Lemma length_filter_none {A} (P : A -> Prop) `{forall a, Decision (P a)}
  (l : list A) :
  (forall a, a ∈ l -> ~ P a) -> length (filter P l) = 0%nat.
Proof.
  induction l as [|a l IH]; intros Hn; [done|]. rewrite filter_cons.
  rewrite decide_False by (apply Hn; left). apply IH. intros b Hb.
  apply Hn. right. done.
Qed.

(** [paths] are different prefixes that end with their only [x], and
    every transaction with [x] starts with one of them.  Then the counts
    of those that extend [q] add up to the number of conditional
    transactions of [x] that start with [q]. *)
Lemma partition_count x (paths : list (list Item)) q db :
  NoDup paths ->
  Forall (fun q' => exists init, q' = init ++ [x] /\ x ∉ init) paths ->
  (forall tr, tr ∈ db -> x ∈ tr -> upto x tr ∈ paths) ->
  sum_Z (map (prefix_count db) (filter (fun q' => q `prefix_of` q') paths)) =
    prefix_count (cond_db x db) q.
Proof.
  intros Hnd Hends. rewrite Forall_forall in Hends.
  induction db as [|tr db IH]; intros Hcover.
  { apply sum_Z_map_zero. done. }
  rewrite (sum_Z_map_ext _
             (fun q' => ((if decide (q' `prefix_of` tr) then 1 else 0) +
                         prefix_count db q')%Z))
    by (intros; apply prefix_count_cons).
  rewrite sum_Z_map_add, IH
    by (intros tr' Htr'; apply Hcover; right; done).
  rewrite sum_Z_indicator.
  assert (Hcount :
    length (filter (fun q' => q `prefix_of` q' /\ q' `prefix_of` tr) paths) =
      if decide (x ∈ tr)
      then (if decide (q `prefix_of` upto x tr) then 1 else 0)%nat
      else 0%nat).
  { destruct (decide (x ∈ tr)) as [Hx|Hx].
    - pose proof (Hcover tr (list_elem_of_here _ _) Hx) as Hu.
      destruct (decide (q `prefix_of` upto x tr)) as [Hq|Hq].
      + rewrite <- (length_filter_eq_NoDup (upto x tr) paths Hnd Hu).
        apply length_filter_ext. intros q' Hq'.
        destruct (Hends q' Hq') as (init & -> & Hni). split.
        * intros [_ Hp]. apply prefix_upto in Hp as [_ ->]; done.
        * intros Heq. rewrite Heq. split; [done|apply upto_prefix].
      + apply length_filter_none. intros q' Hq' [Hqq Hp].
        destruct (Hends q' Hq') as (init & -> & Hni).
        apply prefix_upto in Hp as [_ Heq]; [|done]. rewrite Heq in Hq.
        done.
    - apply length_filter_none. intros q' Hq' [_ Hp].
      destruct (Hends q' Hq') as (init & -> & Hni).
      apply prefix_upto in Hp as [Hin _]; done. }
  rewrite Hcount. unfold cond_db. rewrite filter_cons.
  destruct (decide (x ∈ tr)) as [Hx|Hx].
  - cbn [map]. fold (cond_db x db). rewrite prefix_count_cons.
    destruct (decide (q `prefix_of` upto x tr)); lia.
  - fold (cond_db x db). lia.
Qed.

Lemma prefix_count_empty db : prefix_count db [] = Z.of_nat (length db).
Proof.
  unfold prefix_count. f_equal. induction db as [|tr db IH]; [done|].
  rewrite filter_cons. rewrite decide_True by apply prefix_nil.
  cbn [length]. rewrite IH. done.
Qed.

Lemma support_single db x :
  support db [x] = prefix_count (cond_db x db) [].
Proof.
  rewrite prefix_count_empty, support_filter. unfold cond_db.
  rewrite length_map. f_equal. apply length_filter_ext. intros tr _.
  rewrite Forall_singleton. done.
Qed.
End Partition.

(** ** Going down a tree *)

Section Walk.
Context {Label : Type} `{EqDecision Label}.
Local Abbreviation Item := (Item Label).
Local Abbreviation M := (M Label).
Implicit Types (s : Store Label) (nd : FPNode Label) (t : FPTree Label).
Implicit Types (h : list (FPNode Label)) (q : list Item) (i k : Item).

Lemma walk_app h (a : nat) q1 q2 :
  walk h a (q1 ++ q2) =
    match walk h a q1 with
    | Some b => walk h b q2
    | None => None
    end.
Proof.
  revert a. induction q1 as [|i q1 IH]; intros a; [done|]. cbn.
  destruct (h !! a) as [nd|]; [|done].
  destruct (dict_get i (_children nd)); [apply IH|done].
Qed.

Lemma walk_snoc h (a : nat) q i (n : nat) :
  walk h a (q ++ [i]) = Some n <->
  exists (p : nat) pd, walk h a q = Some p /\ h !! p = Some pd /\
                       dict_get i (_children pd) = Some n.
Proof.
  rewrite walk_app. destruct (walk h a q) as [p|]; cbn.
  - destruct (h !! p) as [pd|] eqn:Hpd.
    + destruct (dict_get i (_children pd)) as [c|] eqn:Hc.
      * split; [intros [= <-]; eauto|].
        intros (p' & pd' & [= <-] & Hpd' & Hc'). congruence.
      * split; [done|].
        intros (p' & pd' & [= <-] & Hpd' & Hc'). congruence.
    + split; [done|]. intros (p' & pd' & [= <-] & Hpd' & _). congruence.
  - split; [done|]. intros (? & ? & ? & _). done.
Qed.

Lemma walk_prefix h (a : nat) q q' (n : nat) :
  walk h a q = Some n -> q' `prefix_of` q -> is_Some (walk h a q').
Proof.
  intros Hw [k ->]. rewrite walk_app in Hw.
  destruct (walk h a q'); [eauto|done].
Qed.

(** What is reached from the root is a node of the tree and, the root
    apart, a child: it has a count and carries the last item of the way. *)
Lemma walk_in_tree s t q (n : nat) :
  shape s t -> walk (heap s) (_root t) q = Some n ->
  exists nd, heap s !! n = Some nd /\ _tree nd = tree_id t /\
    (q = [] -> n = _root t) /\
    (q <> [] -> FPNode.is_root nd = false /\ is_Some (_count nd) /\
                last q = Some (_item nd)).
Proof.
  intros Hsh. revert n. induction q as [|i q IH] using rev_ind; intros n Hw.
  - injection Hw as <-. destruct (sh_root _ _ Hsh) as (rd & Hrd & Hrt & Hrr).
    exists rd. split; [done|]. split; [done|]. split; done.
  - apply walk_snoc in Hw as (p & pd & Hp & Hpd & Hc).
    destruct (IH p Hp) as (pd' & Hpd' & Hpt & _).
    assert (pd' = pd) as -> by congruence.
    destruct (sh_child _ _ Hsh p pd i n Hpd Hpt Hc)
      as (cd & Hcd & Hct & Hci & Hcp & Hcc & Hlt).
    exists cd. split; [done|]. split; [done|].
    split; [intros Heq; destruct q; discriminate Heq|]. intros _.
    split; [|split; [done|rewrite last_snoc; congruence]].
    destruct Hcc as [c Hcc]. unfold FPNode.is_root. rewrite Hcc.
    destruct (_item cd); done.
Qed.

Lemma walk_parent s t q i (n : nat) :
  shape s t -> walk (heap s) (_root t) (q ++ [i]) = Some n ->
  exists nd, heap s !! n = Some nd /\ _item nd = i /\
             _parent nd = walk (heap s) (_root t) q.
Proof.
  intros Hsh Hw. apply walk_snoc in Hw as (p & pd & Hp & Hpd & Hc).
  destruct (walk_in_tree s t q p Hsh Hp) as (pd' & Hpd' & Hpt & _).
  assert (pd' = pd) as -> by congruence.
  destruct (sh_child _ _ Hsh p pd i n Hpd Hpt Hc)
    as (cd & Hcd & Hct & Hci & Hcp & Hcc & Hlt).
  exists cd. rewrite Hp. done.
Qed.

(** A node is reached by one way only. *)
Lemma walk_inj s t q q' (n : nat) :
  shape s t ->
  walk (heap s) (_root t) q = Some n -> walk (heap s) (_root t) q' = Some n ->
  q = q'.
Proof.
  intros Hsh. revert q' n.
  induction q as [|i q IH] using rev_ind; intros q' n Hw Hw'.
  - injection Hw as <-.
    destruct q' as [|i' q'] using rev_ind; [done|]. exfalso.
    destruct (walk_in_tree s t _ _ Hsh Hw') as (nd & Hnd & _ & _ & Hne).
    destruct Hne as (Hr & _); [intros Heq; destruct q'; discriminate Heq|].
    destruct (sh_root _ _ Hsh) as (rd & Hrd & _ & Hrr). congruence.
  - destruct q' as [|i' q' _] using rev_ind.
    + exfalso. injection Hw' as <-.
      destruct (walk_in_tree s t _ _ Hsh Hw) as (nd & Hnd & _ & _ & Hne).
      destruct Hne as (Hr & _); [intros Heq; destruct q; discriminate Heq|].
      destruct (sh_root _ _ Hsh) as (rd & Hrd & _ & Hrr). congruence.
    + destruct (walk_parent s t q i n Hsh Hw) as (nd & Hnd & Hi & Hp).
      destruct (walk_parent s t q' i' n Hsh Hw') as (nd' & Hnd' & Hi' & Hp').
      assert (nd' = nd) as -> by congruence.
      destruct (walk (heap s) (_root t) q) as [p|] eqn:Hwq.
      2:{ rewrite walk_app, Hwq in Hw. done. }
      f_equal; [|congruence]. eapply IH; [done|]. congruence.
Qed.

(** Every node of the tree is reached from the root. *)
Lemma walk_reach s t :
  shape s t ->
  forall (n : nat) nd,
    heap s !! n = Some nd -> _tree nd = tree_id t ->
    exists q, walk (heap s) (_root t) q = Some n.
Proof.
  intros Hsh n. induction n as [n IH] using lt_wf_ind. intros nd Hnd Ht.
  destruct (FPNode.is_root nd) eqn:Hr.
  - exists []. cbn. f_equal. symmetry. eapply sh_root_only; done.
  - destruct (sh_parent _ _ Hsh n nd Hnd Ht Hr) as (p & pd & Hpar & Hpd & Hpt & Hc).
    destruct (sh_child _ _ Hsh p pd _ n Hpd Hpt Hc) as (_ & _ & _ & _ & _ & _ & Hlt).
    destruct (IH p Hlt pd Hpd Hpt) as (q & Hq).
    exists (q ++ [_item nd]). apply walk_snoc. eauto.
Qed.

Lemma walk_ge s t q (n : nat) :
  shape s t -> walk (heap s) (_root t) q = Some n ->
  (_root t + length q <= n)%nat.
Proof.
  intros Hsh. revert n. induction q as [|i q IH] using rev_ind; intros n Hw.
  - injection Hw as <-. cbn. lia.
  - apply walk_snoc in Hw as (p & pd & Hp & Hpd & Hc).
    destruct (walk_in_tree s t q p Hsh Hp) as (pd' & Hpd' & Hpt & _).
    assert (pd' = pd) as -> by congruence.
    destruct (sh_child _ _ Hsh p pd i n Hpd Hpt Hc)
      as (_ & _ & _ & _ & _ & _ & Hlt).
    specialize (IH p Hp). rewrite length_app. cbn. lia.
Qed.

(** The nodes that carry [k] are those reached by a way that ends with
    [k]. *)
Lemma nodes_of_walk s t k (n : nat) :
  shape s t ->
  n ∈ nodes_of s (tree_id t) k <->
  exists q, walk (heap s) (_root t) (q ++ [k]) = Some n.
Proof.
  intros Hsh. rewrite elem_of_nodes_of. unfold carries_at. split.
  - destruct (heap s !! n) as [nd|] eqn:Hnd; [|done].
    intros (Ht & Hi & Hr).
    destruct (walk_reach s t Hsh n nd Hnd Ht) as (q & Hq).
    destruct q as [|i q _] using rev_ind.
    + injection Hq as <-. destruct (sh_root _ _ Hsh) as (rd & Hrd & _ & Hrr).
      congruence.
    + destruct (walk_parent s t q i n Hsh Hq) as (nd' & Hnd' & Hi' & _).
      exists q. congruence.
  - intros (q & Hq).
    destruct (walk_in_tree s t _ _ Hsh Hq) as (nd & Hnd & Ht & _ & Hne).
    rewrite Hnd. destruct Hne as (Hr & _ & Hl);
      [intros Heq; destruct q; discriminate Heq|].
    rewrite last_snoc in Hl. split; [done|]. split; [congruence|done].
Qed.
End Walk.

(** ** How insertions change a tree *)

Section ShapeSteps.
Context {Label : Type} `{EqDecision Label}.
Local Abbreviation Item := (Item Label).
Local Abbreviation M := (M Label).
Implicit Types (s : Store Label) (nd : FPNode Label) (t : FPTree Label).
Implicit Types (h : list (FPNode Label)) (q : list Item) (i k : Item).

Lemma walk_same_shape s s' (a : nat) q :
  same_shape s s' -> walk (heap s') a q = walk (heap s) a q.
Proof.
  intros Hss. revert a. induction q as [|i q IH]; intros a; [done|]. cbn.
  destruct (heap s !! a) as [nd|] eqn:Hnd.
  - destruct (proj2 Hss a nd Hnd) as (c & -> & _). cbn.
    destruct (dict_get i (_children nd)); [apply IH|done].
  - rewrite (same_shape_None s s' a Hss Hnd). done.
Qed.

Lemma route_inv_same_shape s s' t :
  same_shape s s' -> route_inv s t -> route_inv s' t.
Proof.
  intros Hss Hinv k. rewrite (same_shape_nodes_of s s' _ k Hss).
  destruct (Hinv k) as [Hl Hrt]. split; [|done].
  intros i m Him. destruct (Hl i m Him) as (md & Hmd & Hnb).
  destruct (proj2 Hss m md Hmd) as (c & Hmd' & _).
  eexists. split; [done|]. done.
Qed.

Lemma shape_same_shape s s' t : same_shape s s' -> shape s t -> shape s' t.
Proof.
  intros Hss [Hrt Hroot Honly Hch Hpar]. split.
  - eapply route_inv_same_shape; done.
  - destruct Hroot as (rd & Hrd & Ht & Hr).
    destruct (proj2 Hss _ rd Hrd) as (c & Hrd' & Hc).
    eexists. split; [done|]. split; [done|].
    rewrite is_root_with_count; done.
  - intros n nd' Hnd' Ht Hr.
    destruct (same_shape_inv s s' n nd' Hss Hnd') as (nd & c & Hnd & -> & Hc).
    rewrite is_root_with_count in Hr by done. eapply Honly; done.
  - intros p pd' i c Hpd' Ht Hget.
    destruct (same_shape_inv s s' p pd' Hss Hpd') as (pd & c0 & Hpd & -> & Hc0).
    destruct (Hch p pd i c Hpd Ht Hget) as (cd & Hcd & Hct & Hci & Hcp & Hcc & Hlt).
    destruct (proj2 Hss c cd Hcd) as (c1 & Hcd' & Hc1).
    eexists. split; [done|]. cbn. split; [done|]. split; [done|].
    split; [done|]. split; [|done].
    destruct c1 as [z|]; [eauto|]. destruct Hcc as [z Hz].
    destruct Hc1 as [Hc1 _]. rewrite Hc1 in Hz; done.
  - intros n nd' Hnd' Ht Hr.
    destruct (same_shape_inv s s' n nd' Hss Hnd') as (nd & c & Hnd & -> & Hc).
    rewrite is_root_with_count in Hr by done.
    destruct (Hpar n nd Hnd Ht Hr) as (p & pd & Hp & Hpd & Hpt & Hget).
    destruct (proj2 Hss p pd Hpd) as (c1 & Hpd' & _).
    exists p. eexists. split; [done|]. split; [done|]. done.
Qed.

Lemma shape_new s :
  store_ok s ->
  shape (mkStore (heap s ++ [root_node (next_tree s)]) (S (next_tree s)))
        (mkFPTree (next_tree s) (length (heap s)) []).
Proof.
  intros Hok.
  assert (Hcase : forall n nd,
            (heap s ++ [root_node (next_tree s)]) !! n = Some nd ->
            _tree nd = next_tree s ->
            n = length (heap s) /\ nd = root_node (next_tree s)).
  { intros n nd Hnd Ht. apply lookup_snoc_Some in Hnd as [[_ Hnd]|[-> <-]];
      [|done]. specialize (Hok n nd Hnd). lia. }
  split; cbn [tree_id _root _routes heap].
  - apply route_inv_new. done.
  - exists (root_node (next_tree s)). split; [|done].
    apply list_lookup_middle. done.
  - intros n nd Hnd Ht _. apply (Hcase n nd Hnd Ht).
  - intros p pd i c Hpd Ht Hget. destruct (Hcase p pd Hpd Ht) as [_ ->].
    done.
  - intros n nd Hnd Ht Hr. destruct (Hcase n nd Hnd Ht) as [_ ->]. done.
Qed.

Lemma counted_not_root (tid : nat) k (c : Z) (p : option nat)
  (ch : dict Item nat) (nb : option nat) :
  FPNode.is_root (mkFPNode tid k (Some c) p ch nb) = false.
Proof. unfold FPNode.is_root. cbn. destruct k; done. Qed.

(** A node [np] has been created for [k] below [point] and entered in the
    routes. *)
Section Attached.
Variables (s s3 : Store Label) (t : FPTree Label) (point : nat) (k : Item)
  (c : Z) (pd : FPNode Label).
Let np := length (heap s).
Let t' := mkFPTree (tree_id t) (_root t) (routed (_routes t) np k).
Hypothesis Hsh : shape s t.
Hypothesis Hpd : heap s !! point = Some pd.
Hypothesis Hpt : _tree pd = tree_id t.
Hypothesis Hnone : dict_get k (_children pd) = None.
Hypothesis Hlen : length (heap s3) = S (length (heap s)).
Hypothesis Hnew :
  heap s3 !! np = Some (mkFPNode (tree_id t) k (Some c) (Some point) [] None).
Hypothesis Hold : forall n nd,
  heap s !! n = Some nd ->
  heap s3 !! n = Some (attached (_routes t) point np k n nd).

Lemma attached_cases (n : nat) (nd3 : FPNode Label) :
  heap s3 !! n = Some nd3 ->
  (n = np /\ nd3 = mkFPNode (tree_id t) k (Some c) (Some point) [] None) \/
  (exists nd, heap s !! n = Some nd /\
              nd3 = attached (_routes t) point np k n nd).
Proof.
  intros Hn3. destruct (decide (n < length (heap s))%nat) as [Hlt|Hge].
  - destruct (lookup_lt_is_Some_2 _ _ Hlt) as [nd Hnd]. right. exists nd.
    split; [done|]. rewrite (Hold _ _ Hnd) in Hn3. congruence.
  - apply lookup_lt_Some in Hn3 as Hlt3. left.
    assert (n = np) as -> by (unfold np; lia). split; congruence.
Qed.

Lemma shape_attach : shape s3 t'.
Proof.
  destruct Hsh as [Hrt Hroot Honly Hch Hpar].
  assert (Hplt : (point < np)%nat) by (eapply lookup_lt_Some; done).
  split; cbn [tree_id _root _routes t'].
  - apply (route_inv_attach s s3 t point k (Some c));
      [exact Hrt|exact Hlen|exact Hnew|exact Hold|].
    apply counted_not_root.
  - destruct Hroot as (rd & Hrd & Ht & Hr).
    eexists. split; [apply Hold; done|]. done.
  - intros n nd3 Hn3 Ht Hr.
    destruct (attached_cases n nd3 Hn3) as [[-> ->]|(nd & Hnd & ->)].
    { rewrite counted_not_root in Hr. done. }
    eapply Honly; done.
  - intros p pd3 i ch Hp3 Ht Hget.
    destruct (attached_cases p pd3 Hp3) as [[-> ->]|(pd0 & Hpd0 & ->)];
      [done|].
    cbn [attached _children _tree] in Hget, Ht.
    assert (Holdc : dict_get i (_children pd0) = Some ch ->
              exists cd, heap s3 !! ch = Some cd /\ _tree cd = tree_id t /\
                _item cd = i /\ _parent cd = Some p /\
                is_Some (_count cd) /\ (p < ch)%nat).
    { intros Hg.
      destruct (Hch p pd0 i ch Hpd0 Ht Hg)
        as (cd & Hcd & Hct & Hci & Hcp & Hcc & Hlt).
      eexists. split; [apply Hold; done|]. done. }
    destruct (decide (p = point)) as [->|Hne]; [|auto].
    destruct (decide (k = i)) as [<-|Hk].
    + rewrite dict_get_set_eq in Hget. injection Hget as <-.
      eexists. split; [done|]. cbn. eauto 10.
    + rewrite dict_get_set_ne in Hget by done. auto.
  - intros n nd3 Hn3 Ht Hr.
    destruct (attached_cases n nd3 Hn3) as [[-> ->]|(nd & Hnd & ->)].
    + exists point. eexists. split; [done|]. split; [apply Hold; done|].
      cbn. split; [done|]. rewrite decide_True by done.
      apply dict_get_set_eq.
    + cbn [attached _tree _item _parent] in *.
      destruct (Hpar n nd Hnd Ht Hr) as (p & pd0 & Hp & Hpd0 & Hpt0 & Hget).
      exists p. eexists. split; [done|]. split; [apply Hold; done|].
      cbn. split; [done|].
      destruct (decide (p = point)) as [->|Hne]; [|done].
      assert (pd0 = pd) as -> by congruence.
      rewrite dict_get_set_ne; [done|]. intros Heq. rewrite <- Heq in Hget.
      congruence.
Qed.

Lemma walk_attach_mono (a : nat) q (n : nat) :
  walk (heap s) a q = Some n -> walk (heap s3) a q = Some n.
Proof.
  revert a. induction q as [|i q IH]; intros a Hw; [done|]. cbn in *.
  destruct (heap s !! a) as [nd|] eqn:Hnd; [|done].
  rewrite (Hold _ _ Hnd). cbn.
  destruct (dict_get i (_children nd)) as [ch|] eqn:Hget; [|done].
  destruct (decide (a = point)) as [->|Hne].
  - assert (nd = pd) as -> by congruence.
    rewrite dict_get_set_ne by (intros <-; congruence).
    rewrite Hget. auto.
  - rewrite Hget. auto.
Qed.

Lemma walk_attach_inv q (n : nat) :
  walk (heap s3) (_root t) q = Some n ->
  walk (heap s) (_root t) q = Some n \/
  exists q1, q = q1 ++ [k] /\ walk (heap s) (_root t) q1 = Some point /\
             n = np.
Proof.
  revert n. induction q as [|i q IH] using rev_ind; intros n Hw.
  { left. done. }
  apply walk_snoc in Hw as (p & pd3 & Hp & Hp3 & Hget).
  destruct (IH p Hp) as [Hwp|(q1 & -> & Hq1 & ->)].
  2:{ rewrite Hnew in Hp3. injection Hp3 as <-. done. }
  destruct (walk_in_tree s t q p Hsh Hwp) as (pd0 & Hpd0 & Hpt0 & _).
  rewrite (Hold _ _ Hpd0) in Hp3. injection Hp3 as <-.
  cbn [attached _children] in Hget.
  destruct (decide (p = point)) as [->|Hne].
  - destruct (decide (k = i)) as [<-|Hk].
    + rewrite dict_get_set_eq in Hget. injection Hget as <-.
      right. exists q. done.
    + rewrite dict_get_set_ne in Hget by done. left.
      apply walk_snoc. eauto.
  - left. apply walk_snoc. eauto.
Qed.

Lemma walk_attach_new q0 :
  walk (heap s) (_root t) q0 = Some point ->
  walk (heap s3) (_root t) (q0 ++ [k]) = Some np.
Proof.
  intros Hq0. apply walk_snoc. exists point. eexists.
  split; [apply walk_attach_mono; done|]. split; [apply Hold; done|].
  cbn. rewrite decide_True by done. apply dict_get_set_eq.
Qed.

(** The ways of the tree after the insertion, and their counts. *)
Lemma paths_of_attach (P : list Item -> Prop) q0 :
  walk (heap s) (_root t) q0 = Some point ->
  paths_of s t P -> paths_of s3 t' (fun q => P q \/ q = q0 ++ [k]).
Proof.
  intros Hq0 [Hs Hc]. split; cbn [_root t'].
  - intros q n Hne Hw.
    destruct (walk_attach_inv q n Hw) as [Hw'|(q1 & -> & Hq1 & ->)].
    + left. eapply Hs; done.
    + right. f_equal. eapply walk_inj; done.
  - intros q [HP| ->].
    + destruct (Hc q HP) as [n Hn]. exists n. apply walk_attach_mono. done.
    + exists np. apply walk_attach_new. done.
Qed.

Lemma counts_of_attach (cnt : list Item -> Z) q0 :
  walk (heap s) (_root t) q0 = Some point ->
  counts_of s t cnt ->
  counts_of s3 t' (fun q => if decide (q = q0 ++ [k]) then c else cnt q).
Proof.
  intros Hq0 Hcnt q n Hne Hw. cbn [_root t'] in Hw.
  destruct (walk_attach_inv q n Hw) as [Hw'|(q1 & -> & Hq1 & ->)].
  - destruct (Hcnt q n Hne Hw') as (nd & Hnd & Hc).
    eexists. split; [apply Hold; done|]. cbn.
    rewrite decide_False; [done|]. intros ->.
    rewrite walk_app, Hq0 in Hw'. cbn in Hw'. rewrite Hpd, Hnone in Hw'.
    done.
  - assert (q1 = q0) as -> by (eapply walk_inj; done).
    eexists. split; [done|]. cbn. rewrite decide_True by done. done.
Qed.
End Attached.
End ShapeSteps.

(** ** The master tree is the prefix tree of the transactions *)

Section MasterTrie.
Context {Label : Type} `{EqDecision Label}.
Local Abbreviation Item := (Item Label).
Local Abbreviation M := (M Label).
Implicit Types (s : Store Label) (nd : FPNode Label) (t : FPTree Label).
Implicit Types (db : list (list Item)) (q done : list Item) (i k : Item).

Lemma paths_of_ext s t (P P' : list Item -> Prop) :
  (forall q, P q <-> P' q) -> paths_of s t P -> paths_of s t P'.
Proof.
  intros Hext [Hs Hc]. split.
  - intros q n Hne Hw. apply Hext. eauto.
  - intros q HP. apply Hc, Hext. done.
Qed.

Lemma counts_of_ext s t (cnt cnt' : list Item -> Z) :
  (forall q, q <> [] -> cnt q = cnt' q) ->
  counts_of s t cnt -> counts_of s t cnt'.
Proof.
  intros Hext Hcnt q n Hne Hw. destruct (Hcnt q n Hne Hw) as (nd & Hnd & Hc).
  exists nd. rewrite <- Hext by done. done.
Qed.

Lemma paths_of_same_shape s s' t (P : list Item -> Prop) :
  same_shape s s' -> paths_of s t P -> paths_of s' t P.
Proof.
  intros Hss [Hs Hc]. split.
  - intros q n Hne Hw. rewrite (walk_same_shape s s') in Hw by done. eauto.
  - intros q HP. rewrite (walk_same_shape s s') by done. auto.
Qed.

(** The count of the node reached by [q1] becomes [c']. *)
Lemma counts_of_upd s t (cnt : list Item -> Z) (q1 : list Item) (n1 : nat)
  (nd1 : FPNode Label) (c' : Z) :
  shape s t -> q1 <> [] ->
  walk (heap s) (_root t) q1 = Some n1 -> heap s !! n1 = Some nd1 ->
  counts_of s t cnt ->
  let s' := upd s n1 (FPNode.with_count nd1 (Some c')) in
  same_shape s s' /\
  counts_of s' t (fun q => if decide (q = q1) then c' else cnt q).
Proof.
  intros Hsh Hne1 Hw1 Hnd1 Hcnt s'.
  destruct (walk_in_tree s t q1 n1 Hsh Hw1) as (nd1' & Hnd1' & _ & _ & Hc1).
  assert (nd1' = nd1) as -> by congruence.
  destruct (Hc1 Hne1) as (_ & [c1 Hc1'] & _).
  assert (Hss : same_shape s s').
  { apply same_shape_upd; [done|]. rewrite Hc1'. done. }
  split; [done|]. intros q n Hne Hw.
  rewrite (walk_same_shape s s') in Hw by done.
  assert (Hlt : (n1 < length (heap s))%nat) by (eapply lookup_lt_Some; done).
  destruct (decide (q = q1)) as [->|Hq].
  - assert (n = n1) as -> by congruence.
    eexists. split; [apply list_lookup_insert_eq; done|]. done.
  - destruct (Hcnt q n Hne Hw) as (nd & Hnd & Hc).
    exists nd. split; [|done]. cbn.
    rewrite list_lookup_insert_ne; [done|]. intros <-.
    apply Hq. eapply walk_inj; done.
Qed.

Lemma prefix_snoc_iff q done i :
  q `prefix_of` done ++ [i] <-> q `prefix_of` done \/ q = done ++ [i].
Proof.
  split.
  - intros [k Hk]. destruct k as [|j k _] using rev_ind.
    + right. rewrite app_nil_r in Hk. done.
    + left. rewrite app_assoc in Hk. apply app_inj_tail in Hk as [-> _].
      exists k. done.
  - intros [[k ->]| ->]; [|done]. exists (k ++ [i]).
    rewrite app_assoc. done.
Qed.

Lemma not_prefix_snoc done i : ~ (done ++ [i]) `prefix_of` done.
Proof.
  intros Hp. apply prefix_length in Hp. rewrite length_app in Hp. cbn in Hp.
  lia.
Qed.

Lemma attached_other (routes : dict Item (nat * nat)) (point np : nat) k
  (n : nat) nd :
  n <> point ->
  (forall route, dict_get k routes = Some route -> n <> snd route) ->
  attached routes point np k n nd = nd.
Proof.
  intros Hp Hr. unfold attached. rewrite decide_False by done.
  destruct (dict_get k routes) as [route|].
  - rewrite decide_False by (apply Hr; done). destruct nd; done.
  - destruct nd; done.
Qed.

Lemma only_tree_refl (tid : nat) s : only_tree tid s s.
Proof. split; [auto|]. split; [auto|done]. Qed.

Lemma only_tree_trans (tid : nat) s1 s2 s3 :
  only_tree tid s1 s2 -> only_tree tid s2 s3 -> only_tree tid s1 s3.
Proof.
  intros (Hk1 & Hn1 & Ht1) (Hk2 & Hn2 & Ht2). split; [auto|].
  split; [|congruence]. intros n nd Hnd.
  destruct (Hn2 n nd Hnd) as [|Hnd2]; [auto|]. auto.
Qed.

Lemma only_tree_upd (tid : nat) s (n : nat) nd nd' :
  heap s !! n = Some nd -> _tree nd = tid /\ _tree nd' = tid ->
  only_tree tid s (upd s n nd').
Proof.
  intros Hnd [Ht Ht'].
  assert (Hlt : (n < length (heap s))%nat) by (eapply lookup_lt_Some; done).
  split; [|split; [|done]].
  - intros m md Hmd Hmt. cbn. rewrite list_lookup_insert_ne; [done|].
    intros <-. congruence.
  - intros m md' Hmd'. cbn in Hmd'. destruct (decide (n = m)) as [<-|Hne].
    + rewrite list_lookup_insert_eq in Hmd' by done. left. congruence.
    + rewrite list_lookup_insert_ne in Hmd' by done. auto.
Qed.

Lemma only_tree_attach s s3 t (point : nat) k (c : option Z)
  (pd : FPNode Label) :
  heap s !! point = Some pd -> _tree pd = tree_id t ->
  next_tree s3 = next_tree s ->
  length (heap s3) = S (length (heap s)) ->
  heap s3 !! length (heap s) =
    Some (mkFPNode (tree_id t) k c (Some point) [] None) ->
  (forall n nd, heap s !! n = Some nd ->
     heap s3 !! n =
       Some (attached (_routes t) point (length (heap s)) k n nd)) ->
  (forall route, dict_get k (_routes t) = Some route ->
     exists td, heap s !! snd route = Some td /\ _tree td = tree_id t) ->
  only_tree (tree_id t) s s3.
Proof.
  intros Hpd Hpt Hnt Hlen Hnew Hold Htail.
  assert (Hother : forall n nd, heap s !! n = Some nd ->
            _tree nd <> tree_id t ->
            attached (_routes t) point (length (heap s)) k n nd = nd).
  { intros n nd Hnd Ht. apply attached_other.
    - intros ->. congruence.
    - intros route Hroute ->.
      destruct (Htail route Hroute) as (td & Htd & Htt). congruence. }
  split; [|split; [|done]].
  - intros n nd Hnd Ht. rewrite (Hold _ _ Hnd), Hother; done.
  - intros n nd3 Hn3.
    destruct (decide (n < length (heap s))%nat) as [Hlt|Hge].
    + destruct (lookup_lt_is_Some_2 _ _ Hlt) as [nd Hnd].
      rewrite (Hold _ _ Hnd) in Hn3. injection Hn3 as <-.
      destruct (decide (_tree nd = tree_id t)) as [Ht|Ht]; [left; done|].
      right. rewrite Hother; done.
    + apply lookup_lt_Some in Hn3 as Hlt3.
      assert (n = length (heap s)) as -> by lia.
      rewrite Hnew in Hn3. injection Hn3 as <-. left. done.
Qed.

Lemma only_tree_store_ok (tid : nat) s s' :
  only_tree tid s s' -> store_ok s -> (tid < next_tree s)%nat -> store_ok s'.
Proof.
  intros (_ & Hn & Ht) Hok Hlt n nd Hnd. rewrite Ht.
  destruct (Hn n nd Hnd) as [->|Hnd0]; [done|]. eapply Hok. done.
Qed.

Lemma only_tree_kept (tid b : nat) s s' :
  only_tree tid s s' -> (b <= tid)%nat -> kept b s s'.
Proof.
  intros (Hk & Hn & Ht) Hb. split; [|split; [|lia]].
  - intros n nd Hnd Hlt. apply Hk; [done|lia].
  - intros n nd Hnd. destruct (Hn n nd Hnd) as [->|]; auto.
Qed.

Lemma add_from_trie db (rest : list Item) :
  forall done t (point : nat) s t' s',
    shape s t ->
    walk (heap s) (_root t) done = Some point ->
    paths_of s t (inserting_paths db done) ->
    counts_of s t (inserting_counts db done) ->
    FPTree.add_from t point rest s = Ok t' s' ->
    shape s' t' /\ tree_id t' = tree_id t /\ _root t' = _root t /\
    paths_of s' t' (inserting_paths db (done ++ rest)) /\
    counts_of s' t' (inserting_counts db (done ++ rest)) /\
    only_tree (tree_id t) s s'.
Proof.
  induction rest as [|item rest IH];
    intros done t point s t' s' Hsh Hpoint Hpaths Hcounts Hrun.
  - apply ret_Ok in Hrun as [-> ->]. rewrite app_nil_r.
    repeat (split; [done|]). apply only_tree_refl.
  - cbn [FPTree.add_from] in Hrun.
    apply bind_Ok in Hrun as (next_point & s1 & Hs & Hrun).
    apply search_Ok in Hs as (-> & pd & Hpd & Hget).
    destruct (walk_in_tree s t done point Hsh Hpoint)
      as (pd' & Hpd' & Hpt & _).
    assert (pd' = pd) as -> by congruence.
    replace (done ++ item :: rest) with ((done ++ [item]) ++ rest)
      by (rewrite <- app_assoc; done).
    destruct next_point as [np|].
    + apply bind_Ok in Hrun as ([] & s1 & Hi & Hrun).
      apply increment_Ok in Hi as (nd & c & Hnd & Hc & ->).
      assert (Hnp : walk (heap s) (_root t) (done ++ [item]) = Some np).
      { apply walk_snoc. eauto. }
      assert (Hne : done ++ [item] <> [])
        by (intros Heq; destruct done; discriminate Heq).
      destruct (counts_of_upd s t _ _ np nd (c + 1) Hsh Hne Hnp Hnd Hcounts)
        as [Hss Hcounts'].
      apply (IH (done ++ [item])) in Hrun
        as (Hsh' & Hid & Hroot & Hp' & Hc' & Hkept).
      * repeat (split; [done|]).
        eapply only_tree_trans; [|exact Hkept].
        destruct (walk_in_tree s t _ np Hsh Hnp) as (nd' & Hnd' & Ht' & _).
        apply (only_tree_upd _ s np nd); [done|].
        split; [congruence|cbn; congruence].
      * eapply shape_same_shape; done.
      * rewrite (walk_same_shape s) by done. done.
      * eapply paths_of_same_shape; [done|].
        eapply paths_of_ext; [|exact Hpaths].
        intros q. unfold inserting_paths. rewrite prefix_snoc_iff. split.
        -- tauto.
        -- intros [[Hq| ->]|Hq]; [tauto| |tauto].
           apply (proj1 Hpaths _ np Hne Hnp).
      * eapply counts_of_ext; [|exact Hcounts'].
        intros q Hq. cbn beta. unfold inserting_counts.
        destruct (Hcounts _ np Hne Hnp) as (nd' & Hnd' & Hc0).
        assert (nd' = nd) as -> by congruence.
        destruct (decide (q = done ++ [item])) as [->|Hqne].
        -- rewrite Hc in Hc0. injection Hc0 as ->.
           unfold inserting_counts.
           rewrite (decide_False (P := (done ++ [item]) `prefix_of` done))
             by apply not_prefix_snoc.
           rewrite decide_True by done. lia.
        -- destruct (decide (q `prefix_of` done)) as [Hp|Hp].
           ++ rewrite decide_True by (apply prefix_snoc_iff; auto). done.
           ++ rewrite decide_False; [done|].
              rewrite prefix_snoc_iff. tauto.
    + apply bind_Ok in Hrun as (np & s1 & Hnew & Hrun).
      apply bind_Ok in Hrun as ([] & s2 & Hadd & Hrun).
      apply bind_Ok in Hrun as (t1 & s3 & Hupd & Hrun).
      destruct (attach_Ok _ _ _ _ _ _ _ _ _ _ _ _ Hpd Hget
                  (fun route => route_tail_lt s t item route
                                  (sh_routes _ _ Hsh))
                  Hnew Hadd Hupd)
        as (-> & _ & Hnt3 & -> & Hlen & Hnp & Hold & Htail).
      assert (Hsh3 : shape s3 (mkFPTree (tree_id t) (_root t)
                                 (routed (_routes t) (length (heap s)) item)))
        by (eapply shape_attach; eassumption).
      assert (Hw3 : walk (heap s3) (_root t) (done ++ [item]) =
                    Some (length (heap s)))
        by (eapply walk_attach_new; eassumption).
      assert (Hzero : prefix_count db (done ++ [item]) = 0%Z).
      { pose proof (prefix_count_nonneg db (done ++ [item])) as Hnn.
        destruct (decide (0 < prefix_count db (done ++ [item]))%Z)
          as [Hpos|Hnpos]; [|lia].
        apply prefix_count_pos in Hpos.
        destruct (proj2 Hpaths (done ++ [item])) as [n Hn]; [right; done|].
        rewrite walk_app, Hpoint in Hn. cbn in Hn.
        rewrite Hpd, Hget in Hn. done. }
      apply (IH (done ++ [item])) in Hrun
        as (Hsh' & Hid & Hroot & Hp' & Hc' & Hkept).
      * repeat (split; [done|]).
        eapply only_tree_trans; [|exact Hkept].
        eapply only_tree_attach; eassumption.
      * done.
      * done.
      * eapply paths_of_ext; cycle 1.
        { eapply paths_of_attach; eassumption. }
        intros q. unfold inserting_paths. rewrite prefix_snoc_iff. tauto.
      * eapply counts_of_ext; cycle 1.
        { eapply counts_of_attach; eassumption. }
        intros q Hq. cbn beta. unfold inserting_counts.
        destruct (decide (q = done ++ [item])) as [->|Hqne].
        -- rewrite Hzero. rewrite decide_True by done. done.
        -- destruct (decide (q `prefix_of` done)) as [Hp|Hp].
           ++ rewrite decide_True by (apply prefix_snoc_iff; auto). done.
           ++ rewrite decide_False; [done|].
              rewrite prefix_snoc_iff. tauto.
Qed.
Lemma kept_refl (b : nat) s : kept b s s.
Proof. split; [auto|]. split; [auto|done]. Qed.

Lemma kept_trans (b : nat) s1 s2 s3 :
  kept b s1 s2 -> kept b s2 s3 -> kept b s1 s3.
Proof.
  intros (Hk1 & Hn1 & Ht1) (Hk2 & Hn2 & Ht2). split; [auto|].
  split; [|lia]. intros n nd Hnd.
  destruct (Hn2 n nd Hnd) as [|Hnd2]; [auto|]. auto.
Qed.

Lemma kept_weaken (b b' : nat) s s' : (b' <= b)%nat -> kept b s s' -> kept b' s s'.
Proof.
  intros Hb (Hk & Hn & Ht). split; [|split; [|done]].
  - intros n nd Hnd Hlt. apply Hk; [done|lia].
  - intros n nd Hnd. destruct (Hn n nd Hnd); [left; lia|auto].
Qed.

Lemma kept_store_ok (b : nat) s s' :
  kept b s s' -> store_ok s ->
  (forall n nd, heap s' !! n = Some nd -> (b <= _tree nd)%nat ->
                (_tree nd < next_tree s')%nat) ->
  store_ok s'.
Proof.
  intros (_ & Hn & Ht) Hok Hnew n nd Hnd.
  destruct (Hn n nd Hnd) as [Hb|Hnd0]; [exact (Hnew n nd Hnd Hb)|].
  specialize (Hok n nd Hnd0). lia.
Qed.

Lemma kept_new s :
  kept (next_tree s) s
    (mkStore (heap s ++ [root_node (next_tree s)]) (S (next_tree s))).
Proof.
  split; [|split; [|cbn; lia]].
  - intros n nd Hnd _. cbn. apply lookup_app_l_Some. done.
  - intros n nd Hnd. cbn in Hnd.
    apply lookup_snoc_Some in Hnd as [[_ Hnd]|[_ <-]]; [auto|]. left. done.
Qed.

Lemma paths_of_start s t (P : list Item -> Prop) :
  paths_of s t P <-> paths_of s t (fun q => q `prefix_of` [] \/ P q).
Proof.
  split; intros [Hs Hc]; split.
  - intros q n Hne Hw. right. eauto.
  - intros q [Hq|Hq]; [|auto]. apply prefix_nil_inv in Hq as ->. cbn. eauto.
  - intros q n Hne Hw. destruct (Hs q n Hne Hw) as [Hq|Hq]; [|done].
    apply prefix_nil_inv in Hq. done.
  - intros q Hq. apply Hc. auto.
Qed.

Lemma add_trie db (transaction : list Item) t s t' s' :
  trie s t db ->
  FPTree.add t transaction s = Ok t' s' ->
  trie s' t' (db ++ [transaction]) /\ tree_id t' = tree_id t /\
  only_tree (tree_id t) s s'.
Proof.
  intros (Hsh & Hp & Hc) Hrun. unfold FPTree.add in Hrun.
  apply (add_from_trie db transaction [] t (_root t) s t' s') in Hrun
    as (Hsh' & Hid & Hroot & Hp' & Hc' & Hkept); [|done|done| |].
  - split; [|done]. split; [done|]. cbn [app] in Hp', Hc'. split.
    + eapply paths_of_ext; [|exact Hp']. intros q. unfold inserting_paths.
      split.
      * intros [Hq|(tr & Htr & Hq)]; [exists transaction|exists tr];
          (split; [|done]); apply elem_of_app; [right; left|left; done].
      * intros (tr & Htr & Hq). apply elem_of_app in Htr as [Htr|Htr];
          [right; eauto|]. apply list_elem_of_singleton in Htr as ->. auto.
    + eapply counts_of_ext; [|exact Hc']. intros q Hq.
      unfold inserting_counts. rewrite prefix_count_snoc. done.
  - apply paths_of_start in Hp. exact Hp.
  - eapply counts_of_ext; [|exact Hc]. intros q Hq. unfold inserting_counts.
    rewrite decide_False; [lia|]. intros Hpre.
    apply prefix_nil_inv in Hpre. done.
Qed.

Lemma add_all_trie (ts : list (list Item)) :
  forall db t s t' s',
    trie s t db ->
    add_all t ts s = Ok t' s' ->
    trie s' t' (db ++ ts) /\ tree_id t' = tree_id t /\
    only_tree (tree_id t) s s'.
Proof.
  induction ts as [|tr ts IH]; intros db t s t' s' Htrie Hrun.
  - apply ret_Ok in Hrun as [-> ->]. rewrite app_nil_r.
    split; [done|]. split; [done|]. apply only_tree_refl.
  - cbn [add_all] in Hrun.
    apply bind_Ok in Hrun as (t1 & s1 & Hadd & Hrun).
    apply (add_trie db tr) in Hadd as (Htrie1 & Hid1 & Hk1); [|done].
    apply (IH (db ++ [tr])) in Hrun as (Htrie' & Hid' & Hk'); [|done].
    rewrite <- app_assoc in Htrie'. split; [done|].
    split; [congruence|]. eapply only_tree_trans; [done|].
    rewrite <- Hid1. done.
Qed.

Lemma trie_new s :
  store_ok s ->
  trie (mkStore (heap s ++ [root_node (next_tree s)]) (S (next_tree s)))
       (mkFPTree (next_tree s) (length (heap s)) []) [].
Proof.
  intros Hok. split; [apply shape_new; done|].
  assert (Hw : forall q (n : nat), q <> [] ->
            walk (heap s ++ [root_node (next_tree s)]) (length (heap s)) q =
              Some n -> False).
  { intros [|i q] n Hne Hw; [done|]. cbn in Hw.
    rewrite list_lookup_middle in Hw by done. done. }
  split; [split|].
  - intros q n Hne Hwq. destruct (Hw q n Hne Hwq).
  - intros q (tr & Htr & _). inversion Htr.
  - intros q n Hne Hwq. destruct (Hw q n Hne Hwq).
Qed.

(** A fresh tree filled with [ts] is the prefix tree of [ts], and nothing
    older has been touched. *)
Lemma build_from_trie (ts : list (list Item)) s t s' :
  store_ok s ->
  build_from ts s = Ok t s' ->
  trie s' t ts /\ tree_id t = next_tree s /\
  kept (next_tree s) s s' /\ store_ok s' /\
  next_tree s' = S (next_tree s).
Proof.
  intros Hok Hrun. unfold build_from in Hrun.
  apply bind_Ok in Hrun as (t0 & s0 & Hnew & Hrun).
  apply new_tree_Ok in Hnew as [-> ->].
  apply (add_all_trie ts []) in Hrun as (Htrie & Hid & Hk);
    [|apply trie_new; done].
  cbn [tree_id] in Hid, Hk. split; [done|]. split; [done|].
  split; [|split].
  - eapply kept_trans; [apply kept_new|]. eapply only_tree_kept; [done|].
    done.
  - eapply only_tree_store_ok; [done| |cbn; lia].
    intros n nd Hnd. cbn in *.
    apply lookup_snoc_Some in Hnd as [[_ Hnd]|[_ <-]]; [|cbn; lia].
    specialize (Hok n nd Hnd). lia.
  - destruct Hk as (_ & _ & ->). done.
Qed.

Lemma Forall2_exists {A B} (P : A -> B -> Prop) (l : list A) :
  (forall a, a ∈ l -> exists b, P a b) -> exists l', Forall2 P l l'.
Proof.
  induction l as [|a l IH]; intros Hex; [exists []; constructor|].
  destruct (Hex a) as [b Hb]; [left|].
  destruct IH as [l' Hl']; [intros a' Ha'; apply Hex; right; done|].
  exists (b :: l'). constructor; done.
Qed.

(** The ways to the nodes that carry [x], one for each node. *)
Lemma nodes_paths s t (x : Item) :
  shape s t ->
  (forall q (n : nat), walk (heap s) (_root t) q = Some n -> NoDup q) ->
  exists paths,
    Forall2 (fun (n : nat) q => walk (heap s) (_root t) q = Some n)
      (nodes_of s (tree_id t) x) paths /\
    NoDup paths /\
    Forall (fun q => exists init, q = init ++ [x] /\ x ∉ init) paths /\
    (forall q, is_Some (walk (heap s) (_root t) (q ++ [x])) ->
               q ++ [x] ∈ paths).
Proof.
  intros Hsh Hnd.
  destruct (Forall2_exists
              (fun (n : nat) q => walk (heap s) (_root t) q = Some n)
              (nodes_of s (tree_id t) x)) as [paths Hpaths].
  { intros n Hn. apply (nodes_of_walk s t x n Hsh) in Hn as (q & Hq). eauto. }
  exists paths. split; [done|].
  assert (Hin : forall q, q ∈ paths ->
            exists n : nat, n ∈ nodes_of s (tree_id t) x /\
                            walk (heap s) (_root t) q = Some n).
  { intros q Hq. apply list_elem_of_lookup in Hq as [j Hj].
    destruct (Forall2_lookup_r _ _ _ _ _ Hpaths Hj) as (n & Hn & Hw).
    exists n. split; [|done]. eapply list_elem_of_lookup_2. done. }
  split; [|split].
  - apply NoDup_alt. intros j1 j2 q Hj1 Hj2.
    destruct (Forall2_lookup_r _ _ _ _ _ Hpaths Hj1) as (n1 & Hn1 & Hw1).
    destruct (Forall2_lookup_r _ _ _ _ _ Hpaths Hj2) as (n2 & Hn2 & Hw2).
    assert (n1 = n2) as -> by congruence.
    eapply NoDup_lookup; [apply (nodes_of_NoDup s (tree_id t) x)|done|done].
  - apply Forall_forall. intros q Hq. destruct (Hin q Hq) as (n & Hn & Hw).
    apply (nodes_of_walk s t x n Hsh) in Hn as (q0 & Hq0).
    assert (q = q0 ++ [x]) as -> by (eapply walk_inj; done).
    exists q0. split; [done|]. specialize (Hnd _ _ Hw).
    apply NoDup_app in Hnd as (_ & Hdisj & _). intros Hx.
    apply (Hdisj x Hx). left.
  - intros q [n Hn].
    assert (Hnn : n ∈ nodes_of s (tree_id t) x)
      by (apply (nodes_of_walk s t x n Hsh); eauto).
    apply list_elem_of_lookup in Hnn as [j Hj].
    destruct (Forall2_lookup_l _ _ _ _ _ Hpaths Hj) as (q' & Hq' & Hw).
    assert (q' = q ++ [x]) as -> by (eapply walk_inj; done).
    eapply list_elem_of_lookup_2. done.
Qed.

Lemma sum_counts_walks s t (cnt : list Item -> Z) (ns : list nat)
  (paths : list (list Item)) :
  counts_of s t cnt ->
  Forall2 (fun (n : nat) q => walk (heap s) (_root t) q = Some n) ns paths ->
  Forall (fun q => q <> []) paths ->
  sum_counts ns s = Ok (sum_Z (map cnt paths)) s.
Proof.
  intros Hcnt Hwalks. induction Hwalks as [|n q ns paths Hw Hwalks IH];
    intros Hne; [done|].
  apply Forall_cons in Hne as [Hq Hne].
  destruct (Hcnt q n Hq Hw) as (nd & Hnd & Hc).
  cbn [sum_counts map]. unfold bind at 1.
  unfold FPNode.count, bind, get_node, ret. rewrite Hnd, Hc.
  rewrite (IH Hne). done.
Qed.

Lemma filter_all {A} (P : A -> Prop) `{forall a, Decision (P a)} (l : list A) :
  (forall a, P a) -> filter P l = l.
Proof.
  intros HP. induction l as [|a l IH]; [done|].
  rewrite filter_cons, decide_True by done. rewrite IH. done.
Qed.

Lemma trie_walk_NoDup s t db q (n : nat) :
  trie s t db -> Forall NoDup db ->
  walk (heap s) (_root t) q = Some n -> NoDup q.
Proof.
  intros (Hsh & [Hs _] & _) Hdb Hw.
  destruct q as [|i q]; [constructor|].
  assert (Hne : i :: q <> []) by done.
  destruct (Hs _ n Hne Hw) as (tr & Htr & [k ->]).
  rewrite Forall_forall in Hdb. specialize (Hdb _ Htr).
  apply NoDup_app in Hdb as [Hdb _]. done.
Qed.

(** In the prefix tree of [db] the counts of the nodes that carry [x] add
    up to the support of [x]. *)
Lemma trie_item_support s t db (x : Item) :
  trie s t db -> Forall NoDup db ->
  sum_counts (nodes_of s (tree_id t) x) s = Ok (support db [x]) s.
Proof.
  intros Htrie Hdb. pose proof Htrie as (Hsh & [Hs Hc] & Hcnt).
  destruct (nodes_paths s t x Hsh) as (paths & Hwalks & Hnd & Hends & Hcover).
  { intros q n Hw. eapply trie_walk_NoDup; done. }
  rewrite (sum_counts_walks s t _ _ paths Hcnt Hwalks).
  2:{ eapply Forall_impl; [exact Hends|]. intros q (init & -> & _) Heq.
      destruct init; discriminate Heq. }
  f_equal. rewrite support_single.
  rewrite <- (partition_count x paths [] db Hnd Hends).
  - rewrite filter_all by (intros; apply prefix_nil). done.
  - intros tr Htr Hx. destruct (upto_split x tr Hx) as (init & Heq & Hni).
    rewrite Heq. apply Hcover. apply Hc. exists tr. split; [done|].
    rewrite <- Heq. apply upto_prefix.
Qed.

(** After a fresh tree has been filled with transactions none of which
    repeats an item, the counts of the nodes [nodes] gives for an item add
    up to the number of transactions that hold the item. *)
Theorem master_counts_add_up (ts : list (list Item)) (item : Item) s :
  store_ok s -> Forall NoDup ts ->
  exists t s' ns,
    build_from ts s = Ok t s' /\
    FPTree.nodes t item s' = Ok ns s' /\
    sum_counts ns s' = Ok (support ts [item]) s'.
Proof.
  intros Hok Hts. destruct (build_from_returns ts s Hok) as (t & s' & Hrun).
  destruct (build_from_trie ts s t s' Hok Hrun) as (Htrie & _).
  exists t, s', (nodes_of s' (tree_id t) item). split; [done|].
  split; [apply nodes_route_inv, Htrie|]. apply trie_item_support; done.
Qed.
End MasterTrie.

(** ** The path [collect_path] returns *)

Section PathTo.
Context {Label : Type} `{EqDecision Label}.
Local Abbreviation Item := (Item Label).
Local Abbreviation M := (M Label).
Implicit Types (s : Store Label) (nd : FPNode Label) (t : FPTree Label).
Implicit Types (h : list (FPNode Label)) (q : list Item) (i k : Item).

Lemma walk_nodes_snoc h (a : nat) q i (p : nat) (pd : FPNode Label) (n : nat) :
  walk h a q = Some p -> h !! p = Some pd ->
  dict_get i (_children pd) = Some n ->
  walk_nodes h a (q ++ [i]) = walk_nodes h a q ++ [n].
Proof.
  revert a. induction q as [|j q IH]; intros a Hw Hpd Hget.
  - injection Hw as ->. cbn. rewrite Hpd, Hget. done.
  - cbn in *. destruct (h !! a) as [ad|]; [|done].
    destruct (dict_get j (_children ad)) as [c|]; [|done].
    cbn. f_equal. auto.
Qed.

Lemma walk_nodes_length h (a : nat) q (n : nat) :
  walk h a q = Some n -> length (walk_nodes h a q) = length q.
Proof.
  revert a. induction q as [|j q IH]; intros a Hw; [done|]. cbn in *.
  destruct (h !! a) as [ad|]; [|done].
  destruct (dict_get j (_children ad)) as [c|]; [|done].
  cbn. f_equal. auto.
Qed.

Lemma walk_nodes_lookup h (a : nat) q (n : nat) :
  walk h a q = Some n ->
  forall (j m : nat),
    walk_nodes h a q !! j = Some m -> walk h a (take (S j) q) = Some m.
Proof.
  revert a. induction q as [|i q IH]; intros a Hw j m Hj; [done|].
  cbn in *. destruct (h !! a) as [ad|]; [|done].
  destruct (dict_get i (_children ad)) as [c|]; [|done].
  destruct j as [|j].
  - injection Hj as <-. rewrite take_0. done.
  - cbn in Hj. apply (IH c Hw j m Hj).
Qed.

(** Going up from a node gives, in reverse, the nodes on the way down to
    it; the store is deep enough for the fuel of [collect_path]. *)
Lemma path_up_walk s t :
  shape s t ->
  forall q (n : nat),
    walk (heap s) (_root t) q = Some n ->
    forall fuel : nat, (length q <= fuel)%nat ->
      path_up (heap s) fuel (Some n) =
        rev (walk_nodes (heap s) (_root t) q).
Proof.
  intros Hsh. induction q as [|i q IH] using rev_ind; intros n Hw fuel Hf.
  - injection Hw as <-. destruct (sh_root _ _ Hsh) as (rd & Hrd & _ & Hrr).
    destruct fuel; cbn; rewrite Hrd, Hrr; done.
  - pose proof Hw as Hw0.
    apply walk_snoc in Hw as (p & pd & Hp & Hpd & Hget).
    destruct (walk_in_tree s t q p Hsh Hp) as (pd' & Hpd' & Hpt & _).
    assert (pd' = pd) as -> by congruence.
    destruct (sh_child _ _ Hsh p pd i n Hpd Hpt Hget)
      as (cd & Hcd & Hct & Hci & Hcp & Hcc & Hlt).
    rewrite (walk_nodes_snoc _ _ _ _ _ _ _ Hp Hpd Hget), rev_unit.
    rewrite length_app in Hf. cbn in Hf.
    destruct fuel as [|fuel]; [lia|]. cbn [path_up]. rewrite Hcd.
    destruct Hcc as [c Hc].
    assert (Hr : FPNode.is_root cd = false).
    { unfold FPNode.is_root. rewrite Hc. destruct (_item cd); done. }
    rewrite Hr, Hcp. f_equal. apply IH; [done|lia].
Qed.

Lemma path_to_walk s t q (n : nat) :
  shape s t -> walk (heap s) (_root t) q = Some n ->
  path_to s n = walk_nodes (heap s) (_root t) q.
Proof.
  intros Hsh Hw. unfold path_to.
  rewrite (path_up_walk s t Hsh q n Hw), rev_involutive; [done|].
  pose proof (walk_ge s t q n Hsh Hw) as Hge.
  destruct (walk_in_tree s t q n Hsh Hw) as (nd & Hnd & _).
  apply lookup_lt_Some in Hnd. lia.
Qed.

(** The nodes on the way to a node, one for each prefix of the way. *)
Lemma walk_nodes_Forall2 s t q (n : nat) (P : nat -> Item -> Prop) :
  walk (heap s) (_root t) q = Some n ->
  (forall (j m : nat) i,
     q !! j = Some i ->
     walk (heap s) (_root t) (take j q ++ [i]) = Some m -> P m i) ->
  Forall2 P (walk_nodes (heap s) (_root t) q) q.
Proof.
  intros Hw HP. apply Forall2_same_length_lookup_2.
  - eapply walk_nodes_length. done.
  - intros j m i Hm Hi. apply (HP j m i Hi).
    rewrite <- (take_S_r _ _ _ Hi). eapply walk_nodes_lookup; done.
Qed.

Lemma walk_nodes_last s t q i (n : nat) :
  shape s t -> walk (heap s) (_root t) (q ++ [i]) = Some n ->
  walk_nodes (heap s) (_root t) (q ++ [i]) =
    walk_nodes (heap s) (_root t) q ++ [n].
Proof.
  intros Hsh Hw. apply walk_snoc in Hw as (p & pd & Hp & Hpd & Hget).
  eapply walk_nodes_snoc; done.
Qed.

(** A node lies on the way to another, that one apart, when its own way
    starts the other's. *)
Lemma elem_of_walk_nodes s t q qn (m n : nat) :
  shape s t ->
  walk (heap s) (_root t) q = Some m ->
  walk (heap s) (_root t) qn = Some n -> qn <> [] ->
  n ∈ walk_nodes (heap s) (_root t) q <-> qn `prefix_of` q.
Proof.
  intros Hsh Hq Hqn Hne. split.
  - intros Hin. apply list_elem_of_lookup in Hin as [j Hj].
    pose proof (walk_nodes_lookup _ _ _ _ Hq j n Hj) as Hw.
    assert (qn = take (S j) q) as -> by (eapply walk_inj; done).
    apply prefix_take.
  - intros [k ->].
    destruct qn as [|i qn _] using rev_ind; [done|].
    rewrite <- app_assoc in Hq. cbn in Hq.
    pose proof Hqn as Hqn'.
    apply walk_snoc in Hqn' as (p & pd & Hp & Hpd & Hget).
    assert (Hlen : (length qn < length (walk_nodes (heap s) (_root t)
                                         ((qn ++ [i]) ++ k)))%nat).
    { rewrite <- app_assoc. cbn.
      rewrite (walk_nodes_length _ _ _ _ Hq), length_app. cbn. lia. }
    destruct (lookup_lt_is_Some_2 _ _ Hlen) as [n' Hn'].
    pose proof Hn' as Hn''.
    rewrite <- app_assoc in Hn''. cbn in Hn''.
    apply (walk_nodes_lookup _ _ _ _ Hq) in Hn''.
    replace (take (S (length qn)) (qn ++ i :: k)) with (qn ++ [i]) in Hn''.
    2:{ rewrite take_app_ge by lia.
        replace (S (length qn) - length qn)%nat with 1%nat by lia. done. }
    assert (n' = n) as -> by congruence.
    eapply list_elem_of_lookup_2. done.
Qed.
End PathTo.

(** ** Importing prefix paths builds a prefix tree *)

Section ImportTrie.
Context {Label : Type} `{EqDecision Label}.
Local Abbreviation Item := (Item Label).
Local Abbreviation M := (M Label).
Implicit Types (s : Store Label) (nd : FPNode Label) (t : FPTree Label).
Implicit Types (q done its : list Item) (i k x : Item).

Lemma readable_only_tree s s' (tid : nat) x (cx : Z) (path : list nat) its :
  only_tree tid s s' -> readable s tid x cx path its ->
  readable s' tid x cx path its.
Proof.
  intros (Hk & _) Hr. eapply Forall2_impl; [exact Hr|].
  intros m i (md & Hmd & Hmt & Hmi & Hmc). exists md.
  split; [apply Hk; done|done].
Qed.

Lemma import_path_trie x (cntx : list Item -> Z) (paths : list (list Item))
  (cx : Z) (path : list nat) :
  forall its done t (point : nat) s t' s',
    shape s t ->
    walk (heap s) (_root t) done = Some point ->
    paths_of s t (inserting_paths paths done) ->
    counts_of s t (leaf_counts x cntx) ->
    readable s (tree_id t) x cx path its ->
    x ∉ removelast its ->
    (last its = Some x -> cx = cntx (done ++ its)) ->
    import_path t x point path s = Ok t' s' ->
    shape s' t' /\ tree_id t' = tree_id t /\ _root t' = _root t /\
    paths_of s' t' (inserting_paths paths (done ++ its)) /\
    counts_of s' t' (leaf_counts x cntx) /\
    only_tree (tree_id t) s s'.
Proof.
  induction path as [|node rest IH];
    intros its done t point s t' s' Hsh Hpoint Hpaths Hcounts Hread Hx Hcx
      Hrun.
  - apply Forall2_nil_inv_l in Hread as ->.
    apply ret_Ok in Hrun as [-> ->]. rewrite app_nil_r.
    repeat (split; [done|]). apply only_tree_refl.
  - apply Forall2_cons_inv_l in Hread
      as (i & its' & (nnd & Hnnd & Hnt & Hni & Hnc) & Hread & ->).
    cbn [import_path] in Hrun.
    apply bind_Ok in Hrun as (node_item & s1 & Hi & Hrun).
    apply item_Ok in Hi as (-> & nnd' & Hnnd' & <-).
    assert (nnd' = nnd) as -> by congruence. rewrite Hni in Hrun.
    apply bind_Ok in Hrun as (next_point & s1 & Hs & Hrun).
    apply search_Ok in Hs as (-> & pd & Hpd & Hget).
    destruct (walk_in_tree s t done point Hsh Hpoint)
      as (pd' & Hpd' & Hpt & _).
    assert (pd' = pd) as -> by congruence.
    replace (done ++ i :: its') with ((done ++ [i]) ++ its')
      by (rewrite <- app_assoc; done).
    assert (Hne : done ++ [i] <> [])
      by (intros Heq; destruct done; discriminate Heq).
    assert (Hx' : x ∉ removelast its').
    { destruct its' as [|i2 its']; [apply not_elem_of_nil|].
      intros Hin. apply Hx. cbn [removelast]. right. done. }
    assert (Hcx' : last its' = Some x -> cx = cntx ((done ++ [i]) ++ its')).
    { intros Hl. rewrite <- app_assoc. apply Hcx.
      destruct its'; [discriminate Hl|done]. }
    destruct next_point as [np|].
    + assert (Hnp : walk (heap s) (_root t) (done ++ [i]) = Some np).
      { apply walk_snoc. eauto. }
      eapply IH; try done.
      eapply paths_of_ext; [|exact Hpaths].
      intros q. unfold inserting_paths. rewrite prefix_snoc_iff. split.
      * tauto.
      * intros [[Hq| ->]|Hq]; [tauto| |tauto].
        apply (proj1 Hpaths _ np Hne Hnp).
    + apply bind_Ok in Hrun as (c & s1 & Hc & Hrun).
      assert (Hc' : s1 = s /\
                c = Some (if decide (i = x) then cx else 0%Z)).
      { destruct (decide (i = x)) as [Hix|Hix].
        - apply count_Ok in Hc as (-> & nnd2 & Hnnd2 & <-).
          assert (nnd2 = nnd) as -> by congruence. auto.
        - apply ret_Ok in Hc as [-> ->]. done. }
      destruct Hc' as [-> ->]. clear Hc.
      apply bind_Ok in Hrun as (np & s1 & Hnew & Hrun).
      apply bind_Ok in Hrun as ([] & s2 & Hadd & Hrun).
      apply bind_Ok in Hrun as (t1 & s3 & Hupd & Hrun).
      destruct (attach_Ok _ _ _ _ _ _ _ _ _ _ _ _ Hpd Hget
                  (fun route => route_tail_lt s t i route
                                  (sh_routes _ _ Hsh))
                  Hnew Hadd Hupd)
        as (-> & _ & Hnt3 & -> & Hlen & Hnp & Hold & Htail).
      assert (Hsh3 : shape s3 (mkFPTree (tree_id t) (_root t)
                                 (routed (_routes t) (length (heap s)) i)))
        by (eapply shape_attach; eassumption).
      assert (Hw3 : walk (heap s3) (_root t) (done ++ [i]) =
                    Some (length (heap s)))
        by (eapply walk_attach_new; eassumption).
      assert (Hot : only_tree (tree_id t) s s3)
        by (eapply only_tree_attach; eassumption).
      apply (IH its' (done ++ [i])) in Hrun
        as (Hsh' & Hid & Hroot & Hp' & Hc' & Hkept); try done.
      * repeat (split; [done|]). eapply only_tree_trans; done.
      * eapply paths_of_ext; cycle 1.
        { eapply paths_of_attach; eassumption. }
        intros q. unfold inserting_paths. rewrite prefix_snoc_iff. tauto.
      * eapply counts_of_ext; cycle 1.
        { eapply counts_of_attach; eassumption. }
        intros q Hq. cbn beta. unfold leaf_counts.
        destruct (decide (q = done ++ [i])) as [->|Hqne]; [|done].
        rewrite last_snoc.
        destruct (decide (i = x)) as [->|Hix].
        -- rewrite decide_True by done.
           destruct its' as [|i2 its']; [apply Hcx; done|].
           exfalso. apply Hx. cbn [removelast]. left.
        -- rewrite decide_False by congruence. done.
      * eapply readable_only_tree; done.
Qed.

Lemma Forall2_last {A B} (P : A -> B -> Prop) (l : list A) (l' : list B)
  (y : B) :
  Forall2 P l l' -> last l' = Some y -> exists a, last l = Some a /\ P a y.
Proof.
  induction 1 as [|a b l l' Hab Hall IH]; intros Hl; [done|].
  destruct Hall as [|a2 b2 l l' Hab2 Hall].
  - injection Hl as <-. eauto.
  - cbn [last] in *. apply IH. done.
Qed.

(** [ci] is what [condition_item] holds when the loop starts: nothing or,
    after a first path, [x]. *)
Lemma import_paths_trie x (cntx : list Item -> Z) (nodes : list (list nat)) :
  forall (ci : Item) (new done : list (list Item)) t s r s',
    ci = None \/ ci = x ->
    shape s t ->
    paths_of s t (inserting_paths done []) ->
    counts_of s t (leaf_counts x cntx) ->
    Forall2 (fun path its =>
               readable s (tree_id t) x (cntx its) path its /\
               (x ∉ removelast its) /\ last its = Some x) nodes new ->
    import_paths t ci nodes s = Ok r s' ->
    shape s' (fst r) /\ tree_id (fst r) = tree_id t /\
    _root (fst r) = _root t /\
    snd r = match nodes with [] => ci | _ => x end /\
    paths_of s' (fst r) (inserting_paths (done ++ new) []) /\
    counts_of s' (fst r) (leaf_counts x cntx) /\
    only_tree (tree_id t) s s'.
Proof.
  induction nodes as [|path rest IH];
    intros ci new done t s r s' Hci0 Hsh Hpaths Hcounts Hall Hrun.
  - apply Forall2_nil_inv_l in Hall as ->.
    apply ret_Ok in Hrun as [-> ->]. rewrite app_nil_r.
    repeat (split; [done|]). apply only_tree_refl.
  - apply Forall2_cons_inv_l in Hall
      as (its & new' & (Hread & Hxl & Hlast) & Hall & ->).
    cbn [import_paths] in Hrun.
    apply bind_Ok in Hrun as (ci' & s1 & Hci & Hrun).
    assert (ci' = x /\ s1 = s) as [-> ->].
    { destruct ci as [lbl|].
      - apply ret_Ok in Hci as [-> ->]. destruct Hci0; done.
      - destruct (Forall2_last _ _ _ _ Hread Hlast)
          as (n & Hn & nd & Hnd & _ & Hni & _).
        rewrite Hn in Hci. apply item_Ok in Hci as (-> & nd' & Hnd' & <-).
        split; [congruence|done]. }
    apply bind_Ok in Hrun as (t1 & s1 & Hpath & Hrun).
    apply (import_path_trie x cntx done (cntx its) path its [] t (_root t))
      in Hpath as (Hsh1 & Hid1 & Hroot1 & Hp1 & Hc1 & Hk1); try done.
    apply (IH x new' (done ++ [its])) in Hrun
      as (Hsh' & Hid' & Hroot' & Hci' & Hp' & Hc' & Hk').
    + rewrite <- app_assoc in Hp'. cbn in Hp'.
      split; [done|]. split; [congruence|]. split; [congruence|].
      split; [destruct rest; done|]. split; [done|]. split; [done|].
      eapply only_tree_trans; [done|]. rewrite <- Hid1. done.
    + auto.
    + done.
    + cbn [app] in Hp1. eapply paths_of_ext; [|exact Hp1].
      intros q. unfold inserting_paths. split.
      * intros [Hq|(tr & Htr & Hq)]; [right; exists its|right; exists tr];
          (split; [|done]); apply elem_of_app; [right; left|left; done].
      * intros [Hq|(tr & Htr & Hq)].
        -- apply prefix_nil_inv in Hq as ->. left. apply prefix_nil.
        -- apply elem_of_app in Htr as [Htr|Htr]; [right; eauto|].
           apply list_elem_of_singleton in Htr as ->. auto.
    + done.
    + rewrite Hid1. eapply Forall2_impl; [exact Hall|].
      intros p its0 (Hr0 & Hx0 & Hl0). split; [|done].
      eapply readable_only_tree; done.
Qed.
End ImportTrie.

(** ** Spreading the counts touches the new tree only *)

Section SpreadFrame.
Context {Label : Type} `{EqDecision Label}.
Local Abbreviation Item := (Item Label).
Local Abbreviation M := (M Label).
Implicit Types (s : Store Label) (nd : FPNode Label) (t : FPTree Label).
Implicit Types (q done its : list Item) (i k x : Item).

Lemma for_each_add_count_next (A : list nat) (c : option Z) :
  forall s s',
    for_each A (fun a => FPNode.add_count a c) s = Ok tt s' ->
    next_tree s' = next_tree s.
Proof.
  induction A as [|a A IH]; intros s s' Hrun.
  - apply ret_Ok in Hrun as [_ ->]. done.
  - cbn [for_each] in Hrun.
    apply bind_Ok in Hrun as ([] & s1 & Hadd & Hrun).
    apply add_count_Ok in Hadd as (ad & c0 & d & Had & Hc0 & -> & ->).
    apply IH in Hrun. rewrite Hrun. done.
Qed.

Lemma spread_counts_frame s1 t x :
  importing s1 t x ->
  forall (rest done : list nat) sj (fuel : nat) s',
    nodes_of s1 (tree_id t) x = done ++ rest ->
    spread_inv s1 (tree_id t) x done sj ->
    only_tree (tree_id t) s1 sj ->
    spread_counts fuel (head rest) sj = Ok tt s' ->
    spread_inv s1 (tree_id t) x (done ++ rest) s' /\
    only_tree (tree_id t) s1 s'.
Proof.
  intros Himp. induction rest as [|m rest IH];
    intros done sj fuel s' Hl Hinv Hot Hrun.
  - rewrite app_nil_r. destruct fuel; apply ret_Ok in Hrun as [_ ->]; done.
  - destruct fuel as [|fuel]; [discriminate|].
    cbn [head spread_counts] in Hrun.
    assert (Hm : m ∈ nodes_of s1 (tree_id t) x).
    { rewrite Hl. apply elem_of_app. right. left. }
    apply elem_of_nodes_of in Hm. unfold carries_at in Hm.
    destruct (heap s1 !! m) as [md|] eqn:Hmd; [|done].
    destruct Hm as (Hmt & Hmi & Hmr).
    destruct (imp_shape _ _ _ Himp m md Hmd Hmt Hmr)
      as (p & pd & Hmp & Hlt & Hpd & Hpt & Hpi).
    destruct (ancestors_spec s1 t x Himp (length (heap s1)) p pd Hpd Hpt Hpi)
      as [Hall HndA].
    set (A := path_up (heap s1) (length (heap s1)) (Some p)) in *.
    assert (Hpath : path_to s1 m = rev A ++ [m]).
    { unfold path_to. cbn [path_up]. rewrite Hmd, Hmr, Hmp. done. }
    destruct Hinv as (Hss & Hx & Hnx).
    apply bind_Ok in Hrun as (path & s2 & Hcp & Hrun).
    apply collect_path_Ok in Hcp as [-> ->].
    rewrite (same_shape_path_to s1 sj m Hss), Hpath in Hrun.
    apply bind_Ok in Hrun as ([] & sj2 & Hsp & Hrun).
    unfold spread_count in Hsp. rewrite last_snoc in Hsp.
    apply bind_Ok in Hsp as (c & s2 & Hc & Hsp).
    apply count_Ok in Hc as (-> & md' & Hmd' & <-).
    rewrite (Hx m md Hmd Hmi) in Hmd'. injection Hmd' as <-.
    rewrite removelast_last, rev_involutive in Hsp.
    pose proof (for_each_add_count_next _ _ _ _ Hsp) as Hnext.
    apply for_each_add_count in Hsp as [Hss2 Hfe]; [|done].
    apply bind_Ok in Hrun as (next & s2 & Hnb & Hrun).
    apply neighbor_Ok in Hnb as (-> & md2 & Hmd2 & <-).
    pose proof (same_shape_trans _ _ _ Hss Hss2) as Hss12.
    destruct (proj2 Hss12 m md Hmd) as (c2 & Hmd2' & _).
    rewrite Hmd2' in Hmd2. injection Hmd2 as <-.
    cbn [_neighbor FPNode.with_count] in Hrun.
    destruct (proj1 (imp_routes _ _ _ Himp x) (length done) m)
      as (md0 & Hmd0 & Hnb).
    { rewrite Hl. apply list_lookup_middle. done. }
    assert (md0 = md) as -> by congruence.
    rewrite Hl in Hnb.
    rewrite lookup_app_r in Hnb by lia.
    replace (S (length done) - length done)%nat with 1%nat in Hnb by lia.
    change ((m :: rest) !! 1%nat) with (rest !! 0%nat) in Hnb.
    rewrite <- head_lookup in Hnb. rewrite Hnb in Hrun.
    replace (done ++ m :: rest) with ((done ++ [m]) ++ rest)
      by (rewrite <- app_assoc; done).
    assert (HinA : forall n, n ∈ A ->
              exists ad, heap s1 !! n = Some ad /\ _tree ad = tree_id t /\
                         _item ad <> x).
    { intros n Hn. rewrite Forall_forall in Hall.
      destruct (Hall n Hn) as (_ & ad & Had & Hat & _ & Hai). eauto. }
    eapply IH; [rewrite <- app_assoc; exact Hl| | |exact Hrun].
    + split; [done|]. split.
      * intros n nd Hnd Hi.
        destruct (Hfe n nd (Hx n nd Hnd Hi)) as [Hout _]. apply Hout.
        intros Hn. destruct (HinA n Hn) as (ad & Had & _ & Hai). congruence.
      * intros n nd Hnd Ht Hr Hi.
        destruct (Hnx n nd Hnd Ht Hr Hi) as (nd' & Hnd' & Hc').
        destruct (Hfe n nd' Hnd') as [Hout Hin].
        rewrite contrib_snoc, Hpath, removelast_last.
        destruct (decide (n ∈ rev A)) as [Hn|Hn].
        -- rewrite list_elem_of_In, <- in_rev, <- list_elem_of_In in Hn.
           destruct (Hin Hn) as (c0 & d & Hc0 & Hd & Hlook).
           eexists. split; [exact Hlook|]. cbn [_count FPNode.with_count].
           unfold count_at. rewrite Hmd, Hd. cbn. congruence.
        -- rewrite list_elem_of_In, <- in_rev, <- list_elem_of_In in Hn.
           exists nd'. split; [auto|]. rewrite Z.add_0_r. done.
    + eapply only_tree_trans; [exact Hot|].
      assert (HA : forall n nd, heap sj !! n = Some nd -> n ∈ A ->
                                _tree nd = tree_id t).
      { intros n nd Hnd Hn. destruct (HinA n Hn) as (ad & Had & Hat & _).
        destruct (proj2 Hss n ad Had) as (c0 & Hnd0 & _).
        rewrite Hnd0 in Hnd. injection Hnd as <-. done. }
      split; [|split; [|done]].
      * intros n nd Hnd Ht. destruct (Hfe n nd Hnd) as [Hout _].
        apply Hout. intros Hn. apply Ht. eapply HA; done.
      * intros n nd' Hnd'.
        destruct (same_shape_inv sj sj2 n nd' Hss2 Hnd')
          as (nd & c0 & Hnd & -> & _).
        destruct (decide (n ∈ A)) as [Hn|Hn].
        -- left. cbn. eapply HA; done.
        -- right. destruct (Hfe n nd Hnd) as [Hout _].
           rewrite (Hout Hn) in Hnd'. congruence.
Qed.
End SpreadFrame.

(** ** The conditional tree is the prefix tree of the conditional
    transactions *)

Section ConditionalTrie.
Context {Label : Type} `{EqDecision Label}.
Local Abbreviation Item := (Item Label).
Local Abbreviation M := (M Label).
Implicit Types (s : Store Label) (nd : FPNode Label) (t : FPTree Label).
Implicit Types (db : list (list Item)) (q done its : list Item) (i k x : Item).

Lemma prefix_count_cond_db_leaf db x q :
  Forall NoDup db -> last q = Some x ->
  prefix_count (cond_db x db) q = prefix_count db q.
Proof.
  intros Hdb Hl. rewrite prefix_count_cond_db. unfold prefix_count. f_equal.
  apply length_filter_ext. intros tr Htr.
  rewrite Forall_forall in Hdb. specialize (Hdb tr Htr).
  destruct q as [|i q _] using rev_ind; [done|].
  rewrite last_snoc in Hl. injection Hl as ->. split.
  - intros [Hx Hp]. etransitivity; [exact Hp|apply upto_prefix].
  - intros Hp.
    assert (Hni : x ∉ q).
    { destruct Hp as [k ->]. apply NoDup_app in Hdb as [Hdb _].
      apply NoDup_app in Hdb as (_ & Hdisj & _). intros Hin.
      apply (Hdisj x Hin). left. }
    destruct (prefix_upto x q tr Hni Hp) as [Hx ->]. done.
Qed.

Lemma counts_of_ext_walk s t (cnt cnt' : list Item -> Z) :
  (forall q (n : nat), q <> [] -> walk (heap s) (_root t) q = Some n ->
                       cnt q = cnt' q) ->
  counts_of s t cnt -> counts_of s t cnt'.
Proof.
  intros Hext Hcnt q n Hne Hw. destruct (Hcnt q n Hne Hw) as (nd & Hnd & Hc).
  exists nd. rewrite <- (Hext q n) by done. done.
Qed.

(** The path of a node that carries [x], read from a later store. *)
Lemma readable_of_walk s t db x (init : list Item) (m : nat) s0 (tid : nat) :
  trie s t db ->
  walk (heap s) (_root t) (init ++ [x]) = Some m -> x ∉ init ->
  (forall n nd, heap s !! n = Some nd -> heap s0 !! n = Some nd) ->
  tree_id t <> tid ->
  readable s0 tid x (prefix_count db (init ++ [x])) (path_to s m)
    (init ++ [x]).
Proof.
  intros (Hsh & Hp & Hc) Hw Hni Hkeep Htid.
  rewrite (path_to_walk s t _ m Hsh Hw).
  apply (walk_nodes_Forall2 s t _ m); [done|].
  intros j mj i Hj Hwj.
  assert (Hne : take j (init ++ [x]) ++ [i] <> []).
  { intros Heq. destruct (take j (init ++ [x])); discriminate Heq. }
  destruct (walk_in_tree s t _ mj Hsh Hwj) as (md & Hmd & Hmt & _ & Hlast).
  destruct (Hlast Hne) as (_ & _ & Hl). rewrite last_snoc in Hl.
  injection Hl as Hi.
  destruct (Hc _ mj Hne Hwj) as (md' & Hmd' & Hcount).
  assert (md' = md) as -> by congruence.
  exists md. split; [auto|]. split; [congruence|]. split; [done|].
  intros ->. rewrite Hcount. do 2 f_equal.
  destruct (decide (j < length init)%nat) as [Hlt|Hge].
  - exfalso. apply Hni. rewrite lookup_app_l in Hj by done.
    eapply list_elem_of_lookup_2. done.
  - apply lookup_lt_Some in Hj. rewrite length_app in Hj. cbn in Hj.
    assert (j = length init) as -> by lia.
    rewrite take_app_length. done.
Qed.

Lemma readable_path_ends_at s (tid : nat) x (cx : Z) (path : list nat)
  (init : list Item) :
  readable s tid x cx path (init ++ [x]) -> x ∉ init ->
  path_ends_at s x path.
Proof.
  intros Hr Hni. apply Forall2_app_inv_r in Hr
    as (front & lf & Hfront & Hlf & ->).
  apply Forall2_cons_inv_r in Hlf as (leaf & lf' & (ld & Hld & _ & Hli & _)
                                        & Hnil & ->).
  apply Forall2_nil_inv_r in Hnil as ->.
  exists front, leaf. split; [done|]. split.
  - apply item_at_Some. eauto.
  - apply Forall_forall. intros n Hn.
    apply list_elem_of_lookup in Hn as [j Hj].
    destruct (Forall2_lookup_l _ _ _ _ _ Hfront Hj)
      as (i & Hi & nd & Hnd & _ & Hni' & _).
    exists i. split; [apply item_at_Some; eauto|].
    intros ->. apply Hni. eapply list_elem_of_lookup_2. done.
Qed.

(** What the nodes that carry [x] have added to the node reached by [q],
    in terms of the ways to them. *)
Lemma contrib_walks s t x (cntx : list Item -> Z) q (n : nat) :
  shape s t -> counts_of s t (leaf_counts x cntx) ->
  walk (heap s) (_root t) q = Some n -> q <> [] -> last q <> Some x ->
  forall (ms : list nat) (paths : list (list Item)),
    Forall2 (fun (m : nat) q' => walk (heap s) (_root t) q' = Some m)
      ms paths ->
    Forall (fun q' => exists init, q' = init ++ [x] /\ x ∉ init) paths ->
    contrib s n ms =
      sum_Z (map cntx (filter (fun q' => q `prefix_of` q') paths)).
Proof.
  intros Hsh Hcnt Hq Hne Hlast ms paths Hwalks.
  unfold contrib.
  induction Hwalks as [|m q' ms paths Hw Hwalks IH]; intros Hends; [done|].
  apply Forall_cons in Hends as [(init & -> & Hni) Hends].
  specialize (IH Hends). rewrite !filter_cons.
  assert (Hiff : n ∈ removelast (path_to s m) <->
                 q `prefix_of` init ++ [x]).
  { rewrite (path_to_walk s t _ m Hsh Hw).
    rewrite (walk_nodes_last s t init x m Hsh Hw), removelast_last.
    destruct (walk_prefix _ _ _ init _ Hw) as [p Hp];
      [exists [x]; done|].
    rewrite (elem_of_walk_nodes s t init q p n Hsh Hp Hq Hne).
    rewrite prefix_snoc_iff. split; [auto|].
    intros [Hpre| ->]; [done|]. rewrite last_snoc in Hlast. done. }
  assert (Hne' : init ++ [x] <> [])
    by (intros Heq; destruct init; discriminate Heq).
  destruct (Hcnt _ m Hne' Hw) as (md & Hmd & Hc).
  unfold leaf_counts in Hc. rewrite last_snoc in Hc.
  rewrite decide_True in Hc by done.
  destruct (decide (n ∈ removelast (path_to s m))) as [Hin|Hin].
  - rewrite decide_True by (apply Hiff; done). cbn [map].
    rewrite !sum_Z_cons, IH. f_equal. unfold count_at. rewrite Hmd, Hc.
    done.
  - rewrite decide_False by (rewrite <- Hiff; done). done.
Qed.
Lemma store_ok_new s :
  store_ok s ->
  store_ok (mkStore (heap s ++ [root_node (next_tree s)]) (S (next_tree s))).
Proof.
  intros Hok n nd Hnd. cbn in *.
  apply lookup_snoc_Some in Hnd as [[_ Hnd]|[_ <-]]; [|cbn; lia].
  specialize (Hok n nd Hnd). lia.
Qed.

(** The conditional tree built from the prefix paths of [x] in the prefix
    tree of [db] is the prefix tree of the conditional transactions of
    [x], and building it touches nothing older. *)
Lemma conditional_tree_trie db x s t t' s' :
  trie s t db -> Forall NoDup db -> store_ok s ->
  (tree_id t < next_tree s)%nat ->
  conditional_tree_from_paths
    (map (path_to s) (nodes_of s (tree_id t) x)) s = Ok t' s' ->
  trie s' t' (cond_db x db) /\ tree_id t' = next_tree s /\
  kept (next_tree s) s s' /\ store_ok s' /\
  next_tree s' = S (next_tree s).
Proof.
  intros Htrie Hdb Hok Htid Hrun.
  pose proof Htrie as (Hsh & [Hps Hpc] & Hcnt).
  destruct (nodes_paths s t x Hsh) as (paths & Hwalks & Hnd & Hends & Hcover).
  { intros q n Hw. eapply trie_walk_NoDup; done. }
  unfold conditional_tree_from_paths in Hrun.
  apply bind_Ok in Hrun as (t0 & s0 & Hnew & Hrun).
  apply new_tree_Ok in Hnew as [-> ->].
  pose proof (trie_new s Hok) as (Hsh0 & Hp0 & _).
  pose proof (store_ok_new s Hok) as Hok0.
  pose proof (kept_new s) as Hkept0.
  set (s0 := mkStore (heap s ++ [root_node (next_tree s)]) (S (next_tree s)))
    in *.
  set (t0 := mkFPTree (next_tree s) (length (heap s)) []) in *.
  assert (Hkeep0 : forall n nd, heap s !! n = Some nd ->
                                heap s0 !! n = Some nd).
  { intros n nd Hn. cbn [heap s0]. apply lookup_app_l_Some. done. }
  apply bind_Ok in Hrun as ([t1 ci] & s1 & Himport & Hrun).
  (* the paths, as the first loop reads them *)
  rewrite Forall_forall in Hends.
  assert (Hread :
    Forall2 (fun path its =>
               readable s0 (tree_id t0) x (prefix_count db its) path its /\
               (x ∉ removelast its) /\ last its = Some x)
      (map (path_to s) (nodes_of s (tree_id t) x)) paths).
  { apply Forall2_fmap_l. apply Forall2_same_length_lookup_2.
    - eapply Forall2_length. done.
    - intros j m q Hm Hq.
      pose proof (Forall2_lookup_lr _ _ _ _ _ _ Hwalks Hm Hq) as Hw.
      destruct (Hends q (list_elem_of_lookup_2 _ _ _ Hq)) as (init & -> & Hni).
      cbn beta delta [compose]. rewrite removelast_last, last_snoc.
      split; [|done].
      eapply readable_of_walk; try done. cbn. lia. }
  pose proof Himport as Himport'.
  apply (import_paths_trie x (prefix_count db) _ None paths [] t0 s0) in Himport
    as (Hsh1 & Hid1 & Hroot1 & Hci & Hp1 & Hc1 & Hk1);
    [|auto|done|apply paths_of_start in Hp0; exact Hp0| |done].
  2:{ intros q n Hne Hw. destruct (proj1 Hp0 q n Hne Hw) as (tr & Htr & _).
      inversion Htr. }
  cbn [fst snd app] in Hsh1, Hid1, Hroot1, Hci, Hp1, Hc1.
  destruct ci as [lx|]; [|discriminate Hrun].
  destruct (nodes_of s (tree_id t) x) as [|m0 ms] eqn:HL; [discriminate Hci|].
  cbn [map] in Hci, Himport', Hread. subst x.
  assert (Hx : Some lx <> (None : Item)) by done.
  (* the invariant the second loop relies on *)
  assert (Hpe : Forall (path_ends_at s0 (Some lx))
                  (path_to s m0 :: map (path_to s) ms)).
  { apply Forall_forall. intros path Hpath.
    apply list_elem_of_lookup in Hpath as [j Hj].
    destruct (Forall2_lookup_l _ _ _ _ _ Hread Hj) as (its & Hits & Hr & _).
    destruct (Hends its (list_elem_of_lookup_2 _ _ _ Hits))
      as (init & -> & Hni).
    eapply readable_path_ends_at; done. }
  rewrite (import_paths_first t0 (Some lx) _ _ s0) in Himport';
    [|done|apply Forall_inv in Hpe; done].
  apply import_paths_importing in Himport' as (Himp1 & _ & _ & _);
    [|done|apply importing_new; done|].
  2:{ eapply Forall_impl; [exact Hpe|]. intros p Hp.
      apply path_ends_at_front. done. }
  cbn [fst] in Himp1.
  apply bind_Ok in Hrun as ([] & s2 & Hspread & Hrun).
  apply ret_Ok in Hrun as [<- <-].
  assert (Hinv : spread_inv s1 (tree_id t') (Some lx)
                   (nodes_of s1 (tree_id t') (Some lx)) s' /\
                 only_tree (tree_id t') s1 s').
  { destruct (imp_routes _ _ _ Himp1 (Some lx)) as [_ Hroute].
    match type of Hroute with
    | match ?d with _ => _ end => destruct d as [route|]
    end.
    - destruct Hroute as [Hh _].
      apply bind_Ok in Hspread as (s3 & s4 & Hg & Hspread).
      injection Hg as <- <-. rewrite <- Hh in Hspread.
      apply (spread_counts_frame s1 t' (Some lx) Himp1 _ [] s1 _ s' eq_refl
               (spread_inv_start s1 t' (Some lx) Himp1)
               (only_tree_refl _ _) Hspread).
    - apply ret_Ok in Hspread as [_ ->]. rewrite Hroute.
      split; [apply spread_inv_start; done|apply only_tree_refl]. }
  destruct Hinv as ((Hss & Hxn & Hnx) & Hot).
  (* the ways to the nodes of the new tree that carry [x] *)
  assert (Hnd1w : forall q (n : nat),
            walk (heap s1) (_root t') q = Some n -> NoDup q).
  { intros q n Hw. destruct q as [|i q]; [constructor|].
    assert (Hne : i :: q <> []) by done.
    destruct (proj1 Hp1 _ n Hne Hw) as [Hq|(q' & Hq' & Hpre)].
    { apply prefix_nil_inv in Hq. done. }
    apply list_elem_of_lookup in Hq' as [j Hj].
    destruct (Forall2_lookup_r _ _ _ _ _ Hwalks Hj) as (m & _ & Hm).
    pose proof (trie_walk_NoDup s t db q' m Htrie Hdb Hm) as Hndq.
    destruct Hpre as [k ->]. apply NoDup_app in Hndq as [Hndq _]. done. }
  destruct (nodes_paths s1 t' (Some lx) Hsh1 Hnd1w)
    as (paths1 & Hwalks1 & Hndp1 & Hends1 & Hcover1).
  assert (Hcov : forall tr, tr ∈ db -> Some lx ∈ tr ->
                            upto (Some lx) tr ∈ paths1).
  { intros tr Htr Hin.
    destruct (upto_split (Some lx) tr Hin) as (init & Heq & Hni).
    rewrite Heq. apply Hcover1. apply (proj2 Hp1). right.
    exists (init ++ [Some lx]). split; [|done]. apply Hcover.
    apply Hpc. exists tr. split; [done|]. rewrite <- Heq.
    apply upto_prefix. }
  split; [|split; [done|split; [|split]]].
  - split; [eapply shape_same_shape; done|]. split.
    + eapply paths_of_same_shape; [done|].
      apply paths_of_start. eapply paths_of_ext; [|exact Hp1].
      intros q. unfold inserting_paths. cbn [app].
      assert (Hset : (exists q', q' ∈ paths /\ q `prefix_of` q') <->
                     (exists tr, tr ∈ cond_db (Some lx) db /\
                                 q `prefix_of` tr)).
      { split.
        - intros (q' & Hq' & Hpre). exists q'. split; [|done].
          apply list_elem_of_lookup in Hq' as [j Hj].
          destruct (Forall2_lookup_r _ _ _ _ _ Hwalks Hj) as (m & _ & Hm).
          destruct (Hends q' (list_elem_of_lookup_2 _ _ _ Hj))
            as (init & -> & Hni).
          assert (Hne : init ++ [Some lx] <> [])
            by (intros Heq; destruct init; discriminate Heq).
          destruct (Hps _ m Hne Hm) as (tr & Htr & Hptr).
          destruct (prefix_upto _ _ _ Hni Hptr) as [Hin Hup].
          unfold cond_db. apply list_elem_of_fmap. exists tr.
          split; [done|]. apply list_elem_of_filter. done.
        - intros (tr' & Htr' & Hpre). unfold cond_db in Htr'.
          apply list_elem_of_fmap in Htr' as (tr & -> & Htr).
          apply list_elem_of_filter in Htr as [Hin Htr].
          exists (upto (Some lx) tr). split; [|done].
          destruct (upto_split (Some lx) tr Hin) as (init & Heq & Hni).
          rewrite Heq. apply Hcover. apply Hpc. exists tr.
          split; [done|]. rewrite <- Heq. apply upto_prefix. }
      tauto.
    + intros q n Hne Hw. rewrite (walk_same_shape s1 s') in Hw by done.
      destruct (walk_in_tree s1 t' q n Hsh1 Hw) as (nd1 & Hnd1 & Ht1 & _ & Hl).
      destruct (Hl Hne) as (Hr1 & _ & Hlast).
      destruct (Hc1 q n Hne Hw) as (nd1' & Hnd1' & Hcount1).
      assert (nd1' = nd1) as -> by congruence.
      destruct (decide (_item nd1 = Some lx)) as [Hi|Hi].
      * exists nd1. split; [apply Hxn; done|]. rewrite Hcount1.
        unfold leaf_counts. rewrite decide_True by congruence. f_equal.
        symmetry. apply prefix_count_cond_db_leaf; [done|congruence].
      * destruct (Hnx n nd1 Hnd1 Ht1 Hr1 Hi) as (nd' & Hnd' & Hcount').
        exists nd'. split; [done|]. rewrite Hcount'. f_equal.
        rewrite (contrib_walks s1 t' (Some lx) (prefix_count db) q n Hsh1
                   Hc1 Hw Hne ltac:(congruence) _ paths1 Hwalks1 Hends1).
        apply partition_count; done.
  - eapply kept_trans; [exact Hkept0|].
    eapply only_tree_kept; [eapply only_tree_trans; [exact Hk1|]|].
    + rewrite <- Hid1. exact Hot.
    + cbn. lia.
  - eapply (only_tree_store_ok (tree_id t0) s0); [|done|cbn; lia].
    eapply only_tree_trans; [exact Hk1|]. rewrite <- Hid1. exact Hot.
  - destruct Hot as (_ & _ & ->). destruct Hk1 as (_ & _ & ->). done.
Qed.
End ConditionalTrie.

(** ** A tree stays what it is while later trees are built *)

Section Frame.
Context {Label : Type} `{EqDecision Label}.
Local Abbreviation Item := (Item Label).
Local Abbreviation M := (M Label).
Implicit Types (s : Store Label) (nd : FPNode Label) (t : FPTree Label).
Implicit Types (db : list (list Item)) (q : list Item) (i k x : Item).

Lemma sorted_lt_unique (l1 l2 : list nat) :
  StronglySorted lt l1 -> StronglySorted lt l2 ->
  (forall n, n ∈ l1 <-> n ∈ l2) -> l1 = l2.
Proof.
  assert (Hnodup : forall l, StronglySorted lt l -> NoDup l).
  { induction 1 as [|x l Hs IH Hall]; constructor; [|done].
    intros Hin. rewrite Forall_forall in Hall. specialize (Hall x Hin).
    lia. }
  intros H1 H2 Hiff.
  apply (StronglySorted_unique_strong lt); [|done|done|].
  - intros x1 x2 _ _ H12 H21. lia.
  - apply NoDup_Permutation; auto.
Qed.

Lemma nodes_of_ext s s' (tid : nat) k :
  (forall n, carries_at s' tid k n <-> carries_at s tid k n) ->
  nodes_of s' tid k = nodes_of s tid k.
Proof.
  intros Hext. apply sorted_lt_unique; [apply nodes_of_sorted..|].
  intros n. rewrite !elem_of_nodes_of. apply Hext.
Qed.

Section Kept.
Variables (s s' : Store Label) (t : FPTree Label) (b : nat).
Hypothesis Hkept : kept b s s'.
Hypothesis Hb : (tree_id t < b)%nat.

Lemma kept_node (n : nat) nd :
  heap s !! n = Some nd -> _tree nd = tree_id t -> heap s' !! n = Some nd.
Proof. intros Hnd Ht. apply (proj1 Hkept); [done|]. lia. Qed.

Lemma kept_node_inv (n : nat) nd :
  heap s' !! n = Some nd -> _tree nd = tree_id t -> heap s !! n = Some nd.
Proof.
  intros Hnd Ht. destruct (proj1 (proj2 Hkept) n nd Hnd) as [Hge|]; [lia|done].
Qed.

Lemma kept_carries_at k (n : nat) :
  carries_at s' (tree_id t) k n <-> carries_at s (tree_id t) k n.
Proof.
  unfold carries_at. split.
  - destruct (heap s' !! n) as [nd|] eqn:Hnd; [|done]. intros Hc.
    rewrite (kept_node_inv n nd Hnd (proj1 Hc)). done.
  - destruct (heap s !! n) as [nd|] eqn:Hnd; [|done]. intros Hc.
    rewrite (kept_node n nd Hnd (proj1 Hc)). done.
Qed.

Lemma kept_route_inv : route_inv s t -> route_inv s' t.
Proof.
  intros Hinv k. rewrite (nodes_of_ext s s' _ k (kept_carries_at k)).
  destruct (Hinv k) as [Hl Hrt]. split; [|done].
  intros i m Him. destruct (Hl i m Him) as (md & Hmd & Hnb).
  exists md. split; [|done]. apply kept_node; [done|].
  apply list_elem_of_lookup_2, elem_of_nodes_of in Him.
  unfold carries_at in Him. rewrite Hmd in Him. apply Him.
Qed.

Lemma kept_shape : shape s t -> shape s' t.
Proof.
  intros [Hrt Hroot Honly Hch Hpar]. split.
  - apply kept_route_inv. done.
  - destruct Hroot as (rd & Hrd & Ht & Hr). exists rd.
    split; [apply kept_node; done|done].
  - intros n nd Hnd Ht Hr. eapply Honly; [|done|done].
    apply kept_node_inv; done.
  - intros p pd i c Hpd Ht Hget.
    destruct (Hch p pd i c (kept_node_inv _ _ Hpd Ht) Ht Hget)
      as (cd & Hcd & Hct & Hrest).
    exists cd. split; [apply kept_node; done|done].
  - intros n nd Hnd Ht Hr.
    destruct (Hpar n nd (kept_node_inv _ _ Hnd Ht) Ht Hr)
      as (p & pd & Hp & Hpd & Hpt & Hget).
    exists p, pd. split; [done|]. split; [apply kept_node; done|done].
Qed.

Lemma kept_walk q :
  shape s t ->
  forall (a : nat) nd,
    heap s !! a = Some nd -> _tree nd = tree_id t ->
    walk (heap s') a q = walk (heap s) a q.
Proof.
  intros Hsh. induction q as [|i q IH]; intros a nd Hnd Ht; [done|].
  cbn. rewrite Hnd, (kept_node a nd Hnd Ht).
  destruct (dict_get i (_children nd)) as [c|] eqn:Hget; [|done].
  destruct (sh_child _ _ Hsh a nd i c Hnd Ht Hget) as (cd & Hcd & Hct & _).
  eapply IH; done.
Qed.

Lemma kept_trie db : trie s t db -> trie s' t db.
Proof.
  intros (Hsh & [Hps Hpc] & Hcnt).
  destruct (sh_root _ _ Hsh) as (rd & Hrd & Hrt & _).
  assert (Hw : forall q, walk (heap s') (_root t) q =
                         walk (heap s) (_root t) q).
  { intros q. eapply kept_walk; done. }
  split; [apply kept_shape; done|]. split; [split|].
  - intros q n Hne Hwq. rewrite Hw in Hwq. eauto.
  - intros q Hq. rewrite Hw. auto.
  - intros q n Hne Hwq. rewrite Hw in Hwq.
    destruct (Hcnt q n Hne Hwq) as (nd & Hnd & Hc).
    exists nd. split; [|done].
    destruct (walk_in_tree s t q n Hsh Hwq) as (nd' & Hnd' & Ht' & _).
    apply kept_node; congruence.
Qed.
End Kept.

Lemma prefix_paths_Ok s t k (paths : list (list nat)) s' :
  route_inv s t ->
  FPTree.prefix_paths t k s = Ok paths s' ->
  s' = s /\ paths = map (path_to s) (nodes_of s (tree_id t) k).
Proof.
  intros Hinv Hrun. unfold FPTree.prefix_paths in Hrun.
  apply bind_Ok in Hrun as (ns & s1 & Hns & Hrun).
  rewrite (nodes_route_inv s t k Hinv) in Hns. injection Hns as <- <-.
  revert paths s' Hrun.
  induction (nodes_of s (tree_id t) k) as [|n ns IH]; intros paths s' Hrun.
  - apply ret_Ok in Hrun as [-> ->]. done.
  - cbn [map_m] in Hrun.
    apply bind_Ok in Hrun as (path & s1 & Hcp & Hrun).
    apply collect_path_Ok in Hcp as [-> ->].
    apply bind_Ok in Hrun as (rest & s1 & Hrest & Hrun).
    apply IH in Hrest as [-> ->].
    apply ret_Ok in Hrun as [-> ->]. done.
Qed.
End Frame.

(** ** The supports the miner yields *)

Section MinerSound.
Context {Label : Type} `{EqDecision Label}.
Local Abbreviation Item := (Item Label).
Local Abbreviation M := (M Label).
Implicit Types (s : Store Label) (nd : FPNode Label) (t : FPTree Label).
Implicit Types (db ts : list (list Item)) (q suffix : list Item).
Implicit Types (i k x : Item).

Variable R : relation Item.
Context `{!StrictOrder R}.

(** An itemset is held by no more transactions than a part of it. *)
Lemma support_mono ts (A B : list Item) :
  (forall i, i ∈ A -> i ∈ B) -> (support ts B <= support ts A)%Z.
Proof.
  intros Hsub. rewrite !support_filter. apply Nat2Z.inj_le.
  induction ts as [|tr ts IH]; [done|]. rewrite !filter_cons.
  destruct (decide (Forall (fun j => j ∈ tr) B)) as [HB|HB].
  - rewrite decide_True; [cbn [length]; lia|].
    rewrite Forall_forall in HB. apply Forall_forall. auto.
  - destruct (decide (Forall (fun j => j ∈ tr) A)); cbn [length]; lia.
Qed.

Lemma support_pos ts (A : list Item) :
  (0 < support ts A)%Z -> exists tr, tr ∈ ts /\ forall i, i ∈ A -> i ∈ tr.
Proof.
  rewrite support_filter. intros Hpos.
  destruct (filter (fun tr => Forall (fun j => j ∈ tr) A) ts) as [|tr l]
    eqn:Hf; [cbn in Hpos; lia|].
  assert (Hin : tr ∈ filter (fun tr => Forall (fun j => j ∈ tr) A) ts)
    by (rewrite Hf; left).
  apply list_elem_of_filter in Hin as [Hall Hin]. exists tr.
  split; [done|]. rewrite Forall_forall in Hall. done.
Qed.

(** An itemset that a transaction holds has a support that is not 0. *)
Lemma support_elem_pos ts tr (A : list Item) :
  tr ∈ ts -> (forall i, i ∈ A -> i ∈ tr) -> (0 < support ts A)%Z.
Proof.
  intros Htr Hall. rewrite support_filter.
  assert (Hin : tr ∈ filter (fun tr => Forall (fun j => j ∈ tr) A) ts).
  { apply list_elem_of_filter. split; [|done]. apply Forall_forall. done. }
  destruct (filter (fun tr => Forall (fun j => j ∈ tr) A) ts);
    [inversion Hin|cbn [length]; lia].
Qed.

Lemma sorted_db_NoDup db : Forall (StronglySorted R) db -> Forall NoDup db.
Proof.
  intros Hdb. eapply Forall_impl; [exact Hdb|]. intros tr.
  apply (sorted_NoDup R).
Qed.

Lemma cond_db_sorted x db :
  Forall (StronglySorted R) db -> Forall (StronglySorted R) (cond_db x db).
Proof.
  intros Hdb. apply Forall_forall. intros tr' Htr'. unfold cond_db in Htr'.
  apply list_elem_of_fmap in Htr' as (tr & -> & Htr).
  apply list_elem_of_filter in Htr as [_ Htr].
  rewrite Forall_forall in Hdb. apply (sorted_upto R). auto.
Qed.

Lemma cond_db_bounded x suffix db :
  Forall (StronglySorted R) db -> db_bounded R (x :: suffix) (cond_db x db).
Proof.
  intros Hdb tr' i Htr' Hi. unfold cond_db in Htr'.
  apply list_elem_of_fmap in Htr' as (tr & -> & Htr).
  apply list_elem_of_filter in Htr as [Hx Htr].
  rewrite Forall_forall in Hdb. eapply (upto_bounded R); eauto.
Qed.

Lemma conditional_on_cond_db ts suffix db x :
  Forall (StronglySorted R) db ->
  conditional_on R ts suffix db ->
  match suffix with [] => True | y :: _ => R x y end ->
  conditional_on R ts (x :: suffix) (cond_db x db).
Proof.
  intros Hdb Hcond Hx J HJ.
  rewrite (support_cond_db R x db J Hdb HJ).
  rewrite Hcond; [rewrite <- app_assoc; done|].
  apply Forall_app. split; [|constructor; [done|constructor]].
  destruct suffix as [|y suffix]; [apply Forall_true; done|].
  eapply Forall_impl; [exact HJ|]. intros j Hj. cbn in Hj.
  etransitivity; done.
Qed.

Lemma mined_right_raise ts (include_support : bool) s (e : Exn) s' :
  mined_right ts include_support s ([], Raise e s').
Proof. split; [constructor|]. intros u s0 Hr. discriminate Hr. Qed.

Lemma key_in_db s t db item :
  trie s t db -> item ∈ dict_keys (_routes t) ->
  exists tr, tr ∈ db /\ item ∈ tr.
Proof.
  intros (Hsh & [Hps _] & _) Hkey.
  destruct (dict_get item (_routes t)) as [route|] eqn:Hget.
  2:{ apply dict_get_None_keys in Hget. done. }
  pose proof (sh_routes _ _ Hsh item) as [_ Hroute]. rewrite Hget in Hroute.
  destruct Hroute as [Hhead _].
  assert (Hin : fst route ∈ nodes_of s (tree_id t) item).
  { destruct (nodes_of s (tree_id t) item); [done|].
    injection Hhead as ->. left. }
  apply (nodes_of_walk s t item _ Hsh) in Hin as (q & Hq).
  assert (Hne : q ++ [item] <> [])
    by (intros Heq; destruct q; discriminate Heq).
  destruct (Hps _ _ Hne Hq) as (tr & Htr & [k ->]).
  exists ((q ++ [item]) ++ k). split; [done|].
  apply elem_of_app. left. apply elem_of_app. right. left.
Qed.

Lemma kept_next (b : nat) s s' : kept b s s' -> (next_tree s <= next_tree s')%nat.
Proof. intros (_ & _ & Hn). done. Qed.

Lemma find_with_suffix_sound ts (minimum_support : Z)
  (include_support : bool) (fuel : nat) :
  forall t suffix s db,
    trie s t db -> Forall (StronglySorted R) db ->
    store_ok s -> (tree_id t < next_tree s)%nat ->
    conditional_on R ts suffix db -> db_bounded R suffix db ->
    mined_right ts include_support s
      (find_with_suffix fuel minimum_support include_support t suffix s).
Proof.
  induction fuel as [|fuel IH];
    intros t suffix s db Htrie Hdb Hok Htid Hcond Hbound.
  { apply mined_right_raise. }
  rewrite find_with_suffix_S.
  match goal with |- context [for_yield _ ?body] => set (f := body) end.
  pose proof (sorted_db_NoDup db Hdb) as Hnodup.
  (* one turn of the loop *)
  assert (Hbody : forall item s0,
            item ∈ dict_keys (_routes t) ->
            trie s0 t db -> store_ok s0 -> (tree_id t < next_tree s0)%nat ->
            mined_right ts include_support s0 (f item s0)).
  { clear s Htrie Hok Htid. intros item s Hkey Htrie Hok Htid. unfold f.
    rewrite find_with_suffix_body.
    pose proof Htrie as (Hsh & [Hps Hpc] & Hcnt).
    rewrite (nodes_route_inv s t item (sh_routes _ _ Hsh)).
    rewrite (trie_item_support s t db item Htrie Hnodup).
    destruct ((minimum_support <=? support db [item])%Z &&
              negb (bool_decide (item ∈ suffix))) eqn:Hc.
    2:{ split; [constructor|]. intros u s' [= <- <-].
        split; [apply kept_refl|done]. }
    apply andb_prop in Hc as [_ Hni].
    apply negb_true_iff, bool_decide_eq_false in Hni.
    cbn zeta.
    (* the item comes before the suffix *)
    assert (Hbefore : match suffix with [] => True | y :: _ => R item y end).
    { destruct (key_in_db s t db item Htrie Hkey) as (tr & Htr & Hin).
      specialize (Hbound tr item Htr Hin).
      destruct suffix as [|y suffix]; [done|].
      destruct Hbound as [->|]; [|done]. exfalso. apply Hni. left. }
    assert (Hsup : support db [item] = support ts (item :: suffix)).
    { apply (Hcond [item]). constructor; [done|constructor]. }
    assert (Hy : (if include_support then Some (support db [item]) else None)
                 = if include_support
                   then Some (support ts (item :: suffix)) else None).
    { destruct include_support; [|done]. f_equal. done. }
    rewrite Hy.
    assert (Hpos : (0 < support ts (item :: suffix))%Z).
    { rewrite <- Hsup.
      destruct (key_in_db s t db item Htrie Hkey) as (tr & Htr & Hin).
      apply (support_elem_pos db tr); [done|]. intros i Hi.
      apply list_elem_of_singleton in Hi as ->. done. }
    destruct (FPTree.prefix_paths t item s) as [paths s3|e s3] eqn:Hpaths.
    2:{ split; [constructor; [done|constructor]|].
        intros u s' Hr. discriminate Hr. }
    apply prefix_paths_Ok in Hpaths as [-> ->]; [|apply Hsh].
    destruct (conditional_tree_from_paths _ s) as [ct s4|e s4] eqn:Hct.
    2:{ split; [constructor; [done|constructor]|].
        intros u s' Hr. discriminate Hr. }
    apply (conditional_tree_trie db item s t ct s4 Htrie Hnodup Hok Htid)
      in Hct as (Htrie4 & Hid4 & Hkept4 & Hok4 & Hnext4).
    destruct (IH ct (item :: suffix) s4 (cond_db item db)) as [Hall Hend].
    - done.
    - apply cond_db_sorted. done.
    - done.
    - lia.
    - apply conditional_on_cond_db; done.
    - apply cond_db_bounded. done.
    - split; cbn [fst snd].
      + constructor; done.
      + intros u s' Hr. destruct (Hend u s' Hr) as [Hk Hok'].
        split; [|done]. eapply kept_trans; [exact Hkept4|].
        eapply kept_weaken; [|exact Hk]. lia. }
  (* the loop *)
  assert (Hsub : forall k, k ∈ FPTree.items t -> k ∈ dict_keys (_routes t))
    by auto.
  revert Hsub. generalize (FPTree.items t) as ks. intros ks. revert s Htrie Hok Htid.
  induction ks as [|item ks IHks]; intros s Htrie Hok Htid Hsub.
  { split; [constructor|]. intros u s' [= <- <-].
    split; [apply kept_refl|done]. }
  rewrite for_yield_cons.
  destruct (Hbody item s (Hsub item (list_elem_of_here _ _)) Htrie Hok Htid)
    as [Hys Hend].
  destruct (f item s) as [ys [u s1|e s1]]; cbn [fst snd] in Hys, Hend.
  - destruct (Hend u s1 eq_refl) as [Hk1 Hok1].
    pose proof (kept_next _ _ _ Hk1) as Hn1.
    destruct (IHks s1) as [Hzs Hend'].
    + eapply kept_trie; done.
    + done.
    + lia.
    + intros k Hk. apply Hsub. right. done.
    + split; cbn [fst snd].
      * apply Forall_app. done.
      * intros u' s' Hr. destruct (Hend' u' s' Hr) as [Hk' Hok'].
        split; [|done]. eapply kept_trans; [exact Hk1|].
        eapply kept_weaken; [|exact Hk']. done.
  - split; cbn [fst snd]; [done|]. intros u s' Hr. discriminate Hr.
Qed.
End MinerSound.

(** ** The supports of a whole run *)

Section RunSound.
Context {Label : Type} `{EqDecision Label}.
Local Abbreviation Item := (Item Label).
Implicit Types (s : Store Label) (df : DataFrame Label).

Lemma transactions_tail_sorted df :
  NoDup (columns df) ->
  Forall (StronglySorted (before (columns df))) (tail (transactions df)).
Proof.
  intros Hcols. pose proof (transactions_sorted df Hcols) as Hall.
  destruct (transactions df); [constructor|].
  apply Forall_cons in Hall as [_ Hall]. done.
Qed.

Lemma find_frequent_itemsets_sound df (fuel : nat) (minimum_support : Z)
  (include_support : bool) s :
  index df = default_index (length (rows df)) ->
  NoDup (columns df) -> store_ok s ->
  mined_right (tail (transactions df)) include_support s
    (find_frequent_itemsets fuel df minimum_support include_support s).
Proof.
  intros Hidx Hcols Hok. unfold find_frequent_itemsets.
  rewrite gen_bind_call.
  destruct (build_master df s) as [master s1|e s1] eqn:Hbuild.
  2:{ split; [constructor|]. intros u s' Hr. discriminate Hr. }
  apply build_master_default_Ok in Hbuild; [|done].
  apply build_from_trie in Hbuild as (Htrie & Hid & Hkept & Hok1 & Hnext);
    [|done].
  destruct (find_with_suffix_sound (before (columns df))
              (StrictOrder0:=before_strict (columns df))
              (tail (transactions df)) minimum_support include_support fuel
              master [] s1 (tail (transactions df)))
    as [Hall Hend]; try done.
  - apply transactions_tail_sorted. done.
  - lia.
  - intros J _. rewrite app_nil_r. done.
  - split; [done|]. intros u s' Hr. destruct (Hend u s' Hr) as [Hk Hok'].
    split; [|done]. eapply kept_trans; [exact Hkept|].
    eapply kept_weaken; [|exact Hk]. lia.
Qed.

(** For a data frame with the default index, the support yielded with an
    itemset is its support among the transactions of the rows after the
    first: the number of those that hold every item of the itemset. *)
Theorem yielded_support_is_support df (fuel : nat) (minimum_support : Z) s :
  index df = default_index (length (rows df)) ->
  NoDup (columns df) -> store_ok s ->
  Forall (fun e => snd e = Some (support (tail (transactions df)) (fst e)))
    (fst (find_frequent_itemsets fuel df minimum_support true s)).
Proof.
  intros Hidx Hcols Hok.
  eapply Forall_impl;
    [apply (find_frequent_itemsets_sound df fuel minimum_support true s Hidx
              Hcols Hok)|].
  intros e [He _]. done.
Qed.

End RunSound.

(** ** One conditional tree *)

Section OneConditionalTree.
Context {Label : Type} `{EqDecision Label}.
Local Abbreviation Item := (Item Label).
Implicit Types (s : Store Label) (t : FPTree Label).
Implicit Types (ts : list (list Item)) (x : Item).

Lemma conditional_tree_of_master ts x s t s1 (paths : list (list nat)) s1'
  t' s2 :
  store_ok s -> Forall NoDup ts ->
  build_from ts s = Ok t s1 ->
  FPTree.prefix_paths t x s1 = Ok paths s1' ->
  conditional_tree_from_paths paths s1' = Ok t' s2 ->
  s1' = s1 /\ trie s1 t ts /\ trie s2 t' (cond_db x ts) /\
  kept (next_tree s1) s1 s2 /\ store_ok s1.
Proof.
  intros Hok Hts Hbuild Hpaths Hcond.
  apply build_from_trie in Hbuild as (Htrie & Hid & _ & Hok1 & Hnext);
    [|done].
  apply prefix_paths_Ok in Hpaths as [-> ->]; [|apply Htrie].
  apply (conditional_tree_trie ts x s1 t t' s2 Htrie Hts Hok1) in Hcond
    as (Htrie2 & _ & Hkept & _); [done|lia].
Qed.

(** Building the conditional tree of an item from the prefix paths of a
    tree changes no node of that tree, nor any other node there was: it
    only adds nodes. *)
Theorem conditional_tree_leaves_source ts x s t s1
  (paths : list (list nat)) s1' t' s2 :
  store_ok s -> Forall NoDup ts ->
  build_from ts s = Ok t s1 ->
  FPTree.prefix_paths t x s1 = Ok paths s1' ->
  conditional_tree_from_paths paths s1' = Ok t' s2 ->
  s1' = s1 /\
  forall n nd, heap s1 !! n = Some nd -> heap s2 !! n = Some nd.
Proof.
  intros Hok Hts Hbuild Hpaths Hcond.
  destruct (conditional_tree_of_master ts x s t s1 paths s1' t' s2 Hok Hts
              Hbuild Hpaths Hcond) as (-> & _ & _ & (Hk & _) & Hok1).
  split; [done|]. intros n nd Hnd. apply Hk; [done|]. apply (Hok1 n nd Hnd).
Qed.

(** In the conditional tree of [x], built from a tree filled with
    transactions that list their items in one order, the counts of the
    nodes of an item that comes before [x] add up to the number of
    transactions that hold both the item and [x]. *)
Theorem conditional_tree_pair_support (R : relation Item) `{!StrictOrder R}
  ts x (j : Item) s t s1 (paths : list (list nat)) s1' t' s2 :
  store_ok s -> Forall (StronglySorted R) ts -> R j x ->
  build_from ts s = Ok t s1 ->
  FPTree.prefix_paths t x s1 = Ok paths s1' ->
  conditional_tree_from_paths paths s1' = Ok t' s2 ->
  exists ns,
    FPTree.nodes t' j s2 = Ok ns s2 /\
    sum_counts ns s2 = Ok (support ts [j; x]) s2.
Proof.
  intros Hok Hts Hjx Hbuild Hpaths Hcond.
  pose proof (sorted_db_NoDup R ts Hts) as Hnd.
  destruct (conditional_tree_of_master ts x s t s1 paths s1' t' s2 Hok Hnd
              Hbuild Hpaths Hcond) as (-> & _ & Htrie2 & _ & _).
  exists (nodes_of s2 (tree_id t') j).
  split; [apply nodes_route_inv, Htrie2|].
  rewrite (trie_item_support s2 t' (cond_db x ts) j Htrie2).
  - rewrite (support_cond_db R x ts [j] Hts); [done|].
    constructor; [done|constructor].
  - apply (sorted_db_NoDup R). apply cond_db_sorted. done.
Qed.
End OneConditionalTree.

(** ** The calls of the miner return *)

Section Progress.
Context {Label : Type} `{EqDecision Label}.
Local Abbreviation Item := (Item Label).
Local Abbreviation M := (M Label).
Implicit Types (s : Store Label) (nd : FPNode Label) (t : FPTree Label).
Implicit Types (q done its : list Item) (i k x : Item).

Lemma count_run (n : nat) s nd :
  heap s !! n = Some nd -> FPNode.count n s = Ok (_count nd) s.
Proof. intros Hn. unfold FPNode.count, bind, get_node. rewrite Hn. done. Qed.

Lemma parent_run (n : nat) s nd :
  heap s !! n = Some nd -> FPNode.parent n s = Ok (_parent nd) s.
Proof. intros Hn. unfold FPNode.parent, bind, get_node. rewrite Hn. done. Qed.

Lemma neighbor_run (n : nat) s nd :
  heap s !! n = Some nd -> FPNode.neighbor n s = Ok (_neighbor nd) s.
Proof. intros Hn. unfold FPNode.neighbor, bind, get_node. rewrite Hn. done. Qed.

Lemma root_run (n : nat) s nd :
  heap s !! n = Some nd -> FPNode.root n s = Ok (FPNode.is_root nd) s.
Proof. intros Hn. unfold FPNode.root, bind, get_node. rewrite Hn. done. Qed.

Lemma new_tree_run s :
  FPTree.new s =
    Ok (mkFPTree (next_tree s) (length (heap s)) [])
       (mkStore (heap s ++ [root_node (next_tree s)]) (S (next_tree s))).
Proof. done. Qed.

(** Going up from a node of the tree ends at the root, within the fuel
    [collect_path] gives. *)
Lemma collect_path_up_run s t :
  shape s t ->
  forall q (n : nat),
    walk (heap s) (_root t) q = Some n ->
    forall fuel : nat, (length q <= fuel)%nat ->
      FPTree.collect_path_up fuel (Some n) s =
        Ok (path_up (heap s) fuel (Some n)) s.
Proof.
  intros Hsh. induction q as [|i q IH] using rev_ind; intros n Hw fuel Hf.
  - injection Hw as <-. destruct (sh_root _ _ Hsh) as (rd & Hrd & _ & Hrr).
    destruct fuel; cbn [FPTree.collect_path_up path_up];
      rewrite (bind_run _ _ _ _ _ (root_run _ s rd Hrd)), Hrd, Hrr; done.
  - apply walk_snoc in Hw as (p & pd & Hp & Hpd & Hget).
    destruct (walk_in_tree s t q p Hsh Hp) as (pd' & Hpd' & Hpt & _).
    assert (pd' = pd) as -> by congruence.
    destruct (sh_child _ _ Hsh p pd i n Hpd Hpt Hget)
      as (cd & Hcd & Hct & Hci & Hcp & [c Hc] & Hlt).
    assert (Hr : FPNode.is_root cd = false).
    { unfold FPNode.is_root. rewrite Hc. destruct (_item cd); done. }
    rewrite length_app in Hf. cbn in Hf.
    destruct fuel as [|fuel]; [lia|].
    cbn [FPTree.collect_path_up path_up].
    rewrite (bind_run _ _ _ _ _ (root_run n s cd Hcd)), Hcd, Hr.
    rewrite (bind_run _ _ _ _ _ (parent_run n s cd Hcd)), Hcp.
    rewrite (bind_run _ _ _ _ _ (IH p Hp fuel ltac:(lia))). done.
Qed.

Lemma collect_path_run s t q (n : nat) :
  shape s t -> walk (heap s) (_root t) q = Some n ->
  FPTree.collect_path n s = Ok (path_to s n) s.
Proof.
  intros Hsh Hw. unfold FPTree.collect_path, path_to.
  unfold bind at 1, get_store.
  assert (Hf : (length q <= S (length (heap s)))%nat).
  { pose proof (walk_ge s t q n Hsh Hw) as Hge.
    destruct (walk_in_tree s t q n Hsh Hw) as (nd & Hnd & _).
    apply lookup_lt_Some in Hnd. lia. }
  rewrite (bind_run _ _ _ _ _ (collect_path_up_run s t Hsh q n Hw _ Hf)).
  done.
Qed.

(** [prefix_paths] returns, for any item, and leaves the store alone. *)
Lemma prefix_paths_run s t k :
  shape s t ->
  FPTree.prefix_paths t k s =
    Ok (map (path_to s) (nodes_of s (tree_id t) k)) s.
Proof.
  intros Hsh. unfold FPTree.prefix_paths.
  rewrite (bind_run _ _ _ _ _ (nodes_route_inv s t k (sh_routes _ _ Hsh))).
  assert (Hall : forall n : nat, n ∈ nodes_of s (tree_id t) k ->
            exists q, walk (heap s) (_root t) q = Some n).
  { intros n Hn. apply (nodes_of_walk s t k n Hsh) in Hn as [q Hq]. eauto. }
  induction (nodes_of s (tree_id t) k) as [|n ns IH]; [done|].
  cbn [map_m map]. destruct (Hall n) as [q Hq]; [left|].
  rewrite (bind_run _ _ _ _ _ (collect_path_run s t q n Hsh Hq)).
  rewrite (bind_run _ _ _ _ _ (IH (fun m Hm => Hall m (list_elem_of_further _ _ _ Hm)))).
  done.
Qed.

(** Adding a count to nodes that have one does not fail. *)
Lemma for_each_add_count_run (A : list nat) (d : Z) :
  forall s,
    (forall a : nat, a ∈ A ->
       exists nd, heap s !! a = Some nd /\ is_Some (_count nd)) ->
    exists s',
      for_each A (fun a => FPNode.add_count a (Some d)) s = Ok tt s'.
Proof.
  induction A as [|a A IH]; intros s Hall; [eexists; done|].
  destruct (Hall a) as (nd & Hnd & [c Hc]); [left|].
  assert (Hadd : FPNode.add_count a (Some d) s =
                 Ok tt (upd s a (FPNode.with_count nd (Some (c + d)%Z)))).
  { unfold FPNode.add_count, bind, get_node. rewrite Hnd, Hc. done. }
  destruct (IH (upd s a (FPNode.with_count nd (Some (c + d)%Z))))
    as [s' Hrun].
  { intros b Hb. destruct (Hall b) as (bd & Hbd & Hbc); [right; done|].
    cbn [heap upd]. destruct (decide (b = a)) as [->|Hne].
    - rewrite list_lookup_insert_eq by (eapply lookup_lt_Some; done).
      eexists. split; [done|]. cbn. eauto.
    - rewrite list_lookup_insert_ne by done. eauto. }
  exists s'. cbn [for_each]. rewrite (bind_run _ _ _ _ _ Hadd). done.
Qed.

(** The second loop of [conditional_tree_from_paths] returns: every node
    of a route of the tree has a way up to the root, a count, and counted
    nodes above it. *)
Lemma spread_counts_returns s1 t x :
  shape s1 t ->
  forall (rest done : list nat) sj (fuel : nat),
    nodes_of s1 (tree_id t) x = done ++ rest ->
    same_shape s1 sj ->
    (length rest < fuel)%nat ->
    exists s', spread_counts fuel (head rest) sj = Ok tt s'.
Proof.
  intros Hsh. induction rest as [|m rest IH]; intros done sj fuel Hl Hss Hf.
  - destruct fuel; [cbn in Hf; lia|]. eexists. done.
  - destruct fuel as [|fuel]; [cbn in Hf; lia|]. cbn [head spread_counts].
    assert (Hshj : shape sj t) by (eapply shape_same_shape; done).
    assert (Hm : m ∈ nodes_of s1 (tree_id t) x).
    { rewrite Hl. apply elem_of_app. right. left. }
    apply (nodes_of_walk s1 t x m Hsh) in Hm as (init & Hw).
    assert (Hwj : walk (heap sj) (_root t) (init ++ [x]) = Some m)
      by (rewrite (walk_same_shape s1 sj); done).
    rewrite (bind_run _ _ _ _ _ (collect_path_run sj t _ m Hshj Hwj)).
    rewrite (path_to_walk sj t _ m Hshj Hwj),
      (walk_nodes_last sj t init x m Hshj Hwj).
    assert (Hne : init ++ [x] <> [])
      by (intros Heq; destruct init; discriminate Heq).
    assert (Hsp : exists sj2,
              spread_count (walk_nodes (heap sj) (_root t) init ++ [m]) sj =
                Ok tt sj2 /\ same_shape sj sj2).
    { unfold spread_count. rewrite last_snoc.
      destruct (walk_in_tree sj t _ m Hshj Hwj) as (md & Hmd & _ & _ & Hch).
      destruct (Hch Hne) as (_ & [cm Hcm] & _).
      rewrite (bind_run _ _ _ _ _ (count_run m sj md Hmd)), Hcm.
      rewrite removelast_last.
      pose proof Hwj as Hwi.
      apply walk_snoc in Hwi as (p & pd & Hp & _).
      destruct (for_each_add_count_run
                  (rev (walk_nodes (heap sj) (_root t) init)) cm sj)
        as [sj2 Hrun].
      { intros a Ha. rewrite list_elem_of_In, <- in_rev, <- list_elem_of_In in Ha.
        apply list_elem_of_lookup in Ha as [j Hj].
        pose proof (walk_nodes_lookup _ _ _ _ Hp j a Hj) as Hwa.
        destruct (walk_in_tree sj t _ a Hshj Hwa) as (ad & Had & _ & _ & Hca).
        destruct Hca as (_ & Hc & _); [|eauto].
        destruct init as [|i0 init0]; [discriminate Hj|done]. }
      exists sj2. split; [done|]. eapply for_each_add_count_shape. done. }
    destruct Hsp as (sj2 & Hsp & Hss2).
    rewrite (bind_run _ _ _ _ _ Hsp).
    pose proof (same_shape_trans _ _ _ Hss Hss2) as Hss12.
    destruct (proj1 (sh_routes _ _ Hsh x) (length done) m)
      as (md0 & Hmd0 & Hnb).
    { rewrite Hl. apply list_lookup_middle. done. }
    destruct (proj2 Hss12 m md0 Hmd0) as (c2 & Hmd2 & _).
    rewrite (bind_run _ _ _ _ _ (neighbor_run m sj2 _ Hmd2)).
    cbn [_neighbor FPNode.with_count].
    rewrite Hl in Hnb. rewrite lookup_app_r in Hnb by lia.
    replace (S (length done) - length done)%nat with 1%nat in Hnb by lia.
    change ((m :: rest) !! 1%nat) with (rest !! 0%nat) in Hnb.
    rewrite <- head_lookup in Hnb. rewrite Hnb.
    apply (IH (done ++ [m]) sj2 fuel); [|done|cbn in Hf; lia].
    rewrite <- app_assoc. done.
Qed.

Lemma route_tail_tree s t k (route : nat * nat) :
  route_inv s t -> dict_get k (_routes t) = Some route ->
  exists td, heap s !! snd route = Some td /\ _tree td = tree_id t.
Proof.
  intros Hinv Hr. destruct (Hinv k) as [_ Hk]. rewrite Hr in Hk.
  destruct Hk as [_ Hlast].
  assert (Hin : snd route ∈ nodes_of s (tree_id t) k).
  { apply last_Some in Hlast as [l' ->]. apply elem_of_app. right. left. }
  apply elem_of_nodes_of in Hin. unfold carries_at in Hin.
  destruct (heap s !! snd route) as [td|]; [|done].
  destruct Hin as (Ht & _). eauto.
Qed.

(** The first loop of [conditional_tree_from_paths] returns for a path
    of nodes that can be read. *)
Lemma import_path_returns x (cntx : list Item -> Z) (paths : list (list Item))
  (cx : Z) (path : list nat) :
  forall its done t (point : nat) s,
    shape s t ->
    walk (heap s) (_root t) done = Some point ->
    paths_of s t (inserting_paths paths done) ->
    counts_of s t (leaf_counts x cntx) ->
    readable s (tree_id t) x cx path its ->
    x ∉ removelast its ->
    (last its = Some x -> cx = cntx (done ++ its)) ->
    exists t' s', import_path t x point path s = Ok t' s'.
Proof.
  induction path as [|node rest IH];
    intros its done t point s Hsh Hpoint Hpaths Hcounts Hread Hx Hcx.
  { eexists _, _. done. }
  apply Forall2_cons_inv_l in Hread
    as (i & its' & (nnd & Hnnd & Hnt & Hni & Hnc) & Hread & ->).
  destruct (walk_in_tree s t done point Hsh Hpoint) as (pd & Hpd & Hpt & _).
  assert (Hx' : x ∉ removelast its').
  { destruct its' as [|i2 its']; [apply not_elem_of_nil|].
    intros Hin. apply Hx. cbn [removelast]. right. done. }
  assert (Hcx' : last its' = Some x -> cx = cntx ((done ++ [i]) ++ its')).
  { intros Hl. rewrite <- app_assoc. apply Hcx.
    destruct its'; [discriminate Hl|done]. }
  assert (Hone : readable s (tree_id t) x cx [node] [i]).
  { constructor; [|constructor]. exists nnd. done. }
  assert (Hcx1 : last [i] = Some x -> cx = cntx (done ++ [i])).
  { intros [= ->]. destruct its' as [|i2 its']; [apply Hcx; done|].
    exfalso. apply Hx. cbn [removelast]. left. }
  assert (Hx1 : x ∉ removelast [i]) by apply not_elem_of_nil.
  cbn [import_path].
  rewrite (bind_run _ _ _ _ _ (item_run node s nnd Hnnd)), Hni.
  rewrite (bind_run _ _ _ _ _ (search_run point i s pd Hpd)).
  destruct (dict_get i (_children pd)) as [np|] eqn:Hget.
  - assert (Hrun1 : import_path t x point [node] s = Ok t s).
    { cbn [import_path].
      rewrite (bind_run _ _ _ _ _ (item_run node s nnd Hnnd)), Hni.
      rewrite (bind_run _ _ _ _ _ (search_run point i s pd Hpd)), Hget.
      done. }
    apply (import_path_trie x cntx paths cx [node] [i] done t point s t s
             Hsh Hpoint Hpaths Hcounts Hone Hx1 Hcx1) in Hrun1
      as (_ & _ & _ & Hp1 & Hc1 & _).
    apply (IH its' (done ++ [i]) t np s); try done.
    apply walk_snoc. eauto.
  - set (c := if decide (i = x) then cx else 0%Z).
    assert (Hc : (if decide (i = x) then FPNode.count node
                  else ret (Some 0%Z)) s = Ok (Some c) s).
    { unfold c. destruct (decide (i = x)) as [Hix|Hix]; [|done].
      rewrite (count_run node s nnd Hnnd), (Hnc Hix). done. }
    destruct (attach_run t point i (Some c) s pd Hpd Hpt Hget
                (fun route => route_tail_tree s t i route
                                (sh_routes _ _ Hsh)))
      as (s1 & s2 & t1 & s3 & Hnew & Hadd & Hupd).
    rewrite (bind_run _ _ _ _ _ Hc), (bind_run _ _ _ _ _ Hnew),
      (bind_run _ _ _ _ _ Hadd), (bind_run _ _ _ _ _ Hupd).
    assert (Hrun1 : import_path t x point [node] s = Ok t1 s3).
    { cbn [import_path].
      rewrite (bind_run _ _ _ _ _ (item_run node s nnd Hnnd)), Hni.
      rewrite (bind_run _ _ _ _ _ (search_run point i s pd Hpd)), Hget.
      rewrite (bind_run _ _ _ _ _ Hc), (bind_run _ _ _ _ _ Hnew),
        (bind_run _ _ _ _ _ Hadd), (bind_run _ _ _ _ _ Hupd).
      done. }
    destruct (attach_Ok _ _ _ _ _ _ _ _ _ _ _ _ Hpd Hget
                (fun route => route_tail_lt s t i route
                                (sh_routes _ _ Hsh))
                Hnew Hadd Hupd)
      as (_ & _ & Hnt3 & Ht1 & Hlen & Hnp & Hold & Htail).
    assert (Hw3 : walk (heap s3) (_root t) (done ++ [i]) =
                  Some (length (heap s)))
      by (eapply walk_attach_new; eassumption).
    apply (import_path_trie x cntx paths cx [node] [i] done t point s t1 s3
             Hsh Hpoint Hpaths Hcounts Hone Hx1 Hcx1) in Hrun1
      as (Hsh1 & Hid1 & Hroot1 & Hp1 & Hc1 & Hot).
    apply (IH its' (done ++ [i]) t1 (length (heap s)) s3); try done.
    + rewrite Hroot1. done.
    + rewrite Hid1. eapply readable_only_tree; done.
Qed.

Lemma import_paths_returns x (cntx : list Item -> Z)
  (nodes : list (list nat)) :
  forall (ci : Item) (new done : list (list Item)) t s,
    ci = None \/ ci = x ->
    shape s t ->
    paths_of s t (inserting_paths done []) ->
    counts_of s t (leaf_counts x cntx) ->
    Forall2 (fun path its =>
               readable s (tree_id t) x (cntx its) path its /\
               (x ∉ removelast its) /\ last its = Some x) nodes new ->
    exists r s', import_paths t ci nodes s = Ok r s'.
Proof.
  induction nodes as [|path rest IH];
    intros ci new done t s Hci0 Hsh Hpaths Hcounts Hall.
  { eexists _, _. done. }
  apply Forall2_cons_inv_l in Hall
    as (its & new' & (Hread & Hxl & Hlast) & Hall & ->).
  assert (Hci : (match ci with
                 | None => match last path with
                           | Some n => FPNode.item n
                           | None => raise IndexError
                           end
                 | Some _ => ret ci
                 end) s = Ok x s).
  { destruct ci as [lbl|].
    - destruct Hci0 as [|<-]; done.
    - destruct (Forall2_last _ _ _ _ Hread Hlast)
        as (n & Hn & nd & Hnd & _ & Hni & _).
      rewrite Hn, (item_run n s nd Hnd), Hni. done. }
  destruct (import_path_returns x cntx done (cntx its) path its [] t
              (_root t) s) as (t1 & s1 & Hpath); try done.
  pose proof Hpath as Hpath'.
  apply (import_path_trie x cntx done (cntx its) path its [] t (_root t))
    in Hpath' as (Hsh1 & Hid1 & Hroot1 & Hp1 & Hc1 & Hk1); try done.
  destruct (IH x new' (done ++ [its]) t1 s1) as (r & s' & Hrun).
  - auto.
  - done.
  - cbn [app] in Hp1. eapply paths_of_ext; [|exact Hp1].
    intros q. unfold inserting_paths. split.
    + intros [Hq|(tr & Htr & Hq)]; [right; exists its|right; exists tr];
        (split; [|done]); apply elem_of_app; [right; left|left; done].
    + intros [Hq|(tr & Htr & Hq)].
      * apply prefix_nil_inv in Hq as ->. left. apply prefix_nil.
      * apply elem_of_app in Htr as [Htr|Htr]; [right; eauto|].
        apply list_elem_of_singleton in Htr as ->. auto.
  - done.
  - rewrite Hid1. eapply Forall2_impl; [exact Hall|].
    intros p its0 (Hr0 & Hx0 & Hl0). split; [|done].
    eapply readable_only_tree; done.
  - exists r, s'. cbn [import_paths].
    rewrite (bind_run _ _ _ _ _ Hci), (bind_run _ _ _ _ _ Hpath). done.
Qed.

(** [conditional_tree_from_paths] returns on the prefix paths of an item
    that is not [None] and has nodes in the tree. *)
Lemma conditional_tree_returns db x s t :
  trie s t db -> Forall NoDup db -> store_ok s ->
  (tree_id t < next_tree s)%nat ->
  x <> None -> nodes_of s (tree_id t) x <> [] ->
  exists t' s',
    conditional_tree_from_paths
      (map (path_to s) (nodes_of s (tree_id t) x)) s = Ok t' s'.
Proof.
  intros Htrie Hdb Hok Htid Hx HL.
  pose proof Htrie as (Hsh & [Hps Hpc] & Hcnt).
  destruct (nodes_paths s t x Hsh) as (paths & Hwalks & Hnd & Hends & Hcover).
  { intros q n Hw. eapply trie_walk_NoDup; done. }
  unfold conditional_tree_from_paths.
  rewrite (bind_run _ _ _ _ _ (new_tree_run s)).
  pose proof (trie_new s Hok) as (Hsh0 & Hp0 & _).
  set (s0 := mkStore (heap s ++ [root_node (next_tree s)]) (S (next_tree s)))
    in *.
  set (t0 := mkFPTree (next_tree s) (length (heap s)) []) in *.
  assert (Hkeep0 : forall n nd, heap s !! n = Some nd ->
                                heap s0 !! n = Some nd).
  { intros n nd Hn. cbn [heap s0]. apply lookup_app_l_Some. done. }
  rewrite Forall_forall in Hends.
  assert (Hread :
    Forall2 (fun path its =>
               readable s0 (tree_id t0) x (prefix_count db its) path its /\
               (x ∉ removelast its) /\ last its = Some x)
      (map (path_to s) (nodes_of s (tree_id t) x)) paths).
  { apply Forall2_fmap_l. apply Forall2_same_length_lookup_2.
    - eapply Forall2_length. done.
    - intros j m q Hm Hq.
      pose proof (Forall2_lookup_lr _ _ _ _ _ _ Hwalks Hm Hq) as Hw.
      destruct (Hends q (list_elem_of_lookup_2 _ _ _ Hq)) as (init & -> & Hni).
      cbn beta delta [compose]. rewrite removelast_last, last_snoc.
      split; [|done].
      eapply readable_of_walk; try done. cbn. lia. }
  assert (Hp0' : paths_of s0 t0 (inserting_paths [] [])).
  { apply paths_of_start in Hp0. exact Hp0. }
  assert (Hc0 : counts_of s0 t0 (leaf_counts x (prefix_count db))).
  { intros q n Hne Hw. destruct (proj1 Hp0 q n Hne Hw) as (tr & Htr & _).
    inversion Htr. }
  destruct (import_paths_returns x (prefix_count db)
              (map (path_to s) (nodes_of s (tree_id t) x)) None paths [] t0
              s0)
    as ([t1 ci] & s1 & Himport); [auto|done|done|done|done|].
  rewrite (bind_run _ _ _ _ _ Himport).
  apply (import_paths_trie x (prefix_count db) _ None paths [] t0 s0)
    in Himport as (Hsh1 & Hid1 & Hroot1 & Hci & Hp1 & Hc1 & Hk1);
    [|auto|done|done|done|done].
  cbn [fst snd] in Hsh1, Hci.
  destruct (nodes_of s (tree_id t) x) as [|m0 ms]; [done|].
  cbn [map] in Hci. subst ci.
  destruct x as [lx|]; [|done]. cbn match.
  pose proof (sh_routes _ _ Hsh1 (Some lx)) as [_ Hr].
  match type of Hr with
  | match ?d with _ => _ end => destruct d as [route|]
  end.
  - destruct Hr as [Hh _].
    destruct (spread_counts_returns s1 t1 (Some lx) Hsh1
                (nodes_of s1 (tree_id t1) (Some lx)) [] s1
                (S (length (heap s1))) eq_refl (same_shape_refl s1))
      as [s2 Hs2].
    { pose proof (nodes_of_length s1 (tree_id t1) (Some lx)). lia. }
    rewrite Hh in Hs2.
    assert (Hsp : (s <- get_store ;;
                   spread_counts (S (length (heap s))) (Some (fst route))) s1
                  = Ok tt s2) by exact Hs2.
    rewrite (bind_run _ _ _ _ _ Hsp). eexists _, _. done.
  - eexists _, _. done.
Qed.
End Progress.

(** ** The miner returns and misses no frequent itemset *)

Section MinerComplete.
Context {Label : Type} `{EqDecision Label}.
Local Abbreviation Item := (Item Label).
Local Abbreviation M := (M Label).
Implicit Types (s : Store Label) (nd : FPNode Label) (t : FPTree Label).
Implicit Types (db ts : list (list Item)) (q suffix : list Item).
Implicit Types (i k x : Item).

(** An item of a transaction has a route in the prefix tree, and nodes. *)
Lemma db_item_key s t db tr k :
  trie s t db -> tr ∈ db -> k ∈ tr ->
  k ∈ dict_keys (_routes t) /\ nodes_of s (tree_id t) k <> [].
Proof.
  intros (Hsh & [_ Hpc] & _) Htr Hk.
  destruct (upto_split k tr Hk) as (init & Heq & _).
  destruct (Hpc (init ++ [k])) as [n Hn].
  { exists tr. split; [done|]. rewrite <- Heq. apply upto_prefix. }
  assert (Hin : n ∈ nodes_of s (tree_id t) k)
    by (apply (nodes_of_walk s t k n Hsh); eauto).
  assert (HL : nodes_of s (tree_id t) k <> []).
  { intros Heq'. rewrite Heq' in Hin. inversion Hin. }
  split; [|done].
  destruct (decide (k ∈ dict_keys (_routes t))) as [|Hni]; [done|].
  apply dict_get_None_keys in Hni.
  pose proof (sh_routes _ _ Hsh k) as [_ Hroute]. rewrite Hni in Hroute.
  done.
Qed.

Variable R : relation Item.
Context `{!StrictOrder R}.

Lemma find_with_suffix_complete (cols : list Item) ts (minimum_support : Z)
  (include_support : bool) (fuel : nat) :
  None ∉ cols ->
  forall t suffix s db,
    trie s t db -> Forall (StronglySorted R) db ->
    store_ok s -> (tree_id t < next_tree s)%nat ->
    conditional_on R ts suffix db -> db_bounded R suffix db ->
    (forall tr i, tr ∈ db -> i ∈ tr -> i ∈ cols) ->
    StronglySorted R suffix -> (forall i, i ∈ suffix -> i ∈ cols) ->
    (length cols < fuel + length suffix)%nat ->
    mined_all R ts minimum_support suffix s
      (find_with_suffix fuel minimum_support include_support t suffix s).
Proof.
  intros Hlabels. induction fuel as [|fuel IH];
    intros t suffix s db Htrie Hdb Hok Htid Hcond Hbound Hitems Hsuf Hsufc
      Hfuel.
  { exfalso.
    pose proof (submseteq_length _ _
                  (NoDup_submseteq _ _ (sorted_NoDup R suffix Hsuf) Hsufc)).
    cbn in Hfuel. lia. }
  rewrite find_with_suffix_S.
  match goal with |- context [for_yield _ ?body] => set (f := body) end.
  pose proof (sorted_db_NoDup R db Hdb) as Hnodup.
  (* one turn of the loop *)
  assert (Hbody : forall item s0,
            item ∈ dict_keys (_routes t) ->
            trie s0 t db -> store_ok s0 -> (tree_id t < next_tree s0)%nat ->
            (exists s', snd (f item s0) = Ok tt s' /\
                        kept (next_tree s0) s0 s' /\ store_ok s') /\
            forall J : list Item,
              StronglySorted R (J ++ item :: suffix) ->
              (minimum_support <= support ts (J ++ item :: suffix))%Z ->
              (0 < support ts (J ++ item :: suffix))%Z ->
              J ++ item :: suffix ∈ map fst (fst (f item s0))).
  { clear s Htrie Hok Htid. intros item s Hkey Htrie Hok Htid. unfold f.
    rewrite find_with_suffix_body.
    pose proof Htrie as (Hsh & [Hps Hpc] & Hcnt).
    rewrite (nodes_route_inv s t item (sh_routes _ _ Hsh)).
    rewrite (trie_item_support s t db item Htrie Hnodup).
    destruct (key_in_db s t db item Htrie Hkey) as (tr & Htr & Hin).
    destruct ((minimum_support <=? support db [item])%Z &&
              negb (bool_decide (item ∈ suffix))) eqn:Hc.
    2:{ split.
        - exists s. split; [done|]. split; [apply kept_refl|done].
        - intros J Hs Hmin _. exfalso.
          pose proof (StronglySorted_app_1_r _ _ _ Hs) as Hs'.
          apply StronglySorted_cons in Hs' as [Hall _].
          apply andb_false_iff in Hc as [Hc|Hc].
          + apply Z.leb_gt in Hc.
            assert (Heq : support db [item] = support ts (item :: suffix)).
            { apply (Hcond [item]). constructor; [|constructor].
              destruct suffix as [|y suffix']; [done|].
              apply Forall_cons in Hall as [Hy _]. done. }
            pose proof (support_mono ts (item :: suffix)
                          (J ++ item :: suffix)) as Hm.
            specialize (Hm ltac:(intros i Hi; apply elem_of_app; right;
                                 done)).
            lia.
          + apply negb_false_iff, bool_decide_eq_true in Hc.
            rewrite Forall_forall in Hall.
            apply (irreflexivity R item). auto. }
    apply andb_prop in Hc as [_ Hni].
    apply negb_true_iff, bool_decide_eq_false in Hni.
    cbn zeta.
    assert (Hbefore : match suffix with [] => True | y :: _ => R item y end).
    { specialize (Hbound tr item Htr Hin).
      destruct suffix as [|y suffix]; [done|].
      destruct Hbound as [->|]; [|done]. exfalso. apply Hni. left. }
    assert (Hitem : item ∈ cols) by (eapply Hitems; done).
    assert (Hx : item <> None) by (intros ->; done).
    destruct (db_item_key s t db tr item Htrie Htr Hin) as [_ HL].
    rewrite (prefix_paths_run s t item Hsh).
    destruct (conditional_tree_returns db item s t Htrie Hnodup Hok Htid Hx
                HL) as (ct & s4 & Hct).
    rewrite Hct.
    apply (conditional_tree_trie db item s t ct s4 Htrie Hnodup Hok Htid)
      in Hct as (Htrie4 & Hid4 & Hkept4 & Hok4 & Hnext4).
    assert (Hsuf' : StronglySorted R (item :: suffix)).
    { apply StronglySorted_cons. split; [|done].
      destruct suffix as [|y suffix']; [constructor|].
      apply StronglySorted_cons in Hsuf as [Hally _].
      constructor; [done|].
      eapply Forall_impl; [exact Hally|]. intros z Hz. etransitivity; done. }
    destruct (IH ct (item :: suffix) s4 (cond_db item db))
      as [(s5 & Hend & Hk5 & Hok5) Hall].
    - done.
    - apply cond_db_sorted. done.
    - done.
    - lia.
    - apply conditional_on_cond_db; done.
    - apply cond_db_bounded. done.
    - intros tr' i Htr' Hi. unfold cond_db in Htr'.
      apply list_elem_of_fmap in Htr' as (tr0 & -> & Htr0).
      apply list_elem_of_filter in Htr0 as [_ Htr0].
      apply elem_of_upto in Hi. eauto.
    - done.
    - intros i Hi. apply elem_of_cons in Hi as [->|Hi]; auto.
    - cbn [length]. lia.
    - cbn [fst snd]. split.
      + exists s5. split; [done|]. split; [|done].
        eapply kept_trans; [exact Hkept4|].
        eapply kept_weaken; [|exact Hk5]. lia.
      + intros J Hs Hmin Hpos. cbn [map fst].
        destruct J as [|j J']; [left|]. right.
        apply (Hall (j :: J')); done. }
  (* the loop *)
  assert (Hloop : forall ks s0,
            (forall k, k ∈ ks -> k ∈ dict_keys (_routes t)) ->
            trie s0 t db -> store_ok s0 -> (tree_id t < next_tree s0)%nat ->
            (exists s', snd (for_yield ks f s0) = Ok tt s' /\
                        kept (next_tree s0) s0 s' /\ store_ok s') /\
            forall k (J : list Item),
              k ∈ ks ->
              StronglySorted R (J ++ k :: suffix) ->
              (minimum_support <= support ts (J ++ k :: suffix))%Z ->
              (0 < support ts (J ++ k :: suffix))%Z ->
              J ++ k :: suffix ∈ map fst (fst (for_yield ks f s0))).
  { induction ks as [|item ks IHks]; intros s0 Hsub Htrie0 Hok0 Htid0.
    - split; [|intros k J Hk; inversion Hk].
      exists s0. split; [done|]. split; [apply kept_refl|done].
    - rewrite for_yield_cons.
      destruct (Hbody item s0 (Hsub item (list_elem_of_here _ _)) Htrie0
                  Hok0 Htid0) as [(s1 & Hend1 & Hk1 & Hok1) Hys].
      destruct (f item s0) as [ys r]. cbn [fst snd] in Hend1, Hys. subst r.
      pose proof (kept_next _ _ _ Hk1) as Hn1.
      destruct (IHks s1) as [(s2 & Hend2 & Hk2 & Hok2) Hzs].
      + intros k Hk. apply Hsub. right. done.
      + eapply kept_trie; done.
      + done.
      + lia.
      + cbn [fst snd]. split.
        * exists s2. split; [done|]. split; [|done].
          eapply kept_trans; [exact Hk1|].
          eapply kept_weaken; [|exact Hk2]. done.
        * intros k J Hk Hs Hmin Hpos. rewrite map_app. apply elem_of_app.
          apply elem_of_cons in Hk as [->|Hk]; [left; auto|right; eauto]. }
  destruct (Hloop (FPTree.items t) s (fun k Hk => Hk) Htrie Hok Htid)
    as [Hret Hall].
  split; [done|].
  intros J Hne Hs Hmin Hpos.
  destruct J as [|k J' _] using rev_ind; [done|].
  assert (Hk : k ∈ dict_keys (_routes t)).
  { assert (Hsup : support db (J' ++ [k]) =
                   support ts ((J' ++ [k]) ++ suffix)).
    { apply Hcond. apply Forall_forall. intros j Hj.
      destruct suffix as [|y suffix']; [done|].
      eapply StronglySorted_app_1_elem_of; [exact Hs|done|left]. }
    rewrite <- Hsup in Hpos.
    destruct (support_pos db _ Hpos) as (tr & Htr & Hall').
    eapply db_item_key; [done|done|]. apply Hall'.
    apply elem_of_app. right. left. }
  revert Hs Hmin Hpos. rewrite <- app_assoc. cbn [app].
  intros Hs Hmin Hpos. apply Hall; done.
Qed.
End MinerComplete.

(** ** A whole run: it returns, and what it yields *)

Section RunComplete.
Context {Label : Type} `{EqDecision Label}.
Local Abbreviation Item := (Item Label).
Implicit Types (s : Store Label) (df : DataFrame Label).

Lemma transactions_tail_columns df tr i :
  tr ∈ tail (transactions df) -> i ∈ tr -> i ∈ columns df.
Proof.
  intros Htr Hi.
  assert (Htr' : tr ∈ transactions df).
  { destruct (transactions df); [done|]. right. done. }
  unfold transactions in Htr'.
  apply list_elem_of_fmap in Htr' as (row & -> & _).
  eapply row_items_elem. done.
Qed.

(** A frame in which a transaction holds an item has a column. *)
Lemma held_itemset_columns df (itemset : list Item) :
  itemset <> [] ->
  (0 < support (tail (transactions df)) itemset)%Z ->
  columns df <> [] \/ rows df = [].
Proof.
  intros Hne Hpos. left.
  destruct (support_pos _ _ Hpos) as (tr & Htr & Hall).
  destruct itemset as [|i itemset]; [done|].
  pose proof (transactions_tail_columns df tr i Htr
                (Hall i (list_elem_of_here _ _))) as Hi.
  intros Hnil. rewrite Hnil in Hi. inversion Hi.
Qed.

Lemma find_frequent_itemsets_complete df (fuel : nat) (minimum_support : Z)
  (include_support : bool) s :
  index df = default_index (length (rows df)) ->
  columns df <> [] \/ rows df = [] ->
  NoDup (columns df) -> None ∉ columns df -> store_ok s ->
  (length (columns df) < fuel)%nat ->
  mined_all (before (columns df)) (tail (transactions df)) minimum_support
    [] s (find_frequent_itemsets fuel df minimum_support include_support s).
Proof.
  intros Hidx Hshape Hcols Hlabels Hok Hfuel. unfold find_frequent_itemsets.
  rewrite gen_bind_call.
  destruct (build_from_returns (tail (transactions df)) s Hok)
    as (master & s1 & Hbuild).
  rewrite (build_master_default df s Hidx Hshape), Hbuild.
  apply build_from_trie in Hbuild as (Htrie & Hid & Hkept & Hok1 & Hnext);
    [|done].
  destruct (find_with_suffix_complete (before (columns df))
              (StrictOrder0:=before_strict (columns df)) (columns df)
              (tail (transactions df)) minimum_support include_support fuel
              Hlabels master [] s1 (tail (transactions df)))
    as [(s' & Hend & Hk & Hok') Hall]; try done.
  - apply transactions_tail_sorted. done.
  - lia.
  - intros J _. rewrite app_nil_r. done.
  - apply transactions_tail_columns.
  - constructor.
  - intros i Hi. inversion Hi.
  - cbn [length]. lia.
  - split; [|done]. exists s'. split; [done|]. split; [|done].
    eapply kept_trans; [exact Hkept|]. eapply kept_weaken; [|exact Hk]. lia.
Qed.

Lemma find_frequent_itemsets_sorted df (fuel : nat) (minimum_support : Z)
  (include_support : bool) s :
  NoDup (columns df) ->
  Forall (fun e => StronglySorted (before (columns df)) (fst e) /\
                   fst e <> [])
    (fst (find_frequent_itemsets fuel df minimum_support include_support s)).
Proof.
  intros Hcols. unfold find_frequent_itemsets. rewrite gen_bind_call.
  destruct (build_master df s) as [master s1|e s1] eqn:Hbuild;
    [|constructor].
  apply build_master_Ok in Hbuild as (ts & Hts & Hbuild).
  unfold build_from in Hbuild.
  apply bind_Ok in Hbuild as (t0 & s0 & Hnew & Hbuild).
  apply new_tree_Ok in Hnew as [-> ->].
  destruct (sorted_new (before (columns df)) (length (heap s)) s
              (sorted_store_start _ s)) as (Hss0 & Hst0 & _).
  apply (add_all_sorted (before (columns df))
           (StrictOrder0:=before_strict (columns df)) (length (heap s)))
    in Hbuild
    as [Hss1 Hst1]; [|done|done|].
  2:{ pose proof (transactions_sorted df Hcols) as Hall.
      rewrite Forall_forall in Hall. apply Forall_forall. auto. }
  destruct (find_with_suffix_sorted (before (columns df))
              (StrictOrder0:=before_strict (columns df)) (length (heap s))
              minimum_support include_support fuel master [] s1 Hss1 Hst1)
    as [[Hall _] _]; [constructor|done|].
  eapply Forall_impl; [exact Hall|].
  intros e [Hs (pre & i & _ & Heq)]. split; [done|]. rewrite Heq.
  intros H0. destruct pre; discriminate H0.
Qed.

(** For a data frame with the default index that has a column, or no
    row: when the column labels are all different and none is [None], a
    run with fuel for one call more than there are columns returns, and
    every node the store had is left as it was. *)
Theorem find_frequent_itemsets_returns df (fuel : nat) (minimum_support : Z)
  (include_support : bool) s :
  index df = default_index (length (rows df)) ->
  columns df <> [] \/ rows df = [] ->
  NoDup (columns df) -> None ∉ columns df -> store_ok s ->
  (length (columns df) < fuel)%nat ->
  exists s',
    snd (find_frequent_itemsets fuel df minimum_support include_support s) =
      Ok tt s' /\
    forall n nd, heap s !! n = Some nd -> heap s' !! n = Some nd.
Proof.
  intros Hidx Hshape Hcols Hlabels Hok Hfuel.
  destruct (find_frequent_itemsets_complete df fuel minimum_support
              include_support s Hidx Hshape Hcols Hlabels Hok Hfuel)
    as [(s' & Hend & (Hk & _) & _) _].
  exists s'. split; [done|]. intros n nd Hnd. apply Hk; [done|].
  apply (Hok n nd Hnd).
Qed.

(** For a data frame with the default index, every itemset that is not
    empty, lists columns in their order, is held by at least one of the
    transactions of the rows after the first and by at least
    [minimum_support] of them, is yielded. *)
Theorem frequent_itemset_is_yielded df (fuel : nat) (minimum_support : Z)
  (include_support : bool) s (itemset : list Item) :
  index df = default_index (length (rows df)) ->
  NoDup (columns df) -> None ∉ columns df -> store_ok s ->
  (length (columns df) < fuel)%nat ->
  itemset <> [] -> StronglySorted (before (columns df)) itemset ->
  (minimum_support <= support (tail (transactions df)) itemset)%Z ->
  (0 < support (tail (transactions df)) itemset)%Z ->
  itemset ∈
    map fst
      (fst (find_frequent_itemsets fuel df minimum_support include_support
              s)).
Proof.
  intros Hidx Hcols Hlabels Hok Hfuel Hne Hs Hmin Hpos.
  destruct (find_frequent_itemsets_complete df fuel minimum_support
              include_support s Hidx
              (held_itemset_columns df itemset Hne Hpos) Hcols Hlabels Hok
              Hfuel) as [_ Hall].
  specialize (Hall itemset Hne). rewrite app_nil_r in Hall. auto.
Qed.

(** For a data frame with the default index: whatever the threshold,
    also 0 or less, a yielded itemset is held by at least one transaction
    of the rows after the first. *)
Theorem yielded_support_positive df (fuel : nat) (minimum_support : Z)
  (include_support : bool) s :
  index df = default_index (length (rows df)) ->
  NoDup (columns df) -> store_ok s ->
  Forall (fun e => (0 < support (tail (transactions df)) (fst e))%Z)
    (fst (find_frequent_itemsets fuel df minimum_support include_support s)).
Proof.
  intros Hidx Hcols Hok.
  eapply Forall_impl;
    [apply (find_frequent_itemsets_sound df fuel minimum_support
              include_support s Hidx Hcols Hok)|].
  intros e [_ He]. done.
Qed.

(** A yielded itemset is not empty and lists its items in the order of
    the columns. *)
Theorem yielded_itemsets_in_column_order df (fuel : nat)
  (minimum_support : Z) (include_support : bool) s :
  NoDup (columns df) ->
  Forall (fun e => StronglySorted (before (columns df)) (fst e) /\
                   fst e <> [])
    (fst (find_frequent_itemsets fuel df minimum_support include_support s)).
Proof. apply find_frequent_itemsets_sorted. Qed.

(** For a data frame with the default index and with [include_support],
    a run that has fuel enough yields exactly the frequent itemsets with
    their supports: a pair is yielded just when
    its itemset is not empty and in column order, its support is the
    number of transactions of the rows after the first that hold the
    itemset, and that number is positive and reaches [minimum_support]. *)
Theorem yields_exactly_the_frequent df (fuel : nat) (minimum_support : Z) s
  (e : emitted Label) :
  index df = default_index (length (rows df)) ->
  NoDup (columns df) -> None ∉ columns df -> store_ok s ->
  (length (columns df) < fuel)%nat ->
  e ∈ fst (find_frequent_itemsets fuel df minimum_support true s) <->
  fst e <> [] /\ StronglySorted (before (columns df)) (fst e) /\
  snd e = Some (support (tail (transactions df)) (fst e)) /\
  (minimum_support <= support (tail (transactions df)) (fst e))%Z /\
  (0 < support (tail (transactions df)) (fst e))%Z.
Proof.
  intros Hidx Hcols Hlabels Hok Hfuel.
  pose proof (find_frequent_itemsets_sound df fuel minimum_support true s
                Hidx Hcols Hok) as [Hsound _].
  rewrite Forall_forall in Hsound. split.
  - intros He.
    pose proof (find_frequent_itemsets_sorted df fuel minimum_support true s
                  Hcols) as Hsorted.
    rewrite Forall_forall in Hsorted.
    destruct (Hsorted e He) as [Hs Hne].
    destruct (Hsound e He) as [Hsup Hpos].
    assert (Hmin : Forall (fun e => exists support,
                     snd e = Some support /\ (minimum_support <= support)%Z)
              (fst (find_frequent_itemsets fuel df minimum_support true s))).
    { unfold find_frequent_itemsets. rewrite gen_bind_call.
      destruct (build_master df s) as [master s1|e0 s1]; [|constructor].
      apply (find_with_suffix_Forall
               (fun _ e => exists support,
                  snd e = Some support /\ (minimum_support <= support)%Z)).
      - intros suffix item support Hle _. exists support. done.
      - auto. }
    rewrite Forall_forall in Hmin.
    destruct (Hmin e He) as (sigma & Hsig & Hle).
    repeat (split; [done|]). split; [|done]. congruence.
  - intros (Hne & Hs & Hsup & Hmin & Hpos).
    destruct (find_frequent_itemsets_complete df fuel minimum_support true s
                Hidx (held_itemset_columns df (fst e) Hne Hpos) Hcols
                Hlabels Hok Hfuel) as [_ Hall].
    specialize (Hall (fst e) Hne). rewrite app_nil_r in Hall.
    specialize (Hall Hs Hmin Hpos).
    apply list_elem_of_fmap in Hall as (e' & Heq & He').
    destruct (Hsound e' He') as [Hsup' _].
    destruct e as [I sigma], e' as [I' sigma']. cbn [fst snd] in *.
    subst I'. rewrite Hsup, <- Hsup'. done.
Qed.
End RunComplete.

(** ** The trees as prefix trees *)

Section PrefixTrees.
Context {Label : Type} `{EqDecision Label}.
Local Abbreviation Item := (Item Label).
Implicit Types (s : Store Label) (nd : FPNode Label) (t : FPTree Label).
Implicit Types (ts db : list (list Item)) (q : list Item) (x : Item).

(** In a prefix tree the way [q] leads to a node when a transaction
    starts with [q], and to none otherwise. *)
Lemma trie_walk_count s t db q :
  trie s t db -> q <> [] ->
  match walk (heap s) (_root t) q with
  | Some n =>
      exists nd, heap s !! n = Some nd /\ last q = Some (_item nd) /\
                 _count nd = Some (prefix_count db q) /\
                 (0 < prefix_count db q)%Z
  | None => prefix_count db q = 0%Z
  end.
Proof.
  intros (Hsh & [Hps Hpc] & Hcnt) Hne.
  destruct (walk (heap s) (_root t) q) as [n|] eqn:Hw.
  - destruct (Hcnt q n Hne Hw) as (nd & Hnd & Hc).
    destruct (walk_in_tree s t q n Hsh Hw) as (nd' & Hnd' & _ & _ & Hch).
    assert (nd' = nd) as -> by congruence.
    destruct (Hch Hne) as (_ & _ & Hl).
    exists nd. repeat (split; [done|]). apply prefix_count_pos. eauto.
  - destruct (Z.eq_dec (prefix_count db q) 0%Z) as [|Hnz]; [done|]. exfalso.
    pose proof (prefix_count_nonneg db q).
    assert (Hpos : (0 < prefix_count db q)%Z) by lia.
    apply prefix_count_pos in Hpos. destruct (Hpc q Hpos) as [n Hn].
    congruence.
Qed.

(** A fresh tree filled with [ts] by [add] is the prefix tree of [ts]:
    going down from the root through the children filed under the items
    of [q], one comes to a node just when some transaction starts with
    [q]; the node carries the last item of [q], and its count is the
    number of transactions that start with [q]. *)
Theorem master_is_prefix_tree ts s :
  store_ok s ->
  exists t s',
    build_from ts s = Ok t s' /\
    forall q, q <> [] ->
      match walk (heap s') (_root t) q with
      | Some n =>
          exists nd, heap s' !! n = Some nd /\ last q = Some (_item nd) /\
                     _count nd = Some (prefix_count ts q) /\
                     (0 < prefix_count ts q)%Z
      | None => prefix_count ts q = 0%Z
      end.
Proof.
  intros Hok. destruct (build_from_returns ts s Hok) as (t & s' & Hrun).
  destruct (build_from_trie ts s t s' Hok Hrun) as (Htrie & _).
  exists t, s'. split; [done|]. intros q Hne.
  apply trie_walk_count; done.
Qed.

(** The prefix paths of [x] in a tree filled with transactions none of
    which repeats an item: read as lists of items they are, without
    repetition, the transactions that hold [x], each cut after [x]; and
    the last node of a path has for count the number of transactions that
    start with the path's items. *)
Theorem prefix_paths_of_master ts x s :
  store_ok s -> Forall NoDup ts ->
  exists t s' (paths : list (list nat)) (qs : list (list Item)),
    build_from ts s = Ok t s' /\
    FPTree.prefix_paths t x s' = Ok paths s' /\
    Forall2 (fun path q =>
               carry s' path q /\
               exists (n : nat) nd,
                 last path = Some n /\ heap s' !! n = Some nd /\
                 _count nd = Some (prefix_count ts q)) paths qs /\
    NoDup qs /\
    forall q, q ∈ qs <-> exists tr, tr ∈ ts /\ x ∈ tr /\ q = upto x tr.
Proof.
  intros Hok Hts. destruct (build_from_returns ts s Hok) as (t & s' & Hrun).
  destruct (build_from_trie ts s t s' Hok Hrun) as (Htrie & _).
  pose proof Htrie as (Hsh & [Hps Hpc] & Hcnt).
  destruct (nodes_paths s' t x Hsh) as (qs & Hwalks & Hnd & Hends & Hcover).
  { intros q n Hw. eapply trie_walk_NoDup; done. }
  rewrite Forall_forall in Hends.
  exists t, s', (map (path_to s') (nodes_of s' (tree_id t) x)), qs.
  split; [done|]. split; [apply prefix_paths_run; done|].
  split; [|split; [done|]].
  - apply Forall2_fmap_l. apply Forall2_same_length_lookup_2.
    { eapply Forall2_length. done. }
    intros j n q Hn Hq.
    pose proof (Forall2_lookup_lr _ _ _ _ _ _ Hwalks Hn Hq) as Hw.
    destruct (Hends q (list_elem_of_lookup_2 _ _ _ Hq)) as (init & -> & Hni).
    assert (Hne : init ++ [x] <> [])
      by (intros Heq; destruct init; discriminate Heq).
    cbn beta delta [compose].
    rewrite (path_to_walk s' t _ n Hsh Hw). split.
    + apply (walk_nodes_Forall2 s' t _ n); [done|].
      intros j0 m i _ Hm.
      destruct (walk_parent s' t _ i m Hsh Hm) as (md & Hmd & Hmi & _).
      unfold item_at. rewrite Hmd. cbn. congruence.
    + destruct (Hcnt _ n Hne Hw) as (nd & Hnd' & Hc).
      exists n, nd. split; [|done].
      rewrite (walk_nodes_last s' t init x n Hsh Hw). apply last_snoc.
  - intros q. split.
    + intros Hq. apply list_elem_of_lookup in Hq as [j Hj].
      destruct (Forall2_lookup_r _ _ _ _ _ Hwalks Hj) as (n & _ & Hw).
      destruct (Hends q (list_elem_of_lookup_2 _ _ _ Hj))
        as (init & -> & Hni).
      assert (Hne : init ++ [x] <> [])
        by (intros Heq; destruct init; discriminate Heq).
      destruct (Hps _ n Hne Hw) as (tr & Htr & Hpre).
      destruct (prefix_upto _ _ _ Hni Hpre) as [Hin Hup].
      exists tr. done.
    + intros (tr & Htr & Hin & ->).
      destruct (upto_split x tr Hin) as (init & Heq & Hni).
      rewrite Heq. apply Hcover. apply Hpc. exists tr. split; [done|].
      rewrite <- Heq. apply upto_prefix.
Qed.

(** The conditional tree of an item [x] that is not [None] and that some
    transaction holds: [conditional_tree_from_paths] returns on the
    prefix paths of [x], and the tree it returns is the prefix tree of the
    transactions that hold [x], each cut after [x]. *)
Theorem conditional_tree_is_prefix_tree ts x tr s :
  store_ok s -> Forall NoDup ts -> x <> None -> tr ∈ ts -> x ∈ tr ->
  exists t s1 (paths : list (list nat)) t' s2,
    build_from ts s = Ok t s1 /\
    FPTree.prefix_paths t x s1 = Ok paths s1 /\
    conditional_tree_from_paths paths s1 = Ok t' s2 /\
    forall q, q <> [] ->
      match walk (heap s2) (_root t') q with
      | Some n =>
          exists nd, heap s2 !! n = Some nd /\ last q = Some (_item nd) /\
                     _count nd = Some (prefix_count (cond_db x ts) q) /\
                     (0 < prefix_count (cond_db x ts) q)%Z
      | None => prefix_count (cond_db x ts) q = 0%Z
      end.
Proof.
  intros Hok Hts Hx Htr Hin.
  destruct (build_from_returns ts s Hok) as (t & s1 & Hrun).
  destruct (build_from_trie ts s t s1 Hok Hrun)
    as (Htrie & Hid & _ & Hok1 & Hnext).
  destruct (db_item_key s1 t ts tr x Htrie Htr Hin) as [_ HL].
  assert (Htid : (tree_id t < next_tree s1)%nat) by lia.
  destruct (conditional_tree_returns ts x s1 t Htrie Hts Hok1 Htid Hx HL)
    as (t' & s2 & Hct).
  exists t, s1, (map (path_to s1) (nodes_of s1 (tree_id t) x)), t', s2.
  split; [done|]. split; [apply prefix_paths_run; apply Htrie|].
  split; [done|].
  apply (conditional_tree_trie ts x s1 t t' s2 Htrie Hts Hok1 Htid) in Hct
    as (Htrie2 & _).
  intros q Hne. apply trie_walk_count; done.
Qed.
End PrefixTrees.

(** ** The rows are taken by their labels *)

Section RowLabels.
Context {Label : Type} `{EqDecision Label}.
Local Abbreviation Item := (Item Label).
Local Abbreviation M := (M Label).
Implicit Types (s : Store Label) (df : DataFrame Label).





(** Under labels that are all different, a row label finds at most one
    row, and none when it is not among them. *)
Lemma filter_label_Missing {A} (idx : list Z) (T : list A) (l : Z) :
  l ∉ idx -> filter (fun e : Z * A => fst e = l) (combine idx T) = [].
Proof.
  intros Hl. apply length_zero_iff_nil, length_filter_none.
  intros [l' t] Hin Heq. cbn in Heq. subst l'. apply Hl.
  apply list_elem_of_In in Hin. apply in_combine_l in Hin.
  apply list_elem_of_In. done.
Qed.

Lemma filter_label_NoDup {A} (idx : list Z) (T : list A) (l : Z) :
  NoDup idx ->
  (length (filter (fun e : Z * A => fst e = l) (combine idx T)) <= 1)%nat.
Proof.
  intros Hnd. revert T. induction Hnd as [|i idx Hni Hnd IH]; intros T.
  { cbn. lia. }
  destruct T as [|t T]; [cbn; lia|]. cbn [combine]. rewrite filter_cons.
  cbn [fst]. destruct (decide (i = l)) as [->|Hne]; [|apply IH].
  rewrite (filter_label_Missing idx T l Hni). cbn. lia.
Qed.

Lemma add_rows_KeyError (z : Series (list Item)) (range : list nat) :
  forall (master : FPTree Label) s,
    tree_ok s master ->
    (forall (m : nat) l, m ∈ range ->
       Series_getitem z (Z.of_nat m) <> Several l) ->
    (exists n : nat, n ∈ range /\ Series_getitem z (Z.of_nat n) = Missing) ->
    exists s', add_rows master z range s = Raise KeyError s'.
Proof.
  induction range as [|m range IH]; intros master s Hok Hns (n & Hn & Hmiss).
  { inversion Hn. }
  cbn [add_rows].
  destruct (Series_getitem z (Z.of_nat m)) as [t|l|] eqn:Hg.
  - unfold FPTree.add.
    destruct (add_from_returns t master (_root master) s Hok
                (tok_root _ _ Hok)) as (t1 & s1 & Hrun & Hok1 & _).
    rewrite (bind_run _ _ _ _ _ Hrun). apply IH; [done| |].
    + intros m' l Hm'. apply Hns. right. done.
    + exists n. split; [|done].
      apply elem_of_cons in Hn as [->|Hn]; [congruence|done].
  - exfalso. eapply Hns; [left|done].
  - eexists. done.
Qed.

(** For a frame with a column whose row labels are all different: when
    some number from 1 to [len - 1] is not a row label, the call raises
    KeyError, and yields nothing. *)
Theorem missing_row_label_raises_KeyError df (fuel : nat)
  (minimum_support : Z) (include_support : bool) s (n : nat) :
  store_ok s -> columns df <> [] ->
  length (index df) = length (rows df) -> NoDup (index df) ->
  (1 <= n < length (rows df))%nat -> Z.of_nat n ∉ index df ->
  exists s',
    find_frequent_itemsets fuel df minimum_support include_support s =
      ([], Raise KeyError s').
Proof.
  intros Hok Hcols Hwf Hnd Hn Hmiss.
  assert (Hz : row_lists df s = Ok (combine (index df) (transactions df)) s).
  { unfold row_lists. destruct (columns df); [done|]. done. }
  assert (Hlen : length (combine (index df) (transactions df)) =
                 length (rows df)).
  { rewrite length_combine. unfold transactions. rewrite length_map. lia. }
  destruct (add_rows_KeyError (combine (index df) (transactions df))
              (seq 1 (length (rows df) - 1))
              (mkFPTree (next_tree s) (length (heap s)) [])
              (mkStore (heap s ++ [root_node (next_tree s)])
                 (S (next_tree s)))
              (tree_ok_new s Hok)) as [s' Hrun].
  - intros m l _ Hg. unfold Series_getitem, Series in Hg.
    pose proof (filter_label_NoDup (index df) (transactions df)
                  (Z.of_nat m) Hnd) as Hle.
    destruct (filter (fun e : Z * list Item => fst e = Z.of_nat m)
                (combine (index df) (transactions df))) as [|e [|e2 l2]];
      try discriminate Hg. cbn in Hle. lia.
  - exists n. split; [apply elem_of_seq; lia|].
    unfold Series_getitem, Series.
    rewrite (filter_label_Missing (index df) (transactions df) _ Hmiss).
    done.
  - exists s'. unfold find_frequent_itemsets. rewrite gen_bind_call.
    unfold build_master. rewrite (bind_run _ _ _ _ _ Hz).
    rewrite (bind_run _ _ _ _ _ (new_tree_run s)), Hlen, Hrun. done.
Qed.
End RowLabels.

(** ** Concrete runs *)

Section Witnesses.
Import Scenario.

Lemma increment_spec_witness :
  FPNode.increment 0 store_root_and_zero = Raise ValueError store_root_and_zero /\
  FPNode.increment 1 store_root_and_zero =
    Ok tt (mkStore [mkFPNode 0 None None None [(a, 1%nat)] None;
                    mkFPNode 0 a (Some 1%Z) (Some 0%nat) [] None] 1).
Proof.
  split.
  - exact (increment_spec store_root_and_zero 0 _ eq_refl).
  - exact (increment_spec store_root_and_zero 1 _ eq_refl).
Defined.

Lemma add_existing_child_noop_witness :
  FPNode.add 0 2 store_two_a = Ok tt store_two_a.
Proof.
  exact (add_existing_child_noop store_two_a 0 2 _ _ 1 eq_refl eq_refl eq_refl).
Defined.

Lemma store_ok_empty : store_ok (empty_store (Label:=string)).
Proof. intros n nd Hn. destruct n; discriminate Hn. Defined.

Lemma nodes_enumerates_item_witness :
  exists (t : FPTree string) (s' : Store string),
    build_from master_rows empty_store = Ok t s' /\
    forall k, exists l,
      FPTree.nodes t k s' = Ok l s' /\
      (forall n, n ∈ l <->
         exists nd, heap s' !! n = Some nd /\ carries (tree_id t) k nd) /\
      NoDup l /\ StronglySorted lt l.
Proof.
  exact (nodes_enumerates_item master_rows empty_store store_ok_empty).
Defined.

(** The master tree of the scenario, and the nodes it has for [b]. *)
Example master_tree_built :
  build_from master_rows empty_store = Ok master_tree master_store /\
  FPTree.nodes master_tree b master_store = Ok [2; 4]%nat master_store.
Proof. split; vm_compute; reflexivity. Qed.

Lemma store_ok_master : store_ok master_store.
Proof.
  intros n nd Hn.
  do 6 (destruct n as [|n]; [injection Hn as <-; cbn; lia|]).
  discriminate Hn.
Defined.

Lemma paths_of_c_end_at_c : Forall (path_ends_at master_store c) paths_of_c.
Proof.
  constructor; [|constructor; [|constructor]].
  - exists [1; 2]%nat, 3%nat. split; [reflexivity|]. split; [reflexivity|].
    constructor; [exists a; split; [reflexivity|discriminate]|].
    constructor; [exists b; split; [reflexivity|discriminate]|constructor].
  - exists [4]%nat, 5%nat. split; [reflexivity|]. split; [reflexivity|].
    constructor; [exists b; split; [reflexivity|discriminate]|constructor].
Defined.

Lemma conditional_tree_counts_witness :
  counts_conserved cond_store (tree_id cond_tree) c.
Proof.
  exact (conditional_tree_counts paths_of_c "c" master_store cond_tree
           cond_store store_ok_master paths_of_c_end_at_c eq_refl).
Defined.

(** In that conditional tree the node for [a] has the count of the one
    node for [c] below it, and so has each node for [b]. *)
Example cond_store_below :
  below cond_store 1 c 7 = [9%nat] /\ below cond_store 1 c 8 = [9%nat] /\
  below cond_store 1 c 10 = [11%nat].
Proof. repeat split; vm_compute; reflexivity. Qed.

Lemma scenario_columns_differ : NoDup (columns df).
Proof.
  apply (bool_decide_unpack _). vm_compute. exact I.
Defined.



(** C1 (the code at a failing input). One transaction [a] and threshold 1:
    the itemset [a] has brute-force support 1, and nothing is yielded. *)
Theorem single_transaction_yields_nothing :
  support (transactions df_single) [a] = 1%Z /\
  fst (find_frequent_itemsets 3 df_single 1 true empty_store) = [] /\
  returned (snd (find_frequent_itemsets 3 df_single 1 true empty_store))
    = true.
Proof. repeat split; vm_compute; reflexivity. Qed.

(** C2 (the code at the scenario's input). With threshold 2 the run yields
    [a]:2, [b]:3, [c]:2 and [b,c]:2; the brute-force supports of [a], [b]
    and [a,b] are 3, 4 and 2. *)
Theorem scenario_run :
  fst (find_frequent_itemsets 4 df 2 true empty_store) =
    [([a], Some 2%Z); ([b], Some 3%Z); ([c], Some 2%Z); ([b; c], Some 2%Z)] /\
  returned (snd (find_frequent_itemsets 4 df 2 true empty_store)) = true /\
  support (transactions df) [a] = 3%Z /\
  support (transactions df) [b] = 4%Z /\
  support (transactions df) [a; b] = 2%Z.
Proof. repeat split; vm_compute; reflexivity. Qed.

Lemma add_then_search_witness :
  exists s',
    FPNode.add 0 1 store_loose_a = Ok tt s' /\
    FPNode.search 0 a s' = Ok (Some 1%nat) s' /\
    FPNode.parent 1 s' = Ok (Some 0%nat) s' /\
    forall k, k <> a -> FPNode.search 0 k s' = Ok None s'.
Proof.
  exact (add_then_search store_loose_a 0 1 _ _ eq_refl eq_refl eq_refl
           eq_refl).
Defined.

Lemma add_from_other_tree_witness :
  FPNode.add 0 1 store_foreign_a =
    Raise ValueError
      (mkStore [mkFPNode 0 None None None [(a, 1%nat)] None;
                mkFPNode 1 a (Some 1%Z) None [] None] 2).
Proof.
  refine (add_from_other_tree store_foreign_a 0 1 _ _ eq_refl eq_refl eq_refl
            _).
  vm_compute. discriminate.
Defined.

Lemma master_rows_NoDup : Forall NoDup master_rows.
Proof.
  apply (bool_decide_unpack _). vm_compute. exact I.
Defined.

Lemma master_counts_add_up_witness :
  exists t s' ns,
    build_from master_rows empty_store = Ok t s' /\
    FPTree.nodes t b s' = Ok ns s' /\
    sum_counts ns s' = Ok 3%Z s'.
Proof.
  exact (master_counts_add_up master_rows b empty_store store_ok_empty
           master_rows_NoDup).
Defined.

Lemma master_rows_sorted :
  Forall (StronglySorted (before (columns df))) master_rows.
Proof. exact (transactions_tail_sorted df scenario_columns_differ). Defined.

Lemma prefix_paths_of_c :
  FPTree.prefix_paths master_tree c master_store = Ok paths_of_c master_store.
Proof. vm_compute. reflexivity. Defined.

Lemma yielded_support_is_support_witness :
  Forall (fun e => snd e = Some (support master_rows (fst e))) scenario_out.
Proof.
  exact (yielded_support_is_support df 4 2 empty_store eq_refl
           scenario_columns_differ store_ok_empty).
Defined.

Lemma conditional_tree_leaves_source_witness :
  master_store = master_store /\
  forall n nd, heap master_store !! n = Some nd ->
               heap cond_store !! n = Some nd.
Proof.
  exact (conditional_tree_leaves_source master_rows c empty_store master_tree
           master_store paths_of_c master_store cond_tree cond_store
           store_ok_empty master_rows_NoDup (proj1 master_tree_built)
           prefix_paths_of_c eq_refl).
Defined.

Lemma conditional_tree_pair_support_witness :
  exists ns,
    FPTree.nodes cond_tree b cond_store = Ok ns cond_store /\
    sum_counts ns cond_store = Ok 2%Z cond_store.
Proof.
  refine (conditional_tree_pair_support (before (columns df))
            (StrictOrder0:=before_strict (columns df))
            master_rows c b empty_store master_tree
            master_store paths_of_c master_store cond_tree cond_store
            store_ok_empty master_rows_sorted _ (proj1 master_tree_built)
            prefix_paths_of_c eq_refl).
  vm_compute. lia.
Defined.

Lemma scenario_columns_labelled : None ∉ columns df.
Proof.
  apply (bool_decide_unpack _). vm_compute. exact I.
Defined.

Lemma find_frequent_itemsets_returns_witness :
  exists s',
    snd (find_frequent_itemsets 4 df 2 true empty_store) = Ok tt s' /\
    forall n nd, heap (empty_store (Label:=string)) !! n = Some nd ->
                 heap s' !! n = Some nd.
Proof.
  refine (find_frequent_itemsets_returns df 4 2 true empty_store eq_refl _
            scenario_columns_differ scenario_columns_labelled store_ok_empty
            _).
  - left. discriminate.
  - vm_compute. lia.
Defined.

Lemma frequent_itemset_is_yielded_witness : [b; c] ∈ map fst scenario_out.
Proof.
  refine (frequent_itemset_is_yielded df 4 2 true empty_store [b; c] eq_refl
            scenario_columns_differ scenario_columns_labelled store_ok_empty
            _ _ _ _ _).
  - vm_compute. lia.
  - discriminate.
  - repeat constructor.
  - vm_compute. discriminate.
  - vm_compute. reflexivity.
Defined.

Lemma yielded_support_positive_witness :
  Forall (fun e => (0 < support master_rows (fst e))%Z) scenario_out.
Proof.
  exact (yielded_support_positive df 4 2 true empty_store eq_refl
           scenario_columns_differ store_ok_empty).
Defined.

Lemma yielded_itemsets_in_column_order_witness :
  Forall (fun e => StronglySorted (before (columns df)) (fst e) /\
                   fst e <> [])
    scenario_out.
Proof.
  exact (yielded_itemsets_in_column_order df 4 2 true empty_store
           scenario_columns_differ).
Defined.

Lemma yields_exactly_the_frequent_witness :
  ([b; c], Some 2%Z) ∈ scenario_out <->
  [b; c] <> [] /\ StronglySorted (before (columns df)) [b; c] /\
  Some 2%Z = Some (support master_rows [b; c]) /\
  (2 <= support master_rows [b; c])%Z /\
  (0 < support master_rows [b; c])%Z.
Proof.
  refine (yields_exactly_the_frequent df 4 2 empty_store ([b; c], Some 2%Z)
            eq_refl scenario_columns_differ scenario_columns_labelled store_ok_empty
            _).
  vm_compute. lia.
Defined.

Lemma master_is_prefix_tree_witness :
  exists (t : FPTree string) (s' : Store string),
    build_from master_rows empty_store = Ok t s' /\
    forall q, q <> [] ->
      match walk (heap s') (_root t) q with
      | Some n =>
          exists nd, heap s' !! n = Some nd /\ last q = Some (_item nd) /\
                     _count nd = Some (prefix_count master_rows q) /\
                     (0 < prefix_count master_rows q)%Z
      | None => prefix_count master_rows q = 0%Z
      end.
Proof.
  exact (master_is_prefix_tree master_rows empty_store store_ok_empty).
Defined.

Lemma prefix_paths_of_master_witness :
  exists (t : FPTree string) (s' : Store string) (paths : list (list nat))
    (qs : list (list (Item string))),
    build_from master_rows empty_store = Ok t s' /\
    FPTree.prefix_paths t c s' = Ok paths s' /\
    Forall2 (fun path q =>
               carry s' path q /\
               exists (n : nat) nd,
                 last path = Some n /\ heap s' !! n = Some nd /\
                 _count nd = Some (prefix_count master_rows q)) paths qs /\
    NoDup qs /\
    forall q, q ∈ qs <->
      exists tr, tr ∈ master_rows /\ c ∈ tr /\ q = upto c tr.
Proof.
  exact (prefix_paths_of_master master_rows c empty_store store_ok_empty
           master_rows_NoDup).
Defined.

Lemma conditional_tree_is_prefix_tree_witness :
  exists (t : FPTree string) (s1 : Store string) (paths : list (list nat))
    (t' : FPTree string) (s2 : Store string),
    build_from master_rows empty_store = Ok t s1 /\
    FPTree.prefix_paths t c s1 = Ok paths s1 /\
    conditional_tree_from_paths paths s1 = Ok t' s2 /\
    forall q, q <> [] ->
      match walk (heap s2) (_root t') q with
      | Some n =>
          exists nd, heap s2 !! n = Some nd /\ last q = Some (_item nd) /\
                     _count nd = Some (prefix_count (cond_db c master_rows) q)
                     /\ (0 < prefix_count (cond_db c master_rows) q)%Z
      | None => prefix_count (cond_db c master_rows) q = 0%Z
      end.
Proof.
  refine (conditional_tree_is_prefix_tree master_rows c [b; c] empty_store
            store_ok_empty master_rows_NoDup _ _ _).
  - discriminate.
  - right. right. left.
  - right. left.
Defined.


(** The run on the frame labelled 4, 3, 2, 1, 0: the row left out is the
    one labelled 0, the last, and the rows are inserted from the fourth to
    the first. *)
Example relabelled_run :
  fst (find_frequent_itemsets 4 df_relabelled 2 true empty_store) =
    [([b], Some 3%Z); ([a; b], Some 2%Z); ([c], Some 2%Z);
     ([b; c], Some 2%Z); ([a], Some 3%Z)].
Proof. vm_compute. reflexivity. Qed.

Lemma missing_row_label_raises_KeyError_witness :
  exists s',
    find_frequent_itemsets 4 df_shifted 1 true empty_store =
      ([], Raise KeyError s').
Proof.
  refine (missing_row_label_raises_KeyError df_shifted 4 1 true empty_store 1
            store_ok_empty _ eq_refl _ _ _).
  - discriminate.
  - apply (bool_decide_unpack _). vm_compute. exact I.
  - vm_compute. lia.
  - apply (bool_decide_unpack _). vm_compute. exact I.
Defined.
End Witnesses.
